(** * Connect4Game.js and the original c4.c: a shallow embedding

    The engine of [Connect4Game.js] (board, win-line map, incremental
    scores, state stack, alpha-beta search) is transcribed function by
    function in [Module JS]; the parts of Keith Pomakis' [c4.c] that the
    JavaScript port changed are transcribed in [Module C4]; the
    reference-level behaviour of [_clone], [_pushState] and [_popState]
    (objects and arrays living in a store, mutated through references) is
    transcribed in [Module Heap].

    Conventions.
    - A JavaScript Number holding an integer is a [Z]; the two places where
      the source leaves the integers are modelled with what it leaves them
      for: [(cols-1)/2] is a rational ([Q]) and the search values built
      from [Number.MAX_VALUE] are IEEE doubles ([PrimFloat.float]).
    - [<<] and [<<=] work on 32-bit two's-complement integers; the
      wrap-around is written out in [toInt32].
    - An array is a [list], indexed from 0.  Reading past the end gives
      JavaScript's [undefined]: the model raises [TypeError] where the source
      would dereference it and [Undefined] where it would flow into
      arithmetic or grow an array, and the theorems show that neither
      happens in the states they talk about.
    - The state stack is a [list] whose head is the top of the stack
      ([this.currentState]). *)

From Stdlib Require Import ZArith List Lia QArith Qround PrimFloat Uint63 String.
From Stdlib Require FloatAxioms FloatOps SpecFloat.
From stdpp Require Import base option list strings.
Import ListNotations.
Open Scope Z_scope.

(** ** Results of a call: a value, or an exception *)

Inductive exn : Type :=
| TypeError          (* a property of [undefined] was read *)
| NotAValidColumn    (* [throw new Error('Not a valid column.')] *)
| Undefined          (* [undefined] would enter arithmetic or an array would grow *)
| OutOfFuel.         (* the recursion did not finish within the fuel given *)

Inductive result (A : Type) : Type :=
| Ok (a : A)
| Throw (e : exn).
Arguments Ok {A} a.
Arguments Throw {A} e.

#[global] Instance result_ret : MRet result := λ A a, Ok a.
#[global] Instance result_bind : MBind result := λ A B f m,
  match m with
  | Ok a => f a
  | Throw e => Throw e
  end.

Definition is_Ok {A} (r : result A) : Prop := ∃ a, r = Ok a.

(** ** Arrays indexed by a Number *)

Definition get {A} (l : list A) (i : Z) : option A :=
  if i <? 0 then None else l !! Z.to_nat i.

Definition set {A} (l : list A) (i : Z) (x : A) : list A :=
  <[Z.to_nat i := x]> l.

(** [arr[i]] where an [undefined] element is about to be used as a number. *)
Definition elem {A} (l : list A) (i : Z) : result A :=
  match get l i with
  | Some x => Ok x
  | None => Throw Undefined
  end.

(** [arr[i]] where the element is about to be indexed or dereferenced. *)
Definition deref {A} (l : list A) (i : Z) : result A :=
  match get l i with
  | Some x => Ok x
  | None => Throw TypeError
  end.

Definition sumZ (l : list Z) : Z := foldr Z.add 0 l.

(** ** 32-bit integer operators *)

Definition toInt32 (z : Z) : Z := (z + 2 ^ 31) mod 2 ^ 32 - 2 ^ 31.

(** [a << b]: both operands are converted, the count is taken modulo 32. *)
Definition shl (a b : Z) : Z := toInt32 (Z.shiftl (toInt32 a) (Z.land b 31)).

(** ** Counted loops *)

(** [loop n i step body s] runs [body i], [body (i+step)], ... [n] times. *)
Fixpoint loop {St} (n : nat) (i step : Z) (body : Z → St → result St) (s : St)
  : result St :=
  match n with
  | O => Ok s
  | S n' => s' ← body i s; loop n' (i + step) step body s'
  end.

(** [for (var i = lo; i < hi; i++) body] *)
Definition forUp {St} (lo hi : Z) (body : Z → St → result St) (s : St) : result St :=
  loop (Z.to_nat (hi - lo)) lo 1 body s.

(** [for (var j = hi; j >= lo; j--) body] *)
Definition forDown {St} (hi lo : Z) (body : Z → St → result St) (s : St) : result St :=
  loop (Z.to_nat (hi - lo + 1)) hi (-1) body s.

(** [arr[i] = x] for an index inside the array.  (A write past the end
    would grow the array; the model does not follow the source there.) *)
Definition store {A} (l : list A) (i : Z) (x : A) : result (list A) :=
  if (0 <=? i) && (i <? Z.of_nat (length l)) then Ok (set l i x)
  else Throw Undefined.

(** [arr[i][j]] read as a number, and [arr[i][j] = x]. *)
Definition read2 {A} (l : list (list A)) (i j : Z) : result A :=
  row ← deref l i; elem row j.

Definition write2 {A} (l : list (list A)) (i j : Z) (x : A) : result (list (list A)) :=
  row ← deref l i; row' ← store row j x; store l i row'.

(** [for (var i = 0; i < arr.length; i++) { var x = arr[i]; body }] for a
    body that does not touch [arr]. *)
Fixpoint forEach {A St} (l : list A) (body : A → St → result St) (s : St)
  : result St :=
  match l with
  | [] => Ok s
  | x :: l' => s' ← body x s; forEach l' body s'
  end.

(** A loop body that may [break]. *)
Inductive control (St : Type) : Type :=
| Continue (s : St)
| Break (s : St).
Arguments Continue {St} s.
Arguments Break {St} s.

Fixpoint loopBreak {St} (n : nat) (i : Z) (body : Z → St → result (control St))
  (s : St) : result St :=
  match n with
  | O => Ok s
  | S n' =>
    c ← body i s;
    match c with
    | Continue s' => loopBreak n' (i + 1) body s'
    | Break s' => Ok s'
    end
  end.

(** [for (var i = lo; i < hi; i++) body], [body] containing [break] or
    [continue]. *)
Definition forUpBreak {St} (lo hi : Z) (body : Z → St → result (control St))
  (s : St) : result St :=
  loopBreak (Z.to_nat (hi - lo)) lo body s.

(** ** Numbers that are not integers *)

(** The array index a Number denotes, if it is an integer. *)
Definition index (q : Q) : option Z :=
  let q' := Qred q in
  if Pos.eqb (Qden q') 1 then Some (Qnum q') else None.

(** [Number.MAX_VALUE], the largest finite double. *)
Definition MAX_VALUE : float := 0x1.fffffffffffffp+1023%float.

(** An integer Number as the double it is (exact below [2^53]). *)
Definition num (z : Z) : float :=
  if z <? 0 then PrimFloat.opp (PrimFloat.of_uint63 (Uint63.of_Z (- z)))
  else PrimFloat.of_uint63 (Uint63.of_Z z).

(** ** The win-line map *)

(** [map[x][y]] is the list of ids of the lines through column [x], row [y]. *)
Abbreviation WinMap := (list (list (list Z))).

Module JS.

(** [_findWinningPlaces] with [x = _cols], [y = _rows], [n = _connect]. *)
Definition _findWinningPlaces (x y n : Z) : Z :=
  if (x <? n) && (y <? n) then 0
  else if x <? n then x * ((y - n) + 1)
  else if y <? n then y * ((x - n) + 1)
  else 4*x*y - 3*x*n - 3*y*n + 3*x + 3*y - 4*n + 2*n*n + 2.

(** The first loop nest of [_setupMap]: every [map[i][j]] is [[]]. *)
Definition emptyMap (cols rows : Z) : WinMap :=
  replicate (Z.to_nat cols) (replicate (Z.to_nat rows) []).

(** [map[x][y].push(winIndex)].  The source first tests
    [map[x][y] === undefined] and would then store a new array there. *)
Definition mapPush (m : WinMap) (x y winIndex : Z) : result WinMap :=
  column ← deref m x;
  cell ← elem column y;
  Ok (set m x (set column y (cell ++ [winIndex]))).

(** The innermost [for (k = 0; k < connect; k++)] of each pass followed by
    [winIndex++]; [cellOf k] is the cell the pass addresses at step [k]. *)
Definition line (connect : Z) (cellOf : Z → Z * Z) (st : WinMap * Z)
  : result (WinMap * Z) :=
  m' ← forUp 0 connect (λ k m, mapPush m (cellOf k).1 (cellOf k).2 st.2) st.1;
  Ok (m', st.2 + 1).

(** [_setupMap]: the map and the final value of [winIndex]. *)
Definition _setupMap (cols rows connect : Z) : result (WinMap * Z) :=
  (* horizontal *)
  st ← forUp 0 rows (λ i,
         forUp 0 (cols - connect + 1) (λ j,
           line connect (λ k, (j + k, i)))) (emptyMap cols rows, 0);
  (* vertical *)
  st ← forUp 0 cols (λ i,
         forUp 0 (rows - connect + 1) (λ j,
           line connect (λ k, (i, j + k)))) st;
  (* forward diagonal *)
  st ← forUp 0 (rows - connect + 1) (λ i,
         forUp 0 (cols - connect + 1) (λ j,
           line connect (λ k, (j + k, i + k)))) st;
  (* backward diagonal *)
  forUp 0 (rows - connect + 1) (λ i,
    forDown (cols - 1) (connect - 1) (λ j,
      line connect (λ k, (j - k, i + k)))) st.

(** [_setupDropOrder].  [/] is the division of Numbers, so [column] is a
    rational (kept in lowest terms); [_dropOrder[i-1] = column] writes one
    past the end of the array, which appends. *)
Definition _setupDropOrder (cols : Z) : result (list Q) :=
  '(dropOrder, _) ← forUp 1 (cols + 1) (λ i '(dropOrder, column),
      Ok (dropOrder ++ [column],
          Qred (column + (if Z.eqb (Z.rem i 2) 0 then inject_Z (- i) else inject_Z i))))
    ([], Qred (inject_Z (cols - 1) / 2));
  Ok dropOrder.

(** *** The game state and the engine object *)

Record State : Type := mkState {
  numberOfPieces : Z;
  winner : Z;
  tie : bool;
  gameOver : bool;
  board : list (list Z);
  stats : list (list Z);
  map : WinMap;
  winningCoords : list (Z * Z);
  score : list Z }.

(** [this]: the settings, the constants derived from them, the state stack
    (head = [this.currentState]) and the drop order. *)
Record Game : Type := mkGame {
  _cols : Z;
  _rows : Z;
  _connect : Z;
  _ai : Z;
  _none : Z;
  _magicWinningNumber : Z;
  _winningPlaces : Z;
  _stateStack : list State;
  _dropOrder : list Q }.

Definition withStack (g : Game) (st : list State) : Game :=
  mkGame (_cols g) (_rows g) (_connect g) (_ai g) (_none g)
    (_magicWinningNumber g) (_winningPlaces g) st (_dropOrder g).

(** [this.currentState]; [undefined] on an empty stack. *)
Definition currentState (g : Game) : result State :=
  match _stateStack g with
  | s :: _ => Ok s
  | [] => Throw TypeError
  end.

(** Assignments through [this.currentState] change the top of the stack. *)
Definition setCurrent (g : Game) (s : State) : Game :=
  withStack g (s :: tail (_stateStack g)).

(** [Connect4Game.settings.defaults] and a [settings] argument, in which a
    missing key is [None]. *)
Record Settings : Type := mkSettings {
  cols : option Z;
  rows : option Z;
  connect : option Z;
  ai : option Z }.

Definition defaults : Settings := mkSettings (Some 7) (Some 6) (Some 4) (Some 4).

(** [_other]: [player ^ 1] on 32-bit integers. *)
Definition _other (player : Z) : Z := toInt32 (Z.lxor (toInt32 player) 1).

(** [isTie], on a state. *)
Definition isTieOf (g : Game) (s : State) : bool :=
  (winner s =? _none g) && (_cols g * _rows g <=? numberOfPieces s).

Definition isTie (g : Game) : result bool :=
  s ← currentState g; Ok (isTieOf g s).

Definition isWinner (g : Game) (player : Z) : result bool :=
  s ← currentState g; Ok (winner s =? player).


(** One iteration of the loop of [_updateScore]; the loop state is
    [(thisDiff, otherDiff, stats, winner)]. *)
Definition scoreStep (g : Game) (player otherPlayer winIndex : Z)
  (acc : Z * Z * list (list Z) * Z) : result (Z * Z * list (list Z) * Z) :=
  let '(thisDiff, otherDiff, stats, winner) := acc in
  mine ← read2 stats player winIndex;
  theirs ← read2 stats otherPlayer winIndex;
  let thisDiff := thisDiff + mine in
  let otherDiff := otherDiff + theirs in
  stats ← write2 stats player winIndex (shl mine 1);
  stats ← write2 stats otherPlayer winIndex 0;
  mine ← read2 stats player winIndex;
  let winner :=
    if mine =? _magicWinningNumber g then
      if winner =? _none g then player else winner
    else winner in
  Ok (thisDiff, otherDiff, stats, winner).

(** [_updateScore(player, column, row)]. *)
Definition _updateScore (g : Game) (player column row : Z) (s : State)
  : result State :=
  let otherPlayer := _other player in
  mapColumn ← deref (map s) column;
  cell ← deref mapColumn row;
  '(thisDiff, otherDiff, stats, winner) ←
    forEach cell (scoreStep g player otherPlayer) (0, 0, stats s, winner s);
  mine ← elem (score s) player;
  score ← store (score s) player (mine + thisDiff);
  theirs ← elem score otherPlayer;
  score ← store score otherPlayer (theirs - otherDiff);
  let s := mkState (numberOfPieces s) winner (tie s) (gameOver s) (board s)
             stats (map s) (winningCoords s) score in
  if (-1 <? winner) || isTieOf g s then
    Ok (mkState (numberOfPieces s) winner (isTieOf g s) true (board s)
          stats (map s) (winningCoords s) score)
  else Ok s.

(** [col[row] !== this._none]; an [undefined] element differs from [_none]. *)
Definition occupied (g : Game) (col : list Z) (row : Z) : bool :=
  match get col row with
  | Some v => negb (v =? _none g)
  | None => true
  end.

(** [while (col[row] !== this._none && (++row < this._rows));] *)
Fixpoint scanRow (fuel : nat) (g : Game) (col : list Z) (row : Z) : result Z :=
  match fuel with
  | O => Throw OutOfFuel
  | S fuel' =>
    if occupied g col row then
      let row := row + 1 in
      if row <? _rows g then scanRow fuel' g col row else Ok row
    else Ok row
  end.

(** [_dropPiece(player, column)] on the current state [s]: the row, or [-1],
    and the state afterwards. *)
Definition dropInto (g : Game) (player column : Z) (s : State)
  : result (Z * State) :=
  col ← deref (board s) column;
  row ← scanRow (S (Z.to_nat (_rows g))) g col 0;
  if row =? _rows g then Ok (-1, s)
  else
    board ← write2 (board s) column row player;
    let s := mkState (numberOfPieces s + 1) (winner s) (tie s) (gameOver s)
               board (stats s) (map s) (winningCoords s) (score s) in
    s ← _updateScore g player column row s;
    Ok (row, s).

Definition _dropPiece (g : Game) (player column : Z) : result (Z * Game) :=
  s ← currentState g;
  '(row, s) ← dropInto g player column s;
  Ok (row, setCurrent g s).

(** [_pushState] and [_popState].  A deep copy of a state is the same
    value at fresh addresses; [Module Heap] follows the addresses. *)
Definition _pushState (g : Game) : result Game :=
  s ← currentState g; Ok (withStack g (s :: _stateStack g)).

Definition _popState (g : Game) : Game := withStack g (tail (_stateStack g)).

(** The constructor: settings mixed into the defaults, then [_setupBoard],
    [_setupPlayerStats], [_setupMap] and [_setupDropOrder]. *)
Definition setting (key : Settings → option Z) (settings : Settings) : Z :=
  match key settings with
  | Some v => v
  | None => default 0 (key defaults)
  end.

Definition Connect4Game (settings : Settings) : result Game :=
  let c := setting cols settings in
  let r := setting rows settings in
  let n := setting connect settings in
  let a := Z.max 0 (Z.min (setting ai settings) 20) in
  let none := -1 in
  let magic := shl 1 n in
  let places := _findWinningPlaces c r n in
  let board := replicate (Z.to_nat c) (replicate (Z.to_nat r) none) in
  let stats := [replicate (Z.to_nat places) 1; replicate (Z.to_nat places) 1] in
  '(m, _) ← _setupMap c r n;
  order ← _setupDropOrder c;
  Ok (mkGame c r n a none magic places
        [mkState 0 none false false board stats m [] [places; places]] order).

(** [while (stats[winner][winPos] !== magic) winPos++;] scanning [row] from
    [winPos] on.  Past the end every element is [undefined] and the loop of
    the source never stops. *)
Fixpoint firstWin (magic : Z) (row : list Z) (winPos : Z) : result Z :=
  match row with
  | [] => Throw OutOfFuel
  | v :: row' => if v =? magic then Ok winPos else firstWin magic row' (winPos + 1)
  end.

(** The method [winningCoords()] (the state has a field of that name). *)
Definition winningCoordsOf (g : Game) (s : State) : result (list (Z * Z)) :=
  mine ← deref (stats s) (winner s);
  winPos ← firstWin (_magicWinningNumber g) mine 0;
  forUp 0 (_cols g) (λ column,
    forUp 0 (_rows g) (λ row coords,
      match get (map s) column with
      | None => Ok coords
      | Some map1 =>
        match get map1 row with
        | None => Ok coords
        | Some map2 =>
          forEach map2 (λ x coords,
            Ok (if x =? winPos then coords ++ [(column, row)] else coords)) coords
        end
      end)) [].

(** The object [makeMove] returns; its [currentState] is the current state
    of the game returned with it. *)
Record Move : Type := mkMove { col : Z; row : Z; player : Z }.

Definition makeMove (g : Game) (player column : Z) : result (Move * Game) :=
  if (_cols g <=? column) || (column <? 0) then Throw NotAValidColumn
  else
    '(row, g) ← _dropPiece g player column;
    s ← currentState g;
    g ← (if gameOver s && negb (tie s) then
           coords ← winningCoordsOf g s;
           Ok (setCurrent g (mkState (numberOfPieces s) (winner s) (tie s)
                 (gameOver s) (board s) (stats s) (map s) coords (score s)))
         else Ok g);
    Ok (mkMove column row player, g).

(** [_goodnessOf]. *)
Definition _goodnessOf (g : Game) (player : Z) : result float :=
  s ← currentState g;
  mine ← elem (score s) player;
  theirs ← elem (score s) (_other player);
  Ok (num (mine - theirs)).

(** [var column = this._dropOrder[i]] used as [board[column]]: a column that
    is not an integer finds no array there, and [col[row]] throws. *)
Definition dropColumn (g : Game) (i : Z) : result Z :=
  match get (_dropOrder g) i with
  | Some q =>
    match index q with
    | Some column => Ok column
    | None => Throw TypeError
    end
  | None => Throw TypeError
  end.

(** The value [_evaluate] gives a drop that makes the mover the winner. *)
Definition winValue (depth : Z) : float := PrimFloat.sub MAX_VALUE (num depth).

(** [_evaluate(player, level, alpha, beta)]; the loop state is
    [(this, best, maxab)]. *)
Fixpoint _evaluate (fuel : nat) (g : Game) (player level : Z) (alpha beta : float)
  : result (float * Game) :=
  match fuel with
  | O => Throw OutOfFuel
  | S fuel' =>
    let depth := Z.of_nat (length (_stateStack g)) in
    if level =? depth then
      v ← _goodnessOf g player; Ok (v, g)
    else
      '(g, best, maxab) ←
        forUpBreak 0 (_cols g) (λ i '(g, best, maxab),
          g ← _pushState g;
          column ← dropColumn g i;
          '(row, g) ← _dropPiece g (_other player) column;
          if row <? 0 then Ok (Continue (_popState g, best, maxab))
          else
            s ← currentState g;
            '(goodness, g) ←
              (if winner s =? _other player then Ok (winValue depth, g)
               else _evaluate fuel' g (_other player) level
                      (PrimFloat.opp beta) (PrimFloat.opp maxab));
            let '(best, maxab) :=
              if PrimFloat.ltb best goodness then
                (goodness, if PrimFloat.ltb maxab goodness then goodness else maxab)
              else (best, maxab) in
            let g := _popState g in
            if PrimFloat.ltb beta best then Ok (Break (g, best, maxab))
            else Ok (Continue (g, best, maxab)))
          (g, PrimFloat.opp MAX_VALUE, alpha);
      Ok (PrimFloat.opp best, g)
  end.

(** The condition of the opening shortcut of [autoMove]. *)
Definition openingShortcut (g : Game) (s : State) : result bool :=
  if (numberOfPieces s <? 2) && (_cols g =? 7) && (_rows g =? 6) && (_connect g =? 4)
  then
    if numberOfPieces s =? 0 then Ok true
    else
      column3 ← deref (board s) 3;
      Ok (match get column3 0 with
          | Some v => negb (v =? 2)
          | None => true
          end)
  else Ok false.

(** [Math.floor(Math.random()*2) > 0] for a draw [u] of [Math.random()]. *)
Definition coin (u : Q) : bool := 0 <? Qfloor (u * 2).

(** The comparison at the end of the body of the root loop of [autoMove]:
    the new [(bestWorst, bestColumn)] and the number of draws used.
    [random k] is the [k]-th value [Math.random()] returns. *)
Definition rootCompare (random : nat → Q) (k : nat) (goodness : float)
  (column : Z) (bestWorst : float) (bestColumn : Z) : float * Z * nat :=
  if PrimFloat.ltb bestWorst goodness then (goodness, column, k)
  else if PrimFloat.eqb goodness bestWorst then
    if bestColumn =? -1 then (bestWorst, column, k)
    else if coin (random k) then (bestWorst, column, S k)
    else (bestWorst, bestColumn, S k)
  else (bestWorst, bestColumn, k).

(** The state of the root loop of [autoMove]. *)
Record Root : Type := mkRoot {
  this : Game;
  bestColumn : Z;
  goodness : float;
  bestWorst : float;
  draws : nat }.

Definition rootBody (fuel : nat) (random : nat → Q) (player ai : Z) (i : Z)
  (r : Root) : result (control Root) :=
  g ← _pushState (this r);
  column ← dropColumn g i;
  '(row, g) ← _dropPiece g player column;
  if row <? 0 then
    Ok (Continue (mkRoot (_popState g) (bestColumn r) (goodness r) (bestWorst r) (draws r)))
  else
    s ← currentState g;
    if winner s =? player then
      Ok (Break (mkRoot (_popState g) column (goodness r) (bestWorst r) (draws r)))
    else
      '(goodness, g) ← _evaluate fuel g player ai
                         (PrimFloat.opp MAX_VALUE) (PrimFloat.opp (bestWorst r));
      let '(bestWorst, bestColumn, draws) :=
        rootCompare random (draws r) goodness column (bestWorst r) (bestColumn r) in
      Ok (Continue (mkRoot (_popState g) bestColumn goodness bestWorst draws)).

(** [autoMove(player, ai)]: the move made, the game afterwards and the
    number of draws of [Math.random()] used ([draws0] were used before). *)
Definition autoMove (fuel : nat) (random : nat → Q) (draws0 : nat) (g : Game)
  (player : Z) (ai : option Z) : result (Move * Game * nat) :=
  let ai := Z.max 0 (Z.min (default (_ai g) ai) 20) in
  s ← currentState g;
  shortcut ← openingShortcut g s;
  if shortcut : bool then
    '(move, g) ← makeMove g player 3;
    Ok (move, g, draws0)
  else
    r ← forUpBreak 0 (_cols g) (rootBody fuel random player ai)
          (mkRoot g (-1) (num 0) (PrimFloat.opp MAX_VALUE) draws0);
    '(move, g) ← makeMove (this r) player (bestColumn r);
    Ok (move, g, draws r).

(** The comparisons of the root loop over candidates that were all
    evaluated, given as [(column, goodness)] in the order of the loop:
    the final [(bestWorst, bestColumn)] and the number of draws used. *)
Definition rootChoice (random : nat → Q) (candidates : list (Z * float))
  : float * Z * nat :=
  foldl (λ '(bestWorst, bestColumn, k) '(column, goodness),
           rootCompare random k goodness column bestWorst bestColumn)
        (PrimFloat.opp MAX_VALUE, -1, 0%nat) candidates.

(** A sequence of [_dropPiece(player, column)] calls, all of which return. *)
Definition drops (moves : list (Z * Z)) (g : Game) : result Game :=
  forEach moves (λ '(player, column) g,
    '(_, g) ← _dropPiece g player column; Ok g) g.

End JS.

Module C4.

(** [num_of_win_places]. *)
Definition num_of_win_places (x y n : Z) : Z :=
  if (x <? n) && (y <? n) then 0
  else if x <? n then x * ((y - n) + 1)
  else if y <? n then y * ((x - n) + 1)
  else 4*x*y - 3*x*n - 3*y*n + 3*x + 3*y - 4*n + 2*n*n + 2.

(** The [drop_order] loop at the end of [c4_new_game]; [/] and [%] are C's
    truncating division and remainder on [int]. *)
Definition drop_order (size_x : Z) : list Z :=
  match forUp 1 (size_x + 1) (λ i '(order, column),
          Ok (order ++ [column],
              column + (if Z.eqb (Z.rem i 2) 0 then - i else i)))
        ([], Z.quot (size_x - 1) 2) with
  | Ok (order, _) => order
  | Throw _ => []
  end.

Definition C4_NONE : Z := 2.
Definition C4_MAX_LEVEL : Z := 20.
Definition INT_MAX : Z := 2 ^ 31 - 1.

(** The condition of the opening shortcut of [c4_auto_move];
    [board] is [current_state->board]. *)
Definition opening_shortcut (num_of_pieces size_x size_y num_to_connect : Z)
  (board : list (list Z)) : bool :=
  (num_of_pieces <? 2) && (size_x =? 7) && (size_y =? 6) && (num_to_connect =? 4)
  && ((num_of_pieces =? 0)
      || negb (default C4_NONE (column ← get board 3; get column 0) =? C4_NONE)).

(** The tie branch of the root loop of [c4_auto_move]: [num_of_equal++],
    then [best_column] is replaced when
    [rand()%10000 < ((float)1/(float)num_of_equal) * 10000].  The quotient
    is taken exactly; the rounding to [float] is not followed. *)
Definition tie_break (rand num_of_equal best_column current_column : Z) : Z * Z :=
  let num_of_equal := num_of_equal + 1 in
  if Qle_bool (1 / inject_Z num_of_equal * 10000) (inject_Z (Z.rem rand 10000))
  then (num_of_equal, best_column)
  else (num_of_equal, current_column).

(** [goodness = INT_MAX - depth] in [evaluate]. *)
Definition win_value (depth : Z) : Z := INT_MAX - depth.

(** [c4_is_tie]. *)
Definition c4_is_tie (num_of_pieces size_x size_y : Z) : bool :=
  num_of_pieces =? size_x * size_y.

End C4.

Module Heap.

(** ** The store *)

(** A value is a primitive or a reference to an array or object of the
    store; the store is the list of the objects allocated so far, and a
    reference is a position in it. *)
Inductive val : Type :=
| Num (z : Z)
| Bool (b : bool)
| Undef
| Ref (l : nat).

Inductive obj : Type :=
| Arr (elems : list val)
| Obj (props : list (string * val)).

Abbreviation heap := (list obj).

(** A computation reads and writes the store, and returns or throws. *)
Definition M (A : Type) : Type := heap → result (A * heap).

#[global] Instance M_ret : MRet M := λ A a h, Ok (a, h).
#[global] Instance M_bind : MBind M := λ A B f m h,
  match m h with
  | Ok (a, h') => f a h'
  | Throw e => Throw e
  end.

Definition throw {A} (e : exn) : M A := λ _, Throw e.

(** [new Array] / [{}]: the object is appended to the store. *)
Definition alloc (o : obj) : M val := λ h, Ok (Ref (length h), h ++ [o]).

Definition lookupProp (key : string) (props : list (string * val)) : val :=
  match List.find (λ kv, String.eqb kv.1 key) props with
  | Some kv => kv.2
  | None => Undef
  end.

Fixpoint updateProp (key : string) (x : val) (props : list (string * val))
  : list (string * val) :=
  match props with
  | [] => [(key, x)]
  | kv :: props' =>
    if String.eqb kv.1 key then (key, x) :: props'
    else kv :: updateProp key x props'
  end.

(** [v.key]: a property of [undefined] cannot be read; a number or a
    boolean has none of the properties used here. *)
Definition getProp (v : val) (key : string) : M val := λ h,
  match v with
  | Ref l =>
    match h !! l with
    | Some (Obj props) => Ok (lookupProp key props, h)
    | Some (Arr _) => Ok (Undef, h)
    | None => Throw TypeError
    end
  | Undef => Throw TypeError
  | _ => Ok (Undef, h)
  end.

(** [v[i]] for a Number [i]. *)
Definition getIdx (v : val) (i : Z) : M val := λ h,
  match v with
  | Ref l =>
    match h !! l with
    | Some (Arr elems) => Ok (default Undef (get elems i), h)
    | Some (Obj _) => Ok (Undef, h)
    | None => Throw TypeError
    end
  | Undef => Throw TypeError
  | _ => Ok (Undef, h)
  end.

(** [v.length] of an array. *)
Definition getLength (v : val) : M val := λ h,
  match v with
  | Ref l =>
    match h !! l with
    | Some (Arr elems) => Ok (Num (Z.of_nat (length elems)), h)
    | Some (Obj _) => Ok (Undef, h)
    | None => Throw TypeError
    end
  | Undef => Throw TypeError
  | _ => Ok (Undef, h)
  end.

(** [v.key = x]. *)
Definition setProp (v : val) (key : string) (x : val) : M unit := λ h,
  match v with
  | Ref l =>
    match h !! l with
    | Some (Obj props) => Ok (tt, <[l := Obj (updateProp key x props)]> h)
    | Some (Arr _) => Throw Undefined
    | None => Throw TypeError
    end
  | Undef => Throw TypeError
  | _ => Ok (tt, h)
  end.

(** [v[i] = x]: inside the array, or one past its end (the array grows by
    one element); a write further out would leave holes and is not followed. *)
Definition setIdx (v : val) (i : Z) (x : val) : M unit := λ h,
  match v with
  | Ref l =>
    match h !! l with
    | Some (Arr elems) =>
      if (0 <=? i) && (i <? Z.of_nat (length elems)) then
        Ok (tt, <[l := Arr (set elems i x)]> h)
      else if i =? Z.of_nat (length elems) then
        Ok (tt, <[l := Arr (elems ++ [x])]> h)
      else Throw Undefined
    | Some (Obj _) => Throw Undefined
    | None => Throw TypeError
    end
  | Undef => Throw TypeError
  | _ => Ok (tt, h)
  end.

(** A value used as a number. *)
Definition toNum (v : val) : M Z :=
  match v with
  | Num z => mret z
  | _ => throw Undefined
  end.

(** [a === b] for values of which one is a number. *)
Definition sameNum (v : val) (z : Z) : bool :=
  match v with
  | Num a => a =? z
  | _ => false
  end.

(** The counted loops, the store threaded through the body. *)
Definition forUpM {St} (lo hi : Z) (body : Z → St → M St) (s : St) : M St := λ h,
  forUp lo hi (λ i sh, body i sh.1 sh.2) (s, h).

Definition forEachM {A St} (l : list A) (body : A → St → M St) (s : St) : M St := λ h,
  forEach l (λ x sh, body x sh.1 sh.2) (s, h).

(** ** The engine over the store *)

(** [this]: the constants the drop uses, the array [_stateStack] of
    references (head = last pushed) and the reference [currentState]. *)
Record Game : Type := mkGame {
  _cols : Z;
  _rows : Z;
  _connect : Z;
  _none : Z;
  _magicWinningNumber : Z;
  _stateStack : list val;
  currentState : val }.

(** [_clone(obj)].  [Object.prototype.toString.call(obj)] is
    ['[object Array]'] for an array and ['[object Object]'] for an object;
    [for (key in obj)] with [hasOwnProperty] visits the own properties. *)
Fixpoint _clone (fuel : nat) (obj : val) : M val :=
  match obj with
  | Ref l =>
    match fuel with
    | O => throw OutOfFuel
    | S fuel' => λ h,
      match h !! l with
      | Some (Arr elems) =>
        (cloned ← alloc (Arr []);
         _ ← forUpM 0 (Z.of_nat (length elems)) (λ index _,
               x ← getIdx obj index;
               x' ← _clone fuel' x;
               setIdx cloned index x') tt;
         mret cloned) h
      | Some (Obj props) =>
        (cloned ← alloc (Obj []);
         _ ← forEachM props.*1 (λ key _,
               x ← getProp obj key;
               x' ← _clone fuel' x;
               setProp cloned key x') tt;
         mret cloned) h
      | None => Throw TypeError
      end
    end
  | _ => mret obj
  end.

(** [_pushState] and [_popState]. *)
Definition _pushState (fuel : nat) (g : Game) : M Game :=
  cloned ← _clone fuel (default Undef (head (_stateStack g)));
  let stack := cloned :: _stateStack g in
  mret (mkGame (_cols g) (_rows g) (_connect g) (_none g) (_magicWinningNumber g)
          stack (default Undef (head stack))).

Definition _popState (g : Game) : Game :=
  let stack := tail (_stateStack g) in
  mkGame (_cols g) (_rows g) (_connect g) (_none g) (_magicWinningNumber g)
    stack (default Undef (head stack)).

(** [isTie]. *)
Definition isTie (g : Game) : M bool :=
  winner ← getProp (currentState g) "winner";
  if sameNum winner (_none g) then
    pieces ← getProp (currentState g) "numberOfPieces" ≫= toNum;
    mret (_cols g * _rows g <=? pieces)
  else mret false.

(** The body of the loop of [_updateScore]; the loop state is
    [(thisDiff, otherDiff)]. *)
Definition scoreStep (g : Game) (player otherPlayer : Z) (map stats : val) (i : Z)
  (acc : Z * Z) : M (Z * Z) :=
  winIndex ← getIdx map i ≫= toNum;
  mine ← getIdx stats player;
  a ← getIdx mine winIndex ≫= toNum;
  theirs ← getIdx stats otherPlayer;
  b ← getIdx theirs winIndex ≫= toNum;
  (* stats[player][winIndex] <<= 1 *)
  mine ← getIdx stats player;
  a1 ← getIdx mine winIndex ≫= toNum;
  _ ← setIdx mine winIndex (Num (shl a1 1));
  (* stats[otherPlayer][winIndex] = 0 *)
  theirs ← getIdx stats otherPlayer;
  _ ← setIdx theirs winIndex (Num 0);
  mine ← getIdx stats player;
  a2 ← getIdx mine winIndex;
  _ ← (if sameNum a2 (_magicWinningNumber g) then
         winner ← getProp (currentState g) "winner";
         if sameNum winner (_none g)
         then setProp (currentState g) "winner" (Num player)
         else mret tt
       else mret tt);
  mret (acc.1 + a, acc.2 + b).

(** [_updateScore(player, column, row)]. *)
Definition _updateScore (g : Game) (player column row : Z) : M unit :=
  let otherPlayer := JS._other player in
  map0 ← getProp (currentState g) "map";
  map1 ← getIdx map0 column;
  map ← getIdx map1 row;
  stats ← getProp (currentState g) "stats";
  length ← getLength map ≫= toNum;
  '(thisDiff, otherDiff) ←
    forUpM 0 length (scoreStep g player otherPlayer map stats) (0, 0);
  score ← getProp (currentState g) "score";
  mine ← getIdx score player ≫= toNum;
  _ ← setIdx score player (Num (mine + thisDiff));
  score ← getProp (currentState g) "score";
  theirs ← getIdx score otherPlayer ≫= toNum;
  _ ← setIdx score otherPlayer (Num (theirs - otherDiff));
  winner ← getProp (currentState g) "winner" ≫= toNum;
  over ← (if -1 <? winner then mret true else isTie g);
  if over : bool then
    _ ← setProp (currentState g) "gameOver" (Bool true);
    t ← isTie g;
    setProp (currentState g) "tie" (Bool t)
  else mret tt.

(** [while (col[row] !== this._none && (++row < this._rows));] *)
Fixpoint scanRow (fuel : nat) (g : Game) (col : val) (row : Z) : M Z :=
  match fuel with
  | O => throw OutOfFuel
  | S fuel' =>
    x ← getIdx col row;
    if sameNum x (_none g) then mret row
    else
      let row := row + 1 in
      if row <? _rows g then scanRow fuel' g col row else mret row
  end.

(** [_dropPiece(player, column)]. *)
Definition _dropPiece (g : Game) (player column : Z) : M Z :=
  board ← getProp (currentState g) "board";
  col ← getIdx board column;
  row ← scanRow (S (Z.to_nat (_rows g))) g col 0;
  if row =? _rows g then mret (-1)
  else
    board ← getProp (currentState g) "board";
    col ← getIdx board column;
    _ ← setIdx col row (Num player);
    pieces ← getProp (currentState g) "numberOfPieces" ≫= toNum;
    _ ← setProp (currentState g) "numberOfPieces" (Num (pieces + 1));
    _ ← _updateScore g player column row;
    mret row.

(** A sequence of [_dropPiece(player, column)] calls: the rows returned. *)
Definition drops (g : Game) (moves : list (Z * Z)) : M (list Z) :=
  forEachM moves (λ '(player, column) rows,
    row ← _dropPiece g player column; mret (rows ++ [row])) [].

(** ** What a reference stands for *)

(** The value reached from a value of the store: a primitive, or the
    array or object a reference leads to, with its contents. *)
#[local] Unset Elimination Schemes.
Inductive tree : Type :=
| Leaf (v : val)
| TArr (elems : list tree)
| TObj (props : list (string * tree)).
#[local] Set Elimination Schemes.

Fixpoint readTree (fuel : nat) (h : heap) (v : val) : option tree :=
  match v with
  | Ref l =>
    match fuel with
    | O => None
    | S fuel' =>
      match h !! l with
      | Some (Arr elems) => TArr <$> mapM (readTree fuel' h) elems
      | Some (Obj props) =>
        TObj <$> mapM (λ kv, pair kv.1 <$> readTree fuel' h kv.2) props
      | None => None
      end
    end
  | _ => Some (Leaf v)
  end.

(** The store into which a tree has been built, children first. *)
Fixpoint build (t : tree) : M val :=
  match t with
  | Leaf v => mret v
  | TArr elems =>
    vs ← (fix go (ts : list tree) : M (list val) :=
            match ts with
            | [] => mret []
            | t :: ts' => v ← build t; vs ← go ts'; mret (v :: vs)
            end) elems;
    alloc (Arr vs)
  | TObj props =>
    kvs ← (fix go (ps : list (string * tree)) : M (list (string * val)) :=
             match ps with
             | [] => mret []
             | (k, t) :: ps' => v ← build t; kvs ← go ps'; mret ((k, v) :: kvs)
             end) props;
    alloc (Obj kvs)
  end.

Definition numbers (l : list Z) : tree := TArr ((λ z, Leaf (Num z)) <$> l).

(** A state of [Module JS] as the object the constructor creates. *)
Definition stateTree (s : JS.State) : tree :=
  TObj [("numberOfPieces", Leaf (Num (JS.numberOfPieces s)));
        ("winner", Leaf (Num (JS.winner s)));
        ("tie", Leaf (Bool (JS.tie s)));
        ("gameOver", Leaf (Bool (JS.gameOver s)));
        ("board", TArr (numbers <$> JS.board s));
        ("stats", TArr (numbers <$> JS.stats s));
        ("map", TArr ((λ column, TArr (numbers <$> column)) <$> JS.map s));
        ("winningCoords", TArr ((λ c, numbers [c.1; c.2]) <$> JS.winningCoords s));
        ("score", numbers (JS.score s))]%string.

(** The engine of [Module JS] with its states built into an empty store. *)
Definition ofJS (g : JS.Game) : M Game :=
  stack ← forEachM (rev (JS._stateStack g)) (λ s stack,
             v ← build (stateTree s); mret (v :: stack)) [];
  mret (mkGame (JS._cols g) (JS._rows g) (JS._connect g) (JS._none g)
          (JS._magicWinningNumber g) stack (default Undef (head stack))).

End Heap.

(** * Facts about loops and arrays *)

Section LoopFacts.
Context {St : Type}.
Implicit Types (body : Z → St → result St) (I : Z → St → Prop).

(** A loop whose every iteration succeeds and advances a counter by [c]. *)
Lemma loop_steps I c body n i step k s :
  (∀ t s k, (t < n)%nat → I k s →
     ∃ s', body (i + Z.of_nat t * step) s = Ok s' ∧ I (k + c) s') →
  I k s →
  ∃ s', loop n i step body s = Ok s' ∧ I (k + Z.of_nat n * c) s'.
Proof.
  revert i k s. induction n as [|n IH]; intros i k s Hbody HI.
  - exists s. split; [done|]. by replace (k + Z.of_nat 0 * c) with k by lia.
  - destruct (Hbody 0%nat s k ltac:(lia) HI) as (s1 & E1 & H1).
    replace (i + Z.of_nat 0 * step) with i in E1 by lia.
    destruct (IH (i + step) (k + c) s1) as (s2 & E2 & H2); [|done|].
    + intros t s0 k0 Ht H0.
      destruct (Hbody (S t) s0 k0 ltac:(lia) H0) as (s' & E & H').
      exists s'. split; [|done]. rewrite <- E. f_equal. lia.
    + exists s2. split.
      * simpl. rewrite E1. exact E2.
      * by replace (k + Z.of_nat (S n) * c) with (k + c + Z.of_nat n * c) by lia.
Qed.

Lemma forUp_steps I c body lo hi k s :
  (∀ j s k, lo ≤ j < hi → I k s → ∃ s', body j s = Ok s' ∧ I (k + c) s') →
  I k s →
  ∃ s', forUp lo hi body s = Ok s' ∧ I (k + Z.max 0 (hi - lo) * c) s'.
Proof.
  intros Hbody HI. unfold forUp.
  replace (Z.max 0 (hi - lo)) with (Z.of_nat (Z.to_nat (hi - lo))) by lia.
  apply loop_steps; [|done]. intros t s0 k0 Ht. apply Hbody. lia.
Qed.

Lemma forDown_steps I c body hi lo k s :
  (∀ j s k, lo ≤ j ≤ hi → I k s → ∃ s', body j s = Ok s' ∧ I (k + c) s') →
  I k s →
  ∃ s', forDown hi lo body s = Ok s' ∧ I (k + Z.max 0 (hi - lo + 1) * c) s'.
Proof.
  intros Hbody HI. unfold forDown.
  replace (Z.max 0 (hi - lo + 1)) with (Z.of_nat (Z.to_nat (hi - lo + 1))) by lia.
  apply loop_steps; [|done]. intros t s0 k0 Ht. apply Hbody. lia.
Qed.
End LoopFacts.

Section ArrayFacts.
Context {A : Type}.
Implicit Types (l : list A).

Lemma get_Some l i x : get l i = Some x ↔ 0 ≤ i ∧ l !! Z.to_nat i = Some x.
Proof.
  unfold get. destruct (Z.ltb_spec i 0); split.
  - discriminate.
  - intros [? _]. lia.
  - intros ?. split; [lia|assumption].
  - intros [_ ?]. assumption.
Qed.

Lemma get_lt l i : 0 ≤ i < Z.of_nat (length l) → ∃ x, get l i = Some x.
Proof.
  intros Hi. destruct (lookup_lt_is_Some_2 l (Z.to_nat i)) as [x Hx]; [lia|].
  exists x. apply get_Some. split; [lia|done].
Qed.

Lemma get_Some_lt l i x : get l i = Some x → 0 ≤ i < Z.of_nat (length l).
Proof. intros H. apply get_Some in H as [? H]. apply lookup_lt_Some in H. lia. Qed.

Lemma get_set_eq l i x : 0 ≤ i < Z.of_nat (length l) → get (set l i x) i = Some x.
Proof.
  intros Hi. apply get_Some. split; [lia|].
  unfold set. apply list_lookup_insert_eq. lia.
Qed.

Lemma get_set_ne l i j x : 0 ≤ i → 0 ≤ j → i ≠ j → get (set l i x) j = get l j.
Proof.
  intros Hi Hj Hne. unfold get, set. destruct (j <? 0); [done|].
  apply list_lookup_insert_ne. lia.
Qed.

Lemma length_set l i x : length (set l i x) = length l.
Proof. apply length_insert. Qed.
End ArrayFacts.

Lemma sumZ_app l1 l2 : sumZ (l1 ++ l2) = sumZ l1 + sumZ l2.
Proof. induction l1 as [|x l1 IH]; simpl; lia. Qed.

Lemma sumZ_insert l i x y :
  l !! i = Some x → sumZ (<[i:=y]> l) = sumZ l - x + y.
Proof.
  revert i. induction l as [|a l IH]; intros [|i] H; simplify_eq/=; [lia|].
  rewrite (IH _ H). lia.
Qed.

Lemma sumZ_set_fmap {A} (f : A → Z) l i x y :
  get l i = Some x → sumZ (f <$> set l i y) = sumZ (f <$> l) - f x + f y.
Proof.
  intros [Hi Hx]%get_Some. unfold set. rewrite list_fmap_insert.
  apply sumZ_insert. by rewrite list_lookup_fmap, Hx.
Qed.

Lemma sumZ_replicate n x : sumZ (replicate n x) = Z.of_nat n * x.
Proof. induction n as [|n IH]; simpl; lia. Qed.

(** * The win-line map built by [_setupMap] *)

(** Number of times line [L] is listed in a cell, and in the whole map. *)
Definition count (L : Z) (cell : list Z) : Z :=
  sumZ ((λ x, if x =? L then 1 else 0) <$> cell).

Definition occ (L : Z) (m : WinMap) : Z :=
  sumZ ((λ column, sumZ (count L <$> column)) <$> m).

(** The map has [cols] columns of [rows] cells. *)
Definition dims (cols rows : Z) (m : WinMap) : Prop :=
  Z.of_nat (length m) = cols ∧
  ∀ x column, get m x = Some column → Z.of_nat (length column) = rows.

Lemma count_nonneg L cell : 0 ≤ count L cell.
Proof.
  unfold count. induction cell as [|x cell IH]; csimpl; [lia|].
  destruct (x =? L); lia.
Qed.

Lemma count_snoc L cell w :
  count L (cell ++ [w]) = count L cell + (if w =? L then 1 else 0).
Proof. unfold count. rewrite fmap_app, sumZ_app. csimpl. lia. Qed.

Section MapFacts.
Variables cols rows connect : Z.
Hypothesis Hcols : 0 ≤ cols.
Hypothesis Hrows : 0 ≤ rows.
Hypothesis Hconnect : 0 ≤ connect.

Definition inBoard (c : Z * Z) : Prop := 0 ≤ c.1 < cols ∧ 0 ≤ c.2 < rows.

Lemma dims_emptyMap : dims cols rows (JS.emptyMap cols rows).
Proof.
  unfold JS.emptyMap. split.
  - rewrite length_replicate. lia.
  - intros x column [_ H]%get_Some.
    apply lookup_replicate in H as [-> _]. rewrite length_replicate. lia.
Qed.

Lemma occ_emptyMap L : occ L (JS.emptyMap cols rows) = 0.
Proof.
  unfold occ, JS.emptyMap. rewrite !fmap_replicate, !sumZ_replicate.
  unfold count. simpl. lia.
Qed.

Lemma mapPush_spec m x y w :
  dims cols rows m → inBoard (x, y) →
  ∃ m', JS.mapPush m x y w = Ok m' ∧ dims cols rows m' ∧
        ∀ L, occ L m' = occ L m + (if w =? L then 1 else 0).
Proof.
  intros [Hlen Hcol] [Hx Hy]. simpl in Hx, Hy. unfold JS.mapPush, deref, elem.
  destruct (get_lt m x) as [column Ec]; [lia|]. rewrite Ec. simpl.
  pose proof (Hcol _ _ Ec) as Hl.
  destruct (get_lt column y) as [cell Ecell]; [lia|]. rewrite Ecell. simpl.
  eexists. split; [done|]. split.
  - split; [by rewrite length_set|].
    intros x' column' H'. destruct (decide (x = x')) as [<-|Hne].
    + rewrite get_set_eq in H' by lia. simplify_eq. by rewrite length_set.
    + pose proof (get_Some_lt _ _ _ H') as Hx'. rewrite length_set in Hx'.
      rewrite get_set_ne in H' by lia. eauto.
  - intros L. unfold occ.
    rewrite (sumZ_set_fmap _ _ _ _ _ Ec), (sumZ_set_fmap _ _ _ _ _ Ecell).
    rewrite count_snoc. lia.
Qed.

(** After [k] lines have been numbered: [winIndex] is [k] and exactly the
    ids below [k] are listed, [connect] times each. *)
Definition MapInv (k : Z) (st : WinMap * Z) : Prop :=
  dims cols rows st.1 ∧ st.2 = k ∧ 0 ≤ k ∧
  ∀ L, occ L st.1 = if bool_decide (0 ≤ L < k) then connect else 0.

Lemma line_spec cellOf k st :
  (∀ t, 0 ≤ t < connect → inBoard (cellOf t)) →
  MapInv k st →
  ∃ st', JS.line connect cellOf st = Ok st' ∧ MapInv (k + 1) st'.
Proof.
  intros Hcells (Hd & Hw & Hk & Hocc). destruct st as [m w]. simpl in *. subst w.
  unfold JS.line. simpl.
  destruct (forUp_steps
    (λ t m', dims cols rows m' ∧
             ∀ L, occ L m' = occ L m + (if k =? L then t else 0))
    1 (λ t m', JS.mapPush m' (cellOf t).1 (cellOf t).2 k) 0 connect 0 m)
    as (m' & E & Hd' & Hocc').
  - intros t m0 j Ht [Hd0 Ho0].
    destruct (mapPush_spec m0 (cellOf t).1 (cellOf t).2 k Hd0) as (m1 & E1 & Hd1 & Ho1).
    { destruct (cellOf t) eqn:Ec. specialize (Hcells t ltac:(lia)). by rewrite Ec in Hcells. }
    exists m1. split; [done|]. split; [done|].
    intros L. rewrite Ho1, Ho0. destruct (k =? L); lia.
  - split; [done|]. intros L. destruct (k =? L); lia.
  - rewrite E. simpl. eexists. split; [done|].
    split; [done|]. split; [done|]. split; [lia|]. simpl.
    intros L. rewrite Hocc', Hocc.
    replace (0 + Z.max 0 (connect - 0) * 1) with connect by lia.
    destruct (Z.eqb_spec k L); repeat case_bool_decide; lia.
Qed.

(** The two loops around [line], as the four passes use them. *)
Lemma pass_up_up (cellOf : Z → Z → Z → Z * Z) n1 n2 k st :
  (∀ i j t, 0 ≤ i < n1 → 0 ≤ j < n2 → 0 ≤ t < connect → inBoard (cellOf i j t)) →
  MapInv k st →
  ∃ st', forUp 0 n1 (λ i, forUp 0 n2 (λ j, JS.line connect (cellOf i j))) st = Ok st'
         ∧ MapInv (k + Z.max 0 n1 * Z.max 0 n2) st'.
Proof.
  intros Hcells HI.
  destruct (forUp_steps MapInv (Z.max 0 n2 * 1)
    (λ i, forUp 0 n2 (λ j, JS.line connect (cellOf i j))) 0 n1 k st) as (st' & E & H').
  - intros i s0 k0 Hi H0.
    replace (Z.max 0 n2) with (Z.max 0 (n2 - 0)) by lia.
    apply forUp_steps; [|done].
    intros j s1 k1 Hj H1. apply line_spec; [|done]. intros t Ht. apply Hcells; lia.
  - done.
  - exists st'. split; [done|].
    by replace (k + Z.max 0 n1 * Z.max 0 n2) with (k + Z.max 0 (n1 - 0) * (Z.max 0 n2 * 1)) by lia.
Qed.

Lemma pass_up_down (cellOf : Z → Z → Z → Z * Z) n1 hi lo k st :
  (∀ i j t, 0 ≤ i < n1 → lo ≤ j ≤ hi → 0 ≤ t < connect → inBoard (cellOf i j t)) →
  MapInv k st →
  ∃ st', forUp 0 n1 (λ i, forDown hi lo (λ j, JS.line connect (cellOf i j))) st = Ok st'
         ∧ MapInv (k + Z.max 0 n1 * Z.max 0 (hi - lo + 1)) st'.
Proof.
  intros Hcells HI.
  destruct (forUp_steps MapInv (Z.max 0 (hi - lo + 1) * 1)
    (λ i, forDown hi lo (λ j, JS.line connect (cellOf i j))) 0 n1 k st) as (st' & E & H').
  - intros i s0 k0 Hi H0.
    apply forDown_steps; [|done].
    intros j s1 k1 Hj H1. apply line_spec; [|done]. intros t Ht. apply Hcells; lia.
  - done.
  - exists st'. split; [done|].
    by replace (k + Z.max 0 n1 * Z.max 0 (hi - lo + 1))
      with (k + Z.max 0 (n1 - 0) * (Z.max 0 (hi - lo + 1) * 1)) by lia.
Qed.

(** The number of lines the four passes of [_setupMap] number. *)
Definition enumerated : Z :=
  rows * Z.max 0 (cols - connect + 1) + cols * Z.max 0 (rows - connect + 1)
  + 2 * (Z.max 0 (rows - connect + 1) * Z.max 0 (cols - connect + 1)).

Lemma setupMap_spec :
  ∃ st, JS._setupMap cols rows connect = Ok st ∧ MapInv enumerated st.
Proof.
  unfold JS._setupMap.
  assert (MapInv 0 (JS.emptyMap cols rows, 0)) as H0.
  { split; [apply dims_emptyMap|]. split; [done|]. split; [done|]. simpl.
    intros L. rewrite occ_emptyMap. case_bool_decide; [lia|done]. }
  destruct (pass_up_up (λ i j t, (j + t, i)) rows (cols - connect + 1) _ _
    ltac:(intros; split; simpl; lia) H0) as (st1 & E1 & H1).
  rewrite E1. simpl.
  destruct (pass_up_up (λ i j t, (i, j + t)) cols (rows - connect + 1) _ _
    ltac:(intros; split; simpl; lia) H1) as (st2 & E2 & H2).
  rewrite E2. simpl.
  destruct (pass_up_up (λ i j t, (j + t, i + t)) (rows - connect + 1) (cols - connect + 1) _ _
    ltac:(intros; split; simpl; lia) H2) as (st3 & E3 & H3).
  rewrite E3. simpl.
  destruct (pass_up_down (λ i j t, (j - t, i + t)) (rows - connect + 1) (cols - 1) (connect - 1) _ _
    ltac:(intros; split; simpl; lia) H3) as (st4 & E4 & H4).
  exists st4. split; [done|].
  replace enumerated with
    (0 + Z.max 0 rows * Z.max 0 (cols - connect + 1)
     + Z.max 0 cols * Z.max 0 (rows - connect + 1)
     + Z.max 0 (rows - connect + 1) * Z.max 0 (cols - connect + 1)
     + Z.max 0 (rows - connect + 1) * Z.max 0 (cols - 1 - (connect - 1) + 1)); [done|].
  unfold enumerated.
  replace (cols - 1 - (connect - 1) + 1) with (cols - connect + 1) by lia.
  replace (Z.max 0 rows) with rows by lia. replace (Z.max 0 cols) with cols by lia. lia.
Qed.

Lemma enumerated_closed_form :
  1 ≤ cols → 1 ≤ rows → 1 ≤ connect →
  enumerated = JS._findWinningPlaces cols rows connect.
Proof.
  intros. unfold enumerated, JS._findWinningPlaces.
  destruct (Z.ltb_spec cols connect), (Z.ltb_spec rows connect); simpl; nia.
Qed.
End MapFacts.


(** * Inverting successful calls *)

Lemma bind_Ok {A B} (m : result A) (f : A → result B) b :
  m ≫= f = Ok b → ∃ a, m = Ok a ∧ f a = Ok b.
Proof. destruct m as [a|e]; [|discriminate]. intros H. by exists a. Qed.

Lemma bind_Ok_l {A B} (a : A) (f : A → result B) : Ok a ≫= f = f a.
Proof. reflexivity. Qed.

Lemma elem_Ok {A} (l : list A) i x : elem l i = Ok x → get l i = Some x.
Proof. unfold elem. destruct (get l i); intros; simplify_eq. done. Qed.

Lemma deref_Ok {A} (l : list A) i x : deref l i = Ok x → get l i = Some x.
Proof. unfold deref. destruct (get l i); intros; simplify_eq. done. Qed.

Lemma store_Ok {A} (l : list A) i x l' :
  store l i x = Ok l' → 0 ≤ i < Z.of_nat (length l) ∧ l' = set l i x.
Proof.
  unfold store. destruct (Z.leb_spec 0 i), (Z.ltb_spec i (Z.of_nat (length l)));
    simpl; intros; simplify_eq. split; [lia|done].
Qed.

Lemma read2_Ok {A} (l : list (list A)) i j x :
  read2 l i j = Ok x → ∃ row, get l i = Some row ∧ get row j = Some x.
Proof.
  unfold read2. intros (row & H1%deref_Ok & H2%elem_Ok)%bind_Ok. eauto.
Qed.

Lemma write2_Ok {A} (l : list (list A)) i j x l' :
  write2 l i j x = Ok l' →
  ∃ row, get l i = Some row ∧ 0 ≤ j < Z.of_nat (length row) ∧
         l' = set l i (set row j x).
Proof.
  unfold write2. intros (row & H1%deref_Ok & (row' & H2 & H3)%bind_Ok)%bind_Ok.
  apply store_Ok in H2 as [Hj ->]. apply store_Ok in H3 as [_ ->]. eauto.
Qed.

Lemma forEach_inv {A St} (I : list A → St → Prop) (body : A → St → result St) l s s' :
  (∀ x rest s s1, body x s = Ok s1 → I (x :: rest) s → I rest s1) →
  forEach l body s = Ok s' → I l s → I [] s'.
Proof.
  intros Hstep. revert s. induction l as [|x l IH]; intros s H HI; simpl in H.
  - by simplify_eq.
  - apply bind_Ok in H as (s1 & H1 & H2). eauto.
Qed.

(** ** Arrays indexed by the player *)

(** The array whose entry for [p] is [mine] and whose other entry is [theirs]. *)
Definition duo {A} (p : Z) (mine theirs : A) : list A :=
  if p =? 0 then [mine; theirs] else [theirs; mine].

Definition isPlayer (p : Z) : Prop := p = 0 ∨ p = 1.

Section Duo.
Context {A : Type}.
Implicit Types (mine theirs : A).

Lemma duo_of_pair p (a0 a1 : A) :
  isPlayer p → ∃ mine theirs, [a0; a1] = duo p mine theirs.
Proof. intros [->| ->]; [exists a0, a1|exists a1, a0]; reflexivity. Qed.

Lemma get_duo_mine p mine theirs x :
  isPlayer p → get (duo p mine theirs) p = Some x → x = mine.
Proof. intros [->| ->]; vm_compute; congruence. Qed.

Lemma get_duo_theirs p mine theirs x :
  isPlayer p → get (duo p mine theirs) (JS._other p) = Some x → x = theirs.
Proof. intros [->| ->]; vm_compute; congruence. Qed.

Lemma get_duo_mine_eq p mine theirs :
  isPlayer p → get (duo p mine theirs) p = Some mine.
Proof. by intros [->| ->]. Qed.

Lemma get_duo_theirs_eq p mine theirs :
  isPlayer p → get (duo p mine theirs) (JS._other p) = Some theirs.
Proof. by intros [->| ->]. Qed.

Lemma set_duo_mine p mine theirs x :
  isPlayer p → set (duo p mine theirs) p x = duo p x theirs.
Proof. by intros [->| ->]. Qed.

Lemma set_duo_theirs p mine theirs x :
  isPlayer p → set (duo p mine theirs) (JS._other p) x = duo p mine x.
Proof. by intros [->| ->]. Qed.

Lemma duo_inj p mine theirs mine' theirs' :
  duo p mine theirs = duo p mine' theirs' → mine = mine' ∧ theirs = theirs'.
Proof. unfold duo. destruct (p =? 0); intros; simplify_eq; done. Qed.
End Duo.

Lemma other_player p : isPlayer p → JS._other p = 1 - p.
Proof. by intros [->| ->]. Qed.

(** * The loop of [_updateScore] *)

(** Cells of the board still empty, and the pieces a line can still take:
    the number of empty cells that list it. *)
Definition empties (board : list (list Z)) : Z :=
  sumZ ((λ col, sumZ ((λ b, if b =? -1 then 1 else 0) <$> col)) <$> board).

Definition room (L : Z) (board : list (list Z)) (m : WinMap) : Z :=
  sumZ (zip_with (λ col mcol,
          sumZ (zip_with (λ b cell, if b =? -1 then count L cell else 0) col mcol))
        board m).

(** Every potential is non-negative and can still be doubled [R L] times
    without exceeding [2 ^ n]. *)
Definition bounded (n : Z) (R : Z → Z) (arr : list Z) : Prop :=
  ∀ L v, get arr L = Some v → 0 ≤ v ∧ v * 2 ^ R L ≤ 2 ^ n.

(** A line is contested by at most one player. *)
Definition exclusive (a b : list Z) : Prop :=
  ∀ L x y, get a L = Some x → get b L = Some y → x ≠ 0 → y ≠ 0 → x = 1 ∧ y = 1.

Lemma exclusive_sym a b : exclusive a b → exclusive b a.
Proof. intros H L x y Hx Hy ? ?. destruct (H L y x); auto. Qed.

Lemma shl_double v : 0 ≤ v → 2 * v < 2 ^ 31 → shl v 1 = 2 * v.
Proof.
  intros H0 H1. unfold shl, toInt32. change (Z.land 1 31) with 1.
  rewrite Z.shiftl_mul_pow2 by lia. change (2 ^ 1) with 2.
  rewrite (Z.mod_small (v + 2 ^ 31)) by lia.
  replace (v + 2 ^ 31 - 2 ^ 31) with v by lia.
  rewrite Z.mod_small by lia. lia.
Qed.

Lemma shl_one n : 0 ≤ n ≤ 30 → shl 1 n = 2 ^ n.
Proof.
  intros Hn. unfold shl.
  assert (Z.land n 31 = n) as ->.
  { change 31 with (Z.ones 5). rewrite Z.land_ones by lia.
    apply Z.mod_small. change (2 ^ 5) with 32. lia. }
  change (toInt32 1) with 1. rewrite Z.shiftl_1_l.
  assert (2 ^ n ≤ 2 ^ 30) by (apply Z.pow_le_mono_r; lia).
  assert (0 < 2 ^ n) by (apply Z.pow_pos_nonneg; lia).
  unfold toInt32. rewrite Z.mod_small by lia. lia.
Qed.

Section ScoreLoop.
Variable g : JS.Game.
Variable p : Z.
Hypothesis Hp : isPlayer p.

Lemma scoreStep_Ok w td od mine theirs win r :
  JS.scoreStep g p (JS._other p) w (td, od, duo p mine theirs, win) = Ok r →
  ∃ v u, get mine w = Some v ∧ get theirs w = Some u ∧
    r = (td + v, od + u, duo p (set mine w (shl v 1)) (set theirs w 0),
         if shl v 1 =? JS._magicWinningNumber g then
           if win =? JS._none g then p else win
         else win).
Proof.
  unfold JS.scoreStep. intros H.
  apply bind_Ok in H as (v & Hv & H). apply read2_Ok in Hv as (mine' & Em & Hv).
  apply get_duo_mine in Em as ->; [|done].
  apply bind_Ok in H as (u & Hu & H). apply read2_Ok in Hu as (theirs' & Et & Hu).
  apply get_duo_theirs in Et as ->; [|done].
  apply bind_Ok in H as (st1 & H1 & H). apply write2_Ok in H1 as (mine' & Em & Hw & ->).
  apply get_duo_mine in Em as ->; [|done]. rewrite set_duo_mine in H by done.
  apply bind_Ok in H as (st2 & H2 & H). apply write2_Ok in H2 as (theirs' & Et & Hw' & ->).
  apply get_duo_theirs in Et as ->; [|done]. rewrite set_duo_theirs in H by done.
  apply bind_Ok in H as (v' & Hv' & H). apply read2_Ok in Hv' as (mine' & Em & Hv').
  apply get_duo_mine in Em as ->; [|done].
  rewrite get_set_eq in Hv' by lia. simplify_eq. eauto.
Qed.

(** The loop keeps the two potential arrays apart. *)
Lemma scoreLoop_shape cell td od mine theirs win r :
  forEach cell (JS.scoreStep g p (JS._other p)) (td, od, duo p mine theirs, win) = Ok r →
  ∃ td' od' mine' theirs' win', r = (td', od', duo p mine' theirs', win').
Proof.
  intros H.
  apply (forEach_inv (λ _ acc, ∃ td' od' mine' theirs' win',
           acc = (td', od', duo p mine' theirs', win')) _ _ _ _) in H; [done| |by eauto 6].
  intros w rest acc acc1 Hstep (td' & od' & mine' & theirs' & win' & ->).
  apply scoreStep_Ok in Hstep as (v & u & _ & _ & ->). eauto 6.
Qed.

Variable n : Z.
Hypothesis Hn : 0 ≤ n ≤ 30.
Variable R : Z → Z.
Hypothesis HR : ∀ L, 0 ≤ R L.
Variables mine0 theirs0 : list Z.

(** What holds of the loop state when the ids in [rest] remain. *)
Definition ScoreInv (rest : list Z) (acc : Z * Z * list (list Z) * Z) : Prop :=
  ∃ mine theirs, acc.1.2 = duo p mine theirs ∧
    0 ≤ acc.1.1.1 ∧ 0 ≤ acc.1.1.2 ∧
    sumZ mine = sumZ mine0 + acc.1.1.1 ∧
    sumZ theirs = sumZ theirs0 - acc.1.1.2 ∧
    bounded n (λ L, R L + count L rest) mine ∧
    bounded n (λ L, R L + count L rest) theirs ∧
    exclusive mine theirs.

Lemma pow_split (v a : Z) : 0 ≤ a → v * 2 ^ (a + 1) = 2 * v * 2 ^ a.
Proof. intros. rewrite Z.pow_add_r by lia. lia. Qed.

Lemma ScoreInv_step w rest acc acc1 :
  JS.scoreStep g p (JS._other p) w acc = Ok acc1 →
  ScoreInv (w :: rest) acc → ScoreInv rest acc1.
Proof.
  destruct acc as [[[td od] st] win].
  intros Hstep (mine & theirs & E & Htd & Hod & Hsm & Hst & Hbm & Hbt & Hex).
  simpl in *. subst st.
  apply scoreStep_Ok in Hstep as (v & u & Hv & Hu & ->).
  assert (∀ L, count L (w :: rest) = (if w =? L then 1 else 0) + count L rest) as Hc.
  { intros L. unfold count. csimpl. lia. }
  pose proof (count_nonneg w rest) as Hcw.
  destruct (Hbm w v Hv) as [Hv0 Hvb]. destruct (Hbt w u Hu) as [Hu0 Hub].
  rewrite Hc, Z.eqb_refl in Hvb.
  replace (R w + (1 + count w rest)) with (R w + count w rest + 1) in Hvb by lia.
  rewrite pow_split in Hvb by (specialize (HR w); lia).
  assert (0 < 2 ^ (R w + count w rest)) as Hpos
    by (apply Z.pow_pos_nonneg; specialize (HR w); lia).
  assert (2 ^ n ≤ 2 ^ 30) as Hn30 by (apply Z.pow_le_mono_r; lia).
  assert (2 * v ≤ 2 ^ n) as Hv2 by nia.
  assert (shl v 1 = 2 * v) as Hshl by (apply shl_double; lia).
  rewrite Hshl.
  apply get_Some in Hv as [Hw0 Hv']. apply get_Some in Hu as [_ Hu'].
  exists (set mine w (2 * v)), (set theirs w 0). simpl.
  split; [done|]. split; [lia|]. split; [lia|].
  split; [unfold set; rewrite (sumZ_insert _ _ _ _ Hv'); lia|].
  split; [unfold set; rewrite (sumZ_insert _ _ _ _ Hu'); lia|].
  assert (∀ L x, 0 ≤ x → x * 2 ^ (R L + count L (w :: rest)) ≤ 2 ^ n →
                 x * 2 ^ (R L + count L rest) ≤ 2 ^ n) as Hmono.
  { intros L x Hx Hb. rewrite Hc in Hb.
    pose proof (count_nonneg L rest). specialize (HR L).
    destruct (w =? L); [|by replace (R L + (0 + count L rest)) with (R L + count L rest) in Hb by lia].
    replace (R L + (1 + count L rest)) with (R L + count L rest + 1) in Hb by lia.
    rewrite pow_split in Hb by lia.
    assert (0 < 2 ^ (R L + count L rest)) by (apply Z.pow_pos_nonneg; lia). nia. }
  assert (w < Z.of_nat (length mine)) by (apply lookup_lt_Some in Hv'; lia).
  assert (w < Z.of_nat (length theirs)) by (apply lookup_lt_Some in Hu'; lia).
  split; [|split].
  - intros L x Hx. destruct (decide (w = L)) as [<-|Hne].
    + rewrite get_set_eq in Hx by lia. simplify_eq. split; [lia|]. lia.
    + pose proof (get_Some_lt _ _ _ Hx). rewrite get_set_ne in Hx by lia.
      destruct (Hbm L x Hx). auto.
  - intros L x Hx. destruct (decide (w = L)) as [<-|Hne].
    + rewrite get_set_eq in Hx by lia. simplify_eq. split; [lia|]. lia.
    + pose proof (get_Some_lt _ _ _ Hx). rewrite get_set_ne in Hx by lia.
      destruct (Hbt L x Hx). auto.
  - intros L x y Hx Hy Hx0 Hy0. destruct (decide (w = L)) as [<-|Hne].
    + rewrite get_set_eq in Hy by lia. simplify_eq.
    + pose proof (get_Some_lt _ _ _ Hx). pose proof (get_Some_lt _ _ _ Hy).
      rewrite get_set_ne in Hx, Hy by lia. eauto.
Qed.

Lemma scoreLoop_inv cell acc acc' :
  forEach cell (JS.scoreStep g p (JS._other p)) acc = Ok acc' →
  ScoreInv cell acc → ScoreInv [] acc'.
Proof. apply forEach_inv. intros w rest a a1. apply ScoreInv_step. Qed.
End ScoreLoop.

(** * One drop *)

Lemma sumZ_nonneg l : Forall (λ x, 0 ≤ x) l → 0 ≤ sumZ l.
Proof. induction 1; simpl; lia. Qed.

Lemma sumZ_zip_with_insert {A B} (f : A → B → Z) l k i a a' b :
  l !! i = Some a → k !! i = Some b →
  sumZ (zip_with f (<[i:=a']> l) k) = sumZ (zip_with f l k) - f a b + f a' b.
Proof.
  revert k i. induction l as [|x l IH]; intros [|y k] [|i] Hl Hk; simplify_eq/=; [lia|].
  rewrite (IH _ _ Hl Hk). lia.
Qed.

Lemma sumZ_zip_with_set {A B} (f : A → B → Z) l k i a a' b :
  get l i = Some a → get k i = Some b →
  sumZ (zip_with f (set l i a') k) = sumZ (zip_with f l k) - f a b + f a' b.
Proof.
  intros [_ Hl]%get_Some [_ Hk]%get_Some. by apply sumZ_zip_with_insert.
Qed.

Lemma empties_nonneg board : 0 ≤ empties board.
Proof.
  unfold empties. apply sumZ_nonneg, Forall_fmap, Forall_forall. intros col _. simpl.
  apply sumZ_nonneg, Forall_fmap, Forall_forall. intros b _. simpl.
  destruct (b =? -1); lia.
Qed.

Lemma empties_set board x col y v :
  get board x = Some col → get col y = Some (-1) → v ≠ -1 →
  empties (set board x (set col y v)) = empties board - 1.
Proof.
  intros Hx Hy Hv. unfold empties.
  rewrite (sumZ_set_fmap _ _ _ _ _ Hx), (sumZ_set_fmap _ _ _ _ _ Hy).
  destruct (Z.eqb_spec v (-1)); [done|]. simpl. lia.
Qed.

Lemma empties_replicate (c r : nat) :
  empties (replicate c (replicate r (-1))) = Z.of_nat c * Z.of_nat r.
Proof. unfold empties. rewrite !fmap_replicate, !sumZ_replicate. simpl. lia. Qed.

Lemma room_nonneg L board m : 0 ≤ room L board m.
Proof.
  unfold room. apply sumZ_nonneg, Forall_forall. intros z Hz.
  apply list_elem_of_lookup in Hz as [i Hz].
  apply lookup_zip_with_Some in Hz as (col & mcol & -> & _ & _).
  apply sumZ_nonneg, Forall_forall. intros z Hz.
  apply list_elem_of_lookup in Hz as [j Hz].
  apply lookup_zip_with_Some in Hz as (b & cell & -> & _ & _).
  pose proof (count_nonneg L cell). destruct (b =? -1); lia.
Qed.

Lemma room_set L board m x col mcol y cell v :
  get board x = Some col → get col y = Some (-1) →
  get m x = Some mcol → get mcol y = Some cell → v ≠ -1 →
  room L (set board x (set col y v)) m = room L board m - count L cell.
Proof.
  intros Hx Hy Hmx Hmy Hv. unfold room.
  rewrite (sumZ_zip_with_set _ _ _ _ _ _ _ Hx Hmx).
  rewrite (sumZ_zip_with_set _ _ _ _ _ _ _ Hy Hmy).
  destruct (Z.eqb_spec v (-1)); [done|]. simpl. lia.
Qed.

Lemma room_replicate L cols rows m :
  0 ≤ cols → 0 ≤ rows → dims cols rows m →
  room L (replicate (Z.to_nat cols) (replicate (Z.to_nat rows) (-1))) m = occ L m.
Proof.
  intros Hc Hr [Hlen Hcol]. unfold room, occ.
  rewrite zip_with_replicate_l by lia. f_equal.
  apply list_eq. intros i. rewrite !list_lookup_fmap.
  destruct (m !! i) as [mcol|] eqn:E; [|done]. simpl. f_equal.
  assert (Z.of_nat (length mcol) = rows) as Hl.
  { apply (Hcol (Z.of_nat i)). apply get_Some. split; [lia|]. by rewrite Nat2Z.id. }
  rewrite zip_with_replicate_l by lia. done.
Qed.

Section Drop.
Variable g : JS.Game.
Hypothesis Hrows : 1 ≤ JS._rows g.
Hypothesis Hnone : JS._none g = -1.

Lemma occupied_false col row :
  JS.occupied g col row = false → get col row = Some (-1).
Proof.
  unfold JS.occupied. destruct (get col row) as [v|]; [|done].
  rewrite Hnone. destruct (Z.eqb_spec v (-1)); [by subst|done].
Qed.

Lemma scanRow_Ok fuel col row r :
  0 ≤ row < JS._rows g → JS.scanRow fuel g col row = Ok r →
  r = JS._rows g ∨ (row ≤ r < JS._rows g ∧ get col r = Some (-1)).
Proof.
  revert row. induction fuel as [|fuel IH]; intros row Hrow H; simpl in H; [done|].
  destruct (JS.occupied g col row) eqn:Eo.
  - destruct (Z.ltb_spec (row + 1) (JS._rows g)).
    + destruct (IH (row + 1) ltac:(lia) H) as [->|[? ?]]; [by left|right]. split; [lia|done].
    + simplify_eq. left. lia.
  - simplify_eq. right. split; [lia|]. by apply occupied_false.
Qed.

(** A column whose rows [row .. rows-1] are all occupied is scanned to
    the top, and the fuel [_dropPiece] gives is enough for it. *)
Lemma scanRow_full fuel col row :
  0 ≤ row < JS._rows g → (Z.to_nat (JS._rows g - row) ≤ fuel)%nat →
  (∀ r, row ≤ r < JS._rows g → JS.occupied g col r = true) →
  JS.scanRow fuel g col row = Ok (JS._rows g).
Proof.
  revert row. induction fuel as [|fuel IH]; intros row Hrow Hfuel Hfull; [lia|].
  simpl. rewrite Hfull by lia.
  destruct (Z.ltb_spec (row + 1) (JS._rows g)).
  - apply IH; [lia..|]. intros r Hr. apply Hfull. lia.
  - f_equal. lia.
Qed.

Lemma updateScore_frame p x y s s' :
  JS._updateScore g p x y s = Ok s' →
  JS.board s' = JS.board s ∧ JS.map s' = JS.map s ∧
  JS.numberOfPieces s' = JS.numberOfPieces s ∧
  JS.winningCoords s' = JS.winningCoords s.
Proof.
  unfold JS._updateScore. intros H.
  apply bind_Ok in H as (mcol & _ & H). apply bind_Ok in H as (cell & _ & H).
  apply bind_Ok in H as ([[[td od] st] win] & _ & H).
  apply bind_Ok in H as (sm & _ & H). apply bind_Ok in H as (sc1 & _ & H).
  apply bind_Ok in H as (so & _ & H). apply bind_Ok in H as (sc2 & _ & H).
  simpl in H. destruct (_ || _); by simplify_eq.
Qed.

Lemma updateScore_Ok p x y s s' mine theirs sm st :
  isPlayer p →
  JS.stats s = duo p mine theirs → JS.score s = duo p sm st →
  JS._updateScore g p x y s = Ok s' →
  ∃ mcol cell td od mine' theirs' win',
    get (JS.map s) x = Some mcol ∧ get mcol y = Some cell ∧
    forEach cell (JS.scoreStep g p (JS._other p)) (0, 0, duo p mine theirs, JS.winner s)
      = Ok (td, od, duo p mine' theirs', win') ∧
    JS.stats s' = duo p mine' theirs' ∧
    JS.score s' = duo p (sm + td) (st - od).
Proof.
  intros Hp Est Esc. unfold JS._updateScore. rewrite Est, Esc. intros H.
  apply bind_Ok in H as (mcol & Hm%deref_Ok & H).
  apply bind_Ok in H as (cell & Hc%deref_Ok & H).
  apply bind_Ok in H as (r & Hloop & H).
  destruct (scoreLoop_shape g p Hp _ _ _ _ _ _ _ Hloop)
    as (td & od & mine' & theirs' & win' & ->).
  apply bind_Ok in H as (sm' & Hsm%elem_Ok & H).
  apply get_duo_mine in Hsm as ->; [|done].
  apply bind_Ok in H as (sc1 & [_ ->]%store_Ok & H).
  rewrite set_duo_mine in H by done.
  apply bind_Ok in H as (st' & Hst%elem_Ok & H).
  apply get_duo_theirs in Hst as ->; [|done].
  apply bind_Ok in H as (sc2 & [_ ->]%store_Ok & H).
  rewrite set_duo_theirs in H by done.
  exists mcol, cell, td, od, mine', theirs', win'.
  simpl in H. destruct (_ || _); by simplify_eq.
Qed.

(** What a call of [_dropPiece] that returns has done to the state. *)
Lemma dropInto_Ok p x s row s' :
  JS.dropInto g p x s = Ok (row, s') →
  (row = -1 ∧ s' = s ∧
     ∃ col, get (JS.board s) x = Some col ∧
            JS.scanRow (S (Z.to_nat (JS._rows g))) g col 0 = Ok (JS._rows g)) ∨
  (0 ≤ row < JS._rows g ∧
     ∃ col, get (JS.board s) x = Some col ∧ get col row = Some (-1) ∧
       JS._updateScore g p x row
         (JS.mkState (JS.numberOfPieces s + 1) (JS.winner s) (JS.tie s) (JS.gameOver s)
            (set (JS.board s) x (set col row p)) (JS.stats s) (JS.map s)
            (JS.winningCoords s) (JS.score s)) = Ok s').
Proof.
  unfold JS.dropInto. intros H.
  apply bind_Ok in H as (col & Hcol%deref_Ok & H).
  apply bind_Ok in H as (r & Hscan & H).
  assert (0 ≤ 0 < JS._rows g) as H0 by lia.
  pose proof (scanRow_Ok _ _ _ _ H0 Hscan) as Hr.
  destruct (Z.eqb_spec r (JS._rows g)) as [->|Hne].
  - simplify_eq. left. eauto.
  - destruct Hr as [?|[Hr Hget]]; [done|].
    apply bind_Ok in H as (b' & Hw & H).
    apply write2_Ok in Hw as (col' & Hcol' & _ & ->). simplify_eq.
    apply bind_Ok in H as (s1 & Hup & H). simplify_eq.
    right. split; [lia|]. eauto.
Qed.
End Drop.

(** * Reachable games *)

(** The settings the constructor is meant for: at least one column, one
    row and a connect length of at least one. *)
Definition validSettings (settings : JS.Settings) : Prop :=
  1 ≤ JS.setting JS.cols settings ∧ 1 ≤ JS.setting JS.rows settings ∧
  1 ≤ JS.setting JS.connect settings.

(** The games the engine can be in: built by the constructor, then changed
    by drops of either player (directly, through [makeMove], or inside a
    search between [_pushState] and [_popState]). *)
Inductive reachable : JS.Game → Prop :=
| reach_new settings g :
    validSettings settings → JS.Connect4Game settings = Ok g → reachable g
| reach_drop g player column row g' :
    reachable g → isPlayer player →
    JS._dropPiece g player column = Ok (row, g') → reachable g'
| reach_move g player column move g' :
    reachable g → isPlayer player →
    JS.makeMove g player column = Ok (move, g') → reachable g'
| reach_push g g' :
    reachable g → JS._pushState g = Ok g' → reachable g'
| reach_pop g :
    reachable g → (2 ≤ length (JS._stateStack g))%nat → reachable (JS._popState g).

(** The constants of the engine. *)
Definition config (g : JS.Game) : Prop :=
  1 ≤ JS._cols g ∧ 1 ≤ JS._rows g ∧ 1 ≤ JS._connect g ∧ JS._none g = -1 ∧
  JS._magicWinningNumber g = shl 1 (JS._connect g) ∧
  JS._winningPlaces g = JS._findWinningPlaces (JS._cols g) (JS._rows g) (JS._connect g).

(** The piece count and the empty cells add up to the board. *)
Definition counted (g : JS.Game) (s : JS.State) : Prop :=
  JS.numberOfPieces s + empties (JS.board s) = JS._cols g * JS._rows g.

(** The scores are the sums of the potentials, no potential can outgrow
    [2 ^ n], and no line is contested by both players. *)
Definition scored (n : Z) (s : JS.State) : Prop :=
  ∃ a0 a1, JS.stats s = [a0; a1] ∧ JS.score s = [sumZ a0; sumZ a1] ∧
    bounded n (λ L, room L (JS.board s) (JS.map s)) a0 ∧
    bounded n (λ L, room L (JS.board s) (JS.map s)) a1 ∧
    exclusive a0 a1.

Definition Inv (g : JS.Game) : Prop :=
  config g ∧ JS._stateStack g ≠ [] ∧ Forall (counted g) (JS._stateStack g).

Definition InvScored (g : JS.Game) : Prop :=
  Forall (scored (JS._connect g)) (JS._stateStack g).

Lemma scored_duo p n s :
  isPlayer p →
  scored n s ↔
  ∃ mine theirs, JS.stats s = duo p mine theirs ∧
    JS.score s = duo p (sumZ mine) (sumZ theirs) ∧
    bounded n (λ L, room L (JS.board s) (JS.map s)) mine ∧
    bounded n (λ L, room L (JS.board s) (JS.map s)) theirs ∧
    exclusive mine theirs.
Proof.
  intros [->| ->]; unfold scored, duo; simpl; split.
  - intros (a0 & a1 & ?); exists a0, a1; done.
  - intros (a0 & a1 & ?); exists a0, a1; done.
  - intros (a0 & a1 & ? & ? & ? & ? & ?%exclusive_sym); exists a1, a0; done.
  - intros (a1 & a0 & ? & ? & ? & ? & ?%exclusive_sym); exists a0, a1; done.
Qed.

Lemma bounded_ext n R R' arr :
  (∀ L, R L = R' L) → bounded n R arr → bounded n R' arr.
Proof. intros E H L v Hv. rewrite <- E. by apply H. Qed.

Section DropInv.
Variable g : JS.Game.
Hypothesis Hcfg : config g.

Lemma dropInto_counted p x s row s' :
  isPlayer p → counted g s → JS.dropInto g p x s = Ok (row, s') → counted g s'.
Proof.
  destruct Hcfg as (_ & Hrows & _ & Hnone & _).
  intros Hp Hc H. apply dropInto_Ok in H; [|done..].
  destruct H as [(_ & -> & _)|(Hrow & col & Hcol & Hcell & Hup)]; [done|].
  apply updateScore_frame in Hup as (Hb & _ & Hn & _). simpl in Hb, Hn.
  unfold counted in *. rewrite Hb, Hn.
  rewrite (empties_set _ _ _ _ _ Hcol Hcell); [lia|]. destruct Hp; lia.
Qed.

(** A drop adds [td ≥ 0] to the mover's score and takes [od ≥ 0] from the
    opponent's. *)
Lemma dropInto_scored p x s row s' :
  JS._connect g ≤ 30 → isPlayer p → scored (JS._connect g) s →
  JS.dropInto g p x s = Ok (row, s') →
  scored (JS._connect g) s' ∧
  ∃ sm st td od, JS.score s = duo p sm st ∧ JS.score s' = duo p (sm + td) (st - od) ∧
                 0 ≤ td ∧ 0 ≤ od.
Proof.
  destruct Hcfg as (_ & Hrows & Hconn & Hnone & _).
  intros H30 Hp Hs H. pose proof Hs as Hs0.
  apply (scored_duo p) in Hs as (mine & theirs & Est & Esc & Hbm & Hbt & Hex); [|done].
  apply dropInto_Ok in H; [|done..].
  destruct H as [(_ & -> & _)|(Hrow & col & Hcol & Hcell & Hup)].
  { split; [done|]. exists (sumZ mine), (sumZ theirs), 0, 0.
    rewrite Esc. split; [done|]. split; [|lia]. f_equal; lia. }
  pose proof (updateScore_frame _ _ _ _ _ _ Hup) as (Hb & Hm & _ & _). simpl in Hb, Hm.
  eapply updateScore_Ok in Hup as (mcol & cell & td & od & mine' & theirs' & win'
    & Hmcol & Hmcell & Hloop & Est' & Esc'); [|done..]. simpl in Hmcol, Hmcell.
  assert (p ≠ -1) as Hp1 by (destruct Hp; lia).
  pose (R := λ L, room L (JS.board s') (JS.map s')).
  assert (∀ L, R L + count L cell = room L (JS.board s) (JS.map s)) as HR.
  { intros L. unfold R. rewrite Hb, Hm.
    rewrite (room_set L _ _ _ _ _ _ _ _ Hcol Hcell Hmcol Hmcell Hp1). lia. }
  apply (scoreLoop_inv g p Hp (JS._connect g) ltac:(lia) R
           ltac:(intros; apply room_nonneg) mine theirs) in Hloop.
  - destruct Hloop as (mine'' & theirs'' & E & Htd & Hod & Hsm & Hst & Hbm' & Hbt' & Hex').
    simpl in *. apply duo_inj in E as [<- <-].
    split.
    + apply (scored_duo p); [done|]. exists mine', theirs'.
      split; [done|]. split; [rewrite Esc', Hsm, Hst; done|].
      split; [|split; [|done]].
      * eapply bounded_ext; [|exact Hbm']. intros L. simpl. unfold count. simpl. unfold R. lia.
      * eapply bounded_ext; [|exact Hbt']. intros L. simpl. unfold count. simpl. unfold R. lia.
    + exists (sumZ mine), (sumZ theirs), td, od. rewrite Esc, Esc'. done.
  - exists mine, theirs. simpl. split; [done|]. split; [lia|]. split; [lia|].
    split; [lia|]. split; [lia|].
    split; [|split; [|done]].
    + eapply bounded_ext; [|exact Hbm]. intros L. by rewrite HR.
    + eapply bounded_ext; [|exact Hbt]. intros L. by rewrite HR.
Qed.
End DropInv.

Lemma enumerated_nonneg cols rows connect :
  0 ≤ cols → 0 ≤ rows → 0 ≤ enumerated cols rows connect.
Proof. intros. unfold enumerated. nia. Qed.

(** What the constructor builds. *)
Lemma Connect4Game_Ok settings g :
  validSettings settings → JS.Connect4Game settings = Ok g →
  config g ∧
  ∃ m, MapInv (JS._cols g) (JS._rows g) (JS._connect g) (JS._winningPlaces g)
         (m, JS._winningPlaces g) ∧
       0 ≤ JS._winningPlaces g ∧
       JS._stateStack g =
         [JS.mkState 0 (-1) false false
            (replicate (Z.to_nat (JS._cols g)) (replicate (Z.to_nat (JS._rows g)) (-1)))
            [replicate (Z.to_nat (JS._winningPlaces g)) 1;
             replicate (Z.to_nat (JS._winningPlaces g)) 1]
            m [] [JS._winningPlaces g; JS._winningPlaces g]].
Proof.
  intros (Hc & Hr & Hn) H. unfold JS.Connect4Game in H.
  apply bind_Ok in H as ([m w] & Hmap & H).
  apply bind_Ok in H as (order & _ & H). simplify_eq. simpl.
  split; [done|].
  destruct (setupMap_spec (JS.setting JS.cols settings) (JS.setting JS.rows settings)
              (JS.setting JS.connect settings)) as (st & E & HI); [lia..|].
  rewrite Hmap in E. simplify_eq.
  pose proof HI as (_ & Hw & _). simpl in Hw.
  rewrite enumerated_closed_form in HI, Hw by lia.
  exists m. split; [by rewrite <- Hw at 2|]. split; [|done].
  rewrite <- enumerated_closed_form by lia. apply enumerated_nonneg; lia.
Qed.

(** ** Invariants of the states on the stack *)

Section Reach.
(** A property of the states that the constructor establishes, drops keep
    and the recorded winning coordinates do not affect. *)
Variable Q : JS.Game → JS.State → Prop.
Hypothesis Q_stack : ∀ g st s, Q (JS.withStack g st) s ↔ Q g s.
Hypothesis Q_init : ∀ settings g,
  validSettings settings → JS.Connect4Game settings = Ok g →
  Forall (Q g) (JS._stateStack g).
Hypothesis Q_drop : ∀ g p x s row s',
  config g → isPlayer p → Q g s → JS.dropInto g p x s = Ok (row, s') → Q g s'.
Hypothesis Q_coords : ∀ g s coords,
  Q g s →
  Q g (JS.mkState (JS.numberOfPieces s) (JS.winner s) (JS.tie s) (JS.gameOver s)
         (JS.board s) (JS.stats s) (JS.map s) coords (JS.score s)).

Definition Good (g : JS.Game) : Prop :=
  config g ∧ JS._stateStack g ≠ [] ∧ Forall (Q g) (JS._stateStack g).

Lemma Good_withStack g st :
  config g → st ≠ [] → Forall (Q g) st → Good (JS.withStack g st).
Proof.
  intros Hc Hne HQ. split; [exact Hc|]. split; [exact Hne|]. simpl.
  eapply Forall_impl; [exact HQ|]. intros s. apply Q_stack.
Qed.

Lemma dropPiece_Ok g p x row g' :
  JS._dropPiece g p x = Ok (row, g') →
  ∃ s s' rest, JS._stateStack g = s :: rest ∧
    JS.dropInto g p x s = Ok (row, s') ∧ g' = JS.withStack g (s' :: rest).
Proof.
  unfold JS._dropPiece, JS.currentState, JS.setCurrent. intros H.
  destruct (JS._stateStack g) as [|s rest] eqn:E; [done|]. simpl in H.
  apply bind_Ok in H as ([row' s'] & Hd & H). simplify_eq.
  by exists s, s', rest.
Qed.

Lemma Good_drop g p x row g' :
  Good g → isPlayer p → JS._dropPiece g p x = Ok (row, g') → Good g'.
Proof.
  intros (Hc & _ & HQ) Hp H.
  apply dropPiece_Ok in H as (s & s' & rest & E & Hd & ->).
  rewrite E in HQ. apply Forall_cons in HQ as [Hs Hrest].
  apply Good_withStack; [done..|]. constructor; [|done]. eauto.
Qed.

Lemma Good_move g p x move g' :
  Good g → isPlayer p → JS.makeMove g p x = Ok (move, g') → Good g'.
Proof.
  intros HG Hp H. unfold JS.makeMove in H.
  destruct (_ || _); [done|].
  apply bind_Ok in H as ([row g1] & Hd & H).
  pose proof (Good_drop _ _ _ _ _ HG Hp Hd) as (Hc & Hne & HQ).
  apply bind_Ok in H as (s1 & Hs1 & H).
  apply bind_Ok in H as (g2 & H2 & H). simplify_eq.
  destruct (_ && _); [|by simplify_eq].
  apply bind_Ok in H2 as (coords & _ & H2). simplify_eq.
  unfold JS.currentState in Hs1. unfold JS.setCurrent.
  destruct (JS._stateStack g1) as [|s rest] eqn:E; [done|]. simplify_eq. simpl.
  apply Forall_cons in HQ as [Hs Hrest].
  apply Good_withStack; [done..|]. constructor; [|done]. by apply Q_coords.
Qed.

Theorem reachable_Good g : reachable g → Good g.
Proof.
  induction 1 as [settings g Hv Hnew|g p x row g' _ IH Hp Hd|g p x mv g' _ IH Hp Hm
                 |g g' _ IH Hpush|g _ IH Hlen].
  - destruct (Connect4Game_Ok _ _ Hv Hnew) as (Hc & m & _ & _ & E).
    split; [done|]. split; [by rewrite E|]. eauto.
  - eauto using Good_drop.
  - eauto using Good_move.
  - destruct IH as (Hc & Hne & HQ). unfold JS._pushState, JS.currentState in Hpush.
    destruct (JS._stateStack g) as [|s rest] eqn:E; [done|]. simpl in Hpush. simplify_eq.
    apply Good_withStack; [done..|]. apply Forall_cons in HQ as [? ?].
    by repeat constructor.
  - destruct IH as (Hc & Hne & HQ). unfold JS._popState.
    destruct (JS._stateStack g) as [|s [|s' rest]] eqn:E; simpl in Hlen; [lia..|].
    apply Good_withStack; [done..|]. simpl. by apply Forall_cons in HQ as [? ?].
Qed.
End Reach.

Lemma reachable_counted g :
  reachable g → config g ∧ JS._stateStack g ≠ [] ∧ Forall (counted g) (JS._stateStack g).
Proof.
  apply (reachable_Good counted).
  - done.
  - intros settings g' Hv Hnew.
    destruct (Connect4Game_Ok _ _ Hv Hnew) as ((Hc & Hr & _) & m & _ & _ & ->).
    repeat constructor. unfold counted. simpl. rewrite empties_replicate. lia.
  - intros g' p x s row s' Hc Hp. by apply dropInto_counted.
  - done.
Qed.

Lemma reachable_scored g :
  reachable g → JS._connect g ≤ 30 → Forall (scored (JS._connect g)) (JS._stateStack g).
Proof.
  intros Hr H30.
  destruct (reachable_Good (λ g s, JS._connect g ≤ 30 → scored (JS._connect g) s))
    with (g := g) as (_ & _ & HQ); try done.
  - intros settings g' Hv Hnew.
    destruct (Connect4Game_Ok _ _ Hv Hnew)
      as ((Hc & Hrw & Hn & _) & m & (Hd & _ & _ & Hocc) & Hw & ->).
    repeat constructor. intros _. simpl in Hd, Hocc.
    eexists _, _. simpl. split; [done|].
    split; [by rewrite sumZ_replicate, Z2Nat.id, Z.mul_1_r by done|].
    assert (bounded (JS._connect g')
      (λ L, room L (replicate (Z.to_nat (JS._cols g'))
                      (replicate (Z.to_nat (JS._rows g')) (-1))) m)
      (replicate (Z.to_nat (JS._winningPlaces g')) 1)) as Hb.
    { intros L v HL. apply get_Some in HL as [HL0 HL].
      apply lookup_replicate in HL as [-> HL].
      rewrite (room_replicate L _ _ m) by (done || lia). rewrite Hocc.
      rewrite bool_decide_eq_true_2 by lia. lia. }
    split; [done|]. split; [done|].
    intros L x y [_ Hx]%get_Some [_ Hy]%get_Some _ _.
    apply lookup_replicate in Hx as [-> _]. by apply lookup_replicate in Hy as [-> _].
  - intros g' p x s row s' Hc Hp Hs Hd H30'.
    by destruct (dropInto_scored g' Hc p x s row s' H30' Hp (Hs H30') Hd).
  - eapply Forall_impl; [exact HQ|]. simpl. auto.
Qed.

(** * The line count and the drop order *)

(** C4: for a board of at least one column and row and a connect length of
    at least one, the four passes of [_setupMap] succeed and number exactly
    [_findWinningPlaces] lines: the final [winIndex] is the closed form, and
    the ids listed in the map are [0 .. winIndex-1], each in [connect] cells. *)
Theorem totalLines_is_enumeration_count (W H n : Z) :
  1 ≤ W → 1 ≤ H → 1 ≤ n →
  ∃ m, JS._setupMap W H n = Ok (m, JS._findWinningPlaces W H n) ∧
       ∀ L, occ L m = if bool_decide (0 ≤ L < JS._findWinningPlaces W H n) then n else 0.
Proof.
  intros HW HH Hn.
  destruct (setupMap_spec W H n) as ([m w] & E & _ & Hw & _ & Hocc); [lia..|].
  simpl in Hw, Hocc. rewrite enumerated_closed_form in Hw, Hocc by lia.
  exists m. subst w. split; [exact E|exact Hocc].
Qed.

Lemma totalLines_is_enumeration_count_witness :
  ∃ m, JS._setupMap 7 6 4 = Ok (m, JS._findWinningPlaces 7 6 4) ∧
       ∀ L, occ L m = if bool_decide (0 ≤ L < JS._findWinningPlaces 7 6 4) then 4 else 0.
Proof. apply (totalLines_is_enumeration_count 7 6 4); lia. Defined.

(** C9: with six columns [_setupDropOrder] starts at [(6-1)/2 = 5/2] and
    yields 5/2, 7/2, 3/2, 9/2, 1/2, 11/2; none of them is a column index. *)
Theorem setupDropOrder_even_width_fractional :
  JS._setupDropOrder 6 = Ok [5 # 2; 7 # 2; 3 # 2; 9 # 2; 1 # 2; 11 # 2]%Q ∧
  Forall (λ q, index q = None) [5 # 2; 7 # 2; 3 # 2; 9 # 2; 1 # 2; 11 # 2]%Q.
Proof. split; [reflexivity|]. repeat constructor. Qed.

(** * Example games *)

Definition noGame : JS.Game := JS.mkGame 0 0 0 0 0 0 0 [] [].

Definition play (settings : JS.Settings) (moves : list (Z * Z)) : JS.Game :=
  match JS.Connect4Game settings ≫= JS.drops moves with
  | Ok g => g
  | Throw _ => noGame
  end.

(** The standard game, empty and after the two players dropped into the
    centre column. *)
Definition standard : JS.Game := Eval vm_compute in play JS.defaults [].
Definition centre1 : JS.Game := Eval vm_compute in play JS.defaults [(0, 3)].
Definition centre2 : JS.Game := Eval vm_compute in play JS.defaults [(0, 3); (1, 3)].

(** One column of two rows, connect 2, filled by the two players. *)
Definition tower : JS.Settings := JS.mkSettings (Some 1) (Some 2) (Some 2) None.
Definition towerFull : JS.Game := Eval vm_compute in play tower [(0, 0); (1, 0)].

(** One row of 31 columns, connect 31, filled by player 0 from the left. *)
Definition row31 : JS.Settings := JS.mkSettings (Some 31) (Some 1) (Some 31) None.
Definition fill31 : list (Z * Z) :=
  (λ c : nat, (0, Z.of_nat c)) <$> seq 0 31.
Definition row31Full : JS.Game := Eval vm_compute in play row31 fill31.

(** The same row one piece earlier: the 30 leftmost columns are filled. *)
Definition row31Last : JS.Game := Eval vm_compute in play row31 (take 30 fill31).

Lemma reachable_drops moves g g' :
  reachable g → Forall (λ m, isPlayer m.1) moves → JS.drops moves g = Ok g' →
  reachable g'.
Proof.
  unfold JS.drops. revert g. induction moves as [|[p x] moves IH]; intros g Hr Hp H.
  - simpl in H. by simplify_eq.
  - simpl in H. apply Forall_cons in Hp as [Hp Hps].
    apply bind_Ok in H as (g1 & H1 & H).
    apply bind_Ok in H1 as ([row g1'] & Hd & H1). simplify_eq.
    eapply IH; [|done..]. eapply reach_drop; eauto.
Qed.

Lemma reachable_play settings moves g :
  validSettings settings → Forall (λ m, isPlayer m.1) moves →
  JS.Connect4Game settings ≫= JS.drops moves = Ok g → reachable g.
Proof.
  intros Hv Hp H. apply bind_Ok in H as (g0 & Hnew & H).
  eapply reachable_drops; [|done..]. by eapply reach_new.
Qed.

Lemma valid_defaults : validSettings JS.defaults.
Proof. unfold validSettings, JS.setting. simpl. lia. Qed.

Lemma reachable_standard : reachable standard.
Proof. by apply (reach_new JS.defaults); [apply valid_defaults|]. Qed.

Lemma reachable_centre1 : reachable centre1.
Proof.
  apply (reachable_play JS.defaults [(0, 3)]); [apply valid_defaults| |by vm_compute].
  repeat constructor.
Qed.

Lemma reachable_centre2 : reachable centre2.
Proof.
  apply (reachable_play JS.defaults [(0, 3); (1, 3)]); [apply valid_defaults| |by vm_compute].
  repeat constructor; by right.
Qed.

Lemma reachable_towerFull : reachable towerFull.
Proof.
  apply (reachable_play tower [(0, 0); (1, 0)]); [unfold validSettings, JS.setting; simpl; lia| |by vm_compute].
  repeat constructor; by right.
Qed.

Lemma reachable_row31Full : reachable row31Full.
Proof.
  apply (reachable_play row31 fill31); [unfold validSettings, JS.setting; simpl; lia| |by vm_compute].
  apply Forall_fmap, Forall_forall. intros c _. by left.
Qed.

Lemma reachable_row31Last : reachable row31Last.
Proof.
  apply (reachable_play row31 (take 30 fill31));
    [unfold validSettings, JS.setting; simpl; lia| |by vm_compute].
  apply Forall_take, Forall_fmap, Forall_forall. intros c _. by left.
Qed.

(** * Drops and scores *)

Lemma current_in_stack g s : JS.currentState g = Ok s → s ∈ JS._stateStack g.
Proof.
  unfold JS.currentState. destruct (JS._stateStack g); intros; simplify_eq. left.
Qed.

Lemma setCurrent_current g s : JS.currentState g = Ok s → JS.setCurrent g s = g.
Proof.
  unfold JS.currentState, JS.setCurrent, JS.withStack.
  destruct g as [? ? ? ? ? ? ? [|s0 rest] ?]; simpl; intros; by simplify_eq.
Qed.




(** C5: in a reachable game, [_dropPiece] into a column whose every row
    holds a piece returns -1 and leaves the game as it was: the same board,
    scores, potentials, winner and piece count. *)
Theorem drop_into_full_column g player column s col :
  reachable g → JS.currentState g = Ok s →
  get (JS.board s) column = Some col →
  (∀ row, 0 ≤ row < JS._rows g → ∃ v, get col row = Some v ∧ v ≠ JS._none g) →
  JS._dropPiece g player column = Ok (-1, g).
Proof.
  intros Hr Hs Hcol Hfull.
  pose proof (reachable_counted g Hr) as ((_ & Hrows & _) & _ & _).
  assert (JS.scanRow (S (Z.to_nat (JS._rows g))) g col 0 = Ok (JS._rows g)) as Hscan.
  { apply scanRow_full; [lia|lia|].
    intros r Hrw. destruct (Hfull r Hrw) as (v & Hv & Hne).
    unfold JS.occupied. rewrite Hv. by apply negb_true_iff, Z.eqb_neq. }
  unfold JS._dropPiece. rewrite Hs, bind_Ok_l.
  unfold JS.dropInto, deref. rewrite Hcol, bind_Ok_l, Hscan, bind_Ok_l, Z.eqb_refl, bind_Ok_l.
  by rewrite setCurrent_current.
Qed.

Lemma drop_into_full_column_witness :
  reachable towerFull ∧
  JS.currentState towerFull = Ok (JS.mkState 2 (-1) true true [[0; 1]] [[0]; [0]]
                                    [[[0]; [0]]] [] [0; 0]) ∧
  get [[0; 1]] 0 = Some [0; 1] ∧
  (∀ row, 0 ≤ row < JS._rows towerFull → ∃ v, get [0; 1] row = Some v ∧ v ≠ JS._none towerFull) ∧
  JS._dropPiece towerFull 0 0 = Ok (-1, towerFull).
Proof.
  assert (∀ row, 0 ≤ row < JS._rows towerFull →
            ∃ v, get [0; 1] row = Some v ∧ v ≠ JS._none towerFull) as Hfull.
  { intros row Hrow. change (JS._rows towerFull) with 2 in Hrow.
    assert (row = 0 ∨ row = 1) as [->| ->] by lia; eexists; (split; [reflexivity|discriminate]). }
  split; [apply reachable_towerFull|]. split; [reflexivity|]. split; [reflexivity|].
  split; [exact Hfull|].
  exact (drop_into_full_column towerFull 0 0 _ [0; 1] reachable_towerFull eq_refl eq_refl Hfull).
Defined.

(** C6: the score is not always the sum of the potentials.  On one row of
    31 columns with a connect length of 31, when player 0 holds the 30
    leftmost cells the score and the one potential of player 0 are both
    [2^30]; the drop into the last column adds [2^30] to the score, which
    becomes [2^31], and shifts the potential with [<<=], which wraps it to
    [-2^31]. *)
Theorem score_is_not_sum_connect31 :
  (reachable row31Last ∧
   ∃ s, JS.currentState row31Last = Ok s ∧
     JS.score s = [2 ^ 30; 0] ∧ JS.stats s = [[2 ^ 30]; [0]]) ∧
  JS._dropPiece row31Last 0 30 = Ok (0, row31Full) ∧
  (reachable row31Full ∧
   ∃ s, JS.currentState row31Full = Ok s ∧
     JS.score s = [2 ^ 31; 0] ∧ JS.stats s = [[- 2 ^ 31]; [0]]) ∧
  ¬ (∀ g s p sc pot,
       reachable g → JS.currentState g = Ok s → isPlayer p →
       get (JS.score s) p = Some sc → get (JS.stats s) p = Some pot →
       sc = sumZ pot).
Proof.
  split; [split; [apply reachable_row31Last|]|].
  { eexists. split; [reflexivity|]. by vm_compute. }
  split; [by vm_compute|].
  split; [split; [apply reachable_row31Full|]|].
  { eexists. split; [reflexivity|]. by vm_compute. }
  intros H.
  specialize (H row31Full _ 0 (2 ^ 31) [- 2 ^ 31] reachable_row31Full eq_refl
                (or_introl eq_refl) eq_refl eq_refl).
  vm_compute in H. discriminate H.
Qed.

(** X26: in every state of a reachable game with a connect length of at
    most 30 (the current one and those beneath it on the stack), each score
    is the sum of that player's potentials, and a line on which both
    potentials are non-zero has both equal to 1. *)
Theorem scores_are_potential_sums g s :
  reachable g → JS._connect g ≤ 30 → s ∈ JS._stateStack g →
  ∃ pot0 pot1,
    JS.stats s = [pot0; pot1] ∧ JS.score s = [sumZ pot0; sumZ pot1] ∧
    ∀ L x y, get pot0 L = Some x → get pot1 L = Some y → x ≠ 0 → y ≠ 0 →
             x = 1 ∧ y = 1.
Proof.
  intros Hr H30 Hin.
  pose proof (reachable_scored g Hr H30) as Hs.
  rewrite Forall_forall in Hs.
  destruct (Hs s Hin) as (a0 & a1 & Est & Esc & _ & _ & Hex).
  by exists a0, a1.
Qed.

Lemma scores_are_potential_sums_witness :
  reachable centre2 ∧ JS._connect centre2 ≤ 30 ∧
  ∃ s, s ∈ JS._stateStack centre2 ∧
  ∃ pot0 pot1,
    JS.stats s = [pot0; pot1] ∧ JS.score s = [sumZ pot0; sumZ pot1] ∧
    ∀ L x y, get pot0 L = Some x → get pot1 L = Some y → x ≠ 0 → y ≠ 0 →
             x = 1 ∧ y = 1.
Proof.
  assert (JS._connect centre2 ≤ 30) as H30 by (vm_compute; discriminate).
  split; [apply reachable_centre2|]. split; [exact H30|].
  destruct (JS._stateStack centre2) as [|s rest] eqn:E; [discriminate E|].
  exists s.
  assert (s ∈ JS._stateStack centre2) as Hin by (rewrite E; left).
  split; [by rewrite <- E|].
  exact (scores_are_potential_sums centre2 s reachable_centre2 H30 Hin).
Defined.

(** C7: in a reachable game [isTie()] returns, and it returns true exactly
    when the piece count is [cols * rows] and no winner is recorded. *)
Theorem isTie_iff_full_and_no_winner g :
  reachable g →
  ∃ s b, JS.currentState g = Ok s ∧ JS.isTie g = Ok b ∧
    (b = true ↔ JS.numberOfPieces s = JS._cols g * JS._rows g ∧ JS.winner s = JS._none g).
Proof.
  intros Hr. destruct (reachable_counted g Hr) as (_ & Hne & Hc).
  unfold JS.isTie, JS.currentState.
  destruct (JS._stateStack g) as [|s rest]; [done|].
  apply Forall_cons in Hc as [Hc _]. unfold counted in Hc.
  pose proof (empties_nonneg (JS.board s)).
  exists s, (JS.isTieOf g s). split; [done|]. split; [done|].
  unfold JS.isTieOf. rewrite andb_true_iff, Z.eqb_eq, Z.leb_le. lia.
Qed.

Lemma isTie_iff_full_and_no_winner_witness :
  reachable towerFull ∧
  ∃ s b, JS.currentState towerFull = Ok s ∧ JS.isTie towerFull = Ok b ∧
    (b = true ↔ JS.numberOfPieces s = JS._cols towerFull * JS._rows towerFull
               ∧ JS.winner s = JS._none towerFull).
Proof.
  split; [apply reachable_towerFull|].
  exact (isTie_iff_full_and_no_winner towerFull reachable_towerFull).
Defined.

(** * The opening shortcut *)

(** The geometry the shortcut is written for. *)
Definition standardGeometry (g : JS.Game) : Prop :=
  JS._cols g = 7 ∧ JS._rows g = 6 ∧ JS._connect g = 4.

(** C2 as stated fails: after player 0 dropped into column 3 of the
    standard game the bottom cell of the centre column is occupied, and the
    shortcut fires. *)
Lemma shortcut_fires_on_occupied_centre :
  ¬ (∀ g s, reachable g → JS.currentState g = Ok s →
       (JS.openingShortcut g s = Ok true ↔
        standardGeometry g ∧ JS.numberOfPieces s ≤ 1 ∧
        ∃ column3, get (JS.board s) 3 = Some column3 ∧ get column3 0 = Some (JS._none g))).
Proof.
  intros H. destruct (H centre1 _ reachable_centre1 eq_refl) as [H1 _].
  destruct (H1 eq_refl) as (_ & _ & column3 & E3 & E0).
  vm_compute in E3. injection E3 as <-. discriminate E0.
Qed.

(** C2, amended: on the standard board, when no piece has been played, or
    one piece has been played and it lies at the bottom of the centre
    column, [autoMove] is [makeMove(player, 3)], whatever the level and the
    random draws; on any other geometry, and once two pieces have been
    played, the shortcut does not fire. *)
Theorem opening_shortcut_standard_first_moves g s :
  JS.currentState g = Ok s →
  (standardGeometry g →
   JS.numberOfPieces s = 0 ∨
   (JS.numberOfPieces s = 1 ∧
    ∃ column3 v, get (JS.board s) 3 = Some column3 ∧ get column3 0 = Some v ∧ isPlayer v) →
   JS.openingShortcut g s = Ok true ∧
   ∀ fuel random draws player ai,
     JS.autoMove fuel random draws g player ai =
     JS.makeMove g player 3 ≫= λ '(move, g'), Ok (move, g', draws)) ∧
  (¬ standardGeometry g ∨ 2 ≤ JS.numberOfPieces s →
   JS.openingShortcut g s = Ok false).
Proof.
  intros Hs. split.
  - intros (Hc & Hr & Hn) Hfirst.
    assert (JS.openingShortcut g s = Ok true) as Hsc.
    { unfold JS.openingShortcut. rewrite Hc, Hr, Hn.
      destruct Hfirst as [->|(-> & column3 & v & E3 & E0 & Hv)]; [done|]. simpl.
      unfold deref. rewrite E3, bind_Ok_l, E0. by destruct Hv as [->| ->]. }
    split; [done|]. intros fuel random draws player ai.
    unfold JS.autoMove. by rewrite Hs, bind_Ok_l, Hsc, bind_Ok_l.
  - intros Hno. unfold JS.openingShortcut, standardGeometry in *.
    destruct (Z.ltb_spec (JS.numberOfPieces s) 2), (Z.eqb_spec (JS._cols g) 7),
      (Z.eqb_spec (JS._rows g) 6), (Z.eqb_spec (JS._connect g) 4); simpl; try done.
    exfalso. destruct Hno as [Hno|Hno]; [by apply Hno|lia].
Qed.

Lemma opening_shortcut_standard_first_moves_witness :
  JS.currentState centre1 = Ok (hd (JS.mkState 0 0 false false [] [] [] [] [])
                                  (JS._stateStack centre1)) ∧
  JS.openingShortcut centre1 (hd (JS.mkState 0 0 false false [] [] [] [] [])
                                (JS._stateStack centre1)) = Ok true ∧
  JS.autoMove 0 (λ _, 0%Q) 0 centre1 1 None =
    JS.makeMove centre1 1 3 ≫= λ '(move, g'), Ok (move, g', 0%nat).
Proof.
  pose proof (opening_shortcut_standard_first_moves centre1 _ eq_refl) as [H _].
  destruct H as [Hsc Hauto].
  - by vm_compute.
  - right. split; [reflexivity|].
    eexists _, 0. split; [reflexivity|]. split; [reflexivity|by left].
  - split; [reflexivity|]. split; [exact Hsc|apply Hauto].
Defined.

(** The same condition in [c4_auto_move]: there the second clause asks for
    an occupied cell, [board[3][0] != C4_NONE]. *)
Lemma c4_opening_shortcut_iff num_of_pieces size_x size_y num_to_connect board :
  C4.opening_shortcut num_of_pieces size_x size_y num_to_connect board = true ↔
  num_of_pieces < 2 ∧ size_x = 7 ∧ size_y = 6 ∧ num_to_connect = 4 ∧
  (num_of_pieces = 0 ∨
   default C4.C4_NONE (column ← get board 3; get column 0) ≠ C4.C4_NONE).
Proof.
  unfold C4.opening_shortcut.
  rewrite !andb_true_iff, orb_true_iff, negb_true_iff, Z.ltb_lt, !Z.eqb_eq, Z.eqb_neq.
  tauto.
Qed.

(** * Ties in the root loop *)

Lemma coin_iff u : JS.coin u = true ↔ (1 # 2 <= u)%Q.
Proof.
  unfold JS.coin. rewrite Z.ltb_lt. split.
  - intros H. pose proof (Qfloor_le (u * 2)) as Hf.
    assert (1 <= u * 2)%Q as H1.
    { eapply Qle_trans; [|exact Hf]. change 1%Q with (inject_Z 1).
      rewrite <- Zle_Qle. lia. }
    unfold Qle in *. simpl in *. lia.
  - intros H. assert (1 <= u * 2)%Q as H1.
    { unfold Qle in *. simpl in *. lia. }
    apply Qfloor_resp_le in H1. change (Qfloor 1) with 1 in H1. lia.
Qed.

(** The values [Math.random()] returns, when they are the [n] multiples of
    [1/n] in [0, 1), each as likely as the others. *)
Definition grid (n : positive) : list Q := (λ i, i # n)%Q <$> seqZ 0 (Z.pos n).

(** The sequences of [len] values of [draws]. *)
Fixpoint sequences (draws : list Q) (len : nat) : list (list Q) :=
  match len with
  | O => [[]]
  | S len => u ← draws; cons u <$> sequences draws len
  end.

(** The column the root loop chooses among candidates of one value [v],
    met in the order [columns], when [Math.random()] returns [us] in turn. *)
Definition chosenOf (us : list Q) (columns : list Z) (v : float) : Z :=
  (JS.rootChoice (λ k, nth k us 0%Q) ((λ c, (c, v)) <$> columns)).1.2.

(** The tie-break in the words of the specification: each of [k] equally
    good candidates is the chosen one for one [k]-th of the equally likely
    sequences of draws.  The draws are the multiples of [1/n], where every
    count up to [k] divides [n], so that a chance of one in [count] is a
    whole number of draws. *)
Definition uniformTieBreak : Prop :=
  ∀ (n : positive) (columns : list Z) (v : float),
    NoDup columns → Forall (λ c, 0 ≤ c) columns →
    PrimFloat.ltb (PrimFloat.opp MAX_VALUE) v = true →
    (∀ count, (2 ≤ count ≤ length columns)%nat → Nat.divide count (Pos.to_nat n)) →
    ∀ column, column ∈ columns →
      (length columns *
       length (filter (λ us, chosenOf us columns v = column)
                 (sequences (grid n) (length columns - 1))) =
       length (sequences (grid n) (length columns - 1)))%nat.

Lemma ltb_irrefl x : PrimFloat.ltb x x = false.
Proof.
  rewrite FloatAxioms.ltb_spec. unfold SpecFloat.SFltb.
  destruct (FloatOps.Prim2SF x) as [s|s| |s m e]; simpl; try done; try by destruct s.
  rewrite Z.compare_refl.
  change (PosDef.Pos.compare_cont Eq m m) with (Pos.compare m m).
  rewrite Pos.compare_refl. by destruct s.
Qed.

Lemma ltb_eqb_refl x y : PrimFloat.ltb x y = true → PrimFloat.eqb y y = true.
Proof.
  rewrite FloatAxioms.ltb_spec, FloatAxioms.eqb_spec.
  unfold SpecFloat.SFltb, SpecFloat.SFeqb.
  destruct (FloatOps.Prim2SF y) as [s|s| |s m e]; simpl; try done; try by destruct s.
  - by destruct (FloatOps.Prim2SF x).
  - intros _. rewrite Z.compare_refl.
    change (PosDef.Pos.compare_cont Eq m m) with (Pos.compare m m).
    rewrite Pos.compare_refl. by destruct s.
Qed.

Lemma coin_Qle_bool u : JS.coin u = Qle_bool (1 # 2) u.
Proof.
  destruct (JS.coin u) eqn:Ec.
  - apply coin_iff, Qle_bool_iff in Ec. by rewrite Ec.
  - destruct (Qle_bool (1 # 2) u) eqn:Eq; [|done].
    apply Qle_bool_iff, coin_iff in Eq. congruence.
Qed.

(** The root loop over candidates of one value, from a state in which a
    column of that value is already the best. *)
Lemma rootChoice_ties random v others :
  PrimFloat.ltb v v = false → PrimFloat.eqb v v = true →
  Forall (λ c, c ≠ -1) others →
  ∀ best k, best ≠ -1 →
  ∃ chosen,
    foldl (λ '(bestWorst, bestColumn, k) '(column, goodness),
             JS.rootCompare random k goodness column bestWorst bestColumn)
          (v, best, k) ((λ c, (c, v)) <$> others) = (v, chosen, (k + length others)%nat) ∧
    chosen ≠ -1 ∧
    ((∀ j, (j < length others)%nat → ¬ (1 # 2 <= random (k + j)%nat)%Q) → chosen = best) ∧
    (∀ j c, others !! j = Some c → (1 # 2 <= random (k + j)%nat)%Q →
       (∀ i, (j < i < length others)%nat → ¬ (1 # 2 <= random (k + i)%nat)%Q) →
       chosen = c).
Proof.
  intros Hlt Heq Hall. induction Hall as [|c others Hc Hall IH]; intros best k Hb.
  - exists best. simpl. rewrite Nat.add_0_r. by repeat split.
  - csimpl. unfold JS.rootCompare at 2. rewrite Hlt, Heq.
    destruct (Z.eqb_spec best (-1)) as [|_]; [done|].
    rewrite coin_Qle_bool.
    destruct (Qle_bool (1 # 2) (random k)) eqn:Eu.
    + destruct (IH c (S k) Hc) as (chosen & E & Hne & Hnone & Hlast).
      exists chosen. rewrite E. split; [f_equal; lia|]. split; [done|]. split.
      * intros Hno. exfalso. apply (Hno 0%nat); [simpl; lia|].
        rewrite Nat.add_0_r. by apply Qle_bool_iff.
      * intros [|j] c' Hj Hu Hrest.
        -- simpl in Hj. injection Hj as <-. apply Hnone.
           intros i Hi. replace (S k + i)%nat with (k + S i)%nat by lia.
           apply Hrest. simpl. lia.
        -- simpl in Hj. apply (Hlast j c' Hj).
           ++ by replace (S k + j)%nat with (k + S j)%nat by lia.
           ++ intros i Hi. replace (S k + i)%nat with (k + S i)%nat by lia.
              apply Hrest. simpl. lia.
    + destruct (IH best (S k) Hb) as (chosen & E & Hne & Hnone & Hlast).
      exists chosen. rewrite E. split; [f_equal; lia|]. split; [done|]. split.
      * intros Hno. apply Hnone. intros i Hi.
        replace (S k + i)%nat with (k + S i)%nat by lia. apply Hno. simpl. lia.
      * intros [|j] c' Hj Hu Hrest.
        -- exfalso. rewrite Nat.add_0_r in Hu. apply Qle_bool_iff in Hu. congruence.
        -- simpl in Hj. apply (Hlast j c' Hj).
           ++ by replace (S k + j)%nat with (k + S j)%nat by lia.
           ++ intros i Hi. replace (S k + i)%nat with (k + S i)%nat by lia.
              apply Hrest. simpl. lia.
Qed.

Lemma rootChoice_tied random v first others :
  PrimFloat.ltb (PrimFloat.opp MAX_VALUE) v = true →
  first ≠ -1 → Forall (λ c, c ≠ -1) others →
  ∃ chosen,
    JS.rootChoice random ((first, v) :: ((λ c, (c, v)) <$> others))
      = (v, chosen, length others) ∧
    ((∀ j, (j < length others)%nat → ¬ (1 # 2 <= random j)%Q) → chosen = first) ∧
    (∀ j c, others !! j = Some c → (1 # 2 <= random j)%Q →
       (∀ i, (j < i < length others)%nat → ¬ (1 # 2 <= random i)%Q) → chosen = c).
Proof.
  intros Hv Hf Hall.
  destruct (rootChoice_ties random v others (ltb_irrefl v) (ltb_eqb_refl _ _ Hv) Hall
              first 0%nat Hf) as (chosen & E & _ & Hnone & Hlast).
  exists chosen. unfold JS.rootChoice. cbn [foldl].
  unfold JS.rootCompare at 2. rewrite Hv. by rewrite E.
Qed.

Lemma filter_all {A} (P : A → Prop) `{∀ x, Decision (P x)} (l : list A) :
  Forall P l → filter P l = l.
Proof.
  induction 1 as [|x l Hx _ IH]; [done|]. by rewrite filter_cons_True, IH.
Qed.

Lemma filter_none {A} (P : A → Prop) `{∀ x, Decision (P x)} (l : list A) :
  Forall (λ x, ¬ P x) l → filter P l = [].
Proof.
  induction 1 as [|x l Hx _ IH]; [done|]. by rewrite filter_cons_False.
Qed.

Lemma coin_grid i n : JS.coin (i # (2 * n)) = true ↔ Z.pos n ≤ i.
Proof.
  rewrite coin_iff. unfold Qle. simpl. lia.
Qed.

(** Of the [2n] multiples of [1/(2n)] in [0, 1), [n] make
    [Math.floor(Math.random()*2) > 0]. *)
Lemma coin_half n :
  length (filter (λ u, JS.coin u = true) (grid (2 * n))) = Pos.to_nat n.
Proof.
  unfold grid.
  replace (Z.pos (2 * n)) with (Z.pos n + Z.pos n) by lia.
  rewrite seqZ_app, fmap_app, filter_app, length_app by lia.
  rewrite filter_none, filter_all.
  - rewrite length_fmap, length_seqZ. simpl. lia.
  - apply Forall_fmap, Forall_forall. intros i Hi%elem_of_seqZ. simpl.
    apply coin_grid. lia.
  - apply Forall_fmap, Forall_forall. intros i Hi%elem_of_seqZ. simpl.
    rewrite coin_grid. lia.
Qed.

(** C3 as stated fails.  What the code does at a tie does not depend on
    how many ties came before: the third of three equally good candidates
    (columns 3, 4, 2 in loop order) replaces the best for 3 of the 6
    multiples of 1/6, not for 2 of them, and over the 36 equally likely
    pairs of draws the three columns are chosen 9, 9 and 18 times, not 12
    times each. *)
Lemma tie_break_is_not_uniform :
  let pairs := sequences (grid 6) 2 in
  let share := λ c, length (filter (λ us, chosenOf us [3; 4; 2] (num 5) = c) pairs) in
  length (filter (λ u, (JS.rootCompare (λ _, u) 0 (num 5) 2 (num 5) 4).1.2 = 2) (grid 6))
    = 3%nat ∧
  (length pairs, share 3, share 4, share 2) = (36, 9, 9, 18)%nat ∧
  ¬ uniformTieBreak.
Proof.
  split; [by vm_compute|]. split; [by vm_compute|].
  intros H.
  assert (NoDup [3; 4; 2]) as Hnd.
  { repeat constructor; rewrite ?elem_of_cons, ?elem_of_nil; intros ?; lia. }
  assert (Forall (λ c, 0 ≤ c) [3; 4; 2]) as Hpos by (repeat constructor; lia).
  assert (∀ count, (2 ≤ count ≤ 3)%nat → Nat.divide count (Pos.to_nat 6)) as Hdiv.
  { intros count Hc. assert (count = 2 ∨ count = 3)%nat as [->| ->] by lia;
      [by exists 3%nat|by exists 2%nat]. }
  specialize (H 6%positive [3; 4; 2] (num 5) Hnd Hpos eq_refl Hdiv 2).
  assert (2 ∈ [3; 4; 2]) as Hin by (rewrite !elem_of_cons; tauto).
  specialize (H Hin). vm_compute in H. discriminate H.
Qed.

(** C3, amended: when the goodness of a candidate equals the best so far,
    the candidate replaces the best column if none has been chosen yet
    ([bestColumn] is -1, and no number is drawn), and otherwise exactly when
    the draw of [Math.random()] is at least 1/2; the best value stays, and
    nothing depends on how many ties came before.  A candidate that ties
    with a chosen column replaces it for [n] of the [2n] multiples of
    [1/(2n)] in [0, 1).  Among candidates of one value above
    [-Number.MAX_VALUE] the column chosen is that of the last candidate
    whose draw was at least 1/2, and that of the first candidate when no
    draw was. *)
Theorem tie_replaces_on_coin :
  (∀ random k goodness column bestWorst bestColumn,
     PrimFloat.ltb bestWorst goodness = false →
     PrimFloat.eqb goodness bestWorst = true →
     JS.rootCompare random k goodness column bestWorst bestColumn =
       if bestColumn =? -1 then (bestWorst, column, k)
       else (bestWorst, if Qle_bool (1 # 2) (random k) then column else bestColumn, S k)) ∧
  (∀ n v column bestColumn,
     PrimFloat.eqb v v = true → bestColumn ≠ -1 → column ≠ bestColumn →
     length (filter (λ u, (JS.rootCompare (λ _, u) 0 v column v bestColumn).1.2 = column)
               (grid (2 * n))) = Pos.to_nat n) ∧
  (∀ random v first others,
     PrimFloat.ltb (PrimFloat.opp MAX_VALUE) v = true →
     0 ≤ first → Forall (λ c, 0 ≤ c) others →
     ∃ chosen,
       JS.rootChoice random ((first, v) :: ((λ c, (c, v)) <$> others))
         = (v, chosen, length others) ∧
       ((∀ j, (j < length others)%nat → ¬ (1 # 2 <= random j)%Q) → chosen = first) ∧
       (∀ j c, others !! j = Some c → (1 # 2 <= random j)%Q →
          (∀ i, (j < i < length others)%nat → ¬ (1 # 2 <= random i)%Q) → chosen = c)).
Proof.
  split; [|split].
  - intros random k goodness column bestWorst bestColumn Hlt Heq.
    unfold JS.rootCompare. rewrite Hlt, Heq, coin_Qle_bool.
    destruct (bestColumn =? -1); [done|]. by destruct (Qle_bool (1 # 2) (random k)).
  - intros n v column bestColumn Hv Hb Hc.
    rewrite <- (coin_half n). f_equal. apply list_filter_iff. intros u.
    unfold JS.rootCompare. rewrite ltb_irrefl, Hv.
    destruct (Z.eqb_spec bestColumn (-1)) as [|_]; [done|].
    destruct (JS.coin u); simpl; [done|]. split; [congruence|done].
  - intros random v first others Hv Hf Hall. apply rootChoice_tied; [done|lia|].
    eapply Forall_impl; [exact Hall|]. simpl. lia.
Qed.

Lemma tie_replaces_on_coin_witness :
  (PrimFloat.ltb (num 5) (num 5) = false ∧ PrimFloat.eqb (num 5) (num 5) = true ∧
   JS.rootCompare (λ _, 3 # 4)%Q 2 (num 5) 4 (num 5) 3 = (num 5, 4, 3%nat)) ∧
  (4 ≠ -1 ∧ 2 ≠ 4 ∧
   length (filter (λ u, (JS.rootCompare (λ _, u) 0 (num 5) 2 (num 5) 4).1.2 = 2)
             (grid (2 * 3))) = Pos.to_nat 3) ∧
  (PrimFloat.ltb (PrimFloat.opp MAX_VALUE) (num 5) = true ∧ 0 ≤ 3 ∧
   Forall (λ c, 0 ≤ c) [4; 2] ∧
   JS.rootChoice (λ k, nth k [3 # 4; 1 # 4] 0)%Q [(3, num 5); (4, num 5); (2, num 5)]
     = (num 5, 4, 2%nat)).
Proof.
  destruct tie_replaces_on_coin as (Hstep & Hhalf & Hloop).
  assert (Forall (λ c, 0 ≤ c) [4; 2]) as Hall by (repeat constructor; lia).
  split; [|split].
  - split; [reflexivity|]. split; [reflexivity|].
    exact (Hstep (λ _, 3 # 4)%Q 2%nat (num 5) 4 (num 5) 3 eq_refl eq_refl).
  - split; [lia|]. split; [lia|].
    apply (Hhalf 3%positive (num 5) 2 4 eq_refl); lia.
  - split; [reflexivity|]. split; [lia|]. split; [exact Hall|].
    destruct (Hloop (λ k, nth k [3 # 4; 1 # 4] 0)%Q (num 5) 3 [4; 2] eq_refl
                ltac:(lia) Hall) as (chosen & E & _ & Hlast).
    rewrite (Hlast 0%nat 4 eq_refl) in E.
    + exact E.
    + simpl. unfold Qle. simpl. lia.
    + intros i Hi. simpl in Hi. assert (i = 1)%nat as -> by lia.
      simpl. unfold Qle. simpl. lia.
Defined.

(** * The value of a win *)

(** C8: [Number.MAX_VALUE - depth] is [Number.MAX_VALUE] again at every
    depth a search can have, so a win at depth 2 is not valued above a win
    at depth 3. *)
Theorem winValue_absorbs_depth :
  Forall (λ depth, JS.winValue depth = MAX_VALUE) (Z.of_nat <$> seq 0 22) ∧
  PrimFloat.ltb (JS.winValue 3) (JS.winValue 2) = false.
Proof. split; [|reflexivity]. repeat constructor. Qed.

(** In [c4.c] the value is an [int], and a shallower win is worth more. *)
Lemma c4_win_value_decreases d1 d2 :
  d1 < d2 → C4.win_value d2 < C4.win_value d1.
Proof. unfold C4.win_value. lia. Qed.

(** * The state stack over the store *)

Definition vals (o : Heap.obj) : list Heap.val :=
  match o with
  | Heap.Arr elems => elems
  | Heap.Obj props => props.*2
  end.

(** References stay inside the store. *)
Definition inside (h : Heap.heap) (v : Heap.val) : Prop :=
  match v with
  | Heap.Ref l => (l < length h)%nat
  | _ => True
  end.

Definition Closed (h : Heap.heap) : Prop :=
  ∀ l o, h !! l = Some o → Forall (inside h) (vals o).

Section Frame.
(** The store held [n] objects when the copy was taken. *)
Variable n : nat.

(** A value that does not lead into the first [n] objects. *)
Definition fresh (v : Heap.val) : Prop :=
  match v with
  | Heap.Ref l => (n ≤ l)%nat
  | _ => True
  end.

(** The objects allocated since the copy refer only to one another. *)
Definition Above (h : Heap.heap) : Prop :=
  (n ≤ length h)%nat ∧
  ∀ l o, (n ≤ l)%nat → h !! l = Some o → Forall fresh (vals o).

(** The first [n] objects are as they were. *)
Definition keeps (h h' : Heap.heap) : Prop :=
  ∀ l, (l < n)%nat → h' !! l = h !! l.

(** A computation that, started among objects allocated since the copy,
    stays among them, and whose result satisfies [Post]. *)
Definition frame {A} (m : Heap.M A) (Post : A → Prop) : Prop :=
  ∀ h a h', Above h → m h = Ok (a, h') → Above h' ∧ keeps h h' ∧ Post a.

Lemma keeps_refl h : keeps h h.
Proof. by intros l _. Qed.

Ltac unchanged :=
  split; [assumption|split; [apply keeps_refl|simpl; auto]].

Lemma keeps_trans h1 h2 h3 : keeps h1 h2 → keeps h2 h3 → keeps h1 h3.
Proof. intros H12 H23 l Hl. by rewrite H23, H12. Qed.

Lemma frame_ret {A} (a : A) (Post : A → Prop) : Post a → frame (mret a) Post.
Proof. intros HP h a' h' HA H. injection H as <- <-. unchanged. Qed.

Lemma frame_throw {A} e (Post : A → Prop) : frame (Heap.throw e) Post.
Proof. intros h a h' _ H. discriminate H. Qed.

Lemma frame_bind {A B} (m : Heap.M A) (f : A → Heap.M B) P Q :
  frame m P → (∀ a, P a → frame (f a) Q) → frame (m ≫= f) Q.
Proof.
  intros Hm Hf h b h' HA H. unfold mbind, Heap.M_bind in H.
  destruct (m h) as [[a h1]|e] eqn:E; [|discriminate H].
  destruct (Hm _ _ _ HA E) as (HA1 & Hk1 & HP).
  destruct (Hf a HP _ _ _ HA1 H) as (HA2 & Hk2 & HQ).
  eauto using keeps_trans.
Qed.

Lemma frame_weaken {A} (m : Heap.M A) (P Q : A → Prop) :
  frame m P → (∀ a, P a → Q a) → frame m Q.
Proof. intros Hm HPQ h a h' HA H. destruct (Hm _ _ _ HA H) as (? & ? & ?). auto. Qed.

Lemma fresh_lookupProp key props :
  Forall fresh props.*2 → fresh (Heap.lookupProp key props).
Proof.
  intros H. unfold Heap.lookupProp.
  destruct (List.find _ props) as [kv|] eqn:E; [|done].
  apply find_some in E as [Hin _]. rewrite Forall_forall in H. apply H.
  apply list_elem_of_In in Hin. apply list_elem_of_fmap. by exists kv.
Qed.

Lemma fresh_updateProp key x props :
  fresh x → Forall fresh props.*2 → Forall fresh (Heap.updateProp key x props).*2.
Proof.
  intros Hx. induction props as [|kv props IH]; csimpl; intros H.
  - by repeat constructor.
  - apply Forall_cons in H as [H1 H2].
    destruct (String.eqb kv.1 key); csimpl; constructor; auto.
Qed.

Lemma frame_getProp v key : fresh v → frame (Heap.getProp v key) fresh.
Proof.
  intros Hv h a h' HA H. unfold Heap.getProp in H.
  destruct v as [z|b| |l]; simplify_eq; try (by unchanged).
  destruct (h !! l) as [[elems|props]|] eqn:E; simplify_eq.
  - unchanged.
  - split; [done|]. split; [apply keeps_refl|].
    apply fresh_lookupProp. by apply (proj2 HA l _ Hv E).
Qed.

Lemma frame_getIdx v i : fresh v → frame (Heap.getIdx v i) fresh.
Proof.
  intros Hv h a h' HA H. unfold Heap.getIdx in H.
  destruct v as [z|b| |l]; simplify_eq; try (by unchanged).
  destruct (h !! l) as [[elems|props]|] eqn:E; simplify_eq.
  - split; [done|]. split; [apply keeps_refl|].
    destruct (get elems i) as [x|] eqn:Ex; [|done]. simpl.
    apply get_Some in Ex as [_ Ex].
    pose proof (proj2 HA l _ Hv E) as HF. simpl in HF.
    rewrite Forall_forall in HF. apply HF. by eapply list_elem_of_lookup_2.
  - unchanged.
Qed.

Lemma frame_read_getProp v key : frame (Heap.getProp v key) (λ _, True).
Proof.
  intros h a h' HA H. unfold Heap.getProp in H.
  destruct v as [z|b| |l]; simplify_eq; try (by unchanged).
  destruct (h !! l) as [[elems|props]|]; simplify_eq; by unchanged.
Qed.

Lemma frame_read_getIdx v i : frame (Heap.getIdx v i) (λ _, True).
Proof.
  intros h a h' HA H. unfold Heap.getIdx in H.
  destruct v as [z|b| |l]; simplify_eq; try (by unchanged).
  destruct (h !! l) as [[elems|props]|]; simplify_eq; by unchanged.
Qed.

Lemma frame_getLength v : frame (Heap.getLength v) fresh.
Proof.
  intros h a h' HA H. unfold Heap.getLength in H.
  destruct v as [z|b| |l]; simplify_eq; try (by unchanged).
  destruct (h !! l) as [[elems|props]|] eqn:E; simplify_eq; unchanged.
Qed.

Lemma frame_toNum v (Post : Z → Prop) : (∀ z, Post z) → frame (Heap.toNum v) Post.
Proof.
  intros HP. destruct v; try apply frame_throw. by apply frame_ret.
Qed.

(** A write into an object allocated since the copy. *)
Lemma Above_insert h l o :
  Above h → (n ≤ l)%nat → Forall fresh (vals o) →
  Above (<[l := o]> h) ∧ keeps h (<[l := o]> h).
Proof.
  intros [Hlen HA] Hl Ho. split; [split|].
  - by rewrite length_insert.
  - intros l' o' Hl' E. destruct (decide (l = l')) as [<-|Hne].
    + apply list_lookup_insert_Some in E as [(_ & <- & _)|[? _]]; done.
    + rewrite list_lookup_insert_ne in E by done. eauto.
  - intros l' Hl'. apply list_lookup_insert_ne. lia.
Qed.

Lemma frame_setProp v key x (Post : unit → Prop) :
  fresh v → fresh x → Post tt → frame (Heap.setProp v key x) Post.
Proof.
  intros Hv Hx HP h a h' HA H. unfold Heap.setProp in H.
  destruct v as [z|b| |l]; simplify_eq; try (by unchanged).
  destruct (h !! l) as [[elems|props]|] eqn:E; simplify_eq.
  destruct (Above_insert h l (Heap.Obj (Heap.updateProp key x props)) HA Hv) as [? ?]; [|done].
  simpl. apply fresh_updateProp; [done|]. by apply (proj2 HA l _ Hv E).
Qed.

Lemma frame_setIdx v i x (Post : unit → Prop) :
  fresh v → fresh x → Post tt → frame (Heap.setIdx v i x) Post.
Proof.
  intros Hv Hx HP h a h' HA H. unfold Heap.setIdx in H.
  destruct v as [z|b| |l]; simplify_eq; try (by unchanged).
  destruct (h !! l) as [[elems|props]|] eqn:E; simplify_eq.
  pose proof (proj2 HA l _ Hv E) as HF. simpl in HF.
  destruct (_ && _).
  - simplify_eq.
    destruct (Above_insert h l (Heap.Arr (set elems i x)) HA Hv) as [? ?]; [|done].
    simpl. unfold set. by apply Forall_insert.
  - destruct (i =? _); simplify_eq.
    destruct (Above_insert h l (Heap.Arr (elems ++ [x])) HA Hv) as [? ?]; [|done].
    simpl. apply Forall_app. split; [done|]. by repeat constructor.
Qed.

Lemma frame_alloc o : Forall fresh (vals o) → frame (Heap.alloc o) fresh.
Proof.
  intros Ho h a h' [Hlen HA] H. unfold Heap.alloc in H. simplify_eq.
  split; [split|split].
  - rewrite length_app. lia.
  - intros l o' Hl E. apply lookup_app_Some in E as [E|[_ E]]; [eauto|].
    apply list_lookup_singleton_Some in E as [_ <-]. done.
  - intros l Hl. apply lookup_app_l. lia.
  - simpl. lia.
Qed.

Lemma frame_forUpM {St} lo hi (body : Z → St → Heap.M St) (I : St → Prop) s :
  (∀ i s, I s → frame (body i s) I) → I s → frame (Heap.forUpM lo hi body s) I.
Proof.
  intros Hbody HI h a h' HA H. unfold Heap.forUpM, forUp in H.
  generalize dependent (Z.to_nat (hi - lo)). intros k. revert lo s h HI HA.
  induction k as [|k IH]; intros lo s h HI HA H; simpl in H.
  - simplify_eq. unchanged.
  - apply bind_Ok in H as ([s1 h1] & H1 & H). simpl in H1.
    destruct (Hbody _ _ HI _ _ _ HA H1) as (HA1 & Hk1 & HI1).
    destruct (IH _ _ _ HI1 HA1 H) as (HA2 & Hk2 & HI2).
    eauto using keeps_trans.
Qed.

Lemma frame_forEachM {A St} (l : list A) (body : A → St → Heap.M St) (I : St → Prop) s :
  (∀ x s, I s → frame (body x s) I) → I s → frame (Heap.forEachM l body s) I.
Proof.
  intros Hbody HI h a h' HA H. unfold Heap.forEachM in H.
  revert s h HI HA H. induction l as [|x l IH]; intros s h HI HA H; simpl in H.
  - simplify_eq. unchanged.
  - apply bind_Ok in H as ([s1 h1] & H1 & H). simpl in H1.
    destruct (Hbody _ _ HI _ _ _ HA H1) as (HA1 & Hk1 & HI1).
    destruct (IH _ _ HI1 HA1 H) as (HA2 & Hk2 & HI2).
    eauto using keeps_trans.
Qed.
End Frame.

Ltac frame_step :=
  match goal with
  | |- frame _ (mret _) _ => apply frame_ret; try done
  | |- frame _ (Heap.throw _) _ => apply frame_throw
  | |- frame _ (Heap.toNum _) _ => apply (frame_toNum _ _ (λ _, True)); done
  | |- frame _ (Heap.getProp _ _) _ => apply frame_getProp; first [assumption|done]
  | |- frame _ (Heap.getIdx _ _) _ => apply frame_getIdx; first [assumption|done]
  | |- frame _ (Heap.getLength _) _ => apply frame_getLength
  | |- frame _ (Heap.setProp _ _ _) _ =>
      apply (frame_setProp _ _ _ _ (λ _, True)); first [assumption|done]
  | |- frame _ (Heap.setIdx _ _ _) _ =>
      apply (frame_setIdx _ _ _ _ (λ _, True)); first [assumption|done]
  | |- frame _ (if ?b then _ else _) _ => destruct b
  | |- frame _ ((if _ then _ else _) ≫= _) _ =>
      apply frame_bind with (P := λ _, True); [|intros ? _]
  | |- frame _ (_ ≫= _) _ => eapply frame_bind; [|intros ? ?]
  end.

Section FrameEngine.
Variable n : nat.
Variable g : Heap.Game.
Hypothesis Hcur : fresh n (Heap.currentState g).

Lemma frame_isTie : frame n (Heap.isTie g) (λ _, True).
Proof. unfold Heap.isTie. repeat frame_step. Qed.

Lemma frame_scanRow fuel col row :
  fresh n col → frame n (Heap.scanRow fuel g col row) (λ _, True).
Proof.
  intros Hcol. revert row. induction fuel as [|fuel IH]; intros row; simpl.
  - apply frame_throw.
  - repeat frame_step. apply IH.
Qed.

Lemma frame_scoreStep player otherPlayer map stats i acc :
  fresh n map → fresh n stats →
  frame n (Heap.scoreStep g player otherPlayer map stats i acc) (λ _, True).
Proof.
  intros Hmap Hstats. unfold Heap.scoreStep. repeat frame_step.
Qed.

Lemma frame_updateScore player column row :
  frame n (Heap._updateScore g player column row) (λ _, True).
Proof.
  unfold Heap._updateScore. repeat frame_step.
  - apply (frame_forUpM n _ _ _ (λ _, True)); [|done].
    intros. by apply frame_scoreStep.
  - destruct a4. repeat frame_step; apply frame_isTie.
Qed.

Lemma frame_dropPiece player column :
  frame n (Heap._dropPiece g player column) (λ _, True).
Proof.
  unfold Heap._dropPiece. repeat frame_step.
  - by apply frame_scanRow.
  - apply frame_updateScore.
Qed.

Lemma frame_drops moves : frame n (Heap.drops g moves) (λ _, True).
Proof.
  unfold Heap.drops. apply frame_forEachM; [|done].
  intros [player column] rows _. repeat frame_step. apply frame_dropPiece.
Qed.
End FrameEngine.

Lemma frame_clone n fuel v : frame n (Heap._clone fuel v) (fresh n).
Proof.
  revert v. induction fuel as [|fuel IH]; intros v.
  - destruct v; simpl; try (by apply frame_ret). apply frame_throw.
  - destruct v as [z|b| |l]; simpl; try (by apply frame_ret).
    intros h a h' HA H.
    destruct (h !! l) as [[elems|props]|] eqn:E; [| |done]; clear E;
      revert h a h' HA H;
      match goal with
      | |- ∀ h a h', Above n h → ?m h = Ok (a, h') → _ => change (frame n m (fresh n))
      end.
    + apply frame_bind with (P := fresh n); [by apply frame_alloc|].
      intros cloned Hc. eapply frame_bind; [|intros ? ?; by apply frame_ret].
      apply (frame_forUpM n _ _ _ (λ _, True)); [|done].
      intros index [] _.
      eapply frame_bind; [apply frame_read_getIdx|intros x _].
      eapply frame_bind; [apply IH|intros x' Hx'].
      by apply frame_setIdx.
    + apply frame_bind with (P := fresh n); [by apply frame_alloc|].
      intros cloned Hc. eapply frame_bind; [|intros ? ?; by apply frame_ret].
      apply (frame_forEachM n _ _ (λ _, True)); [|done].
      intros key [] _.
      eapply frame_bind; [apply frame_read_getProp|intros x _].
      eapply frame_bind; [apply IH|intros x' Hx'].
      by apply frame_setProp.
Qed.

(** ** Reading a state back *)

Lemma mapM_agree {A B} (f g : A → option B) l :
  Forall (λ x, f x = g x) l → mapM f l = mapM g l.
Proof.
  induction 1 as [|x l Hx _ IH]; csimpl; [done|].
  rewrite Hx. destruct (g x); csimpl; [|done]. by f_equal.
Qed.

(** What is read from a value depends only on the objects reachable from
    it: if those lie in a set [S] of addresses that refer to one another
    only, a store that agrees on [S] gives the same tree. *)
Lemma readTree_agree (S : nat → Prop) h h' fuel v :
  (∀ l, S l → h' !! l = h !! l) →
  (∀ l o, S l → h !! l = Some o →
     Forall (λ v, match v with Heap.Ref r => S r | _ => True end) (vals o)) →
  match v with Heap.Ref r => S r | _ => True end →
  Heap.readTree fuel h' v = Heap.readTree fuel h v.
Proof.
  intros Hsame Hclosed. revert v.
  induction fuel as [|fuel IH]; intros v Hv; destruct v as [z|b| |l]; simpl; try done.
  rewrite (Hsame l Hv).
  destruct (h !! l) as [[elems|props]|] eqn:E; [| |done].
  - f_equal. apply mapM_agree.
    eapply Forall_impl; [exact (Hclosed l _ Hv E)|]. intros x Hx. by apply IH.
  - f_equal. apply mapM_agree.
    pose proof (Hclosed l _ Hv E) as HF. simpl in HF. apply Forall_fmap in HF.
    eapply Forall_impl; [exact HF|]. intros kv Hx. simpl in Hx. by rewrite IH.
Qed.

Lemma readTree_keeps h h' fuel v :
  Closed h → keeps (length h) h h' → inside h v →
  Heap.readTree fuel h' v = Heap.readTree fuel h v.
Proof.
  intros Hc Hk Hv. apply (readTree_agree (λ l, (l < length h)%nat)).
  - exact Hk.
  - intros l o _ E. eapply Forall_impl; [exact (Hc l o E)|]. by intros [].
  - by destruct v.
Qed.

Lemma Above_length h : Above (length h) h.
Proof.
  split; [done|]. intros l o Hl E. apply lookup_lt_Some in E. lia.
Qed.

(** ** A game in the store *)

Definition closedb (h : Heap.heap) : bool :=
  forallb (λ o, forallb (λ v, match v with
                              | Heap.Ref l => (l <? length h)%nat
                              | _ => true
                              end) (vals o)) h.

Lemma closedb_Closed h : closedb h = true → Closed h.
Proof.
  unfold closedb, Closed. rewrite forallb_forall. intros H l o E.
  apply list_elem_of_lookup_2, list_elem_of_In, H in E.
  rewrite forallb_forall in E. apply Forall_forall. intros v Hv.
  apply list_elem_of_In, E in Hv. destruct v; simpl; try done.
  by apply Nat.ltb_lt.
Qed.

(** Two columns of two rows, connect 2, after player 0 dropped into
    column 0: the engine and the store [ofJS] builds for it, the copy
    [_pushState] adds, and the store after player 1 and player 0 dropped
    into columns 0 and 1 of the copy. *)
Definition small : JS.Settings := JS.mkSettings (Some 2) (Some 2) (Some 2) None.
Definition small1 : JS.Game := Eval vm_compute in play small [(0, 0)].
Definition small3 : JS.Game := Eval vm_compute in play small [(0, 0); (1, 0); (0, 1)].

Definition noStore : Heap.Game * Heap.heap :=
  (Heap.mkGame 0 0 0 0 0 [] Heap.Undef, []).

Definition stored : Heap.Game * Heap.heap :=
  Eval vm_compute in
    match Heap.ofJS small1 [] with Ok r => r | Throw _ => noStore end.

Definition pushed : Heap.Game * Heap.heap :=
  Eval vm_compute in
    match Heap._pushState 5 stored.1 stored.2 with Ok r => r | Throw _ => noStore end.

Definition dropped : list Z * Heap.heap :=
  Eval vm_compute in
    match Heap.drops pushed.1 [(1, 0); (0, 1)] pushed.2 with
    | Ok r => r
    | Throw _ => ([], [])
    end.

(** On this run the store and [Module JS] tell the same story: the copy
    reads as the state [Module JS] reaches by the same two drops, which
    returned rows 1 and 0, and the state beneath reads as before. *)
Example store_agrees_with_states :
  dropped.1 = [1; 0] ∧
  Heap.readTree 5 stored.2 (Heap.currentState stored.1)
    = Heap.stateTree <$> head (JS._stateStack small1) ∧
  Heap.readTree 5 pushed.2 (Heap.currentState pushed.1)
    = Heap.stateTree <$> head (JS._stateStack small1) ∧
  Heap.readTree 5 dropped.2 (Heap.currentState pushed.1)
    = Heap.stateTree <$> head (JS._stateStack small3) ∧
  Heap.readTree 5 dropped.2 (Heap.currentState stored.1)
    = Heap.stateTree <$> head (JS._stateStack small1).
Proof. repeat split; by vm_compute. Qed.

(** * The drop order of c4.c *)

Lemma loop_count {St} (I : nat → St → Prop) (body : Z → St → result St) n i step s :
  I 0%nat s →
  (∀ t s, (t < n)%nat → I t s →
     ∃ s', body (i + Z.of_nat t * step) s = Ok s' ∧ I (S t) s') →
  ∃ s', loop n i step body s = Ok s' ∧ I n s'.
Proof.
  revert I i s. induction n as [|n IH]; intros I i s H0 Hstep.
  - by exists s.
  - destruct (Hstep 0%nat s ltac:(lia) H0) as (s1 & E1 & H1).
    replace (i + Z.of_nat 0 * step) with i in E1 by lia.
    destruct (IH (λ t, I (S t)) (i + step) s1 H1) as (s2 & E2 & H2).
    + intros t s0 Ht Hs0. destruct (Hstep (S t) s0 ltac:(lia) Hs0) as (s' & E & H').
      exists s'. split; [|done]. rewrite <- E. f_equal. lia.
    + exists s2. split; [|done]. simpl. by rewrite E1.
Qed.

(** The column tried at step [t] (from 0): the centre, then 1 right,
    1 left, 2 right, 2 left, ... *)
Definition offset (t : Z) : Z :=
  if t mod 2 =? 0 then - (t / 2) else (t + 1) / 2.

Definition tried (W t : Z) : Z := Z.quot (W - 1) 2 + offset t.

Ltac div_lia := Z.to_euclidean_division_equations; lia.

Lemma tried_next W t :
  0 ≤ t →
  tried W t + (if Z.rem (t + 1) 2 =? 0 then - (t + 1) else t + 1) = tried W (t + 1).
Proof.
  intros Ht. unfold tried, offset. rewrite Z.rem_mod_nonneg by lia.
  destruct (Z.eqb_spec (t mod 2) 0), (Z.eqb_spec ((t + 1) mod 2) 0); div_lia.
Qed.

Lemma c4_drop_order_tried W :
  0 ≤ W → C4.drop_order W = tried W <$> seqZ 0 W.
Proof.
  intros HW. unfold C4.drop_order, forUp.
  destruct (loop_count
    (λ t st, st = (tried W <$> seqZ 0 (Z.of_nat t), tried W (Z.of_nat t)))
    (λ i '(order, column),
       Ok (order ++ [column], column + (if Z.rem i 2 =? 0 then - i else i)))
    (Z.to_nat (W + 1 - 1)) 1 1 ([], (W - 1) ÷ 2)) as (st & E & ->).
  - unfold tried, offset. simpl. f_equal. change (Z.of_nat 0 `div` 2) with 0. lia.
  - intros t st Ht ->. eexists. split; [done|]. f_equal.
    + replace (Z.of_nat (S t)) with (Z.of_nat t + 1) by lia.
      rewrite seqZ_app by lia. by rewrite fmap_app.
    + replace (1 + Z.of_nat t * 1) with (Z.of_nat t + 1) by lia.
      replace (Z.of_nat (S t)) with (Z.of_nat t + 1) by lia.
      apply tried_next. lia.
  - rewrite E. f_equal. f_equal. lia.
Qed.

Lemma tried_inj W t t' : 0 ≤ t → 0 ≤ t' → tried W t = tried W t' → t = t'.
Proof.
  unfold tried, offset. intros Ht Ht' H.
  destruct (Z.eqb_spec (t mod 2) 0), (Z.eqb_spec (t' mod 2) 0); div_lia.
Qed.

Lemma tried_range W t : 1 ≤ W → 0 ≤ t < W → 0 ≤ tried W t < W.
Proof.
  unfold tried, offset. intros HW Ht.
  destruct (Z.eqb_spec (t mod 2) 0); div_lia.
Qed.

(** X20: in c4.c the drop order is a permutation of the columns, whatever
    the width. *)
Lemma c4_drop_order_permutation W : 1 ≤ W → C4.drop_order W ≡ₚ seqZ 0 W.
Proof.
  intros HW. rewrite c4_drop_order_tried by lia.
  apply submseteq_length_Permutation.
  - apply NoDup_submseteq.
    + apply NoDup_fmap_2_strong; [|apply NoDup_seqZ].
      intros t t' Ht Ht'. apply elem_of_seqZ in Ht, Ht'. apply tried_inj; lia.
    + intros x (t & -> & Ht)%list_elem_of_fmap. apply elem_of_seqZ in Ht.
      apply elem_of_seqZ. pose proof (tried_range W t). lia.
  - by rewrite length_fmap.
Qed.

(** * The drop order of the port *)

Lemma Qred_eq p q : (p == q)%Q → Qred p = Qred q.
Proof. apply Qred_complete. Qed.

Lemma Qred_inject_Z z : Qred (inject_Z z) = inject_Z z.
Proof.
  unfold Qred, inject_Z.
  pose proof (Z.ggcd_gcd z 1) as Hg. pose proof (Z.ggcd_correct_divisors z 1) as Hd.
  destruct (Z.ggcd z 1) as [g' [a b]]. simpl in *. rewrite Z.gcd_1_r in Hg. subst g'.
  destruct Hd as [-> Hb]. replace b with 1 by lia. f_equal. lia.
Qed.

Lemma Qred_Qred q : Qred (Qred q) = Qred q.
Proof. apply Qred_complete, Qred_correct. Qed.

(** The entry for step [t]: [(cols - 1) / 2] plus the offset, in lowest
    terms. *)
Definition triedQ (W t : Z) : Q := Qred ((W - 1 + 2 * offset t) # 2).

Lemma offset_next t :
  0 ≤ t → offset t + (if Z.rem (t + 1) 2 =? 0 then - (t + 1) else t + 1) = offset (t + 1).
Proof.
  intros Ht. unfold offset. rewrite Z.rem_mod_nonneg by lia.
  destruct (Z.eqb_spec (t mod 2) 0), (Z.eqb_spec ((t + 1) mod 2) 0); div_lia.
Qed.

Lemma js_drop_order W :
  0 ≤ W → JS._setupDropOrder W = Ok (triedQ W <$> seqZ 0 W).
Proof.
  intros HW. unfold JS._setupDropOrder, forUp.
  destruct (loop_count
    (λ t st, st = (triedQ W <$> seqZ 0 (Z.of_nat t), triedQ W (Z.of_nat t)))
    (λ i '(dropOrder, column),
       Ok (dropOrder ++ [column],
           Qred (column + (if Z.rem i 2 =? 0 then inject_Z (- i) else inject_Z i))))
    (Z.to_nat (W + 1 - 1)) 1 1 ([], Qred (inject_Z (W - 1) / 2))) as (st & E & ->).
  - f_equal. unfold triedQ. apply Qred_eq. unfold offset. simpl.
    unfold Qeq. simpl. change (Z.of_nat 0 `div` 2) with 0. lia.
  - intros t st Ht ->. eexists. split; [done|]. f_equal.
    + replace (Z.of_nat (S t)) with (Z.of_nat t + 1) by lia.
      rewrite seqZ_app by lia. by rewrite fmap_app.
    + replace (1 + Z.of_nat t * 1) with (Z.of_nat t + 1) by lia.
      replace (Z.of_nat (S t)) with (Z.of_nat t + 1) by lia.
      unfold triedQ. rewrite <- (offset_next (Z.of_nat t)) by lia.
      apply Qred_eq. rewrite Qred_correct.
      destruct (_ =? 0); unfold Qeq, Qplus, inject_Z; simpl; lia.
  - rewrite E. simpl. do 3 f_equal. lia.
Qed.

(** X21: with an odd number of columns [_setupDropOrder] returns, and its
    entries are the columns [c4.c] computes. *)
Lemma js_drop_order_odd W :
  1 ≤ W → W mod 2 = 1 →
  ∃ order, JS._setupDropOrder W = Ok order ∧ index <$> order = Some <$> C4.drop_order W.
Proof.
  intros HW Hodd. exists (triedQ W <$> seqZ 0 W). split; [apply js_drop_order; lia|].
  rewrite c4_drop_order_tried by lia. rewrite <- !list_fmap_compose.
  apply list_fmap_ext. intros _ t _. simpl. unfold index, triedQ.
  rewrite Qred_Qred.
  rewrite (Qred_eq _ (inject_Z (tried W t))).
  - by rewrite Qred_inject_Z.
  - unfold tried, Qeq. simpl. div_lia.
Qed.

(** X22: with an even number of columns [_setupDropOrder] returns one
    entry for each column, and no entry is a column. *)
Lemma js_drop_order_even W :
  1 ≤ W → W mod 2 = 0 →
  ∃ order, JS._setupDropOrder W = Ok order ∧ Z.of_nat (length order) = W ∧
           Forall (λ q, index q = None) order.
Proof.
  intros HW Heven. exists (triedQ W <$> seqZ 0 W). split; [apply js_drop_order; lia|].
  split; [rewrite length_fmap, length_seqZ; lia|].
  apply Forall_fmap, Forall_forall. intros t _. simpl. unfold index, triedQ.
  rewrite Qred_Qred.
  destruct (Pos.eqb_spec (Qden (Qred (W - 1 + 2 * offset t # 2))) 1) as [E|]; [|done].
  pose proof (Qred_correct (W - 1 + 2 * offset t # 2)) as Hq.
  unfold Qeq in Hq. rewrite E in Hq. simpl in Hq. div_lia.
Qed.

(** * A drop always returns *)

Section DuoAccess.
Context {A : Type}.
Variable p : Z.
Hypothesis Hp : isPlayer p.
Implicit Types (mine theirs : list A).

Lemma read2_duo_mine mine theirs w v :
  get mine w = Some v → read2 (duo p mine theirs) p w = Ok v.
Proof.
  intros Hv. unfold read2, deref, elem.
  by rewrite get_duo_mine_eq, bind_Ok_l, Hv.
Qed.

Lemma read2_duo_theirs mine theirs w v :
  get theirs w = Some v → read2 (duo p mine theirs) (JS._other p) w = Ok v.
Proof.
  intros Hv. unfold read2, deref, elem.
  by rewrite get_duo_theirs_eq, bind_Ok_l, Hv.
Qed.

Lemma store_in {B} (l : list B) i x :
  0 ≤ i < Z.of_nat (length l) → store l i x = Ok (set l i x).
Proof.
  intros Hi. unfold store.
  destruct (Z.leb_spec 0 i), (Z.ltb_spec i (Z.of_nat (length l))); (done || lia).
Qed.

Lemma write2_duo_mine mine theirs w x :
  0 ≤ w < Z.of_nat (length mine) →
  write2 (duo p mine theirs) p w x = Ok (duo p (set mine w x) theirs).
Proof.
  intros Hw. unfold write2, deref.
  rewrite get_duo_mine_eq, bind_Ok_l, (store_in mine) , bind_Ok_l by done.
  rewrite store_in by (destruct Hp as [->| ->]; simpl; lia).
  by rewrite set_duo_mine.
Qed.

Lemma write2_duo_theirs mine theirs w x :
  0 ≤ w < Z.of_nat (length theirs) →
  write2 (duo p mine theirs) (JS._other p) w x = Ok (duo p mine (set theirs w x)).
Proof.
  intros Hw. unfold write2, deref.
  rewrite get_duo_theirs_eq, bind_Ok_l, (store_in theirs), bind_Ok_l by done.
  rewrite store_in by (rewrite other_player by done; destruct Hp as [->| ->]; simpl; lia).
  by rewrite set_duo_theirs.
Qed.
End DuoAccess.

(** The shapes the constructor gives the state, and drops keep. *)
Definition shaped (g : JS.Game) (s : JS.State) : Prop :=
  Z.of_nat (length (JS.board s)) = JS._cols g ∧
  (∀ x col, get (JS.board s) x = Some col → Z.of_nat (length col) = JS._rows g) ∧
  dims (JS._cols g) (JS._rows g) (JS.map s) ∧
  (∀ x mcol y cell, get (JS.map s) x = Some mcol → get mcol y = Some cell →
     Forall (λ w, 0 ≤ w < JS._winningPlaces g) cell) ∧
  ∃ a0 a1 s0 s1, JS.stats s = [a0; a1] ∧ JS.score s = [s0; s1] ∧
    Z.of_nat (length a0) = JS._winningPlaces g ∧
    Z.of_nat (length a1) = JS._winningPlaces g.

Section Total.
Variable g : JS.Game.
Hypothesis Hcfg : config g.
Variable p : Z.
Hypothesis Hp : isPlayer p.

Lemma scoreStep_total w td od mine theirs win :
  0 ≤ w < Z.of_nat (length mine) → 0 ≤ w < Z.of_nat (length theirs) →
  ∃ v u win',
    JS.scoreStep g p (JS._other p) w (td, od, duo p mine theirs, win)
    = Ok (td + v, od + u, duo p (set mine w (shl v 1)) (set theirs w 0), win').
Proof.
  intros Hm Ht.
  destruct (get_lt mine w Hm) as [v Hv]. destruct (get_lt theirs w Ht) as [u Hu].
  exists v, u. eexists. unfold JS.scoreStep.
  rewrite (read2_duo_mine p Hp _ _ _ _ Hv), bind_Ok_l.
  rewrite (read2_duo_theirs p Hp _ _ _ _ Hu), bind_Ok_l.
  rewrite (write2_duo_mine p Hp) by done. rewrite bind_Ok_l.
  rewrite (write2_duo_theirs p Hp) by done. rewrite bind_Ok_l.
  rewrite (read2_duo_mine p Hp _ _ _ (shl v 1)) by (apply get_set_eq; lia).
  by rewrite bind_Ok_l.
Qed.

Lemma forEach_cons {A St} (x : A) l (body : A → St → result St) s :
  forEach (x :: l) body s = body x s ≫= forEach l body.
Proof. reflexivity. Qed.

Lemma scoreLoop_total cell td od mine theirs win :
  Forall (λ w, 0 ≤ w < Z.of_nat (length mine)) cell →
  length theirs = length mine →
  ∃ td' od' mine' theirs' win',
    forEach cell (JS.scoreStep g p (JS._other p)) (td, od, duo p mine theirs, win)
    = Ok (td', od', duo p mine' theirs', win') ∧
    length mine' = length mine ∧ length theirs' = length mine.
Proof.
  intros Hcell. revert td od mine theirs win Hcell.
  induction cell as [|w cell IH]; intros td od mine theirs win Hcell Hlen.
  - simpl. by exists td, od, mine, theirs, win.
  - apply Forall_cons in Hcell as [Hw Hcell]. rewrite forEach_cons.
    destruct (scoreStep_total w td od mine theirs win) as (v & u & win' & ->); [lia..|].
    rewrite bind_Ok_l.
    destruct (IH (td + v) (od + u) (set mine w (shl v 1)) (set theirs w 0) win')
      as (td' & od' & mine' & theirs' & win'' & E & Hm & Ht).
    + by rewrite length_set.
    + by rewrite !length_set.
    + rewrite length_set in Hm, Ht. by exists td', od', mine', theirs', win''.
Qed.

Lemma scanRow_total fuel col row :
  0 ≤ row < JS._rows g → (Z.to_nat (JS._rows g - row) ≤ fuel)%nat →
  ∃ r, JS.scanRow fuel g col row = Ok r.
Proof.
  revert row. induction fuel as [|fuel IH]; intros row Hrow Hfuel; [lia|].
  simpl. destruct (JS.occupied g col row); [|by eexists].
  destruct (Z.ltb_spec (row + 1) (JS._rows g)); [|by eexists].
  apply IH; lia.
Qed.

(** [_dropPiece] into a column of the board returns, and keeps the shapes. *)
Lemma dropInto_total x s :
  shaped g s → 0 ≤ x < JS._cols g →
  ∃ row s', JS.dropInto g p x s = Ok (row, s') ∧ -1 ≤ row < JS._rows g ∧ shaped g s'.
Proof.
  destruct Hcfg as (Hc & Hr & Hn & Hnone & _).
  intros (Hbl & Hbc & Hmd & Hmi & a0 & a1 & s0 & s1 & Est & Esc & Hl0 & Hl1) Hx.
  destruct (get_lt (JS.board s) x) as [col Hcol]; [lia|].
  pose proof (Hbc _ _ Hcol) as Hcl.
  destruct (scanRow_total (S (Z.to_nat (JS._rows g))) col 0) as [r Hscan]; [lia..|].
  assert (0 ≤ 0 < JS._rows g) as H0 by lia.
  pose proof (scanRow_Ok g Hnone _ _ _ _ H0 Hscan) as Hrr.
  unfold JS.dropInto, deref. rewrite Hcol, bind_Ok_l, Hscan, bind_Ok_l.
  destruct (Z.eqb_spec r (JS._rows g)) as [->|Hne].
  { exists (-1), s. split; [done|]. split; [lia|].
    split; [done|]. split; [done|]. split; [done|]. split; [done|].
    by exists a0, a1, s0, s1. }
  destruct Hrr as [?|[Hrow Hcell]]; [done|].
  assert (write2 (JS.board s) x r p = Ok (set (JS.board s) x (set col r p))) as ->.
  { unfold write2, deref. rewrite Hcol, bind_Ok_l, store_in, bind_Ok_l by lia.
    apply store_in. lia. }
  rewrite bind_Ok_l.
  destruct Hmd as [Hml Hmc].
  destruct (get_lt (JS.map s) x) as [mcol Hmcol]; [lia|].
  pose proof (Hmc _ _ Hmcol) as Hmcl.
  destruct (get_lt mcol r) as [cell Hcellm]; [lia|].
  pose proof (Hmi _ _ _ _ Hmcol Hcellm) as Hidx.
  destruct (duo_of_pair p a0 a1 Hp) as (mine & theirs & Ed).
  destruct (duo_of_pair p s0 s1 Hp) as (sm & st & Es).
  assert (Z.of_nat (length mine) = JS._winningPlaces g ∧
          Z.of_nat (length theirs) = JS._winningPlaces g) as [Hlm Hlt].
  { destruct Hp as [->| ->]; unfold duo in Ed; simpl in Ed; by simplify_eq. }
  destruct (scoreLoop_total cell 0 0 mine theirs (JS.winner s))
    as (td & od & mine' & theirs' & win' & Eloop & Hlm' & Hlt').
  { eapply Forall_impl; [exact Hidx|]. simpl. intros w Hw. lia. }
  { lia. }
  unfold JS._updateScore. simpl. unfold deref.
  rewrite Hmcol, bind_Ok_l, Hcellm, bind_Ok_l, Est, Ed, Eloop, bind_Ok_l.
  rewrite Esc, Es. unfold elem.
  rewrite get_duo_mine_eq, bind_Ok_l by done.
  rewrite store_in by (destruct Hp as [->| ->]; simpl; lia).
  rewrite bind_Ok_l, set_duo_mine by done.
  rewrite get_duo_theirs_eq, bind_Ok_l by done.
  rewrite store_in by (rewrite other_player by done; destruct Hp as [->| ->]; simpl; lia).
  rewrite bind_Ok_l, set_duo_theirs by done.
  assert (∀ s', JS.board s' = set (JS.board s) x (set col r p) → JS.map s' = JS.map s →
            JS.stats s' = duo p mine' theirs' → JS.score s' = duo p (sm + td) (st - od) →
            shaped g s') as Hshape.
  { intros s' Eb Em Est' Esc'. unfold shaped. rewrite Eb, Em, Est', Esc'.
    split; [by rewrite length_set|]. split.
    - intros x' col' H'. destruct (decide (x = x')) as [<-|Hxne].
      + rewrite get_set_eq in H' by lia. simplify_eq. by rewrite length_set.
      + pose proof (get_Some_lt _ _ _ H') as Hx'. rewrite length_set in Hx'.
        rewrite get_set_ne in H' by lia. eauto.
    - split; [done|]. split; [done|].
      destruct Hp as [->| ->]; unfold duo; simpl; eexists _, _, _, _;
        (split; [done|]); (split; [done|]); lia. }
  destruct (_ || _); eexists _, _; (split; [done|]); (split; [lia|]); by apply Hshape.
Qed.
End Total.

Lemma count_zero_notin L cell : count L cell = 0 → L ∉ cell.
Proof.
  unfold count. induction cell as [|x cell IH]; csimpl; intros H Hin.
  - by apply elem_of_nil in Hin.
  - pose proof (count_nonneg L cell) as Hc. unfold count in Hc.
    apply elem_of_cons in Hin as [->|Hin].
    + rewrite Z.eqb_refl in H. lia.
    + destruct (x =? L); apply IH; (done || lia).
Qed.

Lemma sumZ_zero_lookup l i x :
  Forall (λ y, 0 ≤ y) l → sumZ l = 0 → l !! i = Some x → x = 0.
Proof.
  intros Hl. revert i. induction Hl as [|y l Hy Hl IH]; intros [|i] Hs E; simplify_eq/=.
  - pose proof (sumZ_nonneg l Hl). lia.
  - pose proof (sumZ_nonneg l Hl). apply (IH i); [lia|done].
Qed.

Lemma occ_zero_notin L (m : WinMap) x mcol y cell :
  occ L m = 0 → get m x = Some mcol → get mcol y = Some cell → L ∉ cell.
Proof.
  intros Hocc [_ Hx]%get_Some [_ Hy]%get_Some. apply count_zero_notin.
  unfold occ in Hocc.
  eapply (sumZ_zero_lookup (count L <$> mcol)); [| |by rewrite list_lookup_fmap, Hy].
  - apply Forall_fmap, Forall_forall. intros c _. apply count_nonneg.
  - eapply (sumZ_zero_lookup _ (Z.to_nat x)); [|exact Hocc|by rewrite list_lookup_fmap, Hx].
    apply Forall_fmap, Forall_forall. intros c _. simpl.
    apply sumZ_nonneg, Forall_fmap, Forall_forall. intros c' _. apply count_nonneg.
Qed.

Lemma reachable_shaped g :
  reachable g → Forall (shaped g) (JS._stateStack g).
Proof.
  intros Hr. destruct (reachable_Good shaped) with (g := g) as (_ & _ & HQ); try done.
  - intros settings g' Hv Hnew.
    destruct (Connect4Game_Ok _ _ Hv Hnew)
      as ((Hc & Hrw & Hn & _) & m & (Hd & _ & _ & Hocc) & Hw & ->).
    repeat constructor; simpl in *.
    + rewrite length_replicate. lia.
    + intros x col [_ H]%get_Some. apply lookup_replicate in H as [-> _].
      rewrite length_replicate. lia.
    + by destruct Hd.
    + by destruct Hd.
    + intros x mcol y cell Hx Hy. apply Forall_forall. intros w Hw'.
      destruct (decide (0 ≤ w < JS._winningPlaces g')) as [|Hout]; [done|].
      exfalso. eapply (occ_zero_notin w m); [|done..].
      rewrite Hocc. by rewrite bool_decide_eq_false_2.
    + eexists _, _, _, _. rewrite !length_replicate. repeat split; lia.
  - intros g' p x s row s' Hc Hp Hs Hd.
    assert (0 ≤ x < JS._cols g') as Hx.
    { unfold JS.dropInto in Hd. apply bind_Ok in Hd as (col & Hcol%deref_Ok & _).
      apply get_Some_lt in Hcol. destruct Hs as (Hl & _). lia. }
    destruct (dropInto_total g' Hc p Hp x s Hs Hx) as (row' & s'' & E & _ & Hs'').
    rewrite Hd in E. by simplify_eq.
Qed.

(** In a reachable game a drop of either player into any column of the
    board returns: the row the piece landed in, or -1. *)
Theorem dropPiece_returns g p x :
  reachable g → isPlayer p → 0 ≤ x < JS._cols g →
  ∃ row g', JS._dropPiece g p x = Ok (row, g') ∧ -1 ≤ row < JS._rows g.
Proof.
  intros Hr Hp Hx.
  destruct (reachable_counted g Hr) as (Hc & Hne & _).
  pose proof (reachable_shaped g Hr) as Hs.
  unfold JS._dropPiece, JS.currentState.
  destruct (JS._stateStack g) as [|s rest]; [done|].
  apply Forall_cons in Hs as [Hs _].
  destruct (dropInto_total g Hc p Hp x s Hs Hx) as (row & s' & E & Hrow & _).
  rewrite bind_Ok_l, E, bind_Ok_l. by eexists _, _.
Qed.

(** * The copy [_clone] makes *)

(** No object of the store lists a key twice. *)
Definition NoDupKeys (h : Heap.heap) : Prop :=
  ∀ l props, h !! l = Some (Heap.Obj props) → NoDup props.*1.

Definition WF (h : Heap.heap) : Prop := Closed h ∧ NoDupKeys h.

Lemma inside_mono h h' v : inside h v → (length h ≤ length h')%nat → inside h' v.
Proof. destruct v; simpl; lia. Qed.

Lemma fresh_mono a b v : fresh a v → (b ≤ a)%nat → fresh b v.
Proof. destruct v; simpl; lia. Qed.

Lemma WF_alloc h o :
  WF h → Forall (inside h) (vals o) →
  (∀ props, o = Heap.Obj props → NoDup props.*1) → WF (h ++ [o]).
Proof.
  intros [Hc Hk] Ho Hkeys. split.
  - intros l o' E. apply lookup_app_Some in E as [E|[_ E]].
    + eapply Forall_impl; [exact (Hc l o' E)|]. intros v Hv.
      eapply inside_mono; [done|]. rewrite length_app. lia.
    + apply list_lookup_singleton_Some in E as [_ <-].
      eapply Forall_impl; [exact Ho|]. intros v Hv.
      eapply inside_mono; [done|]. rewrite length_app. lia.
  - intros l props E. apply lookup_app_Some in E as [E|[_ E]]; [eauto|].
    apply list_lookup_singleton_Some in E as [_ Eo]. eauto.
Qed.

Lemma WF_insert h l o :
  WF h → Forall (inside h) (vals o) →
  (∀ props, o = Heap.Obj props → NoDup props.*1) → WF (<[l := o]> h).
Proof.
  intros [Hc Hk] Ho Hkeys. split.
  - intros l' o' E. destruct (decide (l = l')) as [<-|Hne].
    + apply list_lookup_insert_Some in E as [(_ & <- & _)|[? _]]; [|done].
      eapply Forall_impl; [exact Ho|]. intros v Hv.
      eapply inside_mono; [done|]. by rewrite length_insert.
    + rewrite list_lookup_insert_ne in E by done.
      eapply Forall_impl; [exact (Hc l' o' E)|]. intros v Hv.
      eapply inside_mono; [done|]. by rewrite length_insert.
  - intros l' props E. destruct (decide (l = l')) as [<-|Hne].
    + apply list_lookup_insert_Some in E as [(_ & Eo & _)|[? _]]; [eauto|done].
    + rewrite list_lookup_insert_ne in E by done. eauto.
Qed.

(** Reading from objects allocated from [a] on, in a store that has since
    changed elsewhere only. *)
Lemma readTree_region a h h' fuel v :
  (∀ l, (a ≤ l < length h)%nat → h' !! l = h !! l) →
  Closed h → Above a h → fresh a v → inside h v →
  Heap.readTree fuel h' v = Heap.readTree fuel h v.
Proof.
  intros Hsame Hc [_ HA] Hf Hi.
  apply (readTree_agree (λ l, (a ≤ l < length h)%nat)); [done| |].
  - intros l o Hl E. pose proof (Hc l o E) as H1. pose proof (HA l o (proj1 Hl) E) as H2.
    rewrite Forall_forall in H1, H2. apply Forall_forall. intros v' Hv'.
    specialize (H1 v' Hv'). specialize (H2 v' Hv'). destruct v'; simpl in *; lia.
  - destruct v; simpl in *; lia.
Qed.

Lemma forEach_prefix {A St} (I : list A → St → Prop) (body : A → St → result St) l s :
  I [] s →
  (∀ pre x post s, l = pre ++ x :: post → I pre s →
     ∃ s', body x s = Ok s' ∧ I (pre ++ [x]) s') →
  ∃ s', forEach l body s = Ok s' ∧ I l s'.
Proof.
  intros H0 Hstep.
  enough (∀ rest pre s, l = pre ++ rest → I pre s →
            ∃ s', forEach rest body s = Ok s' ∧ I l s') as H by (by apply (H l [] s)).
  induction rest as [|x rest IH]; intros pre s0 E HI.
  - exists s0. split; [done|]. by rewrite E, app_nil_r.
  - destruct (Hstep pre x rest s0 E HI) as (s1 & E1 & H1).
    destruct (IH (pre ++ [x]) s1) as (s2 & E2 & H2); [by rewrite <- app_assoc|done|].
    exists s2. split; [|done]. simpl. by rewrite E1.
Qed.

(** What [_clone] achieves within [fuel]. *)
Definition copied (h : Heap.heap) (t : Heap.tree) fuel (r : Heap.val * Heap.heap) : Prop :=
  WF r.2 ∧ (length h ≤ length r.2)%nat ∧ keeps (length h) h r.2 ∧
  Above (length h) r.2 ∧ fresh (length h) r.1 ∧ inside r.2 r.1 ∧
  Heap.readTree fuel r.2 r.1 = Some t.

Definition copies (fuel : nat) : Prop :=
  ∀ v h t, WF h → Heap.readTree fuel h v = Some t →
    ∃ r, Heap._clone fuel v h = Ok r ∧ copied h t fuel r.

Lemma copies_prim fuel v h t :
  (∀ l, v ≠ Heap.Ref l) → WF h → Heap.readTree fuel h v = Some t →
  ∃ r, Heap._clone fuel v h = Ok r ∧ copied h t fuel r.
Proof.
  intros Hv Hwf Hr. exists (v, h).
  destruct v as [z|b| |l]; [..|by destruct (Hv l)]; destruct fuel; simpl in *;
    (split; [done|]); repeat split; auto using keeps_refl; try apply Above_length;
    try apply Hwf; done.
Qed.

Lemma forUpM_count {St} (I : nat → St → Heap.heap → Prop)
  (body : Z → St → Heap.M St) (n : nat) s h :
  I 0%nat s h →
  (∀ t s h, (t < n)%nat → I t s h →
     ∃ s' h', body (Z.of_nat t) s h = Ok (s', h') ∧ I (S t) s' h') →
  ∃ s' h', Heap.forUpM 0 (Z.of_nat n) body s h = Ok (s', h') ∧ I n s' h'.
Proof.
  intros H0 Hstep. unfold Heap.forUpM, forUp.
  replace (Z.to_nat (Z.of_nat n - 0)) with n by lia.
  destruct (loop_count (λ t sh, I t sh.1 sh.2) (λ i sh, body i sh.1 sh.2) n 0 1 (s, h))
    as ([s' h'] & E & H'); [done| |by exists s', h'].
  intros t [s0 h0] Ht HI. simpl in HI.
  destruct (Hstep t s0 h0 Ht HI) as (s1 & h1 & E1 & H1).
  exists (s1, h1). split; [|done]. simpl. rewrite <- E1. f_equal. lia.
Qed.

Lemma Forall2_impl_l {A B} (R R' : A → B → Prop) (P : A → Prop) l k :
  Forall2 R l k → Forall P l → (∀ x y, P x → R x y → R' x y) → Forall2 R' l k.
Proof.
  intros H HP Himp. induction H as [|x y l k Hxy _ IH]; [constructor|].
  apply Forall_cons in HP as [Hx HP]. constructor; auto.
Qed.

Lemma run_bind {A B} (m : Heap.M A) (f : A → Heap.M B) h a h' :
  m h = Ok (a, h') → (m ≫= f) h = f a h'.
Proof. intros E. unfold mbind, Heap.M_bind. by rewrite E. Qed.

Section CloneArray.
Variable fuel : nat.
Hypothesis IH : copies fuel.
Variables (h : Heap.heap) (l : nat) (elems : list Heap.val) (ts : list Heap.tree).
Hypothesis Hwf : WF h.
Hypothesis Hl : h !! l = Some (Heap.Arr elems).
Hypothesis Hts : mapM (Heap.readTree fuel h) elems = Some ts.

(** After [i] elements have been copied into the new array at [length h]. *)
Definition ArrInv (i : nat) (_ : unit) (hi : Heap.heap) : Prop :=
  WF hi ∧ keeps (length h) h hi ∧ (length h < length hi)%nat ∧
  Above (S (length h)) hi ∧
  ∃ xs, hi !! length h = Some (Heap.Arr xs) ∧ length xs = i ∧
        Forall (fresh (S (length h))) xs ∧
        mapM (Heap.readTree fuel hi) xs = Some (take i ts).

Lemma ArrInv_step i u hi :
  (i < length elems)%nat → ArrInv i u hi →
  ∃ u' hi',
    (x ← Heap.getIdx (Heap.Ref l) (Z.of_nat i);
     x' ← Heap._clone fuel x;
     Heap.setIdx (Heap.Ref (length h)) (Z.of_nat i) x') hi = Ok (u', hi')
    ∧ ArrInv (S i) u' hi'.
Proof.
  intros Hi (Hwfi & Hk & Hlen & HA & xs & Hc & Hxl & Hxf & Hxr).
  pose proof (lookup_lt_Some _ _ _ Hl) as Hll.
  destruct (lookup_lt_is_Some_2 elems i Hi) as [x Hx].
  apply mapM_Some in Hts. pose proof Hts as Hts'.
  destruct (Forall2_lookup_l _ _ _ _ _ Hts' Hx) as (t & Ht & Hrt).
  (* the element is read from the original array *)
  unfold mbind at 1, Heap.M_bind. unfold Heap.getIdx at 1.
  rewrite (Hk l Hll), Hl.
  assert (get elems (Z.of_nat i) = Some x) as ->
    by (apply get_Some; split; [lia|by rewrite Nat2Z.id]).
  simpl.
  (* the element is copied *)
  assert (inside h x) as Hxin.
  { pose proof (proj1 Hwf l _ Hl) as HF. simpl in HF. rewrite Forall_forall in HF.
    apply HF. by eapply list_elem_of_lookup_2. }
  assert (Heap.readTree fuel hi x = Some t) as Hrti.
  { rewrite <- Hrt. apply readTree_keeps; [apply Hwf|done..]. }
  destruct (IH x hi t Hwfi Hrti) as ([x' hi'] & Ecl & Hwf' & Hlen' & Hk' & HA' & Hf' & Hin' & Hr').
  simpl in *. unfold mbind at 1, Heap.M_bind. rewrite Ecl.
  (* and appended to the new array *)
  unfold Heap.setIdx. rewrite (Hk' (length h) Hlen), Hc.
  rewrite Hxl.
  destruct (Z.ltb_spec (Z.of_nat i) (Z.of_nat i)); [lia|]. rewrite andb_false_r, Z.eqb_refl.
  eexists tt, _. split; [done|].
  assert (∀ l', l' ≠ length h → <[length h := Heap.Arr (xs ++ [x'])]> hi' !! l' = hi' !! l')
    as Hother by (intros; by apply list_lookup_insert_ne).
  split; [|split; [|split; [|split]]].
  - apply WF_insert; [done| |done]. simpl. apply Forall_app. split; [|by repeat constructor].
    pose proof (proj1 Hwfi _ _ Hc) as HF. simpl in HF.
    eapply Forall_impl; [exact HF|]. intros v Hv. by eapply inside_mono.
  - intros l' Hl'. rewrite Hother by lia. rewrite Hk' by lia. by apply Hk.
  - rewrite length_insert. lia.
  - split; [rewrite length_insert; lia|].
    intros l' o Hl' E. rewrite Hother in E by lia.
    destruct (decide (l' < length hi)%nat) as [Hlt|Hge].
    + rewrite Hk' in E by done. by apply (proj2 HA l' o).
    + eapply Forall_impl; [apply (proj2 HA' l' o); [lia|done]|].
      intros v Hv. eapply fresh_mono; [done|lia].
  - exists (xs ++ [x']). split; [|split; [|split]].
    + apply list_lookup_insert_eq. lia.
    + rewrite length_app. simpl. lia.
    + apply Forall_app. split; [done|]. repeat constructor.
      eapply fresh_mono; [done|lia].
    + apply mapM_Some. rewrite (take_S_r _ _ _ Ht). apply Forall2_app.
      * apply mapM_Some in Hxr.
        pose proof (proj1 Hwfi _ _ Hc) as Hxin'. simpl in Hxin'.
        eapply (Forall2_impl_l _ _ (λ v, fresh (S (length h)) v ∧ inside hi v));
          [exact Hxr| |].
        { apply Forall_forall. intros v Hv. rewrite Forall_forall in Hxf, Hxin'. auto. }
        intros v y [Hvf Hvi] Hvy. simpl in Hvy. rewrite <- Hvy.
        apply (readTree_region (S (length h))); [|apply Hwfi|done..].
        intros l' Hl'. rewrite Hother by lia. apply Hk'. lia.
      * repeat constructor. rewrite <- Hr'.
        apply (readTree_region (length hi)); [|apply Hwf'|done..].
        intros l' Hl'. apply Hother. lia.
Qed.

(** The array branch of [_clone]. *)
Lemma copies_array :
  ∃ r, Heap._clone (S fuel) (Heap.Ref l) h = Ok r ∧ copied h (Heap.TArr ts) (S fuel) r.
Proof.
  simpl. rewrite Hl.
  unfold mbind at 1, Heap.M_bind, Heap.alloc.
  destruct (forUpM_count ArrInv
    (λ index _, x ← Heap.getIdx (Heap.Ref l) index;
                x' ← Heap._clone fuel x;
                Heap.setIdx (Heap.Ref (length h)) index x')
    (length elems) tt (h ++ [Heap.Arr []])) as ([] & hf & E & HI).
  - split; [|split; [|split; [|split]]].
    + apply WF_alloc; [done|by constructor|done].
    + intros l' Hl'. by apply lookup_app_l.
    + rewrite length_app. simpl. lia.
    + split; [rewrite length_app; simpl; lia|].
      intros l' o Hl' E'. apply lookup_lt_Some in E'. rewrite length_app in E'. simpl in E'. lia.
    + exists []. split; [by rewrite list_lookup_middle|]. by rewrite take_0.
  - intros t u hi Ht HI. exact (ArrInv_step t u hi Ht HI).
  - rewrite (run_bind _ _ _ _ _ E). simpl.
    destruct HI as (Hwff & Hk & Hlen & HA & xs & Hc & Hxl & Hxf & Hxr).
    eexists. split; [done|]. unfold copied. simpl.
    split; [done|]. split; [lia|]. split; [done|]. split; [|split; [lia|split; [lia|]]].
    + split; [lia|]. intros l' o Hl' E'.
      destruct (decide (l' = length h)) as [->|Hne].
      * rewrite Hc in E'. simplify_eq. simpl.
        eapply Forall_impl; [exact Hxf|]. intros v Hv. eapply fresh_mono; [done|lia].
      * eapply Forall_impl; [apply (proj2 HA l' o); [lia|done]|].
        intros v Hv. eapply fresh_mono; [done|lia].
    + rewrite Hc, Hxr. simpl. f_equal. f_equal. apply take_ge.
      apply mapM_Some, Forall2_length in Hts. lia.
Qed.
End CloneArray.

(** Properties are read and written by key; in an object whose keys are
    distinct each key finds its own value, and a new key is added last. *)
Lemma lookupProp_NoDup props j k v :
  NoDup props.*1 → props !! j = Some (k, v) → Heap.lookupProp k props = v.
Proof.
  revert j. induction props as [|kv props IH]; intros j Hnd E; [done|].
  csimpl in Hnd. apply NoDup_cons in Hnd as [Hnotin Hnd].
  unfold Heap.lookupProp. simpl. destruct j as [|j]; simpl in E.
  - injection E as ->. simpl. by rewrite String.eqb_refl.
  - destruct (String.eqb_spec kv.1 k) as [Heq|Hne].
    + destruct Hnotin. rewrite Heq.
      apply list_elem_of_fmap. exists (k, v). split; [done|].
      by eapply list_elem_of_lookup_2.
    + by apply (IH j).
Qed.

Lemma updateProp_new k x kvs :
  k ∉ kvs.*1 → Heap.updateProp k x kvs = kvs ++ [(k, x)].
Proof.
  induction kvs as [|kv kvs IH]; intros Hk; [done|].
  csimpl in Hk. apply not_elem_of_cons in Hk as [Hne Hk]. simpl.
  destruct (String.eqb_spec kv.1 k) as [Heq|_]; [by destruct Hne|].
  by rewrite IH.
Qed.

Lemma forEachM_prefix {A St} (I : list A → St → Heap.heap → Prop)
  (body : A → St → Heap.M St) l s h :
  I [] s h →
  (∀ pre x post s h, l = pre ++ x :: post → I pre s h →
     ∃ s' h', body x s h = Ok (s', h') ∧ I (pre ++ [x]) s' h') →
  ∃ s' h', Heap.forEachM l body s h = Ok (s', h') ∧ I l s' h'.
Proof.
  intros H0 Hstep. unfold Heap.forEachM.
  destruct (forEach_prefix (λ pre sh, I pre sh.1 sh.2) (λ x sh, body x sh.1 sh.2) l (s, h))
    as ([s' h'] & E & H'); [done| |by exists s', h'].
  intros pre x post [s0 h0] El HI. simpl in HI.
  destruct (Hstep pre x post s0 h0 El HI) as (s1 & h1 & E1 & H1).
  by exists (s1, h1).
Qed.

Section CloneObject.
Variable fuel : nat.
Hypothesis IH : copies fuel.
Variables (h : Heap.heap) (l : nat) (props : list (string * Heap.val)).
Variable ts : list (string * Heap.tree).
Hypothesis Hwf : WF h.
Hypothesis Hl : h !! l = Some (Heap.Obj props).
Hypothesis Hts : mapM (λ kv, pair kv.1 <$> Heap.readTree fuel h kv.2) props = Some ts.

(** After the properties [pre] have been copied into the new object at
    [length h]. *)
Definition ObjInv (pre : list string) (_ : unit) (hi : Heap.heap) : Prop :=
  WF hi ∧ keeps (length h) h hi ∧ (length h < length hi)%nat ∧
  Above (S (length h)) hi ∧
  ∃ kvs, hi !! length h = Some (Heap.Obj kvs) ∧ kvs.*1 = pre ∧
         Forall (fresh (S (length h))) kvs.*2 ∧
         mapM (λ kv, pair kv.1 <$> Heap.readTree fuel hi kv.2) kvs
           = Some (take (length pre) ts).

Lemma ObjInv_step pre key post u hi :
  props.*1 = pre ++ key :: post → ObjInv pre u hi →
  ∃ u' hi',
    (x ← Heap.getProp (Heap.Ref l) key;
     x' ← Heap._clone fuel x;
     Heap.setProp (Heap.Ref (length h)) key x') hi = Ok (u', hi')
    ∧ ObjInv (pre ++ [key]) u' hi'.
Proof.
  intros Hkeys (Hwfi & Hk & Hlen & HA & kvs & Hc & Hpre & Hxf & Hxr).
  pose proof (lookup_lt_Some _ _ _ Hl) as Hll.
  pose proof (proj2 Hwf l props Hl) as Hnd.
  assert (props.*1 !! length pre = Some key) as Hkey
    by (rewrite Hkeys; by apply list_lookup_middle).
  rewrite list_lookup_fmap in Hkey.
  destruct (props !! length pre) as [[key' x]|] eqn:Hx; [|done].
  simpl in Hkey. injection Hkey as ->.
  apply mapM_Some in Hts. pose proof Hts as Hts'.
  destruct (Forall2_lookup_l _ _ _ _ _ Hts' Hx) as (kt & Ht & Hrt).
  simpl in Hrt. destruct (Heap.readTree fuel h x) as [t|] eqn:Hrx; [|done].
  simpl in Hrt. injection Hrt as <-.
  (* the property is read from the original object *)
  unfold mbind at 1, Heap.M_bind. unfold Heap.getProp at 1.
  rewrite (Hk l Hll), Hl. rewrite (lookupProp_NoDup props (length pre) key x Hnd Hx).
  (* its value is copied *)
  assert (inside h x) as Hxin.
  { pose proof (proj1 Hwf l _ Hl) as HF. simpl in HF. rewrite Forall_forall in HF.
    apply HF. apply list_elem_of_fmap. exists (key, x). split; [done|].
    by eapply list_elem_of_lookup_2. }
  assert (Heap.readTree fuel hi x = Some t) as Hrti.
  { rewrite <- Hrx. apply readTree_keeps; [apply Hwf|done..]. }
  destruct (IH x hi t Hwfi Hrti) as ([x' hi'] & Ecl & Hwf' & Hlen' & Hk' & HA' & Hf' & Hin' & Hr').
  simpl in *. unfold mbind at 1, Heap.M_bind. rewrite Ecl.
  (* and added to the new object *)
  assert (key ∉ pre) as Hnew.
  { rewrite Hkeys in Hnd. apply NoDup_app in Hnd as (_ & Hnd & _).
    intros Hin. apply (Hnd key Hin). by left. }
  unfold Heap.setProp. rewrite (Hk' (length h) Hlen), Hc.
  rewrite updateProp_new by (by rewrite Hpre).
  eexists tt, _. split; [done|].
  assert (∀ l', l' ≠ length h →
            <[length h := Heap.Obj (kvs ++ [(key, x')])]> hi' !! l' = hi' !! l')
    as Hother by (intros; by apply list_lookup_insert_ne).
  split; [|split; [|split; [|split]]].
  - apply WF_insert; [done| |].
    + simpl. rewrite fmap_app. apply Forall_app. split; [|by repeat constructor].
      pose proof (proj1 Hwfi _ _ Hc) as HF. simpl in HF.
      eapply Forall_impl; [exact HF|]. intros v Hv. by eapply inside_mono.
    + intros props' [= <-]. rewrite fmap_app, Hpre. simpl.
      rewrite Hkeys in Hnd. replace (pre ++ key :: post) with ((pre ++ [key]) ++ post) in Hnd
        by (by rewrite <- app_assoc).
      by apply NoDup_app in Hnd as (Hnd & _).
  - intros l' Hl'. rewrite Hother by lia. rewrite Hk' by lia. by apply Hk.
  - rewrite length_insert. lia.
  - split; [rewrite length_insert; lia|].
    intros l' o Hl' E. rewrite Hother in E by lia.
    destruct (decide (l' < length hi)%nat) as [Hlt|Hge].
    + rewrite Hk' in E by done. by apply (proj2 HA l' o).
    + eapply Forall_impl; [apply (proj2 HA' l' o); [lia|done]|].
      intros v Hv. eapply fresh_mono; [done|lia].
  - exists (kvs ++ [(key, x')]). split; [|split; [|split]].
    + apply list_lookup_insert_eq. lia.
    + by rewrite fmap_app, Hpre.
    + rewrite fmap_app. apply Forall_app. split; [done|]. repeat constructor.
      eapply fresh_mono; [done|lia].
    + apply mapM_Some. rewrite length_app. simpl.
      replace (length pre + 1)%nat with (S (length pre)) by lia.
      rewrite (take_S_r _ _ _ Ht). apply Forall2_app.
      * apply mapM_Some in Hxr.
        pose proof (proj1 Hwfi _ _ Hc) as Hxin'. simpl in Hxin'.
        eapply (Forall2_impl_l _ _ (λ kv, fresh (S (length h)) kv.2 ∧ inside hi kv.2));
          [exact Hxr| |].
        { apply Forall_forall. intros kv Hkv. rewrite Forall_forall in Hxf, Hxin'.
          split; [apply Hxf|apply Hxin']; apply list_elem_of_fmap; by exists kv. }
        intros kv y [Hvf Hvi] Hvy. simpl in Hvy. rewrite <- Hvy. f_equal.
        apply (readTree_region (S (length h))); [|apply Hwfi|done..].
        intros l' Hl'. rewrite Hother by lia. apply Hk'. lia.
      * assert (Heap.readTree fuel (<[length h:=Heap.Obj (kvs ++ [(key, x')])]> hi') x'
                = Some t) as Hnew'.
        { rewrite <- Hr'. apply (readTree_region (length hi)); [|apply Hwf'|done..].
          intros l' Hl'. apply Hother. lia. }
        repeat constructor. cbn [fst snd]. by rewrite Hnew'.
Qed.

(** The object branch of [_clone]. *)
Lemma copies_object :
  ∃ r, Heap._clone (S fuel) (Heap.Ref l) h = Ok r ∧ copied h (Heap.TObj ts) (S fuel) r.
Proof.
  simpl. rewrite Hl.
  unfold mbind at 1, Heap.M_bind, Heap.alloc.
  destruct (forEachM_prefix ObjInv
    (λ key _, x ← Heap.getProp (Heap.Ref l) key;
              x' ← Heap._clone fuel x;
              Heap.setProp (Heap.Ref (length h)) key x')
    props.*1 tt (h ++ [Heap.Obj []])) as ([] & hf & E & HI).
  - split; [|split; [|split; [|split]]].
    + apply WF_alloc; [done|by constructor|]. intros props' [= <-]. constructor.
    + intros l' Hl'. by apply lookup_app_l.
    + rewrite length_app. simpl. lia.
    + split; [rewrite length_app; simpl; lia|].
      intros l' o Hl' E'. apply lookup_lt_Some in E'. rewrite length_app in E'. simpl in E'. lia.
    + exists []. split; [by rewrite list_lookup_middle|]. by rewrite take_0.
  - intros pre x post u hi Hp HI. exact (ObjInv_step pre x post u hi Hp HI).
  - rewrite (run_bind _ _ _ _ _ E). simpl.
    destruct HI as (Hwff & Hk & Hlen & HA & kvs & Hc & Hpre & Hxf & Hxr).
    eexists. split; [done|]. unfold copied. simpl.
    split; [done|]. split; [lia|]. split; [done|]. split; [|split; [lia|split; [lia|]]].
    + split; [lia|]. intros l' o Hl' E'.
      destruct (decide (l' = length h)) as [->|Hne].
      * rewrite Hc in E'. simplify_eq. simpl.
        eapply Forall_impl; [exact Hxf|]. intros v Hv. eapply fresh_mono; [done|lia].
      * eapply Forall_impl; [apply (proj2 HA l' o); [lia|done]|].
        intros v Hv. eapply fresh_mono; [done|lia].
    + rewrite Hc, Hxr. simpl. f_equal. f_equal. apply take_ge.
      apply mapM_Some, Forall2_length in Hts. rewrite length_fmap. lia.
Qed.
End CloneObject.

(** [_clone] returns whenever the value can be read as a tree within the
    fuel, and its result is a fresh copy that reads as the same tree. *)
Lemma clone_copies fuel : copies fuel.
Proof.
  induction fuel as [|fuel IH]; intros v h t Hwf Hr.
  - apply copies_prim; [|done..]. intros l ->. done.
  - destruct v as [z|b| |l]; try (apply copies_prim; [|done..]; by intros l').
    simpl in Hr. destruct (h !! l) as [[elems|props]|] eqn:Hl; [| |done].
    + destruct (mapM (Heap.readTree fuel h) elems) as [ts|] eqn:Hts; [|done].
      injection Hr as <-. by eapply copies_array.
    + destruct (mapM _ props) as [ts|] eqn:Hts; [|done].
      injection Hr as <-. by eapply copies_object.
Qed.

(** [_pushState] returns whenever the current state can be read within the
    fuel, and the state it pushes reads as the one beneath it. *)
Lemma pushState_copies fuel g h t :
  WF h → Heap.readTree fuel h (default Heap.Undef (head (Heap._stateStack g))) = Some t →
  ∃ g1 h1, Heap._pushState fuel g h = Ok (g1, h1) ∧
           Heap.readTree fuel h1 (Heap.currentState g1) = Some t.
Proof.
  intros Hwf Hr.
  destruct (clone_copies fuel _ h t Hwf Hr) as ([c h1] & E & Hc).
  unfold Heap._pushState. rewrite (run_bind _ _ _ _ _ E).
  eexists _, _. split; [done|]. simpl. apply Hc.
Qed.

Lemma readTree_inside fuel h v t : Heap.readTree fuel h v = Some t → inside h v.
Proof.
  destruct v as [| | |l]; try done. destruct fuel; [done|]. simpl.
  destruct (h !! l) eqn:E; [|done]. intros _. by eapply lookup_lt_Some.
Qed.

(** * The store of an engine *)

Definition prim (v : Heap.val) : Prop :=
  match v with
  | Heap.Ref _ => False
  | _ => True
  end.

(** A tree of primitives, at most [fuel] arrays and objects deep, in which
    no object lists a key twice. *)
Fixpoint fits (fuel : nat) (t : Heap.tree) : Prop :=
  match t with
  | Heap.Leaf v => prim v
  | Heap.TArr ts =>
    match fuel with
    | O => False
    | S fuel' => Forall (fits fuel') ts
    end
  | Heap.TObj ps =>
    match fuel with
    | O => False
    | S fuel' => NoDup ps.*1 ∧ Forall (λ kt, fits fuel' kt.2) ps
    end
  end.

(** What [build] achieves. *)
Definition built (h : Heap.heap) (t : Heap.tree) fuel (r : Heap.val * Heap.heap) : Prop :=
  WF r.2 ∧ keeps (length h) h r.2 ∧ (length h ≤ length r.2)%nat ∧
  inside r.2 r.1 ∧ Heap.readTree fuel r.2 r.1 = Some t.

Lemma keeps_length_trans h1 h2 h3 :
  (length h1 ≤ length h2)%nat →
  keeps (length h1) h1 h2 → keeps (length h2) h2 h3 → keeps (length h1) h1 h3.
Proof. intros Hl H12 H23 l Hlt. rewrite H23 by lia. by apply H12. Qed.

Lemma keeps_alloc h o : keeps (length h) h (h ++ [o]).
Proof. intros l Hl. by apply lookup_app_l. Qed.

Lemma build_fits fuel t h :
  fits fuel t → WF h → ∃ r, Heap.build t h = Ok r ∧ built h t fuel r.
Proof.
  revert t h. induction fuel as [|fuel IH]; intros t h Hfit Hwf.
  - destruct t as [v|ts|ps]; [|done..]. exists (v, h).
    split; [done|]. repeat split; auto using keeps_refl; try apply Hwf; by destruct v.
  - destruct t as [v|ts|ps]; simpl in Hfit.
    + exists (v, h).
      split; [done|]. repeat split; auto using keeps_refl; try apply Hwf; by destruct v.
    + assert (∀ ts h, Forall (fits fuel) ts → WF h →
                ∃ vs h', (fix go (ts : list Heap.tree) : Heap.M (list Heap.val) :=
                            match ts with
                            | [] => mret []
                            | t :: ts' => v ← Heap.build t; vs ← go ts'; mret (v :: vs)
                            end) ts h = Ok (vs, h')
                  ∧ WF h' ∧ keeps (length h) h h' ∧ (length h ≤ length h')%nat
                  ∧ Forall (inside h') vs
                  ∧ mapM (Heap.readTree fuel h') vs = Some ts) as Hgo.
      { clear ts h Hfit Hwf. induction ts as [|t ts IHts]; intros h Hfit Hwf.
        - exists [], h. repeat split; auto using keeps_refl; try apply Hwf.
        - apply Forall_cons in Hfit as [Ht Hts].
          destruct (IH t h Ht Hwf) as ([v h1] & E1 & Hwf1 & Hk1 & Hl1 & Hin1 & Hr1).
          simpl in *.
          destruct (IHts h1 Hts Hwf1) as (vs & h2 & E2 & Hwf2 & Hk2 & Hl2 & Hin2 & Hr2).
          exists (v :: vs), h2. split.
          { rewrite (run_bind _ _ _ _ _ E1), (run_bind _ _ _ _ _ E2). done. }
          split; [done|]. split; [by eapply keeps_length_trans|]. split; [lia|].
          split; [constructor; [by eapply inside_mono|done]|].
          apply mapM_Some. constructor; [|by apply mapM_Some].
          rewrite <- Hr1. apply readTree_keeps; [apply Hwf1|done..]. }
      destruct (Hgo ts h Hfit Hwf) as (vs & h' & E & Hwf' & Hk' & Hl' & Hin' & Hr').
      exists (Heap.Ref (length h'), h' ++ [Heap.Arr vs]). split.
      { simpl. by rewrite (run_bind _ _ _ _ _ E). }
      unfold built. simpl.
      split; [by apply WF_alloc|].
      split; [eapply keeps_length_trans; [done..|apply keeps_alloc]|].
      rewrite length_app. simpl. split; [lia|]. split; [lia|].
      rewrite list_lookup_middle by done. simpl.
      replace (mapM (Heap.readTree fuel (h' ++ [Heap.Arr vs])) vs) with (Some ts); [done|].
      symmetry. apply mapM_Some. apply mapM_Some in Hr'.
      eapply Forall2_impl_l; [exact Hr'|exact Hin'|].
      intros v t Hv Hvt. simpl in Hvt. rewrite <- Hvt.
      apply readTree_keeps; [apply Hwf'|apply keeps_alloc|done].
    + destruct Hfit as [Hnd Hfit].
      assert (∀ ps h, Forall (λ kt, fits fuel kt.2) ps → WF h →
                ∃ kvs h', (fix go (ps : list (string * Heap.tree))
                             : Heap.M (list (string * Heap.val)) :=
                             match ps with
                             | [] => mret []
                             | (k, t) :: ps' =>
                               v ← Heap.build t; kvs ← go ps'; mret ((k, v) :: kvs)
                             end) ps h = Ok (kvs, h')
                  ∧ WF h' ∧ keeps (length h) h h' ∧ (length h ≤ length h')%nat
                  ∧ Forall (inside h') kvs.*2 ∧ kvs.*1 = ps.*1
                  ∧ mapM (λ kv, pair kv.1 <$> Heap.readTree fuel h' kv.2) kvs = Some ps)
        as Hgo.
      { clear ps h Hnd Hfit Hwf. induction ps as [|[k t] ps IHps]; intros h Hfit Hwf.
        - exists [], h. repeat split; auto using keeps_refl; try apply Hwf.
        - apply Forall_cons in Hfit as [Ht Hts]. simpl in Ht.
          destruct (IH t h Ht Hwf) as ([v h1] & E1 & Hwf1 & Hk1 & Hl1 & Hin1 & Hr1).
          simpl in *.
          destruct (IHps h1 Hts Hwf1)
            as (kvs & h2 & E2 & Hwf2 & Hk2 & Hl2 & Hin2 & Hkeys & Hr2).
          exists ((k, v) :: kvs), h2. split.
          { rewrite (run_bind _ _ _ _ _ E1), (run_bind _ _ _ _ _ E2). done. }
          split; [done|]. split; [by eapply keeps_length_trans|]. split; [lia|].
          split; [constructor; [by eapply inside_mono|done]|].
          split; [csimpl; by rewrite Hkeys|].
          apply mapM_Some. constructor; [|by apply mapM_Some]. simpl.
          replace (Heap.readTree fuel h2 v) with (Some t); [done|].
          rewrite <- Hr1. symmetry. apply readTree_keeps; [apply Hwf1|done..]. }
      destruct (Hgo ps h Hfit Hwf) as (kvs & h' & E & Hwf' & Hk' & Hl' & Hin' & Hkeys & Hr').
      exists (Heap.Ref (length h'), h' ++ [Heap.Obj kvs]). split.
      { simpl. by rewrite (run_bind _ _ _ _ _ E). }
      unfold built. simpl.
      split; [apply WF_alloc; [done..|]; intros ? [= <-]; by rewrite Hkeys|].
      split; [eapply keeps_length_trans; [done..|apply keeps_alloc]|].
      rewrite length_app. simpl. split; [lia|]. split; [lia|].
      rewrite list_lookup_middle by done. simpl.
      replace (mapM (λ kv, pair kv.1 <$> Heap.readTree fuel (h' ++ [Heap.Obj kvs]) kv.2) kvs)
        with (Some ps); [done|].
      symmetry. apply mapM_Some. apply mapM_Some in Hr'.
      eapply (Forall2_impl_l _ _ (λ kv, inside h' kv.2)); [exact Hr'| |].
      { rewrite Forall_fmap in Hin'. exact Hin'. }
      intros kv kt Hv Hvt. simpl in Hvt. rewrite <- Hvt. f_equal.
      apply readTree_keeps; [apply Hwf'|apply keeps_alloc|done].
Qed.

Lemma fits_numbers fuel l : fits (S fuel) (Heap.numbers l).
Proof.
  unfold Heap.numbers. simpl. apply Forall_fmap, Forall_true. intros z. by destruct fuel.
Qed.

Lemma fits_rows fuel (rows : list (list Z)) :
  fits (S (S fuel)) (Heap.TArr (Heap.numbers <$> rows)).
Proof. simpl. apply Forall_fmap, Forall_true. intros l. apply fits_numbers. Qed.

Lemma fits_columns fuel (columns : list (list (list Z))) :
  fits (S (S (S fuel)))
    (Heap.TArr ((λ column, Heap.TArr (Heap.numbers <$> column)) <$> columns)).
Proof. simpl. apply Forall_fmap, Forall_true. intros column. apply (fits_rows fuel). Qed.

(** The object of a state is four arrays deep (the cells of [map]). *)
Lemma fits_stateTree s : fits 4 (Heap.stateTree s).
Proof.
  unfold Heap.stateTree. split.
  - apply (bool_decide_unpack _). by vm_compute.
  - repeat (apply List.Forall_cons); try done;
      [apply (fits_rows 1)|apply (fits_rows 1)|apply (fits_columns 0)| |apply (fits_numbers 2)].
    change (Forall (fits 2) ((λ c : Z * Z, Heap.numbers [c.1; c.2]) <$> JS.winningCoords s)).
    apply Forall_fmap, Forall_true. intros c. apply (fits_numbers 1).
Qed.

(** The store built for an engine of [Module JS] is well formed, and each
    state of the stack reads from it as the object of that state. *)
Lemma ofJS_reads g :
  ∃ hg h, Heap.ofJS g [] = Ok (hg, h) ∧ WF h ∧
    Heap.currentState hg = default Heap.Undef (head (Heap._stateStack hg)) ∧
    Forall2 (λ v s, Heap.readTree 4 h v = Some (Heap.stateTree s))
      (Heap._stateStack hg) (JS._stateStack g).
Proof.
  unfold Heap.ofJS.
  destruct (forEachM_prefix
    (λ pre stack h, WF h ∧ Forall (inside h) stack ∧
       Forall2 (λ v s, Heap.readTree 4 h v = Some (Heap.stateTree s)) stack (rev pre))
    (λ s stack, v ← Heap.build (Heap.stateTree s); mret (v :: stack))
    (rev (JS._stateStack g)) [] []) as (stack & h & E & Hwf & Hin & Hr).
  - split; [|split]; [split; by intros []|constructor|constructor].
  - intros pre s post stack h _ (Hwf & Hin & Hr).
    destruct (build_fits 4 _ h (fits_stateTree s) Hwf)
      as ([v h'] & E & Hwf' & Hk & Hl & Hv & Hrv).
    cbn [fst snd] in *. exists (v :: stack), h'.
    split; [by rewrite (run_bind _ _ _ _ _ E)|].
    split; [done|]. split.
    + constructor; [done|]. eapply Forall_impl; [exact Hin|].
      intros x Hx. by eapply inside_mono.
    + rewrite rev_app_distr. cbn [rev app]. constructor; [done|].
      eapply Forall2_impl_l; [exact Hr|exact Hin|].
      intros x s' Hx Hxs. cbn beta in Hxs. rewrite <- Hxs.
      apply readTree_keeps; [apply Hwf|done..].
  - rewrite (run_bind _ _ _ _ _ E). eexists _, h. split; [done|]. cbn [fst snd] in *.
    split; [done|]. split; [done|]. by rewrite rev_involutive in Hr.
Qed.

(** In the store of a reachable engine the current state reads as the
    current state of [Module JS], and [_pushState] returns with a copy
    that reads the same. *)
Lemma reachable_store g :
  reachable g →
  ∃ s hg h, JS.currentState g = Ok s ∧ Heap.ofJS g [] = Ok (hg, h) ∧ WF h ∧
    Heap.currentState hg = default Heap.Undef (head (Heap._stateStack hg)) ∧
    Heap.readTree 4 h (Heap.currentState hg) = Some (Heap.stateTree s).
Proof.
  intros Hr. destruct (reachable_counted g Hr) as (_ & Hne & _).
  destruct (ofJS_reads g) as (hg & h & E & Hwf & Hcur & Hst).
  unfold JS.currentState. destruct (JS._stateStack g) as [|s rest]; [done|].
  exists s, hg, h. split; [done|]. split; [done|]. split; [done|]. split; [done|].
  rewrite Hcur. by inversion Hst.
Qed.

Lemma reachable_push_returns g :
  reachable g →
  ∃ s hg h g1 h1, JS.currentState g = Ok s ∧ Heap.ofJS g [] = Ok (hg, h) ∧
    Heap._pushState 4 hg h = Ok (g1, h1) ∧
    Heap.readTree 4 h1 (Heap.currentState g1) = Some (Heap.stateTree s).
Proof.
  intros Hr. destruct (reachable_store g Hr) as (s & hg & h & Hs & E & Hwf & Hcur & Hread).
  rewrite Hcur in Hread.
  destruct (pushState_copies 4 hg h _ Hwf Hread) as (g1 & h1 & Hp & Hr1).
  by exists s, hg, h, g1, h1.
Qed.

(** * Push, drops, pop *)

(** C10: [_pushState] copies the current state: it returns, and the state
    it pushes reads as the one beneath it, every field at every depth
    (board, scores, potentials, winner, piece count, ...).  When then any
    sequence of drops is made on the copy and [_popState] is called, the
    engine is as before the push and its current state reads as before.
    None of the objects of the store that existed before the push has been
    written. *)
Theorem push_drops_pop_restores fuel g h t :
  WF h →
  Heap.currentState g = default Heap.Undef (head (Heap._stateStack g)) →
  Heap.readTree fuel h (Heap.currentState g) = Some t →
  ∃ g1 h1,
    Heap._pushState fuel g h = Ok (g1, h1) ∧
    Heap.readTree fuel h1 (Heap.currentState g1) = Some t ∧
    Heap._popState g1 = g ∧
    ∀ moves rows h2, Heap.drops g1 moves h1 = Ok (rows, h2) →
      keeps (length h) h h2 ∧
      ∀ k, Heap.readTree k h2 (Heap.currentState g)
           = Heap.readTree k h (Heap.currentState g).
Proof.
  intros Hwf Hcur Hr.
  pose proof (readTree_inside _ _ _ _ Hr) as Hin.
  rewrite Hcur in Hr.
  destruct (pushState_copies fuel g h t Hwf Hr) as (g1 & h1 & Hpush & Hr1).
  exists g1, h1. split; [done|]. split; [done|].
  assert (frame (length h) (Heap._pushState fuel g)
            (λ g1, fresh (length h) (Heap.currentState g1) ∧ Heap._popState g1 = g)) as Hf.
  { unfold Heap._pushState. eapply frame_bind; [apply frame_clone|].
    intros cloned Hc. apply frame_ret. simpl. split; [done|].
    unfold Heap._popState. simpl. rewrite <- Hcur. by destruct g. }
  destruct (Hf h g1 h1 (Above_length h) Hpush) as (HA1 & Hk1 & Hfresh & Hpop).
  split; [done|]. intros moves rows h2 Hdrops.
  destruct (frame_drops (length h) g1 Hfresh moves h1 rows h2 HA1 Hdrops) as (_ & Hk2 & _).
  assert (keeps (length h) h h2) as Hk by (eapply keeps_trans; eauto).
  split; [done|]. intros k. apply readTree_keeps; [apply Hwf|done..].
Qed.

Definition keysb (h : Heap.heap) : bool :=
  forallb (λ o, match o with
                | Heap.Obj props => bool_decide (NoDup props.*1)
                | Heap.Arr _ => true
                end) h.

Lemma keysb_NoDupKeys h : keysb h = true → NoDupKeys h.
Proof.
  unfold keysb, NoDupKeys. rewrite forallb_forall. intros H l props E.
  apply list_elem_of_lookup_2, list_elem_of_In, H in E.
  by apply bool_decide_eq_true in E.
Qed.

Lemma push_drops_pop_restores_witness :
  WF stored.2 ∧
  Heap._pushState 5 stored.1 stored.2 = Ok pushed ∧
  Heap.readTree 5 pushed.2 (Heap.currentState pushed.1)
    = Heap.stateTree <$> head (JS._stateStack small1) ∧
  Heap.drops pushed.1 [(1, 0); (0, 1)] pushed.2 = Ok dropped ∧
  ∃ g1 h1,
    Heap._pushState 5 stored.1 stored.2 = Ok (g1, h1) ∧
    Heap.readTree 5 h1 (Heap.currentState g1)
      = Heap.stateTree <$> head (JS._stateStack small1) ∧
    Heap._popState g1 = stored.1 ∧
    ∀ moves rows h2, Heap.drops g1 moves h1 = Ok (rows, h2) →
      keeps (length stored.2) stored.2 h2 ∧
      ∀ k, Heap.readTree k h2 (Heap.currentState stored.1)
           = Heap.readTree k stored.2 (Heap.currentState stored.1).
Proof.
  assert (WF stored.2) as Hwf
    by (split; [by apply closedb_Closed|by apply keysb_NoDupKeys]).
  split; [exact Hwf|]. split; [reflexivity|]. split; [by vm_compute|].
  split; [reflexivity|].
  apply (push_drops_pop_restores 5 stored.1 stored.2 _ Hwf eq_refl).
  by vm_compute.
Defined.

(** * The lines of the board *)

(** ** Loops by position *)

Lemma loop_ext {St} (body body' : Z → St → result St) n i step s :
  (∀ j s, body j s = body' j s) → loop n i step body s = loop n i step body' s.
Proof.
  intros E. revert i s. induction n as [|n IH]; intros i s; simpl; [done|].
  rewrite E. destruct (body' i s); simpl; [apply IH|done].
Qed.

Lemma loop_reindex {St} (body : Z → St → result St) n i j step s :
  loop n i step body s = loop n j 1 (λ t, body (i + (t - j) * step)) s.
Proof.
  revert i j s. induction n as [|n IH]; intros i j s; simpl; [done|].
  replace (i + (j - j) * step) with i by lia.
  destruct (body i s) as [s'|]; simpl; [|done].
  rewrite (IH (i + step) (j + 1)). apply loop_ext. intros t s0. f_equal. lia.
Qed.

(** [for (j = hi; j >= lo; j--)] visits [hi - 0], [hi - 1], ... *)
Lemma forDown_forUp {St} (body : Z → St → result St) hi lo s :
  forDown hi lo body s = forUp 0 (hi - lo + 1) (λ t, body (hi - t)) s.
Proof.
  unfold forDown, forUp. rewrite (loop_reindex body _ hi 0 (-1)).
  replace (hi - lo + 1 - 0) with (hi - lo + 1) by lia.
  apply loop_ext. intros t s0. f_equal. lia.
Qed.

Lemma forUp_max {St} (body : Z → St → result St) hi s :
  forUp 0 hi body s = forUp 0 (Z.max 0 hi) body s.
Proof. unfold forUp. f_equal. lia. Qed.

Lemma forUp_count {St} (I : Z → St → Prop) (body : Z → St → result St) lo hi s :
  lo ≤ hi → I lo s →
  (∀ i s, lo ≤ i < hi → I i s → ∃ s', body i s = Ok s' ∧ I (i + 1) s') →
  ∃ s', forUp lo hi body s = Ok s' ∧ I hi s'.
Proof.
  intros Hle H0 Hstep. unfold forUp.
  destruct (loop_count (λ t, I (lo + Z.of_nat t)) body (Z.to_nat (hi - lo)) lo 1 s)
    as (s' & E & H').
  - by replace (lo + Z.of_nat 0) with lo by lia.
  - intros t s0 Ht HI.
    destruct (Hstep (lo + Z.of_nat t) s0 ltac:(lia) HI) as (s1 & E1 & H1).
    exists s1. split; [by replace (lo + Z.of_nat t * 1) with (lo + Z.of_nat t) by lia|].
    by replace (lo + Z.of_nat (S t)) with (lo + Z.of_nat t + 1) by lia.
  - exists s'. split; [done|].
    by replace (lo + Z.of_nat (Z.to_nat (hi - lo))) with hi in H' by lia.
Qed.

(** ** The cells of a line *)

(** [map[x][y]]; no ids outside the board. *)
Definition cellAt (m : WinMap) (x y : Z) : list Z :=
  default [] (column ← get m x; get column y).

(** How many of the [connect] cells [cellOf 0], [cellOf 1], ... are [(x, y)]. *)
Definition hitsTo (n : Z) (cellOf : Z → Z * Z) (x y : Z) : Z :=
  sumZ ((λ t, if bool_decide (cellOf t = (x, y)) then 1 else 0) <$> seqZ 0 n).

Lemma hitsTo_0 cellOf x y : hitsTo 0 cellOf x y = 0.
Proof. done. Qed.

Lemma hitsTo_S n cellOf x y :
  0 ≤ n →
  hitsTo (n + 1) cellOf x y
  = hitsTo n cellOf x y + (if bool_decide (cellOf n = (x, y)) then 1 else 0).
Proof.
  intros Hn. unfold hitsTo. rewrite seqZ_app by lia. rewrite fmap_app, sumZ_app.
  rewrite Z.add_0_l. change (seqZ n 1) with [0 + n]. rewrite Z.add_0_l. csimpl. lia.
Qed.

Lemma hitsTo_ext n cellOf cellOf' x y :
  (∀ t, 0 ≤ t < n → cellOf t = cellOf' t) → hitsTo n cellOf x y = hitsTo n cellOf' x y.
Proof.
  intros E. unfold hitsTo. f_equal. apply list_fmap_ext. intros i t Ht.
  apply lookup_seqZ in Ht as [-> Hi]. by rewrite E by lia.
Qed.

Section Geometry.
Variables cols rows connect : Z.
Hypothesis Hcols : 0 ≤ cols.
Hypothesis Hrows : 0 ≤ rows.
Hypothesis Hconnect : 0 ≤ connect.

Lemma cellAt_inside m x y :
  dims cols rows m → inBoard cols rows (x, y) →
  ∃ column, get m x = Some column ∧ get column y = Some (cellAt m x y).
Proof.
  intros [Hl Hc] [Hx Hy]. simpl in *. unfold cellAt.
  destruct (get_lt m x) as [column Ex]; [lia|]. rewrite Ex. simpl.
  destruct (get_lt column y) as [cell Ey]; [rewrite (Hc _ _ Ex); lia|].
  rewrite Ey. by exists column.
Qed.

(** [map[x][y].push(w)] changes that cell only. *)
Lemma mapPush_cellAt m x y w :
  dims cols rows m → inBoard cols rows (x, y) →
  ∃ m', JS.mapPush m x y w = Ok m' ∧ dims cols rows m' ∧
        ∀ x' y', cellAt m' x' y' =
          if bool_decide ((x', y') = (x, y)) then cellAt m x y ++ [w] else cellAt m x' y'.
Proof.
  intros Hd Hin.
  destruct (mapPush_spec cols rows Hcols Hrows m x y w Hd Hin) as (m' & E & Hd' & _).
  exists m'. split; [done|]. split; [done|].
  destruct (cellAt_inside m x y Hd Hin) as (column & Ex & Ey).
  unfold JS.mapPush, deref, elem in E. rewrite Ex in E. simpl in E.
  rewrite Ey in E. simpl in E. injection E as <-.
  pose proof (get_Some_lt _ _ _ Ex) as Hx. pose proof (get_Some_lt _ _ _ Ey) as Hy.
  intros x' y'. case_bool_decide as Hc.
  - injection Hc as -> ->. unfold cellAt at 1.
    rewrite get_set_eq by done. simpl. by rewrite get_set_eq by done.
  - unfold cellAt. destruct (decide (x' = x)) as [->|Hx'].
    + rewrite get_set_eq by done. rewrite Ex. simpl.
      destruct (decide (0 ≤ y')) as [Hy0|Hy0].
      * rewrite get_set_ne by (lia || congruence). done.
      * unfold get. by destruct (Z.ltb_spec y' 0); [|lia].
    + destruct (decide (0 ≤ x')) as [Hx0|Hx0].
      * by rewrite get_set_ne by (lia || congruence).
      * unfold get. by destruct (Z.ltb_spec x' 0); [|lia].
Qed.

(** The cells of the lines: [cell L t] is the [t]-th cell of line [L]. *)
Variable cell : Z → Z → Z * Z.

(** After [k] lines have been numbered, [map[x][y]] lists an id below [k]
    once for each cell of that line at [(x, y)], and no other id. *)
Definition MapGeo (k : Z) (st : WinMap * Z) : Prop :=
  dims cols rows st.1 ∧ st.2 = k ∧ 0 ≤ k ∧
  ∀ x y L, count L (cellAt st.1 x y) =
    if bool_decide (0 ≤ L < k) then hitsTo connect (cell L) x y else 0.

Lemma line_geo cellOf k st :
  (∀ t, 0 ≤ t < connect → inBoard cols rows (cellOf t) ∧ cell k t = cellOf t) →
  MapGeo k st →
  ∃ st', JS.line connect cellOf st = Ok st' ∧ MapGeo (k + 1) st'.
Proof.
  intros Hcells (Hd & Hw & Hk & Hcount). destruct st as [m w]. simpl in *. subst w.
  unfold JS.line. simpl.
  destruct (forUp_count
    (λ t m', dims cols rows m' ∧
       ∀ x y L, count L (cellAt m' x y) =
         count L (cellAt m x y) + (if k =? L then hitsTo t cellOf x y else 0))
    (λ t m', JS.mapPush m' (cellOf t).1 (cellOf t).2 k) 0 connect m)
    as (m' & E & Hd' & Hcount'); [done| |  |].
  - split; [done|]. intros x y L. rewrite hitsTo_0. destruct (k =? L); lia.
  - intros t m0 Ht [Hd0 Hc0].
    destruct (mapPush_cellAt m0 (cellOf t).1 (cellOf t).2 k Hd0) as (m1 & E1 & Hd1 & Hc1).
    { destruct (Hcells t Ht) as [Hin _]. by destruct (cellOf t). }
    exists m1. split; [done|]. split; [done|].
    intros x y L. rewrite Hc1, hitsTo_S by lia.
    rewrite (bool_decide_ext ((x, y) = ((cellOf t).1, (cellOf t).2)) (cellOf t = (x, y)))
      by (destruct (cellOf t); simpl; split; congruence).
    case_bool_decide as Hxy.
    + rewrite Hxy. simpl. rewrite count_snoc, Hc0. destruct (k =? L); lia.
    + rewrite Hc0. destruct (k =? L); lia.
  - rewrite E. simpl. eexists. split; [done|].
    split; [done|]. split; [done|]. split; [lia|]. simpl.
    intros x y L. rewrite Hcount', Hcount.
    destruct (Z.eqb_spec k L) as [<-|Hne].
    + rewrite bool_decide_eq_false_2 by lia. rewrite bool_decide_eq_true_2 by lia.
      rewrite (hitsTo_ext _ (cell k) cellOf); [lia|]. intros t Ht. by apply Hcells.
    + repeat case_bool_decide; lia.
Qed.

(** Two nested loops around [line], as the four passes use them; they
    number [n1 * n2] lines (none when a bound is negative). *)
Lemma pass_geo (cellOf : Z → Z → Z → Z * Z) n1 n2 k st :
  (∀ i j t, 0 ≤ i < n1 → 0 ≤ j < n2 → 0 ≤ t < connect →
     inBoard cols rows (cellOf i j t) ∧ cell (k + i * n2 + j) t = cellOf i j t) →
  MapGeo k st →
  ∃ st', forUp 0 n1 (λ i, forUp 0 n2 (λ j, JS.line connect (cellOf i j))) st = Ok st'
         ∧ MapGeo (k + Z.max 0 n1 * Z.max 0 n2) st'.
Proof.
  intros Hcells HI. rewrite forUp_max.
  destruct (forUp_count (λ i, MapGeo (k + i * Z.max 0 n2))
    (λ i, forUp 0 n2 (λ j, JS.line connect (cellOf i j))) 0 (Z.max 0 n1) st)
    as (st' & E & H');
    [lia|by replace (k + 0 * Z.max 0 n2) with k by lia| |by exists st'].
  intros i s0 Hi H0. rewrite forUp_max.
  destruct (forUp_count (λ j, MapGeo (k + i * Z.max 0 n2 + j))
    (λ j, JS.line connect (cellOf i j)) 0 (Z.max 0 n2) s0) as (s1 & E1 & H1);
    [lia|by replace (k + i * Z.max 0 n2 + 0) with (k + i * Z.max 0 n2) by lia| |].
  - intros j s1 Hj H1.
    destruct (line_geo (cellOf i j) (k + i * Z.max 0 n2 + j) s1) as (s2 & E2 & H2); [|done|].
    + intros t Ht. replace (Z.max 0 n2) with n2 by lia. apply Hcells; lia.
    + exists s2. split; [done|].
      by replace (k + i * Z.max 0 n2 + (j + 1)) with (k + i * Z.max 0 n2 + j + 1) by lia.
  - exists s1. split; [done|].
    by replace (k + (i + 1) * Z.max 0 n2) with (k + i * Z.max 0 n2 + Z.max 0 n2) by lia.
Qed.

(** The same with the inner loop counting down from [hi] to [lo]. *)
Lemma pass_geo_down (cellOf : Z → Z → Z → Z * Z) n1 hi lo k st :
  (∀ i j t, 0 ≤ i < n1 → lo ≤ j ≤ hi → 0 ≤ t < connect →
     inBoard cols rows (cellOf i j t) ∧
     cell (k + i * (hi - lo + 1) + (hi - j)) t = cellOf i j t) →
  MapGeo k st →
  ∃ st', forUp 0 n1 (λ i, forDown hi lo (λ j, JS.line connect (cellOf i j))) st = Ok st'
         ∧ MapGeo (k + Z.max 0 n1 * Z.max 0 (hi - lo + 1)) st'.
Proof.
  intros Hcells HI.
  destruct (pass_geo (λ i j, cellOf i (hi - j)) n1 (hi - lo + 1) k st) as (st' & E & H');
    [|done|].
  - intros i j t Hi Hj Ht. destruct (Hcells i (hi - j) t) as [H1 H2]; [lia..|].
    split; [done|]. rewrite <- H2. f_equal. lia.
  - exists st'. split; [|done]. rewrite <- E. unfold forUp. apply loop_ext.
    intros i s. apply forDown_forUp.
Qed.

End Geometry.

(** The [t]-th cell of line [L], in the order the four passes of
    [_setupMap] number the lines: [a] horizontal lines in each row, then [b]
    vertical ones in each column, then the diagonals going up to the right
    and those going up to the left, by row of their lowest cell. *)
Definition lineCell (cols rows connect L t : Z) : Z * Z :=
  let a := Z.max 0 (cols - connect + 1) in
  let b := Z.max 0 (rows - connect + 1) in
  if L <? rows * a then (L mod a + t, L / a)
  else
    let L := L - rows * a in
    if L <? cols * b then (L / b, L mod b + t)
    else
      let L := L - cols * b in
      if L <? b * a then (L mod a + t, L / a + t)
      else
        let L := L - b * a in
        (cols - 1 - L mod a - t, L / a + t).

Lemma divmod_pair a i j : 0 ≤ j < a → (i * a + j) / a = i ∧ (i * a + j) mod a = j.
Proof.
  intros Hj. split.
  - rewrite Z.div_add_l by lia. rewrite Z.div_small by lia. lia.
  - rewrite Z.add_comm, Z.mod_add by lia. apply Z.mod_small. lia.
Qed.

Section SetupMap.
Variables cols rows connect : Z.
Hypothesis Hcols : 0 ≤ cols.
Hypothesis Hrows : 0 ≤ rows.
Hypothesis Hconnect : 0 ≤ connect.

Let a := Z.max 0 (cols - connect + 1).
Let b := Z.max 0 (rows - connect + 1).

Lemma setupMap_geo :
  ∃ m, JS._setupMap cols rows connect = Ok (m, enumerated cols rows connect) ∧
       MapGeo cols rows connect (lineCell cols rows connect)
         (enumerated cols rows connect) (m, enumerated cols rows connect).
Proof.
  unfold JS._setupMap.
  assert (MapGeo cols rows connect (lineCell cols rows connect) 0
            (JS.emptyMap cols rows, 0)) as H0.
  { split; [by apply dims_emptyMap|]. split; [done|]. split; [done|]. simpl.
    intros x y L. rewrite bool_decide_eq_false_2 by lia.
    unfold cellAt, JS.emptyMap.
    destruct (get _ x) as [column|] eqn:Ex; [|done]. simpl.
    apply get_Some in Ex as [_ Ex]. apply lookup_replicate in Ex as [-> _].
    destruct (get _ y) as [c|] eqn:Ey; [|done]. simpl.
    apply get_Some in Ey as [_ Ey]. by apply lookup_replicate in Ey as [-> _]. }
  edestruct (pass_geo cols rows connect Hcols Hrows Hconnect (lineCell cols rows connect)
    (λ i j t, (j + t, i)) rows (cols - connect + 1)) as (st1 & E1 & H1); [|exact H0|].
  { intros i j t Hi Hj Ht. split; [split; simpl; lia|].
    unfold lineCell. fold a.
    replace (cols - connect + 1) with a by (unfold a; lia).
    destruct (divmod_pair a i j ltac:(unfold a; lia)) as [Hd Hm].
    replace (0 + i * a + j) with (i * a + j) by lia.
    destruct (Z.ltb_spec (i * a + j) (rows * a)); [by rewrite Hd, Hm|]. unfold a in *. nia. }
  rewrite E1. simpl.
  edestruct (pass_geo cols rows connect Hcols Hrows Hconnect (lineCell cols rows connect)
    (λ i j t, (i, j + t)) cols (rows - connect + 1)) as (st2 & E2 & H2); [|exact H1|].
  { intros i j t Hi Hj Ht. split; [split; simpl; lia|].
    unfold lineCell. fold a b.
    replace (rows - connect + 1) with b by (unfold b; lia).
    replace (Z.max 0 rows) with rows by lia.
    replace (Z.max 0 (cols - connect + 1)) with a by done.
    destruct (divmod_pair b i j ltac:(unfold b; lia)) as [Hd Hm].
    destruct (Z.ltb_spec (0 + rows * a + i * b + j) (rows * a)); [unfold a, b in *; nia|].
    replace (0 + rows * a + i * b + j - rows * a) with (i * b + j) by lia.
    destruct (Z.ltb_spec (i * b + j) (cols * b)); [by rewrite Hd, Hm|]. unfold b in *. nia. }
  rewrite E2. simpl.
  edestruct (pass_geo cols rows connect Hcols Hrows Hconnect (lineCell cols rows connect)
    (λ i j t, (j + t, i + t)) (rows - connect + 1) (cols - connect + 1))
    as (st3 & E3 & H3); [|exact H2|].
  { intros i j t Hi Hj Ht. split; [split; simpl; lia|].
    unfold lineCell. fold a b.
    replace (cols - connect + 1) with a by (unfold a; lia).
    replace (Z.max 0 rows) with rows by lia. replace (Z.max 0 cols) with cols by lia.
    replace (Z.max 0 (rows - connect + 1)) with b by done.
    replace (Z.max 0 a) with a by (unfold a; lia).
    destruct (divmod_pair a i j ltac:(unfold a; lia)) as [Hd Hm].
    destruct (Z.ltb_spec (0 + rows * a + cols * b + i * a + j) (rows * a));
      [unfold a, b in *; nia|].
    replace (0 + rows * a + cols * b + i * a + j - rows * a) with (cols * b + i * a + j) by lia.
    destruct (Z.ltb_spec (cols * b + i * a + j) (cols * b)); [unfold a, b in *; nia|].
    replace (cols * b + i * a + j - cols * b) with (i * a + j) by lia.
    destruct (Z.ltb_spec (i * a + j) (b * a)); [by rewrite Hd, Hm|]. unfold a, b in *. nia. }
  rewrite E3. simpl.
  edestruct (pass_geo_down cols rows connect Hcols Hrows Hconnect
    (lineCell cols rows connect)
    (λ i j t, (j - t, i + t)) (rows - connect + 1) (cols - 1) (connect - 1))
    as (st4 & E4 & H4); [|exact H3|].
  { intros i j t Hi Hj Ht. split; [split; simpl; lia|].
    unfold lineCell. fold a b.
    replace (cols - 1 - (connect - 1) + 1) with a by (unfold a; lia).
    replace (Z.max 0 rows) with rows by lia. replace (Z.max 0 cols) with cols by lia.
    replace (Z.max 0 (rows - connect + 1)) with b by done.
    replace (Z.max 0 (cols - connect + 1)) with a by done.
    destruct (divmod_pair a i (cols - 1 - j) ltac:(unfold a; lia)) as [Hd Hm].
    destruct (Z.ltb_spec (0 + rows * a + cols * b + b * a + i * a + (cols - 1 - j)) (rows * a));
      [unfold a, b in *; nia|].
    replace (0 + rows * a + cols * b + b * a + i * a + (cols - 1 - j) - rows * a)
      with (cols * b + b * a + i * a + (cols - 1 - j)) by lia.
    destruct (Z.ltb_spec (cols * b + b * a + i * a + (cols - 1 - j)) (cols * b));
      [unfold a, b in *; nia|].
    replace (cols * b + b * a + i * a + (cols - 1 - j) - cols * b)
      with (b * a + i * a + (cols - 1 - j)) by lia.
    destruct (Z.ltb_spec (b * a + i * a + (cols - 1 - j)) (b * a)); [unfold a, b in *; nia|].
    replace (b * a + i * a + (cols - 1 - j) - b * a) with (i * a + (cols - 1 - j)) by lia.
    rewrite Hd, Hm. f_equal. lia. }
  assert (0 + Z.max 0 rows * Z.max 0 (cols - connect + 1)
          + Z.max 0 cols * Z.max 0 (rows - connect + 1)
          + Z.max 0 (rows - connect + 1) * Z.max 0 (cols - connect + 1)
          + Z.max 0 (rows - connect + 1) * Z.max 0 (cols - 1 - (connect - 1) + 1)
          = enumerated cols rows connect) as Hk.
  { unfold enumerated.
    replace (cols - 1 - (connect - 1) + 1) with (cols - connect + 1) by lia.
    replace (Z.max 0 rows) with rows by lia. replace (Z.max 0 cols) with cols by lia. lia. }
  rewrite Hk in H4. destruct st4 as [m w]. pose proof H4 as (_ & Hw & _). simpl in Hw.
  subst w. by exists m.
Qed.
End SetupMap.

(** ** The four families of lines *)

Section Lines.
Variables cols rows connect : Z.
Hypothesis Hcols : 0 ≤ cols.
Hypothesis Hrows : 0 ≤ rows.
Hypothesis Hconnect : 1 ≤ connect.

Let a := Z.max 0 (cols - connect + 1).
Let b := Z.max 0 (rows - connect + 1).
Let places := enumerated cols rows connect.

Lemma lineCell_h i j t :
  0 ≤ i < rows → 0 ≤ j < a → lineCell cols rows connect (i * a + j) t = (j + t, i).
Proof.
  intros Hi Hj. unfold lineCell. fold a b.
  destruct (divmod_pair a i j Hj) as [Hd Hm].
  destruct (Z.ltb_spec (i * a + j) (rows * a)); [by rewrite Hd, Hm|nia].
Qed.

Lemma lineCell_v i j t :
  0 ≤ i < cols → 0 ≤ j < b →
  lineCell cols rows connect (rows * a + i * b + j) t = (i, j + t).
Proof.
  intros Hi Hj. unfold lineCell. fold a b.
  destruct (divmod_pair b i j Hj) as [Hd Hm].
  assert (0 ≤ a) by (unfold a; lia).
  destruct (Z.ltb_spec (rows * a + i * b + j) (rows * a)); [nia|].
  replace (rows * a + i * b + j - rows * a) with (i * b + j) by lia.
  destruct (Z.ltb_spec (i * b + j) (cols * b)); [by rewrite Hd, Hm|nia].
Qed.

Lemma lineCell_d i j t :
  0 ≤ i < b → 0 ≤ j < a →
  lineCell cols rows connect (rows * a + cols * b + i * a + j) t = (j + t, i + t).
Proof.
  intros Hi Hj. unfold lineCell. fold a b.
  destruct (divmod_pair a i j Hj) as [Hd Hm].
  destruct (Z.ltb_spec (rows * a + cols * b + i * a + j) (rows * a)); [nia|].
  replace (rows * a + cols * b + i * a + j - rows * a) with (cols * b + i * a + j) by lia.
  destruct (Z.ltb_spec (cols * b + i * a + j) (cols * b)); [nia|].
  replace (cols * b + i * a + j - cols * b) with (i * a + j) by lia.
  destruct (Z.ltb_spec (i * a + j) (b * a)); [by rewrite Hd, Hm|nia].
Qed.

Lemma lineCell_b i j t :
  0 ≤ i < b → 0 ≤ j < a →
  lineCell cols rows connect (rows * a + cols * b + b * a + i * a + j) t
  = (cols - 1 - j - t, i + t).
Proof.
  intros Hi Hj. unfold lineCell. fold a b.
  destruct (divmod_pair a i j Hj) as [Hd Hm].
  destruct (Z.ltb_spec (rows * a + cols * b + b * a + i * a + j) (rows * a)); [nia|].
  replace (rows * a + cols * b + b * a + i * a + j - rows * a)
    with (cols * b + b * a + i * a + j) by lia.
  destruct (Z.ltb_spec (cols * b + b * a + i * a + j) (cols * b)); [nia|].
  replace (cols * b + b * a + i * a + j - cols * b) with (b * a + i * a + j) by lia.
  destruct (Z.ltb_spec (b * a + i * a + j) (b * a)); [nia|].
  replace (b * a + i * a + j - b * a) with (i * a + j) by lia.
  by rewrite Hd, Hm.
Qed.

Lemma split_index n c L :
  0 ≤ c → 0 ≤ L < n * c → ∃ i j, 0 ≤ i < n ∧ 0 ≤ j < c ∧ L = i * c + j.
Proof.
  intros Hc HL.
  assert (0 < c) by (destruct (decide (c = 0)) as [->|]; [rewrite Z.mul_0_r in HL|]; lia).
  exists (L / c), (L mod c).
  pose proof (Z.mod_pos_bound L c ltac:(lia)).
  pose proof (Z.div_mod L c ltac:(lia)).
  split; [|split; [done|lia]].
  split; [apply Z.div_pos; lia|]. apply Z.div_lt_upper_bound; lia.
Qed.

(** Every id below the number of lines is in one of the four families. *)
Lemma line_cases L :
  0 ≤ L < places →
  (∃ i j, 0 ≤ i < rows ∧ 0 ≤ j < a ∧ L = i * a + j) ∨
  (∃ i j, 0 ≤ i < cols ∧ 0 ≤ j < b ∧ L = rows * a + i * b + j) ∨
  (∃ i j, 0 ≤ i < b ∧ 0 ≤ j < a ∧ L = rows * a + cols * b + i * a + j) ∨
  (∃ i j, 0 ≤ i < b ∧ 0 ≤ j < a ∧ L = rows * a + cols * b + b * a + i * a + j).
Proof.
  intros HL. unfold places, enumerated in HL. fold a b in HL.
  destruct (decide (L < rows * a)) as [H1|H1].
  assert (0 ≤ a ∧ 0 ≤ b) as [Ha Hb] by (unfold a, b; lia).
  { left. apply split_index; lia. }
  destruct (decide (L - rows * a < cols * b)) as [H2|H2].
  { right. left. destruct (split_index cols b (L - rows * a)) as (i & j & ? & ? & ?); [lia..|].
    exists i, j. repeat split; lia. }
  destruct (decide (L - rows * a - cols * b < b * a)) as [H3|H3].
  { right. right. left.
    destruct (split_index b a (L - rows * a - cols * b)) as (i & j & ? & ? & ?); [lia..|].
    exists i, j. repeat split; lia. }
  right. right. right.
  destruct (split_index b a (L - rows * a - cols * b - b * a)) as (i & j & ? & ? & ?); [lia..|].
  exists i, j. repeat split; lia.
Qed.

(** The four directions a line can have. *)
Definition directions : list (Z * Z) := [(1, 0); (0, 1); (1, 1); (-1, 1)].

(** Every line is a run of [connect] cells of the board in one of the four
    directions. *)
Lemma line_is_run L :
  0 ≤ L < places →
  ∃ x y d, d ∈ directions ∧
    ∀ t, lineCell cols rows connect L t = (x + t * d.1, y + t * d.2) ∧
         (0 ≤ t < connect → inBoard cols rows (x + t * d.1, y + t * d.2)).
Proof.
  intros HL.
  destruct (line_cases L HL) as [(i & j & Hi & Hj & ->)|[(i & j & Hi & Hj & ->)|
    [(i & j & Hi & Hj & ->)|(i & j & Hi & Hj & ->)]]].
  - exists j, i, (1, 0). split; [by repeat constructor|]. intros t. rewrite lineCell_h by done.
    simpl. split; [f_equal; lia|]. intros Ht. split; simpl; lia.
  - exists i, j, (0, 1). split; [by repeat constructor|]. intros t. rewrite lineCell_v by done.
    simpl. split; [f_equal; lia|]. intros Ht. split; simpl; lia.
  - exists j, i, (1, 1). split; [by repeat constructor|]. intros t. rewrite lineCell_d by done.
    simpl. split; [f_equal; lia|]. intros Ht. split; simpl; lia.
  - exists (cols - 1 - j), i, (-1, 1). split; [by repeat constructor|]. intros t.
    rewrite lineCell_b by done.
    simpl. split; [f_equal; lia|]. intros Ht. split; simpl; lia.
Qed.

(** Every run of [connect] cells of the board in one of the four
    directions is a line. *)
Lemma run_is_line x y d :
  d ∈ directions →
  (∀ t, 0 ≤ t < connect → inBoard cols rows (x + t * d.1, y + t * d.2)) →
  ∃ L, 0 ≤ L < places ∧ ∀ t, lineCell cols rows connect L t = (x + t * d.1, y + t * d.2).
Proof.
  intros Hd Hrun.
  pose proof (Hrun 0 ltac:(lia)) as [Hx0 Hy0].
  pose proof (Hrun (connect - 1) ltac:(lia)) as [Hx1 Hy1]. simpl in *.
  unfold directions in Hd. rewrite !elem_of_cons, elem_of_nil in Hd.
  unfold places, enumerated. fold a b.
  destruct Hd as [->|[->|[->|[->|[]]]]]; simpl in *.
  - exists (y * a + x). split; [unfold a, b; nia|].
    intros t. rewrite lineCell_h by (unfold a; lia). f_equal; lia.
  - exists (rows * a + x * b + y). split; [unfold a, b; nia|].
    intros t. rewrite lineCell_v by (unfold b; lia). f_equal; lia.
  - exists (rows * a + cols * b + y * a + x). split; [unfold a, b; nia|].
    intros t. rewrite lineCell_d by (unfold a, b; lia). f_equal; lia.
  - exists (rows * a + cols * b + b * a + y * a + (cols - 1 - x)).
    split; [unfold a, b; nia|].
    intros t. rewrite lineCell_b by (unfold a, b; lia). f_equal; lia.
Qed.

Lemma lineCell_inj L t t' :
  0 ≤ L < places → lineCell cols rows connect L t = lineCell cols rows connect L t' → t = t'.
Proof.
  intros HL. destruct (line_is_run L HL) as (x & y & d & Hd & Hrun).
  rewrite (proj1 (Hrun t)), (proj1 (Hrun t')).
  unfold directions in Hd. rewrite !elem_of_cons, elem_of_nil in Hd.
  destruct Hd as [->|[->|[->|[->|[]]]]]; simpl; intros [= ]; lia.
Qed.

Lemma lineCell_inBoard L t :
  0 ≤ L < places → 0 ≤ t < connect → inBoard cols rows (lineCell cols rows connect L t).
Proof.
  intros HL Ht. destruct (line_is_run L HL) as (x & y & d & Hd & Hrun).
  rewrite (proj1 (Hrun t)). by apply Hrun.
Qed.
End Lines.

(** ** Ids listed in a cell *)

Lemma count_cons L w cell : count L (w :: cell) = (if w =? L then 1 else 0) + count L cell.
Proof. unfold count. csimpl. lia. Qed.

Lemma count_pos_in L cell : 0 < count L cell ↔ L ∈ cell.
Proof.
  induction cell as [|w cell IH].
  - unfold count. simpl. split; [lia|]. by intros ?%elem_of_nil.
  - rewrite count_cons, elem_of_cons. pose proof (count_nonneg L cell).
    destruct (Z.eqb_spec w L) as [->|Hne].
    + split; [by left|lia].
    + rewrite <- IH. split; [intros; right; lia|]. intros [?|?]; [congruence|lia].
Qed.

Lemma count_NoDup cell : (∀ L, count L cell ≤ 1) → NoDup cell.
Proof.
  induction cell as [|w cell IH]; intros H; [constructor|].
  constructor.
  - intros Hin%count_pos_in. specialize (H w). rewrite count_cons, Z.eqb_refl in H. lia.
  - apply IH. intros L. specialize (H L). rewrite count_cons in H.
    destruct (w =? L); lia.
Qed.

Lemma sumZ_fmap_add {A} (f g : A → Z) l :
  sumZ ((λ x, f x + g x) <$> l) = sumZ (f <$> l) + sumZ (g <$> l).
Proof. induction l as [|x l IH]; csimpl; lia. Qed.

Lemma sumZ_fmap_ext {A} (f g : A → Z) l :
  (∀ x, x ∈ l → f x = g x) → sumZ (f <$> l) = sumZ (g <$> l).
Proof.
  intros E. f_equal. apply list_fmap_ext. intros i x Hx. apply E.
  by eapply list_elem_of_lookup_2.
Qed.

Lemma sumZ_fmap_bounds {A} (f : A → Z) l :
  (∀ x, x ∈ l → 0 ≤ f x ≤ 1) → 0 ≤ sumZ (f <$> l) ≤ Z.of_nat (length l).
Proof.
  induction l as [|x l IH]; intros H; csimpl; [lia|].
  pose proof (H x ltac:(by left)).
  destruct IH; [intros y Hy; apply H; by right|]. lia.
Qed.

(** A sum of [length l] terms that are 0 or 1 is [length l] exactly when
    every term is 1. *)
Lemma sumZ_fmap_full {A} (f : A → Z) l :
  (∀ x, x ∈ l → 0 ≤ f x ≤ 1) →
  sumZ (f <$> l) = Z.of_nat (length l) ↔ ∀ x, x ∈ l → f x = 1.
Proof.
  induction l as [|x l IH]; intros H; csimpl.
  - split; [|done]. by intros _ x ?%elem_of_nil.
  - pose proof (H x ltac:(by left)) as Hx.
    assert (∀ y, y ∈ l → 0 ≤ f y ≤ 1) as Hl by (intros y Hy; apply H; by right).
    pose proof (sumZ_fmap_bounds f l Hl) as Hb. specialize (IH Hl).
    split.
    + intros E y [->|Hy]%elem_of_cons; [lia|]. apply IH; [lia|done].
    + intros E. rewrite (E x) by (by left).
      assert (sumZ (f <$> l) = Z.of_nat (length l)) by (apply IH; intros y Hy; apply E; by right).
      lia.
Qed.

Lemma elem_of_seqZ_0 n t : t ∈ seqZ 0 n ↔ 0 ≤ t < n.
Proof. rewrite elem_of_seqZ. lia. Qed.

Lemma length_seqZ_0 n : 0 ≤ n → Z.of_nat (length (seqZ 0 n)) = n.
Proof. intros. rewrite length_seqZ. lia. Qed.

(** With distinct cells, [(x, y)] is hit once or not at all. *)
Lemma hitsTo_inj n cellOf x y :
  0 ≤ n → (∀ t t', cellOf t = cellOf t' → t = t') →
  (hitsTo n cellOf x y = 1 ∧ ∃ t, 0 ≤ t < n ∧ cellOf t = (x, y)) ∨
  (hitsTo n cellOf x y = 0 ∧ ∀ t, 0 ≤ t < n → cellOf t ≠ (x, y)).
Proof.
  intros Hn Hinj. revert n Hn. apply natlike_ind.
  - right. split; [done|]. intros t Ht. lia.
  - intros n Hn IH. unfold Z.succ. rewrite hitsTo_S by done.
    case_bool_decide as Hc; destruct IH as [[E (t & Ht & Et)]|[E Hno]].
    + rewrite <- Hc in Et. apply Hinj in Et. lia.
    + left. split; [lia|]. exists n. split; [lia|done].
    + left. split; [lia|]. exists t. split; [lia|done].
    + right. split; [lia|]. intros t Ht.
      destruct (decide (t = n)) as [->|]; [done|]. apply Hno. lia.
Qed.

(** ** The map the constructor builds *)

Section TheMap.
Variables cols rows connect : Z.
Hypothesis Hcols : 1 ≤ cols.
Hypothesis Hrows : 1 ≤ rows.
Hypothesis Hconnect : 1 ≤ connect.
Variable m : WinMap.

Let places := JS._findWinningPlaces cols rows connect.

Hypothesis Hmap : JS._setupMap cols rows connect = Ok (m, places).

Lemma theMap_geo :
  MapGeo cols rows connect (lineCell cols rows connect) places (m, places).
Proof.
  destruct (setupMap_geo cols rows connect) as (m' & E & H); [lia..|].
  rewrite Hmap in E. injection E as <- E. by rewrite E.
Qed.

Lemma theMap_places : places = enumerated cols rows connect.
Proof. unfold places. by rewrite enumerated_closed_form by done. Qed.

Lemma theMap_count x y L :
  count L (cellAt m x y) =
    if bool_decide (0 ≤ L < places) then hitsTo connect (lineCell cols rows connect L) x y
    else 0.
Proof. apply theMap_geo. Qed.

Lemma theMap_hits x y L :
  0 ≤ L < places →
  (count L (cellAt m x y) = 1 ∧
     ∃ t, 0 ≤ t < connect ∧ lineCell cols rows connect L t = (x, y)) ∨
  (count L (cellAt m x y) = 0 ∧
     ∀ t, 0 ≤ t < connect → lineCell cols rows connect L t ≠ (x, y)).
Proof.
  intros HL. rewrite theMap_count, bool_decide_eq_true_2 by done.
  apply hitsTo_inj; [lia|]. intros t t'. apply lineCell_inj; [lia..|].
  by rewrite <- theMap_places.
Qed.

(** [map[x][y]] lists each line through [(x, y)] once, and nothing else. *)
Lemma theMap_elem x y L :
  L ∈ cellAt m x y ↔
  0 ≤ L < places ∧ ∃ t, 0 ≤ t < connect ∧ lineCell cols rows connect L t = (x, y).
Proof.
  rewrite <- count_pos_in. split.
  - intros Hc. rewrite theMap_count in Hc. case_bool_decide as HL; [|lia].
    split; [done|]. destruct (theMap_hits x y L HL) as [[_ ?]|[E _]]; [done|].
    rewrite theMap_count, bool_decide_eq_true_2 in E by done. lia.
  - intros [HL (t & Ht & Et)].
    destruct (theMap_hits x y L HL) as [[-> _]|[_ Hno]]; [lia|]. by destruct (Hno t Ht).
Qed.

Lemma theMap_NoDup x y : NoDup (cellAt m x y).
Proof.
  apply count_NoDup. intros L. destruct (decide (0 ≤ L < places)) as [HL|HL].
  - destruct (theMap_hits x y L HL) as [[-> _]|[-> _]]; lia.
  - rewrite theMap_count, bool_decide_eq_false_2 by done. lia.
Qed.

Lemma theMap_range x y : Forall (λ L, 0 ≤ L < places) (cellAt m x y).
Proof. apply Forall_forall. intros L HL. by apply theMap_elem in HL as [? _]. Qed.
End TheMap.

(** * Potentials and the board *)

(** [board[x][y]] for [c = (x, y)]. *)
Definition pieceAt (b : list (list Z)) (c : Z * Z) : option Z :=
  column ← get b c.1; get column c.2.

(** The potential of a line for a player who holds [mine] of its cells
    while the opponent holds [theirs]. *)
Definition pot (mine theirs : Z) : Z := if theirs =? 0 then 2 ^ mine else 0.

Lemma get_neg {A} (l : list A) i : i < 0 → get l i = None.
Proof. intros Hi. unfold get. by destruct (Z.ltb_spec i 0); [|lia]. Qed.

Lemma get_set_other {A} (l : list A) i j x :
  0 ≤ i → i ≠ j → get (set l i x) j = get l j.
Proof.
  intros Hi Hne. destruct (decide (0 ≤ j)) as [Hj|Hj]; [|by rewrite !get_neg by lia].
  by apply get_set_ne.
Qed.

Lemma pieceAt_set b x col y v c :
  get b x = Some col → 0 ≤ y < Z.of_nat (length col) →
  pieceAt (set b x (set col y v)) c =
    if bool_decide (c = (x, y)) then Some v else pieceAt b c.
Proof.
  intros Hx Hy. pose proof (get_Some_lt _ _ _ Hx) as Hxl.
  destruct c as [cx cy]. unfold pieceAt. simpl. case_bool_decide as Hc.
  - injection Hc as -> ->. rewrite get_set_eq by done. simpl. by apply get_set_eq.
  - destruct (decide (cx = x)) as [->|Hne].
    + rewrite get_set_eq by done. rewrite Hx. simpl.
      apply get_set_other; [lia|congruence].
    + by rewrite get_set_other by (lia || done).
Qed.

Lemma pot_double n k h :
  0 ≤ k → k + 1 ≤ n → n ≤ 30 → shl (pot k h) 1 = pot (k + 1) h.
Proof.
  intros Hk Hn H30. unfold pot. destruct (h =? 0); [|by apply shl_double].
  assert (2 ^ (k + 1) ≤ 2 ^ 30) by (apply Z.pow_le_mono_r; lia).
  assert (0 < 2 ^ k) by (apply Z.pow_pos_nonneg; lia).
  rewrite Z.pow_add_r, Z.pow_1_r in * by lia.
  rewrite shl_double by lia. lia.
Qed.

Lemma pot_magic n k h : 0 ≤ k → 0 ≤ n → pot k h = 2 ^ n ↔ h = 0 ∧ k = n.
Proof.
  intros Hk Hn. unfold pot. assert (0 < 2 ^ n) by (apply Z.pow_pos_nonneg; lia).
  destruct (Z.eqb_spec h 0) as [->|Hne].
  - split.
    + intros E. split; [done|]. by apply (Z.pow_inj_r 2); [lia..|].
    + by intros [_ ->].
  - split; [lia|]. by intros [? _].
Qed.

Section Held.
Variables cols rows connect : Z.
Hypothesis Hconnect : 0 ≤ connect.

(** The cells of line [L] that hold a piece of [p]. *)
Definition held (b : list (list Z)) (p L : Z) : Z :=
  sumZ ((λ t, if bool_decide (pieceAt b (lineCell cols rows connect L t) = Some p)
              then 1 else 0) <$> seqZ 0 connect).

Lemma held_bounds b p L : 0 ≤ held b p L ≤ connect.
Proof.
  unfold held.
  pose proof (sumZ_fmap_bounds
    (λ t, if bool_decide (pieceAt b (lineCell cols rows connect L t) = Some p)
          then 1 else 0) (seqZ 0 connect)) as H.
  rewrite length_seqZ_0 in H by done. apply H.
  intros t _. simpl. case_bool_decide; lia.
Qed.

Lemma held_apart b p q L : p ≠ q → held b p L + held b q L ≤ connect.
Proof.
  intros Hne. unfold held. rewrite <- sumZ_fmap_add.
  match goal with |- sumZ (?f <$> _) ≤ _ =>
    pose proof (sumZ_fmap_bounds f (seqZ 0 connect)) as H end.
  rewrite length_seqZ_0 in H by done. apply H.
  intros t _. simpl. repeat case_bool_decide; (lia || congruence).
Qed.

(** A player holds [connect] cells of a line when all its cells are theirs. *)
Lemma held_full b p L :
  held b p L = connect ↔
  ∀ t, 0 ≤ t < connect → pieceAt b (lineCell cols rows connect L t) = Some p.
Proof.
  unfold held.
  pose proof (sumZ_fmap_full
    (λ t, if bool_decide (pieceAt b (lineCell cols rows connect L t) = Some p)
          then 1 else 0) (seqZ 0 connect)) as H.
  rewrite length_seqZ_0 in H by done.
  rewrite H by (intros t _; simpl; case_bool_decide; lia). clear H.
  split.
  - intros H t Ht. specialize (H t (proj2 (elem_of_seqZ_0 _ _) Ht)). simpl in H.
    by case_bool_decide.
  - intros H t Ht%elem_of_seqZ_0. simpl. by rewrite bool_decide_eq_true_2 by auto.
Qed.

(** A piece put on an empty cell counts for its owner on the lines through
    the cell. *)
Lemma held_set b x col y p q L :
  get b x = Some col → get col y = Some (-1) → q ≠ -1 →
  held (set b x (set col y p)) q L =
    held b q L + (if q =? p then hitsTo connect (lineCell cols rows connect L) x y else 0).
Proof.
  intros Hx Hy Hq. pose proof (get_Some_lt _ _ _ Hy) as Hyl.
  assert (pieceAt b (x, y) = Some (-1)) as Hold by (unfold pieceAt; simpl; by rewrite Hx).
  unfold held, hitsTo. destruct (Z.eqb_spec q p) as [->|Hne].
  - rewrite <- sumZ_fmap_add. apply sumZ_fmap_ext. intros t _. simpl.
    rewrite (pieceAt_set _ _ _ _ _ _ Hx Hyl).
    destruct (decide (lineCell cols rows connect L t = (x, y))) as [Hc|Hc].
    + rewrite !(bool_decide_eq_true_2 _ Hc). rewrite Hc, Hold.
      rewrite bool_decide_eq_true_2 by done.
      by rewrite bool_decide_eq_false_2 by congruence.
    + rewrite !(bool_decide_eq_false_2 _ Hc). lia.
  - rewrite Z.add_0_r. apply sumZ_fmap_ext. intros t _. simpl.
    rewrite (pieceAt_set _ _ _ _ _ _ Hx Hyl).
    destruct (decide (lineCell cols rows connect L t = (x, y))) as [Hc|Hc].
    + rewrite !(bool_decide_eq_true_2 _ Hc). rewrite Hc, Hold.
      by rewrite !bool_decide_eq_false_2 by congruence.
    + by rewrite !(bool_decide_eq_false_2 _ Hc).
Qed.
End Held.

(** ** The loop of [_updateScore], exactly *)

Section ExactLoop.
Variable g : JS.Game.
Variable p : Z.
Hypothesis Hp : isPlayer p.
Variable n : Z.
Hypothesis Hn : 0 ≤ n ≤ 30.
Hypothesis Hmagic : JS._magicWinningNumber g = 2 ^ n.
Hypothesis Hnone : JS._none g = -1.
Variable places : Z.

(** The ids of the cell the piece went to, and what the two players held
    of each line before. *)
Variable cs : list Z.
Variables hp ho : Z → Z.
Hypothesis Hhp : ∀ L, 0 ≤ hp L.
Hypothesis Hho : ∀ L, 0 ≤ ho L.
Hypothesis Hroom : ∀ L, hp L + count L cs + ho L ≤ n.
Variable win0 : Z.

(** What the mover holds of [L] once the ids before [rest] are done. *)
Definition heldNow (rest : list Z) (L : Z) : Z := hp L + (count L cs - count L rest).

Definition ExactInv (rest : list Z) (acc : Z * Z * list (list Z) * Z) : Prop :=
  Forall (λ L, 0 ≤ L < places) rest ∧ (∀ L, count L rest ≤ count L cs) ∧
  ∃ mine theirs, acc.1.2 = duo p mine theirs ∧
    Z.of_nat (length mine) = places ∧ Z.of_nat (length theirs) = places ∧
    (∀ L, 0 ≤ L < places →
       get mine L = Some (pot (heldNow rest L) (ho L)) ∧
       get theirs L = Some (pot (ho L) (heldNow rest L))) ∧
    (win0 ≠ -1 → acc.2 = win0) ∧
    (win0 = -1 → acc.2 = -1 ∨
       acc.2 = p ∧ ∃ L, 0 ≤ L < places ∧ 0 < count L cs ∧ hp L + count L cs = n) ∧
    (acc.2 = -1 → ∀ L, 0 ≤ L < places → count L rest < count L cs → heldNow rest L ≠ n).

Lemma ExactInv_step w rest acc acc1 :
  JS.scoreStep g p (JS._other p) w acc = Ok acc1 →
  ExactInv (w :: rest) acc → ExactInv rest acc1.
Proof.
  destruct acc as [[[td od] st] win].
  intros Hstep (Hrange & Hle & mine & theirs & E & Hlm & Hlt & Hex & Hw1 & Hw2 & Hw3).
  simpl in *. subst st.
  apply Forall_cons in Hrange as [Hw Hrange].
  apply scoreStep_Ok in Hstep as (v & u & Hv & Hu & ->); [|done].
  destruct (Hex w Hw) as [Hv' Hu']. rewrite Hv' in Hv. rewrite Hu' in Hu.
  injection Hv as <-. injection Hu as <-.
  assert (∀ L, count L (w :: rest) = (if w =? L then 1 else 0) + count L rest) as Hc
    by (intros; apply count_cons).
  pose proof (count_nonneg w rest) as Hcw.
  assert (heldNow rest w = heldNow (w :: rest) w + 1) as Hnow.
  { unfold heldNow. rewrite Hc, Z.eqb_refl. lia. }
  assert (∀ L, L ≠ w → heldNow rest L = heldNow (w :: rest) L) as Hoth.
  { intros L HL. unfold heldNow. rewrite Hc.
    destruct (Z.eqb_spec w L); [congruence|lia]. }
  assert (0 ≤ heldNow (w :: rest) w) as H0.
  { unfold heldNow. specialize (Hhp w). specialize (Hle w). lia. }
  assert (heldNow rest w + ho w ≤ n) as Hb.
  { unfold heldNow. specialize (Hroom w). lia. }
  rewrite (pot_double n) by (specialize (Hho w); lia). rewrite <- Hnow.
  split; [done|]. split.
  { intros L. specialize (Hle L). rewrite Hc in Hle. destruct (w =? L); lia. }
  exists (set mine w (pot (heldNow rest w) (ho w))), (set theirs w 0). simpl.
  split; [done|]. split; [by rewrite length_set|]. split; [by rewrite length_set|].
  split; [|split; [|split]].
  - intros L HL. destruct (decide (L = w)) as [->|Hne].
    + rewrite !get_set_eq by lia. split; [done|]. f_equal. unfold pot.
      destruct (Z.eqb_spec (heldNow rest w) 0); [lia|done].
    + rewrite !get_set_ne by lia. rewrite (Hoth L Hne). by apply Hex.
  - intros Hw0. specialize (Hw1 Hw0). subst win.
    rewrite Hnone. destruct (Z.eqb_spec win0 (-1)); [congruence|]. by destruct (_ =? _).
  - intros Hw0. rewrite Hmagic, Hnone.
    destruct (Z.eqb_spec (pot (heldNow rest w) (ho w)) (2 ^ n)) as [Em|Em]; [|by apply Hw2].
    apply pot_magic in Em as [Eo Ek]; [|lia..].
    destruct (Hw2 Hw0) as [->|[-> HL]]; [|right; split; [by destruct (p =? -1)|done]].
    rewrite Z.eqb_refl. right. split; [done|]. exists w. split; [done|].
    unfold heldNow in Ek. specialize (Hroom w). specialize (Hle w).
    rewrite Hc, Z.eqb_refl in Hle. split; lia.
  - rewrite Hmagic, Hnone.
    destruct (Z.eqb_spec (pot (heldNow rest w) (ho w)) (2 ^ n)) as [Em|Em].
    + destruct (Z.eqb_spec win (-1)); [|done]. destruct Hp; lia.
    + intros Hwin L HL Hlt'. destruct (decide (L = w)) as [->|Hne].
      * intros Ek. apply Em. apply pot_magic; [lia..|].
        split; [specialize (Hho w); lia|done].
      * rewrite (Hoth L Hne). apply Hw3; [done..|]. rewrite Hc.
        destruct (Z.eqb_spec w L); [congruence|lia].
Qed.

Lemma exactLoop rest acc acc' :
  forEach rest (JS.scoreStep g p (JS._other p)) acc = Ok acc' →
  ExactInv rest acc → ExactInv [] acc'.
Proof. apply forEach_inv. intros w rest' a a1. apply ExactInv_step. Qed.
End ExactLoop.

(** * What every state of a reachable game satisfies *)

(** [_dropPiece] scans past occupied cells only. *)
Lemma scanRow_lowest g fuel col row r :
  JS.scanRow fuel g col row = Ok r →
  ∀ y, row ≤ y < r → get col y ≠ Some (JS._none g).
Proof.
  revert row. induction fuel as [|fuel IH]; intros row H y Hy; simpl in H; [done|].
  destruct (JS.occupied g col row) eqn:Eo; [|simplify_eq; lia].
  assert (get col row ≠ Some (JS._none g)) as Hrow.
  { unfold JS.occupied in Eo. destruct (get col row) as [v|]; [|done].
    intros [= ->]. by rewrite Z.eqb_refl in Eo. }
  destruct (decide (y = row)) as [->|Hne]; [done|].
  destruct (Z.ltb_spec (row + 1) (JS._rows g)); [|simplify_eq; lia].
  apply (IH (row + 1)); [done|lia].
Qed.

(** All of [_updateScore]. *)
Lemma updateScore_inv g p x y s s' mine theirs sm st :
  isPlayer p →
  JS.stats s = duo p mine theirs → JS.score s = duo p sm st →
  JS._updateScore g p x y s = Ok s' →
  ∃ mcol td od mine' theirs' win',
    get (JS.map s) x = Some mcol ∧ get mcol y = Some (cellAt (JS.map s) x y) ∧
    forEach (cellAt (JS.map s) x y) (JS.scoreStep g p (JS._other p))
      (0, 0, duo p mine theirs, JS.winner s) = Ok (td, od, duo p mine' theirs', win') ∧
    JS.stats s' = duo p mine' theirs' ∧ JS.score s' = duo p (sm + td) (st - od) ∧
    JS.winner s' = win' ∧ JS.board s' = JS.board s ∧ JS.map s' = JS.map s ∧
    JS.numberOfPieces s' = JS.numberOfPieces s ∧
    JS.winningCoords s' = JS.winningCoords s ∧
    let tied := (win' =? JS._none g) && (JS._cols g * JS._rows g <=? JS.numberOfPieces s) in
    let over := (-1 <? win') || tied in
    JS.gameOver s' = (if over then true else JS.gameOver s) ∧
    JS.tie s' = (if over then tied else JS.tie s).
Proof.
  intros Hp Est Esc. unfold JS._updateScore. rewrite Est, Esc. intros H.
  apply bind_Ok in H as (mcol & Hm%deref_Ok & H).
  apply bind_Ok in H as (cell & Hc%deref_Ok & H).
  assert (cellAt (JS.map s) x y = cell) as Ecell.
  { unfold cellAt. rewrite Hm. simpl. by rewrite Hc. }
  apply bind_Ok in H as (r & Hloop & H).
  destruct (scoreLoop_shape g p Hp _ _ _ _ _ _ _ Hloop)
    as (td & od & mine' & theirs' & win' & ->).
  apply bind_Ok in H as (sm' & Hsm%elem_Ok & H).
  apply get_duo_mine in Hsm as ->; [|done].
  apply bind_Ok in H as (sc1 & [_ ->]%store_Ok & H).
  rewrite set_duo_mine in H by done.
  apply bind_Ok in H as (st' & Hst%elem_Ok & H).
  apply get_duo_theirs in Hst as ->; [|done].
  apply bind_Ok in H as (sc2 & [_ ->]%store_Ok & H).
  rewrite set_duo_theirs in H by done.
  exists mcol, td, od, mine', theirs', win'. rewrite Ecell.
  simpl in H. unfold JS.isTieOf in H. simpl in H.
  destruct (_ || _); simplify_eq; simpl; done.
Qed.

(** No piece lies above an empty cell. *)
Definition stacked (col : list Z) : Prop :=
  ∀ y y' v, 0 ≤ y' < y → get col y' = Some (-1) → get col y = Some v → v = -1.

(** [numberOfPieces >= cols * rows]. *)
Definition full (g : JS.Game) (s : JS.State) : bool :=
  JS._cols g * JS._rows g <=? JS.numberOfPieces s.

(** The cells of line [L] that player [p] holds in state [s]. *)
Definition heldIn (g : JS.Game) (s : JS.State) (p L : Z) : Z :=
  held (JS._cols g) (JS._rows g) (JS._connect g) (JS.board s) p L.

(** The potential arrays follow the board. *)
Definition exact (g : JS.Game) (s : JS.State) : Prop :=
  ∃ a0 a1, JS.stats s = [a0; a1] ∧
    ∀ L, 0 ≤ L < JS._winningPlaces g →
      get a0 L = Some (pot (heldIn g s 0 L) (heldIn g s 1 L)) ∧
      get a1 L = Some (pot (heldIn g s 1 L) (heldIn g s 0 L)).

Lemma exact_duo g s p :
  isPlayer p →
  exact g s ↔
  ∃ mine theirs, JS.stats s = duo p mine theirs ∧
    ∀ L, 0 ≤ L < JS._winningPlaces g →
      get mine L = Some (pot (heldIn g s p L) (heldIn g s (1 - p) L)) ∧
      get theirs L = Some (pot (heldIn g s (1 - p) L) (heldIn g s p L)).
Proof.
  intros [->| ->]; unfold exact, duo; simpl; split.
  - intros (a0 & a1 & ?); exists a0, a1; done.
  - intros (a0 & a1 & ?); exists a0, a1; done.
  - intros (a0 & a1 & ? & H); exists a1, a0. split; [done|].
    intros L HL. destruct (H L HL). done.
  - intros (a1 & a0 & ? & H); exists a0, a1. split; [done|].
    intros L HL. destruct (H L HL). done.
Qed.

(** What holds whatever the connect length. *)
Record Tidy (g : JS.Game) (s : JS.State) : Prop := mkTidy {
  tidy_shaped : shaped g s;
  tidy_counted : counted g s;
  tidy_map :
    JS._setupMap (JS._cols g) (JS._rows g) (JS._connect g)
    = Ok (JS.map s, JS._winningPlaces g);
  tidy_cells : ∀ x col, get (JS.board s) x = Some col →
    stacked col ∧ Forall (λ v, v = -1 ∨ isPlayer v) col;
  tidy_winner : JS.winner s = -1 ∨ isPlayer (JS.winner s);
  tidy_over : JS.gameOver s = negb (JS.winner s =? -1) || full g s;
  tidy_tie : JS.tie s = (JS.winner s =? -1) && full g s }.

(** What holds when potentials cannot overflow. *)
Record Sound (g : JS.Game) (s : JS.State) : Prop := mkSound {
  sound_tidy : Tidy g s;
  sound_stats : exact g s;
  sound_won : isPlayer (JS.winner s) →
    ∃ L, 0 ≤ L < JS._winningPlaces g ∧ heldIn g s (JS.winner s) L = JS._connect g;
  sound_line : ∀ p L, isPlayer p → 0 ≤ L < JS._winningPlaces g →
    heldIn g s p L = JS._connect g → JS.winner s ≠ -1 }.

Lemma stacked_set col r v :
  stacked col → get col r = Some (-1) → (∀ y, 0 ≤ y < r → get col y ≠ Some (-1)) →
  stacked (set col r v).
Proof.
  intros Hs Hr Hlow y y' u Hy Hy' Hu.
  pose proof (get_Some_lt _ _ _ Hr) as Hrl.
  destruct (decide (y' = r)) as [->|Hne'].
  - destruct (decide (y = r)) as [->|Hne]; [lia|].
    rewrite get_set_ne in Hu by lia. by apply (Hs y r u).
  - rewrite get_set_ne in Hy' by lia.
    assert (r < y') by (destruct (decide (r < y')); [done|]; destruct (Hlow y'); [lia|done]).
    rewrite get_set_ne in Hu by lia. by apply (Hs y y' u).
Qed.

(** The loop of [_updateScore] records the mover as the winner or keeps
    the winner it found. *)
Lemma scoreLoop_winner g p cell td od mine theirs win r :
  isPlayer p →
  forEach cell (JS.scoreStep g p (JS._other p)) (td, od, duo p mine theirs, win) = Ok r →
  (win ≠ JS._none g → r.2 = win) ∧ (win = JS._none g → r.2 = JS._none g ∨ r.2 = p).
Proof.
  intros Hp H.
  apply (forEach_inv (λ _ acc, (∃ mine' theirs', acc.1.2 = duo p mine' theirs') ∧
           (win ≠ JS._none g → acc.2 = win) ∧
           (win = JS._none g → acc.2 = JS._none g ∨ acc.2 = p)) _ _ _ _) in H.
  - by destruct H as (_ & ? & ?).
  - intros w rest [[[td0 od0] st0] win0] acc1 Hstep ((mine0 & theirs0 & E) & H1 & H2).
    simpl in *. subst st0.
    apply scoreStep_Ok in Hstep as (v & u & _ & _ & ->); [|done]. simpl.
    split; [eauto|]. destruct (_ =? JS._magicWinningNumber g); [|done].
    destruct (Z.eqb_spec win0 (JS._none g)) as [E0|E0].
    + split; [|by right]. intros Hw. specialize (H1 Hw). congruence.
    + done.
  - simpl. split; [eauto|]. split; [done|by left].
Qed.

Section DropEffect.
Variable g : JS.Game.
Hypothesis Hcfg : config g.
Variable p : Z.
Hypothesis Hp : isPlayer p.

(** What a successful drop has done. *)
Definition landed (x row : Z) (s s' : JS.State) : Prop :=
  0 ≤ row < JS._rows g ∧
  ∃ col mine theirs td od mine' theirs',
    get (JS.board s) x = Some col ∧ get col row = Some (-1) ∧
    (∀ y, 0 ≤ y < row → get col y ≠ Some (-1)) ∧
    JS.stats s = duo p mine theirs ∧
    Z.of_nat (length mine) = JS._winningPlaces g ∧
    Z.of_nat (length theirs) = JS._winningPlaces g ∧
    forEach (cellAt (JS.map s) x row) (JS.scoreStep g p (JS._other p))
      (0, 0, duo p mine theirs, JS.winner s)
      = Ok (td, od, duo p mine' theirs', JS.winner s') ∧
    JS.stats s' = duo p mine' theirs' ∧
    JS.board s' = set (JS.board s) x (set col row p) ∧
    JS.map s' = JS.map s ∧
    JS.numberOfPieces s' = JS.numberOfPieces s + 1 ∧
    JS.winningCoords s' = JS.winningCoords s ∧
    let tied := (JS.winner s' =? -1) && full g s' in
    let over := (-1 <? JS.winner s') || tied in
    JS.gameOver s' = (if over then true else JS.gameOver s) ∧
    JS.tie s' = (if over then tied else JS.tie s).

Lemma dropInto_effect x s row s' :
  shaped g s → JS.dropInto g p x s = Ok (row, s') →
  (row = -1 ∧ s' = s) ∨ landed x row s s'.
Proof.
  intros Hsh Hd. pose proof Hcfg as (Hc & Hr & Hn & Hnone & _ & Hplaces).
  pose proof Hd as Hd0.
  apply dropInto_Ok in Hd; [|done..].
  destruct Hd as [(-> & -> & _)|(Hrow & col & Hcol & Hcell & Hup)]; [by left|right].
  assert (∀ y, 0 ≤ y < row → get col y ≠ Some (-1)) as Hlow.
  { unfold JS.dropInto, deref in Hd0. rewrite Hcol, bind_Ok_l in Hd0.
    apply bind_Ok in Hd0 as (r & Hscan & Hd0).
    destruct (Z.eqb_spec r (JS._rows g)) as [->|Hne]; [simplify_eq; lia|].
    apply bind_Ok in Hd0 as (b' & _ & Hd0). apply bind_Ok in Hd0 as (s1 & _ & Hd0).
    injection Hd0 as -> _. rewrite <- Hnone. exact (scanRow_lowest g _ _ 0 _ Hscan). }
  destruct Hsh as (Hbl & Hbc & Hmd & Hmi & a0 & a1 & s0 & s1 & Est0 & Esc & Hl0 & Hl1).
  destruct (duo_of_pair p a0 a1 Hp) as (mine & theirs & Ed).
  destruct (duo_of_pair p s0 s1 Hp) as (sm & st & Es).
  assert (Z.of_nat (length mine) = JS._winningPlaces g ∧
          Z.of_nat (length theirs) = JS._winningPlaces g) as [Hlm Hlt].
  { destruct Hp as [->| ->]; unfold duo in Ed; simpl in Ed; by simplify_eq. }
  eapply updateScore_inv in Hup as (mcol & td & od & mine' & theirs' & win' & Hmcol & Hmcell
    & Hloop & Est' & Esc' & Ewin & Eb & Em & En & Ewc & Eover & Etie);
    [|done|by rewrite <- Ed|by rewrite Esc, Es].
  simpl in *. split; [done|].
  exists col, mine, theirs, td, od, mine', theirs'.
  rewrite Ewin. unfold full. rewrite En. rewrite Hnone in Eover, Etie.
  repeat (split; [done || congruence|]). done.
Qed.
End DropEffect.

Section DropTidy.
Variable g : JS.Game.
Hypothesis Hcfg : config g.
Variable p : Z.
Hypothesis Hp : isPlayer p.

Lemma dropInto_shaped x s row s' :
  shaped g s → JS.dropInto g p x s = Ok (row, s') → shaped g s'.
Proof.
  intros Hsh Hd.
  assert (0 ≤ x < JS._cols g) as Hx.
  { unfold JS.dropInto in Hd. apply bind_Ok in Hd as (col & Hcol%deref_Ok & _).
    apply get_Some_lt in Hcol. destruct Hsh as (Hl & _). lia. }
  destruct (dropInto_total g Hcfg p Hp x s Hsh Hx) as (row' & s'' & E & _ & Hs'').
  rewrite Hd in E. by simplify_eq.
Qed.

Lemma dropInto_Tidy x s row s' :
  Tidy g s → JS.dropInto g p x s = Ok (row, s') → Tidy g s'.
Proof.
  intros HT Hd. pose proof Hcfg as (Hc & Hr & Hn & Hnone & _ & Hplaces).
  pose proof (dropInto_counted g Hcfg p x s row s' Hp (tidy_counted _ _ HT) Hd) as Hcount'.
  pose proof (dropInto_shaped x s row s' (tidy_shaped _ _ HT) Hd) as Hshaped'.
  destruct (dropInto_effect g Hcfg p Hp x s row s' (tidy_shaped _ _ HT) Hd)
    as [[_ ->]|(Hrow & col & mine & theirs & td & od & mine' & theirs' & Hcol & Hcell & Hlow
        & Est & _ & _ & Hloop & _ & Eb & Em & En & _ & Eover & Etie)]; [done|].
  apply scoreLoop_winner in Hloop as [Hw1 Hw2]; [|done]. simpl in Hw1, Hw2.
  rewrite Hnone in Hw1, Hw2.
  assert (JS.winner s' = -1 ∨ isPlayer (JS.winner s')) as Hwinner'.
  { destruct (decide (JS.winner s = -1)) as [E0|E0].
    - destruct (Hw2 E0) as [->| ->]; [by left|by right].
    - rewrite (Hw1 E0). destruct (tidy_winner _ _ HT); [done|by right]. }
  assert (full g s' = (JS._cols g * JS._rows g <=? JS.numberOfPieces s + 1)) as Efull.
  { unfold full. by rewrite En. }
  constructor; try done.
  - rewrite Em. apply (tidy_map _ _ HT).
  - intros x' col' H'. rewrite Eb in H'. pose proof (get_Some_lt _ _ _ Hcol) as Hxl.
    destruct (decide (x' = x)) as [->|Hne].
    + rewrite get_set_eq in H' by done. injection H' as <-.
      destruct (tidy_cells _ _ HT x col Hcol) as [Hst Hval]. split.
      * by apply stacked_set.
      * unfold set. apply Forall_insert; [done|by right].
    + rewrite get_set_other in H' by lia. by apply (tidy_cells _ _ HT x').
  - rewrite Eover, Efull. rewrite (tidy_over _ _ HT). unfold full.
    destruct (decide (JS.winner s = -1)) as [E0|E0].
    + rewrite E0. simpl.
      destruct Hwinner' as [->|[->| ->]]; simpl;
        destruct (Z.leb_spec (JS._cols g * JS._rows g) (JS.numberOfPieces s + 1)),
                 (Z.leb_spec (JS._cols g * JS._rows g) (JS.numberOfPieces s)); (done || lia).
    + rewrite (Hw1 E0). destruct (tidy_winner _ _ HT) as [?|[E1|E1]]; [done|..];
        rewrite E1; simpl; done.
  - rewrite Etie, Efull. rewrite (tidy_tie _ _ HT). unfold full.
    destruct (decide (JS.winner s = -1)) as [E0|E0].
    + rewrite E0. simpl.
      destruct Hwinner' as [->|[->| ->]]; simpl;
        destruct (Z.leb_spec (JS._cols g * JS._rows g) (JS.numberOfPieces s + 1)),
                 (Z.leb_spec (JS._cols g * JS._rows g) (JS.numberOfPieces s)); (done || lia).
    + rewrite (Hw1 E0). destruct (tidy_winner _ _ HT) as [?|[E1|E1]]; [done|..];
        rewrite E1; simpl; done.
Qed.
End DropTidy.

Section DropSound.
Variable g : JS.Game.
Hypothesis Hcfg : config g.
Hypothesis H30 : JS._connect g ≤ 30.
Variable p : Z.
Hypothesis Hp : isPlayer p.

Lemma magic_pow : JS._magicWinningNumber g = 2 ^ JS._connect g.
Proof.
  destruct Hcfg as (_ & _ & Hn & _ & -> & _). apply shl_one. lia.
Qed.

(** A drop keeps everything [Sound] says. *)
Lemma dropInto_Sound x s row s' :
  Sound g s → JS.dropInto g p x s = Ok (row, s') → Sound g s'.
Proof.
  intros HS Hd. pose proof Hcfg as (Hc & Hr & Hn & Hnone & _ & Hplaces).
  pose proof (sound_tidy _ _ HS) as HT.
  pose proof (dropInto_Tidy g Hcfg p Hp x s row s' HT Hd) as HT'.
  destruct (dropInto_effect g Hcfg p Hp x s row s' (tidy_shaped _ _ HT) Hd)
    as [[_ ->]|(Hrow & col & mine0 & theirs0 & td & od & mine' & theirs' & Hcol & Hcell & Hlow
        & Est0 & _ & _ & Hloop & Est' & Eb & Em & En & _ & _ & _)]; [done|].
  (* the loop over the lines through the cell *)
  pose proof (sound_stats _ _ HS) as Hex.
  apply (exact_duo g s p Hp) in Hex as (mine & theirs & Est & Hex).
  rewrite Est in Est0. apply duo_inj in Est0 as [<- <-].
  destruct (tidy_shaped _ _ HT)
    as (Hbl & Hbc & Hmd & Hmi & a0 & a1 & s0 & s1 & Esh & Esc & Hl0 & Hl1).
  assert (Z.of_nat (length mine) = JS._winningPlaces g ∧
          Z.of_nat (length theirs) = JS._winningPlaces g) as [Hlm Hlt].
  { rewrite Esh in Est. destruct Hp as [->| ->]; unfold duo in Est; simpl in Est;
      by simplify_eq. }
  pose proof (tidy_map _ _ HT) as Hmap. rewrite Hplaces in Hmap.
  set (cols := JS._cols g) in *. set (rows := JS._rows g) in *.
  set (n := JS._connect g) in *. set (m := JS.map s) in *.
  set (b := JS.board s) in *. set (cs := cellAt m x row) in *.
  assert (∀ L, count L cs =
    if bool_decide (0 ≤ L < JS._winningPlaces g)
    then hitsTo n (lineCell cols rows n L) x row else 0) as Hcs.
  { intros L. rewrite Hplaces. by apply theMap_count. }
  assert (p ≠ -1 ∧ 1 - p ≠ -1 ∧ p ≠ 1 - p) as (Hp1 & Hp2 & Hp3) by (destruct Hp; lia).
  assert (∀ L, 0 ≤ L < JS._winningPlaces g →
            heldIn g s' p L = heldIn g s p L + count L cs ∧
            heldIn g s' (1 - p) L = heldIn g s (1 - p) L) as Hheld.
  { intros L HL. unfold heldIn. rewrite Eb. fold cols rows n b.
    rewrite !(held_set cols rows n b x col row p) by done.
    rewrite Z.eqb_refl, Hcs, bool_decide_eq_true_2 by done.
    destruct (Z.eqb_spec (1 - p) p); [lia|]. lia. }
  apply (exactLoop g p Hp n ltac:(lia) magic_pow Hnone (JS._winningPlaces g) cs
           (heldIn g s p) (heldIn g s (1 - p))
           ltac:(intros; apply held_bounds; lia) ltac:(intros; apply held_bounds; lia))
    with (win0 := JS.winner s) in Hloop.
  2:{ intros L. destruct (decide (0 ≤ L < JS._winningPlaces g)) as [HL|HL].
      - destruct (Hheld L HL) as [E1 E2]. rewrite <- E1, <- E2.
        apply held_apart; lia.
      - rewrite Hcs, bool_decide_eq_false_2 by done.
        pose proof (held_apart cols rows n ltac:(lia) b p (1 - p) L Hp3).
        unfold heldIn. fold cols rows n b. lia. }
  2:{ split; [rewrite Hplaces; by apply theMap_range|]. split; [done|].
      exists mine, theirs. simpl. split; [done|]. split; [done|]. split; [done|].
      split; [|split; [done|split; [by left|]]].
      - intros L HL. unfold heldNow. replace (count L cs - count L cs) with 0 by lia.
        rewrite Z.add_0_r. by apply Hex.
      - intros _ L _ ?. lia. }
  destruct Hloop as (_ & _ & mine'' & theirs'' & E & _ & _ & Hex' & Hw1 & Hw2 & Hw3).
  simpl in E, Hw1, Hw2, Hw3. apply duo_inj in E as [<- <-].
  assert (∀ L, heldNow cs (heldIn g s p) [] L = heldIn g s p L + count L cs) as Hnow.
  { intros L. unfold heldNow. unfold count at 2. simpl. lia. }
  constructor; try done.
  - (* the potentials *)
    apply (exact_duo g s' p Hp). exists mine', theirs'. split; [done|].
    intros L HL. destruct (Hheld L HL) as [-> ->]. rewrite <- Hnow. by apply Hex'.
  - (* a recorded winner holds a line *)
    intros Hpl. destruct (decide (JS.winner s = -1)) as [E0|E0].
    + destruct (Hw2 E0) as [E1|[E1 (L & HL & Hc0 & HLn)]]; [destruct Hpl; lia|].
      exists L. split; [done|]. rewrite E1. by destruct (Hheld L HL) as [-> _].
    + rewrite (Hw1 E0) in *. destruct (sound_won _ _ HS Hpl) as (L & HL & HLn).
      exists L. split; [done|].
      assert (heldIn g s (JS.winner s) L ≤ heldIn g s' (JS.winner s) L) as Hmono.
      { destruct (Hheld L HL) as [E1 E2]. pose proof (count_nonneg L cs).
        assert (JS.winner s = p ∨ JS.winner s = 1 - p) as [Ew|Ew]
          by (destruct Hpl, Hp; lia); rewrite Ew; lia. }
      pose proof (held_bounds cols rows n ltac:(lia) (JS.board s') (JS.winner s) L) as Hb.
      change (0 ≤ heldIn g s' (JS.winner s) L ≤ n) in Hb. lia.
  - (* a line held means a winner *)
    intros q L Hq HL HLn Ewin'.
    assert (JS.winner s = -1) as E0.
    { destruct (decide (JS.winner s = -1)); [done|]. rewrite Hw1 in Ewin'; done. }
    destruct (Hheld L HL) as [E1 E2].
    assert (q = p ∨ q = 1 - p) as [->| ->] by (destruct Hq, Hp; lia).
    + destruct (decide (0 < count L cs)) as [Hc0|Hc0].
      * apply (Hw3 Ewin' L HL); [unfold count at 1; simpl; lia|]. rewrite Hnow. lia.
      * pose proof (count_nonneg L cs).
        apply (sound_line _ _ HS p L Hp HL); [lia|done].
    + apply (sound_line _ _ HS (1 - p) L Hq HL); [lia|done].
Qed.
End DropSound.

Lemma Tidy_withStack g st s : Tidy (JS.withStack g st) s ↔ Tidy g s.
Proof. split; intros []; constructor; assumption. Qed.

Lemma Sound_withStack g st s : Sound (JS.withStack g st) s ↔ Sound g s.
Proof.
  split; intros [HT ? ? ?].
  - constructor; [by apply (Tidy_withStack g st)|assumption..].
  - constructor; [by apply Tidy_withStack|assumption..].
Qed.

Lemma pieceAt_empty (c r : nat) cell v :
  pieceAt (replicate c (replicate r (-1))) cell = Some v → v = -1.
Proof.
  unfold pieceAt. destruct (get _ cell.1) as [col|] eqn:E; [|done]. simpl.
  apply get_Some in E as [_ E]. apply lookup_replicate in E as [-> _].
  intros [_ E]%get_Some. by apply lookup_replicate in E as [-> _].
Qed.

Lemma held_empty cols rows connect (c r : nat) p L :
  p ≠ -1 → held cols rows connect (replicate c (replicate r (-1))) p L = 0.
Proof.
  intros Hp. unfold held.
  rewrite (sumZ_fmap_ext _ (λ _, 0)).
  - induction (seqZ 0 connect) as [|t l IH]; csimpl; lia.
  - intros t _. simpl. case_bool_decide as E; [|done].
    apply pieceAt_empty in E. congruence.
Qed.

Lemma Tidy_new settings g :
  validSettings settings → JS.Connect4Game settings = Ok g →
  Forall (Tidy g) (JS._stateStack g).
Proof.
  intros Hv Hnew.
  pose proof (reach_new settings g Hv Hnew) as Hreach.
  pose proof (reachable_shaped g Hreach) as Hsh.
  destruct (reachable_counted g Hreach) as (Hcfg & _ & Hco).
  destruct (Connect4Game_Ok _ _ Hv Hnew) as (_ & m & _ & Hw & E).
  pose proof Hcfg as (Hc & Hr & Hn & Hnone & _ & Hplaces).
  assert (JS._setupMap (JS._cols g) (JS._rows g) (JS._connect g)
          = Ok (m, JS._winningPlaces g)) as Hmap.
  { unfold JS.Connect4Game in Hnew.
    apply bind_Ok in Hnew as ([m' w] & Hmap & Hnew).
    apply bind_Ok in Hnew as (order & _ & Hnew). injection Hnew as <-.
    simpl in *. injection E as <-.
    destruct (setupMap_geo (JS.setting JS.cols settings) (JS.setting JS.rows settings)
                (JS.setting JS.connect settings)) as (m'' & E' & _); [lia..|].
    rewrite Hmap in E'. injection E' as _ Ew.
    rewrite Hmap, Ew. by rewrite enumerated_closed_form by done. }
  rewrite E in Hsh, Hco |- *.
  apply Forall_cons in Hsh as [Hsh _]. apply Forall_cons in Hco as [Hco _].
  constructor; [|constructor]. constructor; simpl; try done.
  - intros x col H. split.
    + intros y y' v _ _ [_ Hv']%get_Some.
      apply get_Some in H as [_ H]. apply lookup_replicate in H as [-> _].
      by apply lookup_replicate in Hv' as [-> _].
    + apply get_Some in H as [_ H]. apply lookup_replicate in H as [-> _].
      apply Forall_forall. intros v Hv'%elem_of_replicate. left. by destruct Hv'.
  - by left.
  - unfold full. simpl. symmetry. apply Z.leb_gt. nia.
  - unfold full. simpl. symmetry. apply Z.leb_gt. nia.
Qed.

Lemma Sound_new settings g :
  validSettings settings → JS.Connect4Game settings = Ok g →
  Forall (Sound g) (JS._stateStack g).
Proof.
  intros Hv Hnew. pose proof (Tidy_new settings g Hv Hnew) as HT.
  destruct (Connect4Game_Ok _ _ Hv Hnew) as ((_ & _ & Hn & _) & m & _ & Hw & E).
  rewrite E in HT |- *. apply Forall_cons in HT as [HT _].
  constructor; [|constructor]. constructor; simpl; try done.
  - eexists _, _. split; [done|]. intros L HL. unfold heldIn. simpl.
    rewrite !held_empty by lia. unfold pot. simpl.
    split; apply get_Some; (split; [lia|]); apply lookup_replicate; split; (done || lia).
  - intros [?|?]; lia.
  - intros p L Hp HL. unfold heldIn. simpl. rewrite held_empty by (destruct Hp; lia). lia.
Qed.

(** Every state of the stack of a reachable game is [Tidy], and [Sound]
    when the connect length is at most 30. *)
Lemma reachable_Tidy g : reachable g → Forall (Tidy g) (JS._stateStack g).
Proof.
  intros Hr.
  destruct (reachable_Good Tidy) with (g := g) as (_ & _ & HQ); try done.
  - intros g' st s. apply Tidy_withStack.
  - apply Tidy_new.
  - intros g' p x s row s' Hc Hp Hs Hd. eapply dropInto_Tidy; eauto.
  - intros g' s coords []. by constructor.
Qed.

Lemma reachable_Sound g :
  reachable g → JS._connect g ≤ 30 → Forall (Sound g) (JS._stateStack g).
Proof.
  intros Hr H30.
  destruct (reachable_Good (λ g s, JS._connect g ≤ 30 → Sound g s))
    with (g := g) as (_ & _ & HQ); try done.
  - intros g' st s. simpl. by rewrite Sound_withStack.
  - intros settings g' Hv Hnew. eapply Forall_impl; [by eapply Sound_new|]. auto.
  - intros g' p x s row s' Hc Hp Hs Hd H30'. eapply dropInto_Sound; eauto.
  - intros g' s coords Hs H30'. destruct (Hs H30') as [[] ? ? ?].
    constructor; [by constructor|done..].
  - eapply Forall_impl; [exact HQ|]. simpl. auto.
Qed.

Lemma current_head g s :
  JS.currentState g = Ok s → ∃ rest, JS._stateStack g = s :: rest.
Proof.
  unfold JS.currentState. destruct (JS._stateStack g) as [|s0 rest]; [done|].
  intros [= ->]. by exists rest.
Qed.

Lemma current_Tidy g s : reachable g → JS.currentState g = Ok s → Tidy g s.
Proof.
  intros Hr [rest E]%current_head. pose proof (reachable_Tidy g Hr) as HT.
  rewrite E in HT. by apply Forall_cons in HT as [? _].
Qed.

Lemma current_Sound g s :
  reachable g → JS._connect g ≤ 30 → JS.currentState g = Ok s → Sound g s.
Proof.
  intros Hr H30 [rest E]%current_head. pose proof (reachable_Sound g Hr H30) as HS.
  rewrite E in HS. by apply Forall_cons in HS as [? _].
Qed.

(** * The winning coordinates *)

Lemma firstWin_Ok magic row k w :
  JS.firstWin magic row k = Ok w →
  k ≤ w ∧ get row (w - k) = Some magic ∧
  ∀ j, 0 ≤ j < w - k → get row j ≠ Some magic.
Proof.
  revert k. induction row as [|v row IH]; intros k H; simpl in H; [done|].
  destruct (Z.eqb_spec v magic) as [->|Hne].
  - injection H as <-. split; [lia|]. split; [by rewrite Z.sub_diag|]. intros j Hj. lia.
  - apply IH in H as (Hk & Hw & Hlow). split; [lia|]. split.
    + apply get_Some in Hw as [H0 Hw]. apply get_Some. split; [lia|].
      replace (Z.to_nat (w - k)) with (S (Z.to_nat (w - (k + 1)))) by lia. done.
    + intros j Hj [_ Hj']%get_Some. destruct (decide (j = 0)) as [->|Hj0].
      * simpl in Hj'. congruence.
      * apply (Hlow (j - 1)); [lia|]. apply get_Some. split; [lia|].
        replace (Z.to_nat j) with (S (Z.to_nat (j - 1))) in Hj' by lia. done.
Qed.

Lemma firstWin_total magic row k :
  magic ∈ row → ∃ w, JS.firstWin magic row k = Ok w.
Proof.
  revert k. induction row as [|v row IH]; intros k Hin; [by apply elem_of_nil in Hin|].
  simpl. destruct (Z.eqb_spec v magic) as [->|Hne]; [by eexists|].
  apply IH. apply elem_of_cons in Hin as [?|?]; [congruence|done].
Qed.

(** The innermost loop of [winningCoords()] adds the cell once for each
    time the line is listed there. *)
Lemma forEach_collect (cell : list Z) w (c : Z * Z) coords :
  forEach cell (λ x coords, Ok (if x =? w then coords ++ [c] else coords)) coords
  = Ok (coords ++ replicate (Z.to_nat (count w cell)) c).
Proof.
  revert coords. induction cell as [|x cell IH]; intros coords.
  - simpl. by rewrite app_nil_r.
  - rewrite forEach_cons, bind_Ok_l, IH, count_cons. pose proof (count_nonneg w cell).
    destruct (x =? w); [|done].
    replace (Z.to_nat (1 + count w cell)) with (S (Z.to_nat (count w cell))) by lia.
    simpl. by rewrite <- app_assoc.
Qed.

(** The cells that list line [w], column by column, each from the bottom row up. *)
Definition cellsOf (m : WinMap) (cols rows w : Z) : list (Z * Z) :=
  column ← seqZ 0 cols; row ← seqZ 0 rows;
  replicate (Z.to_nat (count w (cellAt m column row))) (column, row).

Lemma collect_loops m cols rows w :
  0 ≤ cols → 0 ≤ rows → dims cols rows m →
  forUp 0 cols (λ column,
    forUp 0 rows (λ row coords,
      match get m column with
      | None => Ok coords
      | Some map1 =>
        match get map1 row with
        | None => Ok coords
        | Some map2 =>
          forEach map2 (λ x coords,
            Ok (if x =? w then coords ++ [(column, row)] else coords)) coords
        end
      end)) [] = Ok (cellsOf m cols rows w).
Proof.
  intros Hc Hr Hd.
  match goal with |- forUp 0 cols ?body [] = _ =>
    destruct (forUp_count (λ i coords, coords = cellsOf m i rows w) body 0 cols [])
      as (r & E & ->); [exact Hc|reflexivity| |exact E] end.
  intros column coords Hcol ->.
  match goal with |- ∃ _, forUp 0 rows ?body _ = _ ∧ _ =>
    destruct (forUp_count (λ j coords,
      coords = cellsOf m column rows w ++
        (row ← seqZ 0 j;
         replicate (Z.to_nat (count w (cellAt m column row))) (column, row)))
      body 0 rows (cellsOf m column rows w)) as (r & E & ->);
      [exact Hr|by rewrite app_nil_r| |] end.
  - intros row coords Hrow ->.
    destruct (cellAt_inside cols rows m column row Hd) as (map1 & -> & ->);
      [split; simpl; lia|].
    rewrite forEach_collect. eexists. split; [done|].
    rewrite seqZ_app, bind_app by lia. rewrite <- app_assoc. do 2 f_equal.
    change (seqZ (0 + row) 1) with [0 + (0 + row)]. simpl.
    by rewrite app_nil_r, !Z.add_0_l.
  - exists (cellsOf m (column + 1) rows w). split; [|done]. rewrite E. f_equal.
    unfold cellsOf. rewrite seqZ_app, bind_app by lia. f_equal.
    change (seqZ (0 + column) 1) with [0 + (0 + column)]. simpl.
    by rewrite app_nil_r, !Z.add_0_l.
Qed.

Section WinningCells.
Variables cols rows connect : Z.
Hypothesis Hcols : 1 ≤ cols.
Hypothesis Hrows : 1 ≤ rows.
Hypothesis Hconnect : 1 ≤ connect.
Variable m : WinMap.
Hypothesis Hmap :
  JS._setupMap cols rows connect = Ok (m, JS._findWinningPlaces cols rows connect).
Variable w : Z.
Hypothesis Hw : 0 ≤ w < JS._findWinningPlaces cols rows connect.

Lemma cellsOf_elem c :
  c ∈ cellsOf m cols rows w ↔
  ∃ t, 0 ≤ t < connect ∧ lineCell cols rows connect w t = c.
Proof.
  unfold cellsOf. rewrite list_elem_of_bind. split.
  - intros (x & Hc & Hx). apply list_elem_of_bind in Hc as (y & Hc & Hy).
    apply elem_of_replicate in Hc as [-> Hn].
    assert (w ∈ cellAt m x y) as Hin.
    { apply count_pos_in. pose proof (count_nonneg w (cellAt m x y)). lia. }
    by apply (theMap_elem cols rows connect Hcols Hrows Hconnect m Hmap) in Hin as [_ ?].
  - intros (t & Ht & <-).
    pose proof (lineCell_inBoard cols rows connect ltac:(lia) ltac:(lia) Hconnect w t) as Hin.
    rewrite <- theMap_places in Hin by done. specialize (Hin Hw Ht).
    destruct (lineCell cols rows connect w t) as [x y] eqn:Ec. destruct Hin as [Hx Hy].
    simpl in Hx, Hy.
    exists x. split; [|by apply elem_of_seqZ_0].
    apply list_elem_of_bind. exists y. split; [|by apply elem_of_seqZ_0].
    apply elem_of_replicate. split; [done|].
    assert (0 < count w (cellAt m x y)); [|lia].
    apply count_pos_in, (theMap_elem cols rows connect Hcols Hrows Hconnect m Hmap).
    split; [done|]. by exists t.
Qed.

Lemma cellsOf_NoDup : NoDup (cellsOf m cols rows w).
Proof.
  unfold cellsOf. apply NoDup_bind; [| |apply NoDup_seqZ].
  - intros x1 x2 c _ _ (y1 & H1 & _)%list_elem_of_bind (y2 & H2 & _)%list_elem_of_bind.
    apply elem_of_replicate in H1 as [-> _]. apply elem_of_replicate in H2 as [E _].
    congruence.
  - intros x _. apply NoDup_bind; [| |apply NoDup_seqZ].
    + intros y1 y2 c _ _ [-> _]%elem_of_replicate [E _]%elem_of_replicate. congruence.
    + intros y _.
      destruct (theMap_hits cols rows connect Hcols Hrows Hconnect m Hmap x y w Hw)
        as [[-> _]|[-> _]]; simpl; [apply NoDup_singleton|apply NoDup_nil_2].
Qed.

(** The cells listing a line are its [connect] cells. *)
Lemma cellsOf_line :
  cellsOf m cols rows w ≡ₚ lineCell cols rows connect w <$> seqZ 0 connect.
Proof.
  apply NoDup_Permutation.
  - apply cellsOf_NoDup.
  - apply NoDup_fmap_2; [|apply NoDup_seqZ]. intros t t'.
    apply lineCell_inj; [lia..|]. by rewrite <- theMap_places.
  - intros c. rewrite cellsOf_elem, list_elem_of_fmap.
    split; intros (t & ? & ?); exists t; by rewrite ?elem_of_seqZ_0 in *.
Qed.
End WinningCells.

Lemma pieceAt_inBoard g s c v :
  shaped g s → pieceAt (JS.board s) c = Some v → inBoard (JS._cols g) (JS._rows g) c.
Proof.
  intros (Hbl & Hbc & _) H. unfold pieceAt in H.
  destruct (get (JS.board s) c.1) as [col|] eqn:E; [|done]. simpl in H.
  pose proof (get_Some_lt _ _ _ E). pose proof (get_Some_lt _ _ _ H).
  rewrite (Hbc _ _ E) in *. split; lia.
Qed.

(** [winningCoords()] in a state with a winner: the first line the winner
    holds entirely, and the cells that list it. *)
Lemma winningCoords_line g s :
  config g → JS._connect g ≤ 30 → Sound g s → isPlayer (JS.winner s) →
  ∃ L, 0 ≤ L < JS._winningPlaces g ∧ heldIn g s (JS.winner s) L = JS._connect g ∧
    JS.winningCoordsOf g s
    = Ok (cellsOf (JS.map s) (JS._cols g) (JS._rows g) L).
Proof.
  intros Hcfg H30 HS Hpl. pose proof Hcfg as (Hc & Hr & Hn & Hnone & _ & Hplaces).
  pose proof (sound_tidy _ _ HS) as HT.
  set (p := JS.winner s) in *.
  pose proof (sound_stats _ _ HS) as Hex.
  apply (exact_duo g s p Hpl) in Hex as (mine & theirs & Est & Hex).
  destruct (tidy_shaped _ _ HT)
    as (Hbl & Hbc & Hmd & Hmi & a0 & a1 & s0 & s1 & Esh & Esc & Hl0 & Hl1).
  assert (Z.of_nat (length mine) = JS._winningPlaces g) as Hlm.
  { rewrite Esh in Est. destruct Hpl as [E|E]; rewrite E in Est; unfold duo in Est;
      simpl in Est; by simplify_eq. }
  assert (p ≠ 1 - p) as Hne by (destruct Hpl; lia).
  assert (∀ L, 0 ≤ L < JS._winningPlaces g →
            get mine L = Some (JS._magicWinningNumber g) ↔ heldIn g s p L = JS._connect g)
    as Hmagic.
  { intros L HL. destruct (Hex L HL) as [-> _]. rewrite (magic_pow g Hcfg H30).
    pose proof (held_bounds (JS._cols g) (JS._rows g) (JS._connect g) ltac:(lia)
                  (JS.board s) p L) as Hb.
    pose proof (held_bounds (JS._cols g) (JS._rows g) (JS._connect g) ltac:(lia)
                  (JS.board s) (1 - p) L) as Hb'.
    pose proof (held_apart (JS._cols g) (JS._rows g) (JS._connect g) ltac:(lia)
                  (JS.board s) p (1 - p) L Hne) as Ha.
    fold (heldIn g s p L) in Hb, Ha. fold (heldIn g s (1 - p) L) in Hb', Ha.
    split.
    - intros [= E]. apply pot_magic in E as [_ ?]; [done|lia..].
    - intros E. f_equal. apply pot_magic; [lia..|]. split; [lia|done]. }
  destruct (sound_won _ _ HS Hpl) as (L0 & HL0 & Hheld0). fold p in Hheld0.
  destruct (firstWin_total (JS._magicWinningNumber g) mine 0) as [w Hw].
  { apply Hmagic in Hheld0; [|done]. apply get_Some in Hheld0 as [_ Hheld0].
    by eapply list_elem_of_lookup_2. }
  pose proof (firstWin_Ok _ _ _ _ Hw) as (Hw0 & Hwm & _). rewrite Z.sub_0_r in Hwm.
  pose proof (get_Some_lt _ _ _ Hwm) as Hwl. rewrite Hlm in Hwl.
  exists w. split; [done|]. split; [by apply Hmagic|].
  unfold JS.winningCoordsOf, deref. fold p. rewrite Est, get_duo_mine_eq by done.
  rewrite bind_Ok_l, Hw, bind_Ok_l.
  apply collect_loops; [lia..|done].
Qed.

(** [makeMove] returns for every column of the board. *)
Lemma makeMove_total g p x :
  reachable g → JS._connect g ≤ 30 → isPlayer p → 0 ≤ x < JS._cols g →
  ∃ row g1 g', JS._dropPiece g p x = Ok (row, g1) ∧ -1 ≤ row < JS._rows g ∧
    JS.makeMove g p x = Ok (JS.mkMove x row p, g') ∧
    ∃ s1, JS.currentState g1 = Ok s1 ∧
      ((JS.gameOver s1 && negb (JS.tie s1) = false ∧ g' = g1) ∨
       (JS.gameOver s1 && negb (JS.tie s1) = true ∧ isPlayer (JS.winner s1) ∧
        ∃ coords, JS.winningCoordsOf g1 s1 = Ok coords ∧
          g' = JS.setCurrent g1 (JS.mkState (JS.numberOfPieces s1) (JS.winner s1)
                 (JS.tie s1) (JS.gameOver s1) (JS.board s1) (JS.stats s1) (JS.map s1)
                 coords (JS.score s1)))).
Proof.
  intros Hr H30 Hp Hx.
  destruct (reachable_counted g Hr) as (Hcfg & Hne & _).
  pose proof (reachable_shaped g Hr) as Hsh.
  destruct (JS._stateStack g) as [|s rest] eqn:Est; [done|].
  apply Forall_cons in Hsh as [Hsh _].
  destruct (dropInto_total g Hcfg p Hp x s Hsh Hx) as (row & s1 & E & Hrow & _).
  assert (JS._dropPiece g p x = Ok (row, JS.setCurrent g s1)) as Hd.
  { unfold JS._dropPiece, JS.currentState. by rewrite Est, bind_Ok_l, E, bind_Ok_l. }
  set (g1 := JS.setCurrent g s1) in *.
  assert (reachable g1) as Hr1 by (by eapply reach_drop).
  assert (JS.currentState g1 = Ok s1) as Hs1 by done.
  assert (JS._connect g1 ≤ 30) as H30' by done.
  pose proof (current_Sound g1 s1 Hr1 H30' Hs1) as HS1.
  destruct (reachable_counted g1 Hr1) as (Hcfg1 & _ & _).
  unfold JS.makeMove.
  destruct (Z.leb_spec (JS._cols g) x), (Z.ltb_spec x 0); try lia. simpl.
  rewrite Hd, bind_Ok_l, Hs1, bind_Ok_l.
  destruct (JS.gameOver s1 && negb (JS.tie s1)) eqn:Eover.
  - assert (isPlayer (JS.winner s1)) as Hpl.
    { pose proof (sound_tidy _ _ HS1) as HT1.
      rewrite (tidy_over _ _ HT1), (tidy_tie _ _ HT1) in Eover.
      destruct (tidy_winner _ _ HT1) as [E1|?]; [|done].
      rewrite E1 in Eover. simpl in Eover. by destruct (full g1 s1). }
    destruct (winningCoords_line g1 s1 Hcfg1 H30' HS1 Hpl) as (L & _ & _ & Ec).
    rewrite Ec, !bind_Ok_l.
    exists row, g1. eexists. split; [done|]. split; [done|]. split; [done|].
    exists s1. split; [done|]. right. split; [done|]. split; [done|]. by eexists.
  - rewrite bind_Ok_l. exists row, g1, g1. split; [done|]. split; [done|].
    split; [done|]. exists s1. split; [done|]. by left.
Qed.

(** * The search *)

Lemma scanRow_withStack fuel g st col row :
  JS.scanRow fuel (JS.withStack g st) col row = JS.scanRow fuel g col row.
Proof.
  revert row. induction fuel as [|fuel IH]; intros row; simpl; [done|].
  change (JS.occupied (JS.withStack g st) col row) with (JS.occupied g col row).
  destruct (JS.occupied g col row); [|done].
  destruct (_ <? _); [apply IH|done].
Qed.

Lemma dropInto_withStack g st q c s :
  JS.dropInto (JS.withStack g st) q c s = JS.dropInto g q c s.
Proof.
  unfold JS.dropInto. destruct (deref (JS.board s) c) as [col|]; [|done].
  rewrite !bind_Ok_l.
  change (JS._rows (JS.withStack g st)) with (JS._rows g).
  by rewrite scanRow_withStack.
Qed.

(** A drop on a pushed copy, then a pop: the game is as before the push. *)
Lemma push_drop_pop g g1 q c row g2 :
  JS._pushState g = Ok g1 → JS._dropPiece g1 q c = Ok (row, g2) →
  JS._popState g2 = g ∧
  ∃ s s', JS.currentState g = Ok s ∧ JS.dropInto g q c s = Ok (row, s') ∧
          JS._stateStack g2 = s' :: JS._stateStack g.
Proof.
  intros Hpush Hdrop. unfold JS._pushState in Hpush.
  apply bind_Ok in Hpush as (s & Hs & Hpush). injection Hpush as <-.
  apply dropPiece_Ok in Hdrop as (s0 & s' & rest & E & Hd & ->).
  simpl in E. injection E as <- <-. rewrite dropInto_withStack in Hd.
  split; [unfold JS._popState; simpl; by destruct g|].
  by exists s, s'.
Qed.

Lemma loopBreak_inv {St} (I : St → Prop) (body : Z → St → result (control St)) n i s s' :
  (∀ i s c, I s → body i s = Ok c →
     I (match c with Continue s' | Break s' => s' end)) →
  I s → loopBreak n i body s = Ok s' → I s'.
Proof.
  intros Hstep. revert i s. induction n as [|n IH]; intros i s HI H; simpl in H.
  - by simplify_eq.
  - apply bind_Ok in H as (c & Hc & H). specialize (Hstep i s c HI Hc).
    destruct c as [s1|s1]; [exact (IH _ _ Hstep H)|by simplify_eq].
Qed.

Lemma loopBreak_ext {St} (I : St → Prop) (body body' : Z → St → result (control St))
  n i s :
  (∀ i s, I s → body i s = body' i s) →
  (∀ i s c, I s → body i s = Ok c →
     I (match c with Continue s' | Break s' => s' end)) →
  I s → loopBreak n i body s = loopBreak n i body' s.
Proof.
  intros Heq Hstep. revert i s. induction n as [|n IH]; intros i s HI; simpl; [done|].
  rewrite <- (Heq i s HI). destruct (body i s) as [c|e] eqn:Hc; [|done]. simpl.
  specialize (Hstep i s c HI Hc). destruct c as [s1|s1]; [by apply IH|done].
Qed.

(** One iteration of the loop of [_evaluate], with what the recursive call
    returned given by [deeper]. *)
Definition evaluateBody
  (deeper : JS.Game → Z → float → float → result (float * JS.Game))
  (player depth : Z) (beta : float) (i : Z) (st : JS.Game * float * float)
  : result (control (JS.Game * float * float)) :=
  let '(g, best, maxab) := st in
  g ← JS._pushState g;
  column ← JS.dropColumn g i;
  '(row, g) ← JS._dropPiece g (JS._other player) column;
  if row <? 0 then Ok (Continue (JS._popState g, best, maxab))
  else
    s ← JS.currentState g;
    '(goodness, g) ←
      (if JS.winner s =? JS._other player then Ok (JS.winValue depth, g)
       else deeper g (JS._other player) (PrimFloat.opp beta) (PrimFloat.opp maxab));
    let '(best, maxab) :=
      if PrimFloat.ltb best goodness then
        (goodness, if PrimFloat.ltb maxab goodness then goodness else maxab)
      else (best, maxab) in
    let g := JS._popState g in
    if PrimFloat.ltb beta best then Ok (Break (g, best, maxab))
    else Ok (Continue (g, best, maxab)).

Lemma evaluate_S fuel g player level alpha beta :
  JS._evaluate (S fuel) g player level alpha beta =
  let depth := Z.of_nat (length (JS._stateStack g)) in
  if level =? depth then v ← JS._goodnessOf g player; Ok (v, g)
  else
    '(g, best, maxab) ←
      forUpBreak 0 (JS._cols g)
        (evaluateBody (λ g q a b, JS._evaluate fuel g q level a b) player depth beta)
        (g, PrimFloat.opp MAX_VALUE, alpha);
    Ok (PrimFloat.opp best, g).
Proof.
  simpl. destruct (level =? _); [done|]. f_equal.
Qed.

Definition after {St} (c : control St) : St :=
  match c with Continue s | Break s => s end.

(** The body pops what it pushed, provided the recursive call does. *)
Lemma evaluateBody_restores deeper player depth beta i g best maxab c :
  (∀ g' q a b v g'', deeper g' q a b = Ok (v, g'') → g'' = g') →
  evaluateBody deeper player depth beta i (g, best, maxab) = Ok c →
  (after c).1.1 = g.
Proof.
  intros Hdeeper H. unfold evaluateBody in H.
  apply bind_Ok in H as (g1 & Hpush & H).
  apply bind_Ok in H as (column & Hcol & H).
  apply bind_Ok in H as ([row g2] & Hdrop & H).
  destruct (push_drop_pop _ _ _ _ _ _ Hpush Hdrop) as [Hpop _].
  destruct (row <? 0); [by simplify_eq|].
  apply bind_Ok in H as (s & Hs & H).
  apply bind_Ok in H as ([goodness g3] & Hgood & H).
  assert (g3 = g2) as ->.
  { destruct (JS.winner s =? _); [by simplify_eq|by eapply Hdeeper]. }
  destruct (PrimFloat.ltb best goodness); destruct (PrimFloat.ltb beta _);
    by simplify_eq.
Qed.

(** [_evaluate] returns the game it was given: every state it pushed has
    been popped, and the states beneath were not touched. *)
Lemma evaluate_restores fuel g player level alpha beta v g' :
  JS._evaluate fuel g player level alpha beta = Ok (v, g') → g' = g.
Proof.
  revert g player alpha beta v g'.
  induction fuel as [|fuel IH]; intros g player alpha beta v g' H; [done|].
  rewrite evaluate_S in H. cbv zeta in H.
  destruct (level =? _).
  - apply bind_Ok in H as (v' & _ & H). by simplify_eq.
  - apply bind_Ok in H as ([[g0 best] maxab] & Hloop & H). injection H as _ <-.
    unfold forUpBreak in Hloop.
    apply (loopBreak_inv (λ st, st.1.1 = g)) in Hloop; [done| |done].
    intros i [[g1 b1] m1] c Hg Hbody. simpl in Hg. subst g1.
    eapply evaluateBody_restores; [|exact Hbody].
    intros g1 q a b v1 g2. apply IH.
Qed.

(** ** The drop order of a reachable game *)

Lemma makeMove_Ok g p x move g' :
  JS.makeMove g p x = Ok (move, g') →
  0 ≤ x < JS._cols g ∧
  ∃ row g1 s1, JS._dropPiece g p x = Ok (row, g1) ∧ JS.currentState g1 = Ok s1 ∧
    move = JS.mkMove x row p ∧
    ∃ coords, g' = JS.setCurrent g1 (JS.mkState (JS.numberOfPieces s1) (JS.winner s1)
                     (JS.tie s1) (JS.gameOver s1) (JS.board s1) (JS.stats s1) (JS.map s1)
                     coords (JS.score s1)).
Proof.
  unfold JS.makeMove. intros H.
  destruct (Z.leb_spec (JS._cols g) x); [done|].
  destruct (Z.ltb_spec x 0); [done|]. simpl in H. split; [lia|].
  apply bind_Ok in H as ([row g1] & Hd & H).
  apply bind_Ok in H as (s1 & Hs1 & H).
  apply bind_Ok in H as (g2 & H2 & H). simplify_eq.
  exists row, g1, s1. do 3 (split; [done|]).
  destruct (_ && _).
  - apply bind_Ok in H2 as (coords & _ & H2). simplify_eq. by exists coords.
  - simplify_eq. exists (JS.winningCoords s1).
    unfold JS.currentState in Hs1. unfold JS.setCurrent.
    destruct g' as [? ? ? ? ? ? ? [|s rest] ?]; [done|]. simpl in *. simplify_eq.
    by destruct s1.
Qed.

Lemma reachable_order g :
  reachable g → JS._dropOrder g = triedQ (JS._cols g) <$> seqZ 0 (JS._cols g).
Proof.
  induction 1 as [settings g Hv Hnew|g p x row g' _ IH Hp Hd|g p x mv g' _ IH Hp Hm
                 |g g' _ IH Hpush|g _ IH Hlen].
  - unfold JS.Connect4Game in Hnew.
    apply bind_Ok in Hnew as ([m places] & _ & Hnew).
    apply bind_Ok in Hnew as (order & Ho & Hnew). simplify_eq. simpl.
    destruct Hv as (Hc & _). rewrite js_drop_order in Ho by lia. by simplify_eq.
  - by apply dropPiece_Ok in Hd as (s & s' & rest & _ & _ & ->).
  - apply makeMove_Ok in Hm as (_ & row & g1 & s1 & Hd & _ & _ & coords & ->).
    by apply dropPiece_Ok in Hd as (s & s' & rest & _ & _ & ->).
  - unfold JS._pushState in Hpush. apply bind_Ok in Hpush as (s & _ & Hpush).
    by simplify_eq.
  - done.
Qed.

Lemma index_triedQ_odd W t : W mod 2 = 1 → index (triedQ W t) = Some (tried W t).
Proof.
  intros Hodd. unfold index, triedQ. rewrite Qred_Qred.
  rewrite (Qred_eq _ (inject_Z (tried W t))).
  - by rewrite Qred_inject_Z.
  - unfold tried, Qeq. simpl. div_lia.
Qed.

Lemma index_triedQ_even W t : W mod 2 = 0 → index (triedQ W t) = None.
Proof.
  intros Heven. unfold index, triedQ. rewrite Qred_Qred.
  destruct (Pos.eqb_spec (Qden (Qred (W - 1 + 2 * offset t # 2))) 1) as [E|]; [|done].
  pose proof (Qred_correct (W - 1 + 2 * offset t # 2)) as Hq.
  unfold Qeq in Hq. rewrite E in Hq. simpl in Hq. div_lia.
Qed.

Lemma get_fmap_seqZ {A} (f : Z → A) n i :
  0 ≤ i < n → get (f <$> seqZ 0 n) i = Some (f i).
Proof.
  intros Hi. unfold get. destruct (Z.ltb_spec i 0); [lia|].
  rewrite list_lookup_fmap, lookup_seqZ_lt by lia. simpl. f_equal. f_equal. lia.
Qed.

Lemma dropColumn_odd g i :
  reachable g → JS._cols g mod 2 = 1 → 0 ≤ i < JS._cols g →
  JS.dropColumn g i = Ok (tried (JS._cols g) i) ∧
  0 ≤ tried (JS._cols g) i < JS._cols g.
Proof.
  intros Hr Hodd Hi. unfold JS.dropColumn.
  rewrite (reachable_order g Hr), get_fmap_seqZ, index_triedQ_odd by done.
  split; [done|]. apply tried_range; lia.
Qed.

Lemma dropColumn_even g i :
  reachable g → JS._cols g mod 2 = 0 → 0 ≤ i < JS._cols g →
  JS.dropColumn g i = Throw TypeError.
Proof.
  intros Hr Heven Hi. unfold JS.dropColumn.
  by rewrite (reachable_order g Hr), get_fmap_seqZ, index_triedQ_even.
Qed.

Lemma loopBreak_returns {St} (I : St → Prop) (body : Z → St → result (control St)) n i s :
  (∀ j s, i ≤ j < i + Z.of_nat n → I s → ∃ c, body j s = Ok c ∧ I (after c)) →
  I s → ∃ s', loopBreak n i body s = Ok s' ∧ I s'.
Proof.
  revert i s. induction n as [|n IH]; intros i s Hstep HI; simpl.
  - by exists s.
  - destruct (Hstep i s ltac:(lia) HI) as (c & -> & Hc). simpl.
    destruct c as [s1|s1]; [|by exists s1].
    apply IH; [|done]. intros j s2 Hj. apply Hstep. lia.
Qed.

(** ** The search returns *)

(** The cells still empty, counted from the piece count. *)
Definition toPlay (g : JS.Game) (s : JS.State) : Z :=
  JS._cols g * JS._rows g - JS.numberOfPieces s.

Lemma toPlay_nonneg g s : reachable g → JS.currentState g = Ok s → 0 ≤ toPlay g s.
Proof.
  intros Hr Hs. pose proof (tidy_counted _ _ (current_Tidy g s Hr Hs)) as Hc.
  unfold counted in Hc. pose proof (empties_nonneg (JS.board s)). unfold toPlay. lia.
Qed.

Lemma isPlayer_other p : isPlayer p → isPlayer (JS._other p).
Proof. by intros [-> | ->]; [right|left]. Qed.

(** A push and a drop in a reachable game: what the loop bodies of the
    search start with. *)
Lemma push_drop_reachable g s q c :
  reachable g → JS.currentState g = Ok s → isPlayer q → 0 ≤ c < JS._cols g →
  ∃ g1 row g2 s2,
    JS._pushState g = Ok g1 ∧ JS._dropPiece g1 q c = Ok (row, g2) ∧
    JS._popState g2 = g ∧ reachable g2 ∧ JS.currentState g2 = Ok s2 ∧
    JS._cols g2 = JS._cols g ∧ JS._rows g2 = JS._rows g ∧
    JS.dropInto g q c s = Ok (row, s2) ∧
    (0 ≤ row → toPlay g2 s2 = toPlay g s - 1) ∧
    JS._stateStack g1 = s :: JS._stateStack g ∧
    JS._stateStack g2 = s2 :: JS._stateStack g ∧
    JS._dropOrder g1 = JS._dropOrder g.
Proof.
  intros Hr Hs Hq Hc.
  assert (JS._pushState g = Ok (JS.withStack g (s :: JS._stateStack g))) as Hpush.
  { unfold JS._pushState. by rewrite Hs. }
  pose proof (reach_push _ _ Hr Hpush) as Hr1.
  destruct (dropPiece_returns _ q c Hr1 Hq Hc) as (row & g2 & Hd & Hrow).
  pose proof (reach_drop _ _ _ _ _ Hr1 Hq Hd) as Hr2.
  destruct (push_drop_pop _ _ _ _ _ _ Hpush Hd) as (Hpop & s0 & s2 & Hs0 & Hdi & Hst).
  rewrite Hs in Hs0. injection Hs0 as <-.
  exists (JS.withStack g (s :: JS._stateStack g)), row, g2, s2. do 4 (split; [done|]).
  split; [unfold JS.currentState; by rewrite Hst|].
  apply dropPiece_Ok in Hd as (? & ? & ? & _ & _ & ->). simpl.
  do 3 (split; [done|]). split; [|by simpl in Hst]. intros H0.
  pose proof (current_Tidy g s Hr Hs) as HT.
  destruct (reachable_counted g Hr) as (Hcfg & _).
  destruct (dropInto_effect g Hcfg q Hq c s row s2 (tidy_shaped _ _ HT) Hdi)
    as [[-> _]|(_ & col & mine & theirs & td & od & mine' & theirs' & H)]; [lia|].
  destruct H as (_ & _ & _ & _ & _ & _ & _ & _ & _ & _ & Hn & _).
  unfold toPlay. simpl. lia.
Qed.

Lemma goodnessOf_returns g s player :
  reachable g → JS.currentState g = Ok s → isPlayer player →
  ∃ v, JS._goodnessOf g player = Ok v.
Proof.
  intros Hr Hs Hp. unfold JS._goodnessOf. rewrite Hs, bind_Ok_l.
  destruct (tidy_shaped _ _ (current_Tidy g s Hr Hs))
    as (_ & _ & _ & _ & a0 & a1 & s0 & s1 & _ & -> & _).
  destruct Hp as [-> | ->]; by eexists.
Qed.

Lemma evaluate_returns_fuel fuel :
  ∀ g s player level alpha beta,
    reachable g → JS._cols g mod 2 = 1 → isPlayer player →
    JS.currentState g = Ok s → toPlay g s < Z.of_nat fuel →
    ∃ v, JS._evaluate fuel g player level alpha beta = Ok (v, g).
Proof.
  induction fuel as [|fuel IH]; intros g s player level alpha beta Hr Hodd Hp Hs Hfuel.
  { pose proof (toPlay_nonneg g s Hr Hs). lia. }
  rewrite evaluate_S. cbv zeta. destruct (level =? _).
  { destruct (goodnessOf_returns g s player Hr Hs Hp) as (v & ->). by exists v. }
  unfold forUpBreak.
  match goal with |- ∃ v, (loopBreak ?n ?i ?body ?init ≫= _) = _ =>
    destruct (loopBreak_returns (λ st, st.1.1 = g) body n i init) as ([[g0 best] m] & -> & Hg)
  end; [|done|simpl in Hg; subst g0; by eexists].
  intros j [[g0 best] m] Hj Hg. simpl in Hg. subst g0.
  assert (0 ≤ j < JS._cols g) as Hj' by lia.
  destruct (dropColumn_odd g j Hr Hodd Hj') as [Hcol Hrange].
  destruct (push_drop_reachable g s (JS._other player) _ Hr Hs (isPlayer_other _ Hp) Hrange)
    as (g1 & row & g2 & s2 & Hpush & Hd & Hpop & Hr2 & Hs2 & Hc2 & _ & _ & Hplay & _ & _ & Ho).
  unfold evaluateBody. rewrite Hpush, bind_Ok_l.
  assert (JS.dropColumn g1 j = JS.dropColumn g j) as -> by (unfold JS.dropColumn; by rewrite Ho).
  rewrite Hcol, bind_Ok_l, Hd, bind_Ok_l. cbv beta iota.
  destruct (Z.ltb_spec row 0); [eexists; split; [done|]; by simpl|].
  rewrite Hs2, bind_Ok_l.
  assert (∃ v, (if JS.winner s2 =? JS._other player
                then Ok (JS.winValue (Z.of_nat (length (JS._stateStack g))), g2)
                else JS._evaluate fuel g2 (JS._other player) level
                       (PrimFloat.opp beta) (PrimFloat.opp m)) = Ok (v, g2)) as (v & ->).
  { destruct (_ =? _); [by eexists|].
    apply (IH g2 s2); [done|by rewrite Hc2|by apply isPlayer_other|done|].
    rewrite Hplay by lia. lia. }
  rewrite bind_Ok_l. cbv beta iota.
  destruct (PrimFloat.ltb best v); destruct (PrimFloat.ltb beta _);
    (eexists; split; [done|]; by simpl).
Qed.

(** Below the depth of the stack the level is never met again. *)
Lemma evaluate_level fuel :
  ∀ g player level level' alpha beta,
    level < Z.of_nat (length (JS._stateStack g)) →
    level' < Z.of_nat (length (JS._stateStack g)) →
    JS._evaluate fuel g player level alpha beta
    = JS._evaluate fuel g player level' alpha beta.
Proof.
  induction fuel as [|fuel IH]; intros g player level level' alpha beta Hl Hl'; [done|].
  rewrite !evaluate_S. cbv zeta.
  destruct (Z.eqb_spec level (Z.of_nat (length (JS._stateStack g)))); [lia|].
  destruct (Z.eqb_spec level' (Z.of_nat (length (JS._stateStack g)))); [lia|].
  f_equal. unfold forUpBreak.
  apply (loopBreak_ext (λ st, st.1.1 = g)); [| |done].
  - intros i [[g0 best] m] Hg. simpl in Hg. subst g0. unfold evaluateBody.
    destruct (JS._pushState g) as [g1|] eqn:Hpush; [|done]. rewrite !bind_Ok_l.
    destruct (JS.dropColumn g1 i) as [column|]; [|done]. rewrite !bind_Ok_l.
    destruct (JS._dropPiece g1 (JS._other player) column) as [[row g2]|] eqn:Hd; [|done].
    rewrite !bind_Ok_l. cbv beta iota.
    destruct (row <? 0); [done|].
    destruct (JS.currentState g2) as [s2|]; [|done]. rewrite !bind_Ok_l.
    destruct (JS.winner s2 =? _); [done|].
    destruct (push_drop_pop _ _ _ _ _ _ Hpush Hd) as (_ & s & s' & _ & _ & Hst).
    rewrite (IH g2 _ level level'); [done|rewrite Hst; simpl; lia..].
  - intros i [[g0 best] m] c Hg Hbody. simpl in Hg. subst g0.
    eapply evaluateBody_restores; [|exact Hbody].
    intros g1 q a b v1 g2. apply evaluate_restores.
Qed.

(** ** The root loop of [autoMove] *)

(** A drop into column [c] that lands, for the game [g] in state [s]. *)
Definition lands (g : JS.Game) (s : JS.State) (p c : Z) : Prop :=
  ∃ row s', 0 ≤ row ∧ JS.dropInto g p c s = Ok (row, s').

Lemma rootCompare_column random k v column bestWorst bestColumn :
  (JS.rootCompare random k v column bestWorst bestColumn).1.2 = column ∨
  (JS.rootCompare random k v column bestWorst bestColumn).1.2 = bestColumn.
Proof.
  unfold JS.rootCompare.
  destruct (PrimFloat.ltb _ _); [by left|].
  destruct (PrimFloat.eqb _ _); [|by right].
  destruct (_ =? _); [by left|]. destruct (JS.coin _); [by left|by right].
Qed.

Lemma rootBody_restores fuel random p ai i r c :
  JS.rootBody fuel random p ai i r = Ok c →
  JS.this (after c) = JS.this r ∧
  (JS.bestColumn (after c) = JS.bestColumn r ∨
   ∃ s, JS.currentState (JS.this r) = Ok s ∧
        lands (JS.this r) s p (JS.bestColumn (after c))).
Proof.
  intros H. unfold JS.rootBody in H.
  apply bind_Ok in H as (g1 & Hpush & H).
  apply bind_Ok in H as (column & Hcol & H).
  apply bind_Ok in H as ([row g2] & Hdrop & H).
  destruct (push_drop_pop _ _ _ _ _ _ Hpush Hdrop) as (Hpop & s & s' & Hs & Hd & _).
  destruct (Z.ltb_spec row 0); [simplify_eq; simpl; by split; [|left]|].
  assert (lands (JS.this r) s p column) as Hl by (by exists row, s').
  apply bind_Ok in H as (s2 & Hs2 & H).
  destruct (JS.winner s2 =? p); [simplify_eq; simpl; split; [done|right; eauto]|].
  apply bind_Ok in H as ([v g3] & Hev & H).
  apply evaluate_restores in Hev as ->.
  pose proof (rootCompare_column random (JS.draws r) v column (JS.bestWorst r)
                (JS.bestColumn r)) as Hc.
  destruct (JS.rootCompare _ _ _ _ _ _) as [[bw bc] k]. simpl in Hc.
  simplify_eq. simpl. split; [done|]. destruct Hc as [-> | ->]; [right; eauto|by left].
Qed.

Lemma rootLoop_restores fuel random p ai g n i r r' :
  JS.this r = g →
  (JS.bestColumn r = -1 ∨ ∃ s, JS.currentState g = Ok s ∧ lands g s p (JS.bestColumn r)) →
  loopBreak n i (JS.rootBody fuel random p ai) r = Ok r' →
  JS.this r' = g ∧
  (JS.bestColumn r' = -1 ∨ ∃ s, JS.currentState g = Ok s ∧ lands g s p (JS.bestColumn r')).
Proof.
  intros Hg Hb Hloop.
  apply (loopBreak_inv (λ r, JS.this r = g ∧
    (JS.bestColumn r = -1 ∨ ∃ s, JS.currentState g = Ok s ∧ lands g s p (JS.bestColumn r))))
    in Hloop; [done| |done].
  intros j r1 c [Hg1 Hb1] Hbody.
  apply rootBody_restores in Hbody as [Ht Hc]. fold (after c).
  rewrite Hg1 in Ht, Hc. split; [done|].
  destruct Hc as [-> | Hc]; [done|by right].
Qed.

(** What [autoMove] returns is what [makeMove] returns for the column of
    the move. *)
Lemma autoMove_makeMove fuel random k g p ai move g' k' :
  JS.autoMove fuel random k g p ai = Ok (move, g', k') →
  JS.makeMove g p (JS.col move) = Ok (move, g') ∧
  ∃ s, JS.currentState g = Ok s ∧
    ((JS.openingShortcut g s = Ok true ∧ JS.col move = 3 ∧ k' = k) ∨
     (JS.openingShortcut g s = Ok false ∧ lands g s p (JS.col move))).
Proof.
  unfold JS.autoMove. intros H.
  apply bind_Ok in H as (s & Hs & H).
  apply bind_Ok in H as (shortcut & Hsc & H). destruct shortcut.
  - apply bind_Ok in H as ([mv g1] & Hm & H). simplify_eq.
    pose proof Hm as Hm'.
    apply makeMove_Ok in Hm' as (_ & row & g1 & s1 & _ & _ & -> & _). simpl.
    split; [done|]. exists s. split; [done|]. by left.
  - apply bind_Ok in H as (r & Hloop & H).
    apply bind_Ok in H as ([mv g1] & Hm & H). simplify_eq.
    unfold forUpBreak in Hloop.
    apply (rootLoop_restores _ _ _ _ g) in Hloop; [|done|by left].
    destruct Hloop as [Hg Hb].
    rewrite Hg in Hm. pose proof Hm as Hm'.
    apply makeMove_Ok in Hm' as (Hrange & row & g1 & s1 & _ & _ & -> & _). simpl.
    split; [done|]. exists s. split; [done|]. right. split; [done|].
    destruct Hb as [Hb|(s0 & Hs0 & Hl)]; [exfalso; lia|]. rewrite Hs in Hs0. by injection Hs0 as <-.
Qed.

Lemma rootBody_level fuel random p level level' i r :
  level < 2 → level' < 2 →
  JS.rootBody fuel random p level i r = JS.rootBody fuel random p level' i r.
Proof.
  intros Hl Hl'. unfold JS.rootBody.
  destruct (JS._pushState (JS.this r)) as [g1|] eqn:Hpush; [|done]. rewrite !bind_Ok_l.
  destruct (JS.dropColumn g1 i) as [column|]; [|done]. rewrite !bind_Ok_l.
  destruct (JS._dropPiece g1 p column) as [[row g2]|] eqn:Hd; [|done].
  rewrite !bind_Ok_l. cbv beta iota.
  destruct (row <? 0); [done|].
  destruct (JS.currentState g2) as [s2|]; [|done]. rewrite !bind_Ok_l.
  destruct (JS.winner s2 =? _); [done|].
  destruct (push_drop_pop _ _ _ _ _ _ Hpush Hd) as (_ & s & s' & Hs & _ & Hst).
  apply current_head in Hs as (rest & Hrest).
  rewrite (evaluate_level fuel g2 p level level'); [done|rewrite Hst, Hrest; simpl; lia..].
Qed.

Lemma rootLoop_level fuel random p level level' n i r :
  level < 2 → level' < 2 →
  loopBreak n i (JS.rootBody fuel random p level) r
  = loopBreak n i (JS.rootBody fuel random p level') r.
Proof.
  intros Hl Hl'. apply (loopBreak_ext (λ _, True)); [|done..].
  intros j r1 _. by apply rootBody_level.
Qed.

(** ** An even number of columns *)

Lemma rootLoop_even fuel random p ai g s r :
  reachable g → JS._cols g mod 2 = 0 → JS.currentState g = Ok s → JS.this r = g →
  forUpBreak 0 (JS._cols g) (JS.rootBody fuel random p ai) r = Throw TypeError.
Proof.
  intros Hr Heven Hs Hg.
  destruct (reachable_counted g Hr) as ((Hc & _) & _).
  unfold forUpBreak.
  destruct (Z.to_nat (JS._cols g - 0)) as [|n] eqn:E; [lia|]. cbn [loopBreak].
  assert (JS.rootBody fuel random p ai 0 r = Throw TypeError) as ->; [|done].
  unfold JS.rootBody. rewrite Hg. unfold JS._pushState. rewrite Hs, !bind_Ok_l.
  assert (JS.dropColumn (JS.withStack g (s :: JS._stateStack g)) 0 = Throw TypeError) as ->;
    [|done].
  apply dropColumn_even; [|done|simpl; lia].
  apply (reach_push g); [done|]. unfold JS._pushState. by rewrite Hs.
Qed.

Lemma evaluateLoop_even fuel g s player level beta st :
  reachable g → JS._cols g mod 2 = 0 → JS.currentState g = Ok s → st.1.1 = g →
  forUpBreak 0 (JS._cols g)
    (evaluateBody (λ g q a b, JS._evaluate fuel g q level a b) player
       (Z.of_nat (length (JS._stateStack g))) beta) st = Throw TypeError.
Proof.
  intros Hr Heven Hs Hg. destruct st as [[g0 best] m]. simpl in Hg. subst g0.
  destruct (reachable_counted g Hr) as ((Hc & _) & _).
  unfold forUpBreak.
  destruct (Z.to_nat (JS._cols g - 0)) as [|n] eqn:E; [lia|]. cbn [loopBreak].
  match goal with |- (?b ≫= _) = _ => assert (b = Throw TypeError) as ->; [|done] end.
  unfold evaluateBody. unfold JS._pushState. rewrite Hs, !bind_Ok_l.
  assert (JS.dropColumn (JS.withStack g (s :: JS._stateStack g)) 0 = Throw TypeError) as ->;
    [|done].
  apply dropColumn_even; [|done|simpl; lia].
  apply (reach_push g); [done|]. unfold JS._pushState. by rewrite Hs.
Qed.

(** ** A full board *)

Lemma full_drop_fails g s q c :
  reachable g → JS.currentState g = Ok s → isPlayer q → 0 ≤ c < JS._cols g →
  toPlay g s ≤ 0 →
  ∃ g1 g2, JS._pushState g = Ok g1 ∧ JS._dropOrder g1 = JS._dropOrder g ∧
    JS._dropPiece g1 q c = Ok (-1, g2) ∧ JS._popState g2 = g.
Proof.
  intros Hr Hs Hq Hc Hfull.
  destruct (push_drop_reachable g s q c Hr Hs Hq Hc)
    as (g1 & row & g2 & s2 & Hpush & Hd & Hpop & Hr2 & Hs2 & _ & _ & Hdi & Hplay & _ & _ & Ho).
  exists g1, g2. do 2 (split; [done|]). split; [|done].
  destruct (reachable_counted g Hr) as (Hcfg & _).
  destruct (dropInto_effect g Hcfg q Hq c s row s2
              (tidy_shaped _ _ (current_Tidy g s Hr Hs)) Hdi) as [[-> _]|[Hrow _]]; [done|].
  pose proof (toPlay_nonneg g2 s2 Hr2 Hs2). rewrite Hplay in * by lia. lia.
Qed.

Lemma rootLoop_full fuel random p ai g s :
  reachable g → JS._cols g mod 2 = 1 → JS.currentState g = Ok s → isPlayer p →
  toPlay g s ≤ 0 →
  ∀ n i r, 0 ≤ i → i + Z.of_nat n ≤ JS._cols g → JS.this r = g →
    loopBreak n i (JS.rootBody fuel random p ai) r = Ok r.
Proof.
  intros Hr Hodd Hs Hp Hfull. induction n as [|n IH]; intros i r Hi Hn Hg; [done|].
  cbn [loopBreak].
  assert (0 ≤ i < JS._cols g) as Hi' by lia.
  destruct (dropColumn_odd g i Hr Hodd Hi') as [Hcol Hrange].
  destruct (full_drop_fails g s p _ Hr Hs Hp Hrange Hfull) as (g1 & g2 & Hpush & Ho & Hd & Hpop).
  assert (JS.rootBody fuel random p ai i r = Ok (Continue r)) as ->.
  { unfold JS.rootBody. rewrite Hg, Hpush, bind_Ok_l.
    assert (JS.dropColumn g1 i = JS.dropColumn g i) as ->
      by (unfold JS.dropColumn; by rewrite Ho).
    rewrite Hcol, bind_Ok_l, Hd, bind_Ok_l. cbv beta iota.
    change (-1 <? 0) with true. cbv iota. rewrite Hpop, <- Hg. by destruct r. }
  rewrite bind_Ok_l. apply IH; [lia..|done].
Qed.

Lemma evaluateLoop_full fuel g s player level depth beta :
  reachable g → JS._cols g mod 2 = 1 → JS.currentState g = Ok s → isPlayer player →
  toPlay g s ≤ 0 →
  ∀ n i st, 0 ≤ i → i + Z.of_nat n ≤ JS._cols g → st.1.1 = g →
    loopBreak n i
      (evaluateBody (λ g q a b, JS._evaluate fuel g q level a b) player depth beta) st
    = Ok st.
Proof.
  intros Hr Hodd Hs Hp Hfull. induction n as [|n IH]; intros i st Hi Hn Hg; [done|].
  cbn [loopBreak].
  assert (0 ≤ i < JS._cols g) as Hi' by lia.
  destruct (dropColumn_odd g i Hr Hodd Hi') as [Hcol Hrange].
  destruct (full_drop_fails g s (JS._other player) _ Hr Hs (isPlayer_other _ Hp) Hrange Hfull)
    as (g1 & g2 & Hpush & Ho & Hd & Hpop).
  match goal with |- (?b ≫= _) = _ => assert (b = Ok (Continue st)) as -> end.
  { destruct st as [[g0 best] m]. simpl in Hg. subst g0.
    unfold evaluateBody. rewrite Hpush, bind_Ok_l.
    assert (JS.dropColumn g1 i = JS.dropColumn g i) as ->
      by (unfold JS.dropColumn; by rewrite Ho).
    rewrite Hcol, bind_Ok_l, Hd, bind_Ok_l. cbv beta iota.
    change (-1 <? 0) with true. cbv iota. by rewrite Hpop. }
  rewrite bind_Ok_l. apply IH; [lia..|done].
Qed.

(** ** A win in one move *)

(** A drop of [p] into column [c] lands and makes [p] the winner. *)
Definition winsAt (g : JS.Game) (s : JS.State) (p c : Z) : Prop :=
  ∃ row s', 0 ≤ row ∧ JS.dropInto g p c s = Ok (row, s') ∧ JS.winner s' = p.

Lemma rootLoop_win fuel random p ai g s :
  reachable g → JS._cols g mod 2 = 1 → JS.currentState g = Ok s → isPlayer p →
  toPlay g s ≤ Z.of_nat fuel →
  ∀ n i r, 0 ≤ i → i + Z.of_nat n ≤ JS._cols g → JS.this r = g →
    (∃ j, i ≤ j < i + Z.of_nat n ∧ winsAt g s p (tried (JS._cols g) j)) →
    ∃ r', loopBreak n i (JS.rootBody fuel random p ai) r = Ok r' ∧
          JS.this r' = g ∧ winsAt g s p (JS.bestColumn r').
Proof.
  intros Hr Hodd Hs Hp Hfuel.
  induction n as [|n IH]; intros i r Hi Hn Hg (j & Hj & Hwin); [lia|].
  cbn [loopBreak].
  assert (0 ≤ i < JS._cols g) as Hi' by lia.
  destruct (dropColumn_odd g i Hr Hodd Hi') as [Hcol Hrange].
  destruct (push_drop_reachable g s p _ Hr Hs Hp Hrange)
    as (g1 & row & g2 & s2 & Hpush & Hd & Hpop & Hr2 & Hs2 & Hc2 & _ & Hdi & Hplay & _ & _ & Ho).
  assert (JS.dropColumn g1 i = Ok (tried (JS._cols g) i)) as Hcol1.
  { rewrite <- Hcol. unfold JS.dropColumn. by rewrite Ho. }
  assert ((0 ≤ row ∧ JS.winner s2 = p) ∨
          (¬ winsAt g s p (tried (JS._cols g) i) ∧
           ∃ r1, JS.rootBody fuel random p ai i r = Ok (Continue r1) ∧ JS.this r1 = g))
    as [[Hrow Hw]|(Hno & r1 & Hbody & Hg1)].
  { unfold JS.rootBody. rewrite Hg, Hpush, bind_Ok_l, Hcol1, bind_Ok_l, Hd, bind_Ok_l.
    cbv beta iota. destruct (Z.ltb_spec row 0).
    - right. split; [|by eexists].
      intros (row' & s' & Hrow' & Hdi' & _). rewrite Hdi in Hdi'. simplify_eq. lia.
    - rewrite Hs2, bind_Ok_l. destruct (Z.eqb_spec (JS.winner s2) p); [by left|].
      right. split.
      { intros (row' & s' & _ & Hdi' & Hw'). rewrite Hdi in Hdi'. by simplify_eq. }
      destruct (evaluate_returns_fuel fuel g2 s2 p ai (PrimFloat.opp MAX_VALUE)
                  (PrimFloat.opp (JS.bestWorst r)) Hr2) as (v & ->);
        [by rewrite Hc2|done|done|rewrite Hplay by lia; lia|].
      rewrite bind_Ok_l. cbv beta iota.
      destruct (JS.rootCompare _ _ _ _ _ _) as [[bw bc] k]. by eexists. }
  - exists (JS.mkRoot g (tried (JS._cols g) i) (JS.goodness r) (JS.bestWorst r) (JS.draws r)).
    split; [|split; [done|by exists row, s2]].
    unfold JS.rootBody. rewrite Hg, Hpush, bind_Ok_l, Hcol1, bind_Ok_l, Hd, bind_Ok_l.
    cbv beta iota. destruct (Z.ltb_spec row 0); [lia|].
    rewrite Hs2, bind_Ok_l. rewrite Hw, Z.eqb_refl, Hpop. done.
  - rewrite Hbody, bind_Ok_l. apply IH; [lia|lia|done|].
    exists j. split; [|done]. destruct (decide (j = i)) as [->|]; [done|lia].
Qed.

(** ** A full column *)

Lemma sumZ_fmap_le {A} (f : A → Z) l R :
  (∀ x, x ∈ l → f x ≤ R) → sumZ (f <$> l) ≤ Z.of_nat (length l) * R.
Proof.
  induction l as [|x l IH]; intros H; csimpl; [lia|].
  pose proof (H x ltac:(by left)).
  assert (sumZ (f <$> l) ≤ Z.of_nat (length l) * R) by (apply IH; intros y Hy; apply H; by right).
  lia.
Qed.

Lemma empties_full_column board x col R :
  (∀ c, c ∈ board → Z.of_nat (length c) = R) →
  get board x = Some col → (∀ y, 0 ≤ y < R → get col y ≠ Some (-1)) →
  empties board ≤ (Z.of_nat (length board) - 1) * R.
Proof.
  intros Hlen Hx Hcol. apply get_Some in Hx as [Hx0 Hx].
  pose proof (take_drop_middle _ _ _ Hx) as E.
  set (f := λ c : list Z, sumZ ((λ b, if b =? -1 then 1 else 0) <$> c)).
  assert (∀ c, c ∈ board → f c ≤ R) as Hle.
  { intros c Hc. rewrite <- (Hlen c Hc). unfold f.
    apply sumZ_fmap_bounds. intros b _. destruct (b =? -1); lia. }
  assert (f col = 0) as H0.
  { unfold f. rewrite (sumZ_fmap_ext _ (λ _, 0)).
    - clear. induction col as [|b col IH]; csimpl; lia.
    - intros b Hb. apply list_elem_of_lookup in Hb as [n Hn].
      destruct (Z.eqb_spec b (-1)) as [->|]; [|done].
      destruct (Hcol (Z.of_nat n)).
      + apply lookup_lt_Some in Hn. rewrite <- (Hlen col); [lia|].
        by apply list_elem_of_lookup_2 in Hx.
      + apply get_Some. split; [lia|]. by rewrite Nat2Z.id. }
  unfold empties. fold f. rewrite <- E at 1. rewrite fmap_app, sumZ_app. csimpl. rewrite H0.
  pose proof (sumZ_fmap_le f (take (Z.to_nat x) board) R) as H1.
  pose proof (sumZ_fmap_le f (drop (S (Z.to_nat x)) board) R) as H2.
  assert (Z.of_nat (length board)
          = Z.of_nat (length (take (Z.to_nat x) board)) + 1
            + Z.of_nat (length (drop (S (Z.to_nat x)) board))) as El.
  { rewrite <- E at 1. rewrite length_app. simpl. lia. }
  assert (sumZ (f <$> take (Z.to_nat x) board)
          ≤ Z.of_nat (length (take (Z.to_nat x) board)) * R).
  { apply H1. intros c Hc. apply Hle. rewrite <- E. apply elem_of_app. by left. }
  assert (sumZ (f <$> drop (S (Z.to_nat x)) board)
          ≤ Z.of_nat (length (drop (S (Z.to_nat x)) board)) * R).
  { apply H2. intros c Hc. apply Hle. rewrite <- E. apply elem_of_app. right.
    by apply list_elem_of_further. }
  nia.
Qed.

(** A drop is refused only when no cell of the column is empty. *)
Lemma dropInto_refused g s p c row s' :
  config g → JS.dropInto g p c s = Ok (row, s') → row < 0 →
  ∃ col, get (JS.board s) c = Some col ∧
    ∀ y, 0 ≤ y < JS._rows g → get col y ≠ Some (-1).
Proof.
  intros (Hc & Hrw & _ & Hnone & _) Hd Hrow. unfold JS.dropInto in Hd.
  apply bind_Ok in Hd as (col & Hcol%deref_Ok & Hd).
  apply bind_Ok in Hd as (r & Hscan & Hd).
  pose proof (scanRow_lowest _ _ _ _ _ Hscan) as Hlow. rewrite Hnone in Hlow.
  destruct (Z.eqb_spec r (JS._rows g)) as [->|Hne]; [by exists col|].
  apply bind_Ok in Hd as (b & _ & Hd). apply bind_Ok in Hd as (s2 & _ & Hd).
  simplify_eq.
  destruct (scanRow_Ok g Hnone _ col 0 row ltac:(lia) Hscan) as [?|[? _]]; lia.
Qed.

(** A drop is refused only when the column holds [_rows] pieces. *)
Lemma refused_column_pieces g s p c row s' :
  reachable g → JS.currentState g = Ok s →
  JS.dropInto g p c s = Ok (row, s') → row < 0 →
  JS._rows g ≤ JS.numberOfPieces s.
Proof.
  intros Hr Hs Hd Hrow.
  destruct (reachable_counted g Hr) as (Hcfg & _).
  pose proof (current_Tidy g s Hr Hs) as HT.
  destruct (tidy_shaped _ _ HT) as (Hcols & Hrows & _).
  pose proof (tidy_counted _ _ HT) as Hcount. unfold counted in Hcount.
  destruct (dropInto_refused g s p c row s' Hcfg Hd Hrow) as (col & Hcol & Hlow).
  pose proof (empties_full_column (JS.board s) c col (JS._rows g)) as He.
  rewrite Hcols in He.
  assert (empties (JS.board s) ≤ (JS._cols g - 1) * JS._rows g); [|lia].
  apply He; [|done|done].
  intros c' Hc'. apply list_elem_of_lookup in Hc' as [n Hn].
  apply (Hrows (Z.of_nat n)). apply get_Some. split; [lia|]. by rewrite Nat2Z.id.
Qed.

(** * The win-line map, line by line *)

Lemma reachable_config g : reachable g → config g.
Proof. intros Hr. by destruct (reachable_counted g Hr). Qed.

(** The cell [t] steps from [(x, y)] in direction [d]. *)
Definition run (x y : Z) (d : Z * Z) (t : Z) : Z * Z := (x + t * d.1, y + t * d.2).

(** X1: for a board of at least one column and row and a connect length of
    at least 1, [_setupMap] returns a map in which every id below
    [_findWinningPlaces] is listed in exactly the [connect] cells of one
    straight run inside the board (to the right, upwards, or along one of
    the two rising diagonals), and every such run has an id. *)
Theorem setupMap_lists_runs cols rows connect :
  1 ≤ cols → 1 ≤ rows → 1 ≤ connect →
  ∃ m, JS._setupMap cols rows connect = Ok (m, JS._findWinningPlaces cols rows connect) ∧
    (∀ L, 0 ≤ L < JS._findWinningPlaces cols rows connect →
       ∃ x0 y0 d, d ∈ directions ∧
         (∀ t, 0 ≤ t < connect → inBoard cols rows (run x0 y0 d t)) ∧
         ∀ x y, L ∈ cellAt m x y ↔ ∃ t, 0 ≤ t < connect ∧ run x0 y0 d t = (x, y)) ∧
    (∀ x0 y0 d, d ∈ directions →
       (∀ t, 0 ≤ t < connect → inBoard cols rows (run x0 y0 d t)) →
       ∃ L, 0 ≤ L < JS._findWinningPlaces cols rows connect ∧
         ∀ x y, L ∈ cellAt m x y ↔ ∃ t, 0 ≤ t < connect ∧ run x0 y0 d t = (x, y)).
Proof.
  intros Hc Hr Hn.
  destruct (setupMap_geo cols rows connect) as (m & Hmap & _); [lia..|].
  rewrite enumerated_closed_form in Hmap by done.
  exists m. split; [done|]. split.
  - intros L HL.
    destruct (line_is_run cols rows connect ltac:(lia) ltac:(lia) Hn L)
      as (x0 & y0 & d & Hd & Hrun); [by rewrite enumerated_closed_form|].
    exists x0, y0, d. split; [done|]. split; [intros t Ht; by apply Hrun|].
    intros x y. rewrite (theMap_elem cols rows connect Hc Hr Hn m Hmap). unfold run.
    split.
    + intros (_ & t & Ht & E). exists t. split; [done|]. by rewrite <- (proj1 (Hrun t)).
    + intros (t & Ht & E). split; [done|]. exists t. split; [done|].
      by rewrite (proj1 (Hrun t)).
  - intros x0 y0 d Hd Hin.
    destruct (run_is_line cols rows connect ltac:(lia) ltac:(lia) Hn x0 y0 d Hd Hin)
      as (L & HL & Hrun).
    rewrite enumerated_closed_form in HL by done.
    exists L. split; [done|].
    intros x y. rewrite (theMap_elem cols rows connect Hc Hr Hn m Hmap). unfold run.
    split.
    + intros (_ & t & Ht & E). exists t. split; [done|]. by rewrite <- Hrun.
    + intros (t & Ht & E). split; [done|]. exists t. split; [done|]. by rewrite Hrun.
Qed.

Lemma setupMap_lists_runs_witness :
  ∃ m, JS._setupMap 7 6 4 = Ok (m, JS._findWinningPlaces 7 6 4) ∧
    (∀ L, 0 ≤ L < JS._findWinningPlaces 7 6 4 →
       ∃ x0 y0 d, d ∈ directions ∧
         (∀ t, 0 ≤ t < 4 → inBoard 7 6 (run x0 y0 d t)) ∧
         ∀ x y, L ∈ cellAt m x y ↔ ∃ t, 0 ≤ t < 4 ∧ run x0 y0 d t = (x, y)) ∧
    (∀ x0 y0 d, d ∈ directions →
       (∀ t, 0 ≤ t < 4 → inBoard 7 6 (run x0 y0 d t)) →
       ∃ L, 0 ≤ L < JS._findWinningPlaces 7 6 4 ∧
         ∀ x y, L ∈ cellAt m x y ↔ ∃ t, 0 ≤ t < 4 ∧ run x0 y0 d t = (x, y)).
Proof. apply (setupMap_lists_runs 7 6 4); lia. Defined.

(** X2: the ids follow the four passes of [_setupMap]: horizontal lines row
    by row, vertical lines column by column, then the rising diagonals to
    the right and to the left.  The cells of id [L] are
    [lineCell cols rows connect L t] for [t] below [connect]; no cell lists
    an id twice. *)
Theorem setupMap_line_cells cols rows connect :
  1 ≤ cols → 1 ≤ rows → 1 ≤ connect →
  ∃ m, JS._setupMap cols rows connect = Ok (m, JS._findWinningPlaces cols rows connect) ∧
    ∀ x y, NoDup (cellAt m x y) ∧
      ∀ L, L ∈ cellAt m x y ↔
        0 ≤ L < JS._findWinningPlaces cols rows connect ∧
        ∃ t, 0 ≤ t < connect ∧ lineCell cols rows connect L t = (x, y).
Proof.
  intros Hc Hr Hn.
  destruct (setupMap_geo cols rows connect) as (m & Hmap & _); [lia..|].
  rewrite enumerated_closed_form in Hmap by done.
  exists m. split; [done|]. intros x y. split.
  - by apply (theMap_NoDup cols rows connect).
  - intros L. by apply theMap_elem.
Qed.

Lemma setupMap_line_cells_witness :
  ∃ m, JS._setupMap 7 6 4 = Ok (m, JS._findWinningPlaces 7 6 4) ∧
    ∀ x y, NoDup (cellAt m x y) ∧
      ∀ L, L ∈ cellAt m x y ↔
        0 ≤ L < JS._findWinningPlaces 7 6 4 ∧
        ∃ t, 0 ≤ t < 4 ∧ lineCell 7 6 4 L t = (x, y).
Proof. apply (setupMap_line_cells 7 6 4); lia. Defined.

(** * What a reachable game guarantees *)

(** Three columns of two rows, connect 2: player 0 in the corner with
    player 1 on top, then player 0 next to the corner, which wins. *)
Definition trio : JS.Settings := JS.mkSettings (Some 3) (Some 2) (Some 2) None.
Definition trio2 : JS.Game := Eval vm_compute in play trio [(0, 0); (1, 0)].
Definition trio3 : JS.Game := Eval vm_compute in play trio [(0, 0); (1, 0); (0, 1)].
Definition trio4 : JS.Game :=
  Eval vm_compute in play trio [(0, 0); (1, 0); (0, 1); (1, 1)].

(** Three columns, three rows, connect 3, after player 0 dropped into the
    middle column: no drop of player 1 wins at once. *)
Definition square : JS.Settings := JS.mkSettings (Some 3) (Some 3) (Some 3) None.
Definition square1 : JS.Game := Eval vm_compute in play square [(0, 1)].

(** The state [currentState] refers to. *)
Definition topOf (g : JS.Game) : JS.State :=
  match JS._stateStack g with
  | s :: _ => s
  | [] => JS.mkState 0 0 false false [] [] [] [] []
  end.

Lemma reachable_trio2 : reachable trio2.
Proof.
  apply (reachable_play trio [(0, 0); (1, 0)]);
    [unfold validSettings, JS.setting; simpl; lia| |by vm_compute].
  repeat constructor; by right.
Qed.

Lemma reachable_trio3 : reachable trio3.
Proof.
  apply (reachable_play trio [(0, 0); (1, 0); (0, 1)]);
    [unfold validSettings, JS.setting; simpl; lia| |by vm_compute].
  repeat constructor; by right.
Qed.

(** X3: while [connect] is at most 30, the potential of line [L] for player
    [p] is read off the board: 0 when the opponent holds a cell of the
    line, and otherwise 2 to the number of cells of the line [p] holds. *)
Theorem potentials_follow_board g s p L :
  reachable g → JS._connect g ≤ 30 → JS.currentState g = Ok s →
  isPlayer p → 0 ≤ L < JS._winningPlaces g →
  ∃ mine, get (JS.stats s) p = Some mine ∧
    get mine L = Some (pot (heldIn g s p L) (heldIn g s (1 - p) L)).
Proof.
  intros Hr Hn Hs Hp HL.
  destruct (sound_stats _ _ (current_Sound g s Hr Hn Hs)) as (a0 & a1 & E & H).
  destruct (H L HL) as [H0 H1]. rewrite E.
  destruct Hp as [-> | ->]; [by exists a0|by exists a1].
Qed.

Lemma potentials_follow_board_witness :
  reachable trio2 ∧ JS._connect trio2 ≤ 30 ∧ JS.currentState trio2 = Ok (topOf trio2) ∧
  isPlayer 0 ∧ 0 ≤ 0 < JS._winningPlaces trio2 ∧
  ∃ mine, get (JS.stats (topOf trio2)) 0 = Some mine ∧
    get mine 0 = Some (pot (heldIn trio2 (topOf trio2) 0 0)
                           (heldIn trio2 (topOf trio2) (1 - 0) 0)).
Proof.
  assert (reachable trio2) as Hr by apply reachable_trio2.
  assert (JS._connect trio2 ≤ 30) as Hn by (simpl; lia).
  assert (isPlayer 0) as Hp by (by left).
  assert (0 ≤ 0 < JS._winningPlaces trio2) as HL by (simpl; lia).
  do 5 (split; [done|]).
  by apply (potentials_follow_board trio2 (topOf trio2) 0 0).
Defined.

(** Player [p] holds [connect] cells in a row, a column or a diagonal. *)
Definition connected (g : JS.Game) (s : JS.State) (p : Z) : Prop :=
  ∃ x y d, d ∈ directions ∧
    ∀ t, 0 ≤ t < JS._connect g → pieceAt (JS.board s) (run x y d t) = Some p.

(** X4: while [connect] is at most 30, [winner] is -1 or a player; a
    recorded winner holds a full line on the board, and as long as no
    winner is recorded neither player holds one. *)
Theorem winner_iff_connected g s :
  reachable g → JS._connect g ≤ 30 → JS.currentState g = Ok s →
  (JS.winner s = -1 ∨ isPlayer (JS.winner s)) ∧
  (isPlayer (JS.winner s) → connected g s (JS.winner s)) ∧
  (JS.winner s = -1 → ∀ p, isPlayer p → ¬ connected g s p).
Proof.
  intros Hr Hn Hs.
  pose proof (current_Sound g s Hr Hn Hs) as HS.
  pose proof (sound_tidy _ _ HS) as HT.
  destruct (reachable_config g Hr) as (Hc & Hrw & Hcn & _ & _ & Hpl).
  split; [apply (tidy_winner _ _ HT)|]. split.
  - intros Hw. destruct (sound_won _ _ HS Hw) as (L & HL & Hheld).
    rewrite Hpl, <- enumerated_closed_form in HL by done.
    destruct (line_is_run (JS._cols g) (JS._rows g) (JS._connect g)
                ltac:(lia) ltac:(lia) Hcn L HL) as (x & y & d & Hd & Hrun).
    exists x, y, d. split; [done|]. intros t Ht. unfold run.
    rewrite <- (proj1 (Hrun t)).
    by apply (held_full (JS._cols g) (JS._rows g) (JS._connect g) ltac:(lia)).
  - intros Hw p Hp (x & y & d & Hd & Hcells).
    destruct (run_is_line (JS._cols g) (JS._rows g) (JS._connect g)
                ltac:(lia) ltac:(lia) Hcn x y d Hd) as (L & HL & Hrun).
    { intros t Ht. eapply pieceAt_inBoard; [apply (tidy_shaped _ _ HT)|].
      by apply Hcells. }
    rewrite enumerated_closed_form, <- Hpl in HL by done.
    apply (sound_line _ _ HS p L Hp HL); [|done].
    apply (held_full (JS._cols g) (JS._rows g) (JS._connect g) ltac:(lia)).
    intros t Ht. rewrite Hrun. by apply Hcells.
Qed.

Lemma winner_iff_connected_witness :
  reachable trio3 ∧ JS._connect trio3 ≤ 30 ∧ JS.currentState trio3 = Ok (topOf trio3) ∧
  (JS.winner (topOf trio3) = -1 ∨ isPlayer (JS.winner (topOf trio3))) ∧
  (isPlayer (JS.winner (topOf trio3)) →
   connected trio3 (topOf trio3) (JS.winner (topOf trio3))) ∧
  (JS.winner (topOf trio3) = -1 → ∀ p, isPlayer p → ¬ connected trio3 (topOf trio3) p).
Proof.
  assert (reachable trio3) as Hr by apply reachable_trio3.
  assert (JS._connect trio3 ≤ 30) as Hn by (simpl; lia).
  do 3 (split; [done|]).
  by apply (winner_iff_connected trio3 (topOf trio3)).
Defined.

(** X5: the flags of a state follow its winner and its piece count, which
    never exceeds the board: [gameOver] holds exactly when a winner is
    recorded or the board is full, [tie] exactly when the board is full
    with no winner. *)
Theorem flags_follow_winner_and_count g s :
  reachable g → JS.currentState g = Ok s →
  0 ≤ JS.numberOfPieces s ≤ JS._cols g * JS._rows g ∧
  (JS.gameOver s = true ↔
     JS.winner s ≠ -1 ∨ JS.numberOfPieces s = JS._cols g * JS._rows g) ∧
  (JS.tie s = true ↔
     JS.winner s = -1 ∧ JS.numberOfPieces s = JS._cols g * JS._rows g).
Proof.
  intros Hr Hs. pose proof (current_Tidy g s Hr Hs) as HT.
  pose proof (tidy_counted _ _ HT) as Hc. unfold counted in Hc.
  pose proof (empties_nonneg (JS.board s)) as He.
  destruct (tidy_shaped _ _ HT) as (Hcols & Hrows & _).
  assert (empties (JS.board s) ≤ JS._cols g * JS._rows g) as Hle.
  { unfold empties.
    pose proof (sumZ_fmap_le (λ col, sumZ ((λ b, if b =? -1 then 1 else 0) <$> col))
                  (JS.board s) (JS._rows g)) as H.
    rewrite Hcols in H. apply H. intros col Hcol.
    apply list_elem_of_lookup in Hcol as [n Hn].
    rewrite <- (Hrows (Z.of_nat n) col) by (apply get_Some; split; [lia|by rewrite Nat2Z.id]).
    apply sumZ_fmap_bounds. intros b _. destruct (b =? -1); lia. }
  split; [lia|].
  rewrite (tidy_over _ _ HT), (tidy_tie _ _ HT). unfold full.
  rewrite orb_true_iff, andb_true_iff, negb_true_iff, Z.eqb_neq, Z.eqb_eq, Z.leb_le.
  split; (split; intros [? ?] || intros [?|?]); try (split; lia); lia.
Qed.

Lemma flags_follow_winner_and_count_witness :
  reachable towerFull ∧ JS.currentState towerFull = Ok (topOf towerFull) ∧
  0 ≤ JS.numberOfPieces (topOf towerFull) ≤ JS._cols towerFull * JS._rows towerFull ∧
  (JS.gameOver (topOf towerFull) = true ↔
     JS.winner (topOf towerFull) ≠ -1 ∨
     JS.numberOfPieces (topOf towerFull) = JS._cols towerFull * JS._rows towerFull) ∧
  (JS.tie (topOf towerFull) = true ↔
     JS.winner (topOf towerFull) = -1 ∧
     JS.numberOfPieces (topOf towerFull) = JS._cols towerFull * JS._rows towerFull).
Proof.
  assert (reachable towerFull) as Hr by apply reachable_towerFull.
  do 2 (split; [done|]).
  by apply (flags_follow_winner_and_count towerFull (topOf towerFull)).
Defined.

(** X6: every cell of the board holds -1 or a player, and the pieces of a
    column lie on one another: above an empty cell every cell is empty. *)
Theorem pieces_are_stacked g s x y :
  reachable g → JS.currentState g = Ok s →
  0 ≤ x < JS._cols g → 0 ≤ y < JS._rows g →
  ∃ v, pieceAt (JS.board s) (x, y) = Some v ∧ (v = -1 ∨ isPlayer v) ∧
    (v = -1 → ∀ y', y < y' < JS._rows g → pieceAt (JS.board s) (x, y') = Some (-1)).
Proof.
  intros Hr Hs Hx Hy. pose proof (current_Tidy g s Hr Hs) as HT.
  destruct (tidy_shaped _ _ HT) as (Hcols & Hrows & _).
  destruct (get_lt (JS.board s) x) as [col Hcol]; [lia|].
  pose proof (Hrows x col Hcol) as Hlen.
  destruct (tidy_cells _ _ HT x col Hcol) as [Hst Hall].
  destruct (get_lt col y) as [v Hv]; [lia|].
  exists v. unfold pieceAt. simpl. rewrite Hcol. simpl. split; [done|]. split.
  - apply get_Some in Hv as [_ Hv]. rewrite Forall_lookup in Hall. by eapply Hall.
  - intros -> y' Hy'. destruct (get_lt col y') as [v' Hv']; [lia|].
    rewrite Hv'. f_equal. apply (Hst y' y v'); [lia|done..].
Qed.

Lemma pieces_are_stacked_witness :
  reachable trio2 ∧ JS.currentState trio2 = Ok (topOf trio2) ∧
  0 ≤ 1 < JS._cols trio2 ∧ 0 ≤ 0 < JS._rows trio2 ∧
  ∃ v, pieceAt (JS.board (topOf trio2)) (1, 0) = Some v ∧ (v = -1 ∨ isPlayer v) ∧
    (v = -1 → ∀ y', 0 < y' < JS._rows trio2 →
       pieceAt (JS.board (topOf trio2)) (1, y') = Some (-1)).
Proof.
  assert (reachable trio2) as Hr by apply reachable_trio2.
  assert (0 ≤ 1 < JS._cols trio2) as Hx by (simpl; lia).
  assert (0 ≤ 0 < JS._rows trio2) as Hy by (simpl; lia).
  do 4 (split; [done|]).
  by apply (pieces_are_stacked trio2 (topOf trio2) 1 0).
Defined.

(** X7: a drop of a player into a column of the board always returns.  It
    returns -1 and the game as it was when no cell of the column is empty;
    otherwise it returns the lowest empty row of the column, and the new
    current state has the player's piece there, every other cell as
    before and one piece more. *)
Theorem drop_lands_on_lowest_empty_cell g s p x :
  reachable g → JS.currentState g = Ok s → isPlayer p → 0 ≤ x < JS._cols g →
  ∃ row g' s', JS._dropPiece g p x = Ok (row, g') ∧ JS.currentState g' = Ok s' ∧
    JS._stateStack g' = s' :: tail (JS._stateStack g) ∧
    ((row = -1 ∧ g' = g ∧
      ∀ y, 0 ≤ y < JS._rows g → pieceAt (JS.board s) (x, y) ≠ Some (-1)) ∨
     (0 ≤ row < JS._rows g ∧
      pieceAt (JS.board s) (x, row) = Some (-1) ∧
      (∀ y, 0 ≤ y < row → pieceAt (JS.board s) (x, y) ≠ Some (-1)) ∧
      pieceAt (JS.board s') (x, row) = Some p ∧
      (∀ c, c ≠ (x, row) → pieceAt (JS.board s') c = pieceAt (JS.board s) c) ∧
      JS.numberOfPieces s' = JS.numberOfPieces s + 1)).
Proof.
  intros Hr Hs Hp Hx.
  pose proof (reachable_config g Hr) as Hcfg.
  pose proof (current_Tidy g s Hr Hs) as HT.
  destruct (dropInto_total g Hcfg p Hp x s (tidy_shaped _ _ HT) Hx)
    as (row & s' & Hd & Hrow & _).
  destruct (current_head g s Hs) as (rest & Hst).
  exists row, (JS.setCurrent g s'), s'.
  split; [unfold JS._dropPiece; by rewrite Hs, bind_Ok_l, Hd|].
  split; [done|]. split; [done|].
  destruct (dropInto_effect g Hcfg p Hp x s row s' (tidy_shaped _ _ HT) Hd)
    as [[-> ->]|(Hr' & col & mine & theirs & td & od & mine' & theirs' & H)].
  - left. split; [done|]. split; [by apply setCurrent_current|].
    destruct (dropInto_refused g s p x (-1) s Hcfg Hd ltac:(lia)) as (col & Hcol & Hfull).
    intros y Hy. unfold pieceAt. simpl. rewrite Hcol. simpl. by apply Hfull.
  - right. destruct H as (Hcol & Hcell & Hlow & _ & _ & _ & _ & _ & Hb & _ & Hn & _).
    split; [done|]. unfold pieceAt. simpl. rewrite Hcol. simpl.
    split; [done|]. split; [done|]. rewrite Hb.
    pose proof (get_Some_lt _ _ _ Hcol) as Hxl.
    pose proof (get_Some_lt _ _ _ Hcell) as Hyl.
    split; [by rewrite get_set_eq by lia; simpl; rewrite get_set_eq by lia|].
    split; [|done]. intros [cx cy] Hne. simpl.
    destruct (decide (cx = x)) as [->|Hcx].
    + rewrite get_set_eq by lia. rewrite Hcol. simpl.
      apply get_set_other; [lia|congruence].
    + by rewrite get_set_other by lia.
Qed.

Lemma drop_lands_on_lowest_empty_cell_witness :
  (reachable centre2 ∧ JS.currentState centre2 = Ok (topOf centre2) ∧ isPlayer 0 ∧
   0 ≤ 3 < JS._cols centre2) ∧
  (∃ g', JS._dropPiece centre2 0 3 = Ok (2, g')) ∧
  ∃ row g' s', JS._dropPiece centre2 0 3 = Ok (row, g') ∧ JS.currentState g' = Ok s' ∧
    JS._stateStack g' = s' :: tail (JS._stateStack centre2) ∧
    ((row = -1 ∧ g' = centre2 ∧
      ∀ y, 0 ≤ y < JS._rows centre2 → pieceAt (JS.board (topOf centre2)) (3, y) ≠ Some (-1)) ∨
     (0 ≤ row < JS._rows centre2 ∧
      pieceAt (JS.board (topOf centre2)) (3, row) = Some (-1) ∧
      (∀ y, 0 ≤ y < row → pieceAt (JS.board (topOf centre2)) (3, y) ≠ Some (-1)) ∧
      pieceAt (JS.board s') (3, row) = Some 0 ∧
      (∀ c, c ≠ (3, row) → pieceAt (JS.board s') c = pieceAt (JS.board (topOf centre2)) c) ∧
      JS.numberOfPieces s' = JS.numberOfPieces (topOf centre2) + 1)).
Proof.
  assert (reachable centre2) as Hr by apply reachable_centre2.
  assert (JS.currentState centre2 = Ok (topOf centre2)) as Hs by reflexivity.
  assert (isPlayer 0) as Hp by (by left).
  assert (0 ≤ 3 < JS._cols centre2) as Hx by (simpl; lia).
  split; [done|]. split; [eexists; vm_compute; reflexivity|].
  exact (drop_lands_on_lowest_empty_cell centre2 (topOf centre2) 0 3 Hr Hs Hp Hx).
Defined.

(** X8: a drop never changes a recorded winner; while none is recorded,
    the only player a drop can make the winner is the one who dropped. *)
Theorem winner_is_kept g s p x row g' s' :
  reachable g → JS.currentState g = Ok s → isPlayer p →
  JS._dropPiece g p x = Ok (row, g') → JS.currentState g' = Ok s' →
  (JS.winner s ≠ -1 → JS.winner s' = JS.winner s) ∧
  (JS.winner s = -1 → JS.winner s' = -1 ∨ JS.winner s' = p).
Proof.
  intros Hr Hs Hp Hd Hs'.
  pose proof (reachable_config g Hr) as Hcfg.
  pose proof (current_Tidy g s Hr Hs) as HT.
  apply dropPiece_Ok in Hd as (s0 & s1 & rest & Hst & Hd & ->).
  unfold JS.currentState in Hs, Hs'. rewrite Hst in Hs. simpl in Hs'. simplify_eq.
  destruct (dropInto_effect g Hcfg p Hp x s row s' (tidy_shaped _ _ HT) Hd)
    as [[-> ->]|(_ & col & mine & theirs & td & od & mine' & theirs' & H)]; [by split; [|left]|].
  destruct H as (_ & _ & _ & _ & _ & _ & Hloop & _).
  apply scoreLoop_winner in Hloop as [H1 H2]; [|done].
  destruct Hcfg as (_ & _ & _ & Hnone & _). rewrite Hnone in H1, H2. simpl in H1, H2.
  by split.
Qed.

Lemma winner_is_kept_witness :
  reachable trio3 ∧ JS.currentState trio3 = Ok (topOf trio3) ∧ isPlayer 1 ∧
  JS._dropPiece trio3 1 1 = Ok (1, trio4) ∧ JS.currentState trio4 = Ok (topOf trio4) ∧
  (JS.winner (topOf trio3) ≠ -1 → JS.winner (topOf trio4) = JS.winner (topOf trio3)) ∧
  (JS.winner (topOf trio3) = -1 →
   JS.winner (topOf trio4) = -1 ∨ JS.winner (topOf trio4) = 1).
Proof.
  assert (reachable trio3) as Hr by apply reachable_trio3.
  assert (isPlayer 1) as Hp by (by right).
  assert (JS._dropPiece trio3 1 1 = Ok (1, trio4)) as Hd by (vm_compute; reflexivity).
  assert (JS.currentState trio4 = Ok (topOf trio4)) as Hs' by (vm_compute; reflexivity).
  assert (JS.currentState trio3 = Ok (topOf trio3)) as Hs by (vm_compute; reflexivity).
  do 5 (split; [assumption|]).
  exact (winner_is_kept trio3 (topOf trio3) 1 1 1 trio4 (topOf trio4) Hr Hs Hp Hd Hs').
Defined.

(** * The winning run *)

Lemma winning_run g s :
  reachable g → JS._connect g ≤ 30 → JS.currentState g = Ok s → isPlayer (JS.winner s) →
  ∃ coords x y d, JS.winningCoordsOf g s = Ok coords ∧ d ∈ directions ∧
    coords ≡ₚ run x y d <$> seqZ 0 (JS._connect g) ∧
    ∀ c, c ∈ coords → pieceAt (JS.board s) c = Some (JS.winner s).
Proof.
  intros Hr Hn Hs Hw.
  pose proof (reachable_config g Hr) as Hcfg.
  pose proof (current_Sound g s Hr Hn Hs) as HS.
  destruct (winningCoords_line g s Hcfg Hn HS Hw) as (L & HL & Hheld & Hcoords).
  destruct Hcfg as (Hc & Hrw & Hcn & _ & _ & Hpl).
  pose proof (tidy_map _ _ (sound_tidy _ _ HS)) as Hmap. rewrite Hpl in Hmap, HL.
  pose proof (cellsOf_line _ _ _ Hc Hrw Hcn _ Hmap L HL) as Hperm.
  assert (0 ≤ L < enumerated (JS._cols g) (JS._rows g) (JS._connect g)) as HL'
    by (by rewrite enumerated_closed_form).
  destruct (line_is_run (JS._cols g) (JS._rows g) (JS._connect g)
              ltac:(lia) ltac:(lia) Hcn L HL') as (x & y & d & Hd & Hrun).
  exists (cellsOf (JS.map s) (JS._cols g) (JS._rows g) L), x, y, d.
  split; [done|]. split; [done|]. split.
  - rewrite Hperm.
    assert (lineCell (JS._cols g) (JS._rows g) (JS._connect g) L <$> seqZ 0 (JS._connect g)
            = run x y d <$> seqZ 0 (JS._connect g)) as ->; [|done].
    apply list_fmap_ext. intros _ t _. apply Hrun.
  - intros c (t & Ht & <-)%(cellsOf_elem _ _ _ Hc Hrw Hcn _ Hmap L HL).
    by apply (held_full (JS._cols g) (JS._rows g) (JS._connect g) ltac:(lia)).
Qed.

(** X9: while [connect] is at most 30, [winningCoords()] called on a game
    with a winner returns: its result lists, each once, the [connect] cells
    of a straight run of the board, all of which hold the winner's
    piece. *)
Theorem winningCoords_is_winning_run g s :
  reachable g → JS._connect g ≤ 30 → JS.currentState g = Ok s → isPlayer (JS.winner s) →
  ∃ coords x y d, JS.winningCoordsOf g s = Ok coords ∧ d ∈ directions ∧
    coords ≡ₚ run x y d <$> seqZ 0 (JS._connect g) ∧
    ∀ c, c ∈ coords → pieceAt (JS.board s) c = Some (JS.winner s).
Proof. apply winning_run. Qed.

Lemma winningCoords_is_winning_run_witness :
  reachable trio3 ∧ JS._connect trio3 ≤ 30 ∧ JS.currentState trio3 = Ok (topOf trio3) ∧
  isPlayer (JS.winner (topOf trio3)) ∧
  ∃ coords x y d, JS.winningCoordsOf trio3 (topOf trio3) = Ok coords ∧ d ∈ directions ∧
    coords ≡ₚ run x y d <$> seqZ 0 (JS._connect trio3) ∧
    ∀ c, c ∈ coords → pieceAt (JS.board (topOf trio3)) c = Some (JS.winner (topOf trio3)).
Proof.
  assert (reachable trio3) as Hr by apply reachable_trio3.
  assert (JS._connect trio3 ≤ 30) as Hn by (simpl; lia).
  assert (isPlayer (JS.winner (topOf trio3))) as Hw by (by left).
  do 4 (split; [done|]).
  by apply (winningCoords_is_winning_run trio3 (topOf trio3)).
Defined.

(** X10: while [connect] is at most 30, [makeMove] of a player into a
    column of the board returns, with the row [_dropPiece] gave; if the
    game has a winner afterwards, the state's [winningCoords] are the cells
    of a straight run holding the winner's pieces.  For any other column
    it throws. *)
Theorem makeMove_returns_in_board g p x :
  reachable g → JS._connect g ≤ 30 → isPlayer p →
  (0 ≤ x < JS._cols g →
   ∃ row g1 g' s', JS._dropPiece g p x = Ok (row, g1) ∧
     JS.makeMove g p x = Ok (JS.mkMove x row p, g') ∧ JS.currentState g' = Ok s' ∧
     (isPlayer (JS.winner s') →
      ∃ x0 y0 d, d ∈ directions ∧
        JS.winningCoords s' ≡ₚ run x0 y0 d <$> seqZ 0 (JS._connect g) ∧
        ∀ c, c ∈ JS.winningCoords s' → pieceAt (JS.board s') c = Some (JS.winner s'))) ∧
  (¬ 0 ≤ x < JS._cols g → JS.makeMove g p x = Throw NotAValidColumn).
Proof.
  intros Hr Hn Hp. split.
  - intros Hx.
    destruct (makeMove_total g p x Hr Hn Hp Hx)
      as (row & g1 & g' & Hd & _ & Hm & s1 & Hs1 & Hcase).
    pose proof (reach_drop _ _ _ _ _ Hr Hp Hd) as Hr1.
    assert (JS._connect g1 = JS._connect g) as Hn1
      by (by apply dropPiece_Ok in Hd as (? & ? & ? & _ & _ & ->)).
    destruct Hcase as [[Hflag ->]|(Hflag & Hw & coords & Hcoords & ->)].
    + exists row, g1, g1, s1. do 3 (split; [done|]). intros Hw. exfalso.
      pose proof (current_Tidy g1 s1 Hr1 Hs1) as HT.
      rewrite (tidy_over _ _ HT), (tidy_tie _ _ HT) in Hflag.
      destruct Hw as [Hw|Hw]; rewrite Hw in Hflag; simpl in Hflag; done.
    + eexists row, g1, _, _. do 2 (split; [done|]). split; [done|]. simpl. intros _.
      destruct (winning_run g1 s1 Hr1 ltac:(lia) Hs1 Hw)
        as (coords' & x0 & y0 & d & E & Hd' & Hperm & Hcells).
      rewrite Hcoords in E. injection E as <-. rewrite Hn1 in Hperm.
      by exists x0, y0, d.
  - intros Hx. unfold JS.makeMove.
    destruct (Z.leb_spec (JS._cols g) x); [done|].
    destruct (Z.ltb_spec x 0); [done|lia].
Qed.

Lemma makeMove_returns_in_board_witness :
  reachable trio2 ∧ JS._connect trio2 ≤ 30 ∧ isPlayer 0 ∧
  (0 ≤ 1 < JS._cols trio2 →
   ∃ row g1 g' s', JS._dropPiece trio2 0 1 = Ok (row, g1) ∧
     JS.makeMove trio2 0 1 = Ok (JS.mkMove 1 row 0, g') ∧ JS.currentState g' = Ok s' ∧
     (isPlayer (JS.winner s') →
      ∃ x0 y0 d, d ∈ directions ∧
        JS.winningCoords s' ≡ₚ run x0 y0 d <$> seqZ 0 (JS._connect trio2) ∧
        ∀ c, c ∈ JS.winningCoords s' → pieceAt (JS.board s') c = Some (JS.winner s'))) ∧
  (¬ 0 ≤ 1 < JS._cols trio2 → JS.makeMove trio2 0 1 = Throw NotAValidColumn).
Proof.
  assert (reachable trio2) as Hr by apply reachable_trio2.
  assert (JS._connect trio2 ≤ 30) as Hn by (simpl; lia).
  assert (isPlayer 0) as Hp by (by left).
  do 3 (split; [done|]).
  by apply (makeMove_returns_in_board trio2 0 1).
Defined.

(** * What the search does *)

(** X11: when [_evaluate] returns, the game is as it was given: every
    state pushed during the search has been popped again, and the states
    below were not touched. *)
Theorem evaluate_leaves_game fuel g player level alpha beta v g' :
  JS._evaluate fuel g player level alpha beta = Ok (v, g') → g' = g.
Proof. apply evaluate_restores. Qed.

Lemma evaluate_leaves_game_witness :
  JS._evaluate 3 trio2 1 3 (PrimFloat.opp MAX_VALUE) MAX_VALUE
  = Ok (PrimFloat.opp MAX_VALUE, trio2) ∧ trio2 = trio2.
Proof.
  assert (JS._evaluate 3 trio2 1 3 (PrimFloat.opp MAX_VALUE) MAX_VALUE
          = Ok (PrimFloat.opp MAX_VALUE, trio2)) as H by (vm_compute; reflexivity).
  split; [exact H|]. exact (evaluate_leaves_game _ _ _ _ _ _ _ _ H).
Defined.

(** X12: what [autoMove] returns is what [makeMove] returns for the column
    of the move on the game as it was before the search, and the piece
    has landed: the row of the move is never -1. *)
Theorem autoMove_is_one_move fuel random k g p ai move g' k' :
  reachable g →
  JS.autoMove fuel random k g p ai = Ok (move, g', k') →
  JS.makeMove g p (JS.col move) = Ok (move, g') ∧ 0 ≤ JS.row move.
Proof.
  intros Hr H.
  apply autoMove_makeMove in H as (Hm & s & Hs & Hcase). split; [done|].
  pose proof Hm as Hm'.
  apply makeMove_Ok in Hm' as (_ & row & g1 & s1 & Hd & _ & E & _).
  apply dropPiece_Ok in Hd as (s0 & s' & rest & Hst & Hdi & _).
  assert (s0 = s) as -> by (unfold JS.currentState in Hs; rewrite Hst in Hs; by simplify_eq).
  rewrite E. simpl. rewrite E in Hcase. simpl in Hcase.
  destruct Hcase as [(Hsc & Hc & _)|(_ & row' & s'' & Hrow' & Hdi')].
  - destruct (Z_lt_le_dec row 0) as [Hneg|]; [exfalso|done].
    pose proof (refused_column_pieces g s p _ row s' Hr Hs Hdi Hneg) as Hfull.
    unfold JS.openingShortcut in Hsc.
    destruct (Z.ltb_spec (JS.numberOfPieces s) 2); [|done].
    destruct (Z.eqb_spec (JS._cols g) 7); [|done].
    destruct (Z.eqb_spec (JS._rows g) 6); [|done]. lia.
  - rewrite Hdi in Hdi'. by simplify_eq.
Qed.

Lemma autoMove_is_one_move_witness :
  reachable centre2 ∧
  ∃ move g' k', JS.autoMove 5 (λ _, 0%Q) 0 centre2 0 (Some 2) = Ok (move, g', k') ∧
    JS.makeMove centre2 0 (JS.col move) = Ok (move, g') ∧ 0 ≤ JS.row move.
Proof.
  split; [apply reachable_centre2|].
  eexists _, _, _. split; [vm_compute; reflexivity|].
  eapply (autoMove_is_one_move 5 (λ _, 0%Q) 0 centre2 0 (Some 2));
    [apply reachable_centre2|vm_compute; reflexivity].
Defined.

(** X13: [_evaluate] compares the level with the depth of the state stack,
    which is at least 2 inside a search, so the levels 0 and 1 are never
    met: [autoMove] with [ai] below 2 searches as with [ai] 1, down to the
    end of the game. *)
Theorem autoMove_ai_below_two fuel random k g p ai :
  ai ≤ 1 →
  JS.autoMove fuel random k g p (Some ai) = JS.autoMove fuel random k g p (Some 1).
Proof.
  intros Hai. unfold JS.autoMove. cbv zeta. simpl default.
  destruct (JS.currentState g) as [s|]; [|done]. rewrite !bind_Ok_l.
  destruct (JS.openingShortcut g s) as [[|]|]; [done| |done]. rewrite !bind_Ok_l.
  unfold forUpBreak.
  by rewrite (rootLoop_level fuel random p (0 `max` (ai `min` 20)) (0 `max` (1 `min` 20)))
    by lia.
Qed.

Lemma autoMove_ai_below_two_witness :
  0 ≤ 1 ∧
  JS.autoMove 10 (λ _, 3 # 4)%Q 0 square1 1 (Some 0)
    = JS.autoMove 10 (λ _, 3 # 4)%Q 0 square1 1 (Some 1) ∧
  (∃ g', JS.autoMove 10 (λ _, 3 # 4)%Q 0 square1 1 (Some 0)
           = Ok (JS.mkMove 0 0 1, g', 2%nat)) ∧
  (∃ g', JS.autoMove 10 (λ _, 3 # 4)%Q 0 square1 1 (Some 2)
           = Ok (JS.mkMove 1 1 1, g', 0%nat)).
Proof.
  split; [lia|].
  split; [apply (autoMove_ai_below_two 10 (λ _, 3 # 4)%Q 0 square1 1 0); lia|].
  split; eexists; vm_compute; reflexivity.
Defined.

(** X14: on a board with an odd number of columns [_evaluate] returns,
    with the game as it was given, within a recursion depth of one more
    than the number of cells still empty. *)
Theorem evaluate_returns fuel g s player level alpha beta :
  reachable g → JS._cols g mod 2 = 1 → isPlayer player → JS.currentState g = Ok s →
  JS._cols g * JS._rows g - JS.numberOfPieces s < Z.of_nat fuel →
  ∃ v, JS._evaluate fuel g player level alpha beta = Ok (v, g).
Proof. intros Hr Hodd Hp Hs Hfuel. by apply (evaluate_returns_fuel fuel g s). Qed.

Lemma evaluate_returns_witness :
  reachable trio2 ∧ JS._cols trio2 mod 2 = 1 ∧ isPlayer 1 ∧
  JS.currentState trio2 = Ok (topOf trio2) ∧
  JS._cols trio2 * JS._rows trio2 - JS.numberOfPieces (topOf trio2) < Z.of_nat 5 ∧
  ∃ v, JS._evaluate 5 trio2 1 0 (PrimFloat.opp MAX_VALUE) MAX_VALUE = Ok (v, trio2).
Proof.
  assert (reachable trio2) as Hr by apply reachable_trio2.
  assert (isPlayer 1) as Hp by (by right).
  assert (JS._cols trio2 * JS._rows trio2 - JS.numberOfPieces (topOf trio2) < Z.of_nat 5)
    as Hf by (simpl; lia).
  do 5 (split; [done|]).
  by apply (evaluate_returns 5 trio2 (topOf trio2) 1 0).
Defined.

Lemma reachable_current g : reachable g → ∃ s, JS.currentState g = Ok s.
Proof.
  intros Hr. destruct (reachable_counted g Hr) as (_ & Hne & _).
  unfold JS.currentState. destruct (JS._stateStack g); [done|by eexists].
Qed.

(** X15: with an even number of columns the first entry of the drop order
    is no column, and the search stops there: [autoMove] throws a
    TypeError, and so does [_evaluate] unless the level is the depth of the
    stack. *)
Theorem search_even_width_throws fuel random k g p ai :
  reachable g → JS._cols g mod 2 = 0 →
  JS.autoMove fuel random k g p ai = Throw TypeError ∧
  ∀ player level alpha beta,
    level ≠ Z.of_nat (length (JS._stateStack g)) →
    JS._evaluate (S fuel) g player level alpha beta = Throw TypeError.
Proof.
  intros Hr Heven. destruct (reachable_current g Hr) as (s & Hs). split.
  - unfold JS.autoMove. cbv zeta. rewrite Hs, bind_Ok_l.
    assert (JS.openingShortcut g s = Ok false) as ->.
    { unfold JS.openingShortcut.
      destruct (Z.eqb_spec (JS._cols g) 7) as [E|]; [|by rewrite !andb_false_r].
      rewrite E in Heven. done. }
    rewrite bind_Ok_l. by erewrite rootLoop_even.
  - intros player level alpha beta Hl. rewrite evaluate_S. cbv zeta.
    destruct (Z.eqb_spec level (Z.of_nat (length (JS._stateStack g)))); [done|].
    by erewrite evaluateLoop_even.
Qed.

Lemma reachable_small1 : reachable small1.
Proof.
  apply (reachable_play small [(0, 0)]);
    [unfold validSettings, JS.setting; simpl; lia| |by vm_compute].
  repeat constructor.
Qed.

Lemma search_even_width_throws_witness :
  reachable small1 ∧ JS._cols small1 mod 2 = 0 ∧
  JS.autoMove 5 (λ _, 0%Q) 0 small1 1 None = Throw TypeError ∧
  ∀ player level alpha beta,
    level ≠ Z.of_nat (length (JS._stateStack small1)) →
    JS._evaluate 6 small1 player level alpha beta = Throw TypeError.
Proof.
  assert (reachable small1) as Hr by apply reachable_small1.
  do 2 (split; [done|]).
  by apply (search_even_width_throws 5 (λ _, 0%Q) 0 small1 1 None).
Defined.

(** X16: on a full board with an odd number of columns every candidate
    drop is refused, so no column is chosen and [autoMove] throws the
    error of [makeMove] for column -1. *)
Theorem autoMove_full_board_throws fuel random k g s p ai :
  reachable g → JS._cols g mod 2 = 1 → isPlayer p → JS.currentState g = Ok s →
  JS.numberOfPieces s = JS._cols g * JS._rows g →
  JS.autoMove fuel random k g p ai = Throw NotAValidColumn.
Proof.
  intros Hr Hodd Hp Hs Hfull.
  destruct (reachable_config g Hr) as (Hc & Hrw & _).
  unfold JS.autoMove. cbv zeta. rewrite Hs, bind_Ok_l.
  assert (JS.openingShortcut g s = Ok false) as ->.
  { unfold JS.openingShortcut. destruct (Z.ltb_spec (JS.numberOfPieces s) 2); [|done].
    destruct (Z.eqb_spec (JS._cols g) 7) as [E7|]; [|done].
    destruct (Z.eqb_spec (JS._rows g) 6) as [E6|]; [|done].
    rewrite E7, E6 in Hfull. lia. }
  rewrite bind_Ok_l. unfold forUpBreak.
  rewrite (rootLoop_full fuel random p _ g s Hr Hodd Hs Hp)
    by first [reflexivity|unfold toPlay; lia].
  rewrite bind_Ok_l. simpl. unfold JS.makeMove.
  by rewrite orb_true_r.
Qed.

Lemma autoMove_full_board_throws_witness :
  reachable towerFull ∧ JS._cols towerFull mod 2 = 1 ∧ isPlayer 0 ∧
  JS.currentState towerFull = Ok (topOf towerFull) ∧
  JS.numberOfPieces (topOf towerFull) = JS._cols towerFull * JS._rows towerFull ∧
  JS.autoMove 5 (λ _, 0%Q) 0 towerFull 0 None = Throw NotAValidColumn.
Proof.
  assert (reachable towerFull) as Hr by apply reachable_towerFull.
  assert (isPlayer 0) as Hp by (by left).
  do 5 (split; [done|]).
  by apply (autoMove_full_board_throws 5 (λ _, 0%Q) 0 towerFull (topOf towerFull) 0 None).
Defined.

(** X17: on a full board with an odd number of columns the loop of
    [_evaluate] finds no move, and the value returned is
    [Number.MAX_VALUE] whatever the player and the window. *)
Theorem evaluate_full_board fuel g s player level alpha beta :
  reachable g → JS._cols g mod 2 = 1 → isPlayer player → JS.currentState g = Ok s →
  JS.numberOfPieces s = JS._cols g * JS._rows g →
  level ≠ Z.of_nat (length (JS._stateStack g)) →
  JS._evaluate (S fuel) g player level alpha beta = Ok (MAX_VALUE, g).
Proof.
  intros Hr Hodd Hp Hs Hfull Hl.
  destruct (reachable_config g Hr) as (Hc & Hrw & _).
  rewrite evaluate_S. cbv zeta.
  destruct (Z.eqb_spec level (Z.of_nat (length (JS._stateStack g)))); [done|].
  unfold forUpBreak.
  rewrite (evaluateLoop_full fuel g s player level _ beta Hr Hodd Hs Hp)
    by first [reflexivity|unfold toPlay; lia].
  reflexivity.
Qed.

Lemma evaluate_full_board_witness :
  reachable towerFull ∧ JS._cols towerFull mod 2 = 1 ∧ isPlayer 1 ∧
  JS.currentState towerFull = Ok (topOf towerFull) ∧
  JS.numberOfPieces (topOf towerFull) = JS._cols towerFull * JS._rows towerFull ∧
  3 ≠ Z.of_nat (length (JS._stateStack towerFull)) ∧
  JS._evaluate 1 towerFull 1 3 (PrimFloat.opp MAX_VALUE) MAX_VALUE = Ok (MAX_VALUE, towerFull).
Proof.
  assert (reachable towerFull) as Hr by apply reachable_towerFull.
  assert (isPlayer 1) as Hp by (by right).
  do 6 (split; [done|]).
  by apply (evaluate_full_board 0 towerFull (topOf towerFull) 1 3).
Defined.

(** ** A win in one move is taken *)

Lemma tried_onto W c : 1 ≤ W → 0 ≤ c < W → ∃ j, 0 ≤ j < W ∧ tried W j = c.
Proof.
  intros HW Hc.
  assert (tried W <$> seqZ 0 W ≡ₚ seqZ 0 W) as Hperm.
  { apply submseteq_length_Permutation.
    - apply NoDup_submseteq.
      + apply NoDup_fmap_2_strong; [|apply NoDup_seqZ].
        intros t t' Ht Ht'. apply elem_of_seqZ in Ht, Ht'. apply tried_inj; lia.
      + intros x (t & -> & Ht)%list_elem_of_fmap. apply elem_of_seqZ in Ht.
        apply elem_of_seqZ. pose proof (tried_range W t). lia.
    - by rewrite length_fmap. }
  assert (c ∈ tried W <$> seqZ 0 W) as (j & -> & Hj%elem_of_seqZ)%list_elem_of_fmap.
  { rewrite Hperm. apply elem_of_seqZ. lia. }
  exists j. split; [lia|done].
Qed.

Lemma dropInto_dropPiece g s p c row s' :
  JS.currentState g = Ok s → JS.dropInto g p c s = Ok (row, s') →
  JS._dropPiece g p c = Ok (row, JS.setCurrent g s').
Proof. intros Hs Hd. unfold JS._dropPiece. by rewrite Hs, bind_Ok_l, Hd. Qed.

Lemma dropInto_column g s p c row s' :
  shaped g s → JS.dropInto g p c s = Ok (row, s') → 0 ≤ c < JS._cols g.
Proof.
  intros (Hcols & _) Hd. unfold JS.dropInto in Hd.
  apply bind_Ok in Hd as (col & Hcol%deref_Ok & _).
  apply get_Some_lt in Hcol. lia.
Qed.

Lemma winsAt_makeMove g s p c :
  reachable g → JS._connect g ≤ 30 → isPlayer p → JS.currentState g = Ok s →
  winsAt g s p c →
  ∃ move g' s', JS.makeMove g p c = Ok (move, g') ∧ JS.currentState g' = Ok s' ∧
    JS.winner s' = p.
Proof.
  intros Hr Hn Hp Hs (row & s1 & Hrow & Hd & Hw).
  pose proof (dropInto_column g s p c row s1
                (tidy_shaped _ _ (current_Tidy g s Hr Hs)) Hd) as Hc.
  destruct (makeMove_total g p c Hr Hn Hp Hc)
    as (row' & g1 & g' & Hd' & _ & Hm & s1' & Hs1 & Hcase).
  rewrite (dropInto_dropPiece g s p c row s1 Hs Hd) in Hd'. injection Hd' as <- <-.
  assert (s1' = s1) as -> by (unfold JS.currentState in Hs1; simpl in Hs1; congruence).
  destruct Hcase as [[_ ->]|(_ & _ & coords & _ & ->)]; eexists _, _, _; by split.
Qed.

(** X18: on a board with an odd number of columns, with [connect] at most
    30 and after the first two moves, if some drop of the player lands and
    makes the player the winner, then [autoMove] returns (given a recursion
    depth of the number of empty cells) and has made the player the
    winner. *)
Theorem autoMove_takes_win fuel random k g s p ai c row g1 s1 :
  reachable g → JS._cols g mod 2 = 1 → JS._connect g ≤ 30 → isPlayer p →
  JS.currentState g = Ok s → 2 ≤ JS.numberOfPieces s →
  JS._cols g * JS._rows g - JS.numberOfPieces s ≤ Z.of_nat fuel →
  JS._dropPiece g p c = Ok (row, g1) → 0 ≤ row →
  JS.currentState g1 = Ok s1 → JS.winner s1 = p →
  ∃ move g' k' s', JS.autoMove fuel random k g p ai = Ok (move, g', k') ∧
    JS.currentState g' = Ok s' ∧ JS.winner s' = p.
Proof.
  intros Hr Hodd Hn Hp Hs Hpieces Hfuel Hd Hrow Hs1 Hw.
  destruct (reachable_config g Hr) as (Hc & _).
  pose proof (tidy_shaped _ _ (current_Tidy g s Hr Hs)) as Hsh.
  assert (winsAt g s p c) as Hwin.
  { apply dropPiece_Ok in Hd as (s0 & s' & rest & Hst & Hdi & ->).
    unfold JS.currentState in Hs, Hs1. rewrite Hst in Hs. simpl in Hs1.
    injection Hs as ->. injection Hs1 as ->. by exists row, s1. }
  assert (0 ≤ c < JS._cols g) as Hcr.
  { destruct Hwin as (? & ? & _ & Hdi & _). by eapply dropInto_column. }
  destruct (tried_onto (JS._cols g) c Hc Hcr) as (j & Hj & Ej).
  unfold JS.autoMove. cbv zeta. rewrite Hs, bind_Ok_l.
  assert (JS.openingShortcut g s = Ok false) as ->.
  { unfold JS.openingShortcut. by destruct (Z.ltb_spec (JS.numberOfPieces s) 2); [lia|]. }
  rewrite bind_Ok_l. unfold forUpBreak.
  destruct (rootLoop_win fuel random p (0 `max` (default (JS._ai g) ai `min` 20)) g s
              Hr Hodd Hs Hp ltac:(unfold toPlay; lia)
              (Z.to_nat (JS._cols g - 0)) 0
              (JS.mkRoot g (-1) (num 0) (PrimFloat.opp MAX_VALUE) k))
    as (r & -> & Hg & Hbest); [lia|lia|done| |].
  { exists j. split; [lia|by rewrite Ej]. }
  rewrite bind_Ok_l, Hg.
  destruct (winsAt_makeMove g s p (JS.bestColumn r) Hr Hn Hp Hs Hbest)
    as (move & g' & s' & -> & Hs' & Hw').
  by exists move, g', (JS.draws r), s'.
Qed.

Lemma autoMove_takes_win_witness :
  reachable trio2 ∧ JS._cols trio2 mod 2 = 1 ∧ JS._connect trio2 ≤ 30 ∧ isPlayer 0 ∧
  JS.currentState trio2 = Ok (topOf trio2) ∧ 2 ≤ JS.numberOfPieces (topOf trio2) ∧
  JS._cols trio2 * JS._rows trio2 - JS.numberOfPieces (topOf trio2) ≤ Z.of_nat 4 ∧
  JS._dropPiece trio2 0 1 = Ok (0, trio3) ∧ 0 ≤ 0 ∧
  JS.currentState trio3 = Ok (topOf trio3) ∧ JS.winner (topOf trio3) = 0 ∧
  ∃ move g' k' s', JS.autoMove 4 (λ _, 0%Q) 0 trio2 0 None = Ok (move, g', k') ∧
    JS.currentState g' = Ok s' ∧ JS.winner s' = 0.
Proof.
  assert (reachable trio2) as Hr by apply reachable_trio2.
  assert (JS._cols trio2 mod 2 = 1) as Hodd by reflexivity.
  assert (JS._connect trio2 ≤ 30) as Hn by (simpl; lia).
  assert (isPlayer 0) as Hp by (by left).
  assert (JS.currentState trio2 = Ok (topOf trio2)) as Hs by reflexivity.
  assert (2 ≤ JS.numberOfPieces (topOf trio2)) as Hpc by (simpl; lia).
  assert (JS._cols trio2 * JS._rows trio2 - JS.numberOfPieces (topOf trio2) ≤ Z.of_nat 4)
    as Hf by (simpl; lia).
  assert (JS._dropPiece trio2 0 1 = Ok (0, trio3)) as Hd by (vm_compute; reflexivity).
  assert (0 ≤ 0) as H0 by lia.
  assert (JS.currentState trio3 = Ok (topOf trio3)) as Hs1 by reflexivity.
  assert (JS.winner (topOf trio3) = 0) as Hw by reflexivity.
  do 11 (split; [assumption|]).
  exact (autoMove_takes_win 4 (λ _, 0%Q) 0 trio2 (topOf trio2) 0 None 1 0 trio3 (topOf trio3)
           Hr Hodd Hn Hp Hs Hpc Hf Hd H0 Hs1 Hw).
Defined.

(** * The copy of a state *)

(** X19: in a store where every reference leads to an object and no object
    has two properties of one name, [_clone] of a value that can be read
    returns.  What it returns reads as the same value; if it is a
    reference, it and everything reached from it were allocated by the
    call; and the objects of the store it started from are unchanged, so
    the original still reads as before. *)
Theorem clone_is_deep_copy fuel v h t :
  WF h → Heap.readTree fuel h v = Some t →
  ∃ v' h', Heap._clone fuel v h = Ok (v', h') ∧
    Heap.readTree fuel h' v' = Some t ∧
    fresh (length h) v' ∧ Above (length h) h' ∧ keeps (length h) h h' ∧
    ∀ k, Heap.readTree k h' v = Heap.readTree k h v.
Proof.
  intros Hwf Hr.
  destruct (clone_copies fuel v h t Hwf Hr)
    as ([v' h'] & Hc & _ & _ & Hk & HA & Hf & _ & Hr').
  exists v', h'. do 5 (split; [done|]).
  intros k. apply readTree_keeps; [apply Hwf|done|by eapply readTree_inside].
Qed.

Lemma clone_is_deep_copy_witness :
  WF stored.2 ∧
  Heap.readTree 5 stored.2 (Heap.currentState stored.1)
    = Some (Heap.stateTree (topOf small1)) ∧
  ∃ v' h', Heap._clone 5 (Heap.currentState stored.1) stored.2 = Ok (v', h') ∧
    Heap.readTree 5 h' v' = Some (Heap.stateTree (topOf small1)) ∧
    fresh (length stored.2) v' ∧ Above (length stored.2) h' ∧
    keeps (length stored.2) stored.2 h' ∧
    ∀ k, Heap.readTree k h' (Heap.currentState stored.1)
         = Heap.readTree k stored.2 (Heap.currentState stored.1).
Proof.
  assert (WF stored.2) as Hwf
    by (split; [by apply closedb_Closed|by apply keysb_NoDupKeys]).
  assert (Heap.readTree 5 stored.2 (Heap.currentState stored.1)
          = Some (Heap.stateTree (topOf small1))) as Hr by (vm_compute; reflexivity).
  split; [exact Hwf|]. split; [exact Hr|].
  exact (clone_is_deep_copy 5 _ _ _ Hwf Hr).
Defined.

(** * The constructor *)

(** X23: for settings whose [cols], [rows] and [connect] (the defaults 7, 6
    and 4 where a key is missing) are at least 1, the constructor returns,
    also when [connect] exceeds both sides of the board.  The game has the
    map of [_setupMap] and the drop order of [_setupDropOrder], an [ai]
    between 0 and 20, and one state: an empty board, no winner, every
    potential 1 and both scores equal to the number of lines. *)
Theorem constructor_returns settings :
  validSettings settings →
  ∃ g m, JS.Connect4Game settings = Ok g ∧
    JS._cols g = JS.setting JS.cols settings ∧
    JS._rows g = JS.setting JS.rows settings ∧
    JS._connect g = JS.setting JS.connect settings ∧
    0 ≤ JS._ai g ≤ 20 ∧
    JS._winningPlaces g = JS._findWinningPlaces (JS._cols g) (JS._rows g) (JS._connect g) ∧
    JS._setupMap (JS._cols g) (JS._rows g) (JS._connect g) = Ok (m, JS._winningPlaces g) ∧
    JS._setupDropOrder (JS._cols g) = Ok (JS._dropOrder g) ∧
    JS._stateStack g =
      [JS.mkState 0 (-1) false false
         (replicate (Z.to_nat (JS._cols g)) (replicate (Z.to_nat (JS._rows g)) (-1)))
         [replicate (Z.to_nat (JS._winningPlaces g)) 1;
          replicate (Z.to_nat (JS._winningPlaces g)) 1]
         m [] [JS._winningPlaces g; JS._winningPlaces g]].
Proof.
  intros (Hc & Hr & Hn).
  destruct (setupMap_geo (JS.setting JS.cols settings) (JS.setting JS.rows settings)
              (JS.setting JS.connect settings)) as (m & Hmap & _); [lia..|].
  rewrite enumerated_closed_form in Hmap by done.
  pose proof (js_drop_order (JS.setting JS.cols settings) ltac:(lia)) as Ho.
  eexists _, m. unfold JS.Connect4Game. cbv zeta. rewrite Hmap, bind_Ok_l, Ho, bind_Ok_l.
  split; [reflexivity|]. simpl. do 3 (split; [done|]). split; [lia|]. by repeat split.
Qed.

Lemma constructor_returns_witness :
  validSettings trio ∧
  ∃ g m, JS.Connect4Game trio = Ok g ∧
    JS._cols g = JS.setting JS.cols trio ∧
    JS._rows g = JS.setting JS.rows trio ∧
    JS._connect g = JS.setting JS.connect trio ∧
    0 ≤ JS._ai g ≤ 20 ∧
    JS._winningPlaces g = JS._findWinningPlaces (JS._cols g) (JS._rows g) (JS._connect g) ∧
    JS._setupMap (JS._cols g) (JS._rows g) (JS._connect g) = Ok (m, JS._winningPlaces g) ∧
    JS._setupDropOrder (JS._cols g) = Ok (JS._dropOrder g) ∧
    JS._stateStack g =
      [JS.mkState 0 (-1) false false
         (replicate (Z.to_nat (JS._cols g)) (replicate (Z.to_nat (JS._rows g)) (-1)))
         [replicate (Z.to_nat (JS._winningPlaces g)) 1;
          replicate (Z.to_nat (JS._winningPlaces g)) 1]
         m [] [JS._winningPlaces g; JS._winningPlaces g]].
Proof.
  assert (validSettings trio) as Hv by (unfold validSettings, JS.setting; simpl; lia).
  split; [exact Hv|]. exact (constructor_returns trio Hv).
Defined.

(** * A move is always found *)

(** ** Doubles that are numbers *)

(** Neither NaN nor an infinity. *)
Definition finiteb (x : float) : bool :=
  negb (PrimFloat.is_nan x) && negb (PrimFloat.is_infinity x).

(** The same, read off the specification of the double. *)
Definition finiteSF (x : SpecFloat.spec_float) : Prop :=
  match x with
  | SpecFloat.S754_zero _ | SpecFloat.S754_finite _ _ _ => True
  | _ => False
  end.

Lemma finiteb_SF x : finiteb x = true → finiteSF (FloatOps.Prim2SF x).
Proof.
  unfold finiteb, FloatOps.Prim2SF. intros [Hn Hi]%andb_true_iff.
  apply negb_true_iff in Hn, Hi. rewrite Hn, Hi.
  destruct (PrimFloat.is_zero x); [done|].
  destruct (FloatOps.Z.frexp x) as [r exp].
  destruct (SpecFloat.shr_fexp _ _ _ _ _) as [shr e'].
  by destruct (SpecFloat.shr_m shr).
Qed.

Lemma SF_finiteb x : finiteSF (FloatOps.Prim2SF x) → finiteb x = true.
Proof.
  unfold finiteb, FloatOps.Prim2SF.
  destruct (PrimFloat.is_nan x); [done|].
  destruct (PrimFloat.is_zero x) eqn:Hz.
  - intros _. unfold PrimFloat.is_zero in Hz. unfold PrimFloat.is_infinity.
    rewrite FloatAxioms.eqb_spec in Hz. rewrite FloatAxioms.eqb_spec, FloatAxioms.abs_spec.
    change (FloatOps.Prim2SF zero) with (SpecFloat.S754_zero false) in Hz.
    change (FloatOps.Prim2SF infinity) with (SpecFloat.S754_infinity false).
    by destruct (FloatOps.Prim2SF x) as [[|]|[|]| |[|] m e].
  - by destruct (PrimFloat.is_infinity x).
Qed.

Lemma finiteb_opp x : finiteb x = true → finiteb (PrimFloat.opp x) = true.
Proof.
  intros H%finiteb_SF. apply SF_finiteb. rewrite FloatAxioms.opp_spec.
  by destruct (FloatOps.Prim2SF x).
Qed.

Lemma digits2_pos_bound m : Z.pos m < 2 ^ Z.pos (SpecFloat.digits2_pos m).
Proof.
  induction m as [m IH|m IH|]; simpl; [| |done].
  - rewrite Pos2Z.inj_succ, Z.pow_succ_r by lia. lia.
  - rewrite Pos2Z.inj_succ, Z.pow_succ_r by lia. lia.
Qed.

(** No double that is a number lies below [-Number.MAX_VALUE]. *)
Lemma finiteb_above x :
  finiteb x = true →
  PrimFloat.ltb (PrimFloat.opp MAX_VALUE) x = true ∨
  PrimFloat.eqb x (PrimFloat.opp MAX_VALUE) = true.
Proof.
  intros H%finiteb_SF.
  rewrite FloatAxioms.ltb_spec, FloatAxioms.eqb_spec.
  assert (FloatOps.Prim2SF (PrimFloat.opp MAX_VALUE)
          = SpecFloat.S754_finite true 9007199254740991 971) as -> by (vm_compute; reflexivity).
  pose proof (FloatAxioms.Prim2SF_valid x) as Hv.
  destruct (FloatOps.Prim2SF x) as [s|s| |s m e]; try done; [by left|].
  destruct s; [|by left].
  unfold SpecFloat.valid_binary, SpecFloat.bounded in Hv.
  apply andb_true_iff in Hv as [Hc He].
  unfold SpecFloat.canonical_mantissa, SpecFloat.fexp in Hc.
  apply Z.eqb_eq in Hc. apply Z.leb_le in He.
  assert (FloatOps.emax - FloatOps.prec = 971) as E1 by reflexivity.
  assert (FloatOps.prec = 53) as E2 by reflexivity.
  assert (SpecFloat.emin FloatOps.prec FloatOps.emax = -1074) as E3 by reflexivity.
  rewrite E1 in He. rewrite E3, E2 in Hc. clear E1 E2 E3 H.
  unfold SpecFloat.SFltb, SpecFloat.SFeqb, SpecFloat.SFcompare.
  destruct (Z.compare_spec 971 e) as [<-|Hlt|Hgt]; [|exfalso; clear Hc; lia|].
  -
    set (d := Z.pos (SpecFloat.digits2_pos m)) in *.
    assert (d = 53) as Hd by (clearbody d; lia).
    pose proof (digits2_pos_bound m) as Hm. fold d in Hm.
    rewrite Hd in Hm. clear Hc Hd He. clearbody d.
    assert (2 ^ 53 = 9007199254740992) as E by reflexivity. rewrite E in Hm. clear E.
    rewrite Z.compare_refl.
    pose proof (Pos.compare_spec 9007199254740991 m) as Hs.
    pose proof (Pos.compare_refl m) as Hrefl.
    unfold Pos.compare, PosDef.Pos.compare in Hs, Hrefl.
    destruct Hs as [E|Hlt|Hgt].
    + right. rewrite <- E in *. by rewrite Hrefl.
    + exfalso. lia.
    + by left.
  - by left.
Qed.

(** ** The values of a search *)

(** [f] holds of [z], [z + 1], ..., [n] values in all. *)
Fixpoint allFrom (n : nat) (f : Z → bool) (z : Z) : bool :=
  match n with
  | O => true
  | S n' => f z && allFrom n' f (z + 1)
  end.

Lemma allFrom_spec n f z k :
  allFrom n f z = true → z ≤ k < z + Z.of_nat n → f k = true.
Proof.
  revert z. induction n as [|n IH]; intros z H Hk; [lia|].
  simpl in H. apply andb_true_iff in H as [Hz Hn].
  destruct (decide (k = z)) as [->|]; [done|]. apply (IH (z + 1)); [done|lia].
Qed.

(** The largest depth and the largest score for which the values of the
    search have been computed. *)
Definition reach : Z := 65536.

Lemma winValue_finite depth : 0 ≤ depth ≤ reach → finiteb (JS.winValue depth) = true.
Proof.
  intros H.
  assert (allFrom (Z.to_nat 65537) (λ d, finiteb (JS.winValue d)) 0 = true) as Hall
    by (vm_compute; reflexivity).
  apply (allFrom_spec _ _ _ depth Hall). unfold reach in H. lia.
Qed.

Lemma num_finite z : - reach ≤ z ≤ reach → finiteb (num z) = true.
Proof.
  intros H.
  assert (allFrom (Z.to_nat 131073) (λ z, finiteb (num z)) (-65536) = true) as Hall
    by (vm_compute; reflexivity).
  apply (allFrom_spec _ _ _ z Hall). unfold reach in H. lia.
Qed.

(** ** The scores stay small *)

Lemma sumZ_bounds l B :
  (∀ v, v ∈ l → 0 ≤ v ≤ B) → 0 ≤ sumZ l ≤ Z.of_nat (length l) * B.
Proof.
  induction l as [|x l IH]; intros H; simpl; [lia|].
  pose proof (H x ltac:(by left)).
  assert (0 ≤ sumZ l ≤ Z.of_nat (length l) * B) by (apply IH; intros v Hv; apply H; by right).
  lia.
Qed.

Lemma bounded_sum n R arr :
  0 ≤ n → (∀ L, 0 ≤ R L) → bounded n R arr →
  0 ≤ sumZ arr ≤ Z.of_nat (length arr) * 2 ^ n.
Proof.
  intros Hn HR Hb. apply sumZ_bounds. intros v Hv.
  apply list_elem_of_lookup in Hv as [i Hi].
  destruct (Hb (Z.of_nat i) v) as [H0 H1].
  { apply get_Some. split; [lia|]. by rewrite Nat2Z.id. }
  split; [done|].
  assert (1 ≤ 2 ^ R (Z.of_nat i)).
  { pose proof (Z.pow_pos_nonneg 2 (R (Z.of_nat i))). specialize (HR (Z.of_nat i)). lia. }
  nia.
Qed.

Lemma scores_small g s :
  reachable g → JS._connect g ≤ 30 → JS.currentState g = Ok s →
  ∃ s0 s1, JS.score s = [s0; s1] ∧
    0 ≤ s0 ≤ JS._winningPlaces g * 2 ^ JS._connect g ∧
    0 ≤ s1 ≤ JS._winningPlaces g * 2 ^ JS._connect g.
Proof.
  intros Hr Hn Hs.
  destruct (reachable_config g Hr) as (_ & _ & Hcn & _).
  pose proof (reachable_scored g Hr Hn) as Hsc.
  pose proof (reachable_shaped g Hr) as Hsh.
  apply current_in_stack in Hs.
  rewrite Forall_forall in Hsc, Hsh.
  destruct (Hsc s Hs) as (a0 & a1 & Est & Escore & Hb0 & Hb1 & _).
  destruct (Hsh s Hs) as (_ & _ & _ & _ & b0 & b1 & t0 & t1 & Est' & _ & Hl0 & Hl1).
  rewrite Est in Est'. injection Est' as <- <-.
  exists (sumZ a0), (sumZ a1). split; [done|].
  pose proof (bounded_sum (JS._connect g) _ a0 ltac:(lia) (λ L, room_nonneg L _ _) Hb0) as H0.
  pose proof (bounded_sum (JS._connect g) _ a1 ltac:(lia) (λ L, room_nonneg L _ _) Hb1) as H1.
  rewrite Hl0 in H0. rewrite Hl1 in H1. done.
Qed.

Lemma goodnessOf_finite g s player v :
  reachable g → JS._connect g ≤ 30 → JS.currentState g = Ok s → isPlayer player →
  JS._winningPlaces g * 2 ^ JS._connect g ≤ reach →
  JS._goodnessOf g player = Ok v → finiteb v = true.
Proof.
  intros Hr Hn Hs Hp Hreach H.
  destruct (scores_small g s Hr Hn Hs) as (s0 & s1 & E & H0 & H1).
  unfold JS._goodnessOf in H. rewrite Hs, bind_Ok_l, E in H.
  destruct Hp as [-> | ->]; simpl in H; injection H as <-; apply num_finite; lia.
Qed.

(** ** The values [_evaluate] returns *)

(** What a push and a drop that returned have done. *)
Lemma push_drop_facts g s q c g1 row g2 :
  reachable g → JS.currentState g = Ok s → isPlayer q →
  JS._pushState g = Ok g1 → JS._dropPiece g1 q c = Ok (row, g2) →
  JS._popState g2 = g ∧ reachable g2 ∧
  JS._connect g2 = JS._connect g ∧ JS._winningPlaces g2 = JS._winningPlaces g ∧
  length (JS._stateStack g2) = S (length (JS._stateStack g)) ∧
  ∃ s2, JS.currentState g2 = Ok s2 ∧ JS.dropInto g q c s = Ok (row, s2) ∧
    (0 ≤ row → toPlay g2 s2 = toPlay g s - 1).
Proof.
  intros Hr Hs Hq Hpush Hd.
  destruct (push_drop_pop _ _ _ _ _ _ Hpush Hd) as (Hpop & s0 & s2 & Hs0 & Hdi & Hst).
  rewrite Hs in Hs0. injection Hs0 as <-.
  pose proof (dropInto_column g s q c row s2
                (tidy_shaped _ _ (current_Tidy g s Hr Hs)) Hdi) as Hc.
  destruct (push_drop_reachable g s q c Hr Hs Hq Hc)
    as (g1' & row' & g2' & s2' & Hpush' & Hd' & _ & Hr2 & Hs2 & _ & _ & _ & Hplay & _ & Hst2 & _).
  rewrite Hpush in Hpush'. injection Hpush' as <-.
  rewrite Hd in Hd'. injection Hd' as <- <-.
  split; [done|]. split; [done|].
  assert (JS._connect g2 = JS._connect g ∧ JS._winningPlaces g2 = JS._winningPlaces g)
    as [? ?].
  { apply dropPiece_Ok in Hd as (? & ? & ? & _ & _ & ->).
    unfold JS._pushState in Hpush. rewrite Hs in Hpush. by injection Hpush as <-. }
  do 2 (split; [done|]). split; [by rewrite Hst|].
  exists s2'. split; [done|]. split; [|done].
  unfold JS.currentState in Hs2. rewrite Hst in Hs2. by injection Hs2 as <-.
Qed.

Lemma evaluate_finite fuel :
  ∀ g s player level alpha beta v g',
    reachable g → JS._connect g ≤ 30 → isPlayer player → JS.currentState g = Ok s →
    Z.of_nat (length (JS._stateStack g)) + toPlay g s ≤ reach →
    JS._winningPlaces g * 2 ^ JS._connect g ≤ reach →
    JS._evaluate fuel g player level alpha beta = Ok (v, g') → finiteb v = true.
Proof.
  induction fuel as [|fuel IH];
    intros g s player level alpha beta v g' Hr Hn Hp Hs Hdepth Hscore H; [done|].
  pose proof (toPlay_nonneg g s Hr Hs) as Hplay.
  rewrite evaluate_S in H. cbv zeta in H. destruct (level =? _).
  - apply bind_Ok in H as (v' & Hv & H). injection H as <- _.
    by eapply goodnessOf_finite.
  - apply bind_Ok in H as ([[g0 best] maxab] & Hloop & H). injection H as <- _.
    unfold forUpBreak in Hloop.
    apply (loopBreak_inv (λ st, st.1.1 = g ∧ finiteb st.1.2 = true)) in Hloop;
      [apply finiteb_opp, Hloop| |done].
    clear Hloop. intros i [[g1 b1] m1] c [Hg Hb] Hbody. simpl in Hg, Hb. subst g1.
    fold (after c).
    split.
    { eapply evaluateBody_restores; [|exact Hbody].
      intros ? ? ? ? ? ?. apply evaluate_restores. }
    unfold evaluateBody in Hbody.
    apply bind_Ok in Hbody as (g1 & Hpush & Hbody).
    apply bind_Ok in Hbody as (column & Hcol & Hbody).
    apply bind_Ok in Hbody as ([row g2] & Hdrop & Hbody).
    destruct (push_drop_facts g s _ _ _ _ _ Hr Hs (isPlayer_other _ Hp) Hpush Hdrop)
      as (_ & Hr2 & Hn2 & Hw2 & Hlen & s2 & Hs2 & _ & Hplay2).
    destruct (Z.ltb_spec row 0); [by simplify_eq|].
    rewrite Hs2, bind_Ok_l in Hbody.
    apply bind_Ok in Hbody as ([goodness g3] & Hgood & Hbody).
    assert (finiteb goodness = true) as Hfin.
    { destruct (JS.winner s2 =? _).
      - injection Hgood as <- _. apply winValue_finite. lia.
      - apply (IH g2 s2 _ _ _ _ _ _ Hr2 ltac:(lia) (isPlayer_other _ Hp) Hs2) in Hgood;
          [done| |by rewrite Hw2, Hn2].
        rewrite Hlen, Hplay2 by lia. lia. }
    destruct (PrimFloat.ltb b1 goodness); destruct (PrimFloat.ltb beta _);
      by simplify_eq.
Qed.

Lemma pieces_nonneg g s :
  reachable g → JS.currentState g = Ok s → 0 ≤ JS.numberOfPieces s.
Proof.
  intros Hr Hs. pose proof (current_Tidy g s Hr Hs) as HT.
  pose proof (tidy_counted _ _ HT) as Hc. unfold counted in Hc.
  destruct (tidy_shaped _ _ HT) as (Hcols & Hrows & _).
  assert (empties (JS.board s) ≤ JS._cols g * JS._rows g); [|lia].
  unfold empties.
  pose proof (sumZ_fmap_le (λ col, sumZ ((λ b, if b =? -1 then 1 else 0) <$> col))
                (JS.board s) (JS._rows g)) as H.
  rewrite Hcols in H. apply H. intros col Hcol.
  apply list_elem_of_lookup in Hcol as [n Hn].
  rewrite <- (Hrows (Z.of_nat n) col) by (apply get_Some; split; [lia|by rewrite Nat2Z.id]).
  apply sumZ_fmap_bounds. intros b _. destruct (b =? -1); lia.
Qed.

(** X25: every value [_evaluate] returns is a number, neither NaN nor an
    infinity.  This is proved for reachable games with [connect] at most
    30 whose stack depth (with the cells still empty) and whose scores stay
    within 65536. *)
Theorem evaluate_value_is_number fuel g s player level alpha beta v g' :
  reachable g → JS._connect g ≤ 30 → isPlayer player → JS.currentState g = Ok s →
  Z.of_nat (length (JS._stateStack g))
    + (JS._cols g * JS._rows g - JS.numberOfPieces s) ≤ 65536 →
  JS._winningPlaces g * 2 ^ JS._connect g ≤ 65536 →
  JS._evaluate fuel g player level alpha beta = Ok (v, g') →
  PrimFloat.is_nan v = false ∧ PrimFloat.is_infinity v = false.
Proof.
  intros Hr Hn Hp Hs Hdepth Hscore H.
  apply (evaluate_finite fuel g s) in H; [|done..].
  unfold finiteb in H. apply andb_true_iff in H as [H1 H2].
  by apply negb_true_iff in H1, H2.
Qed.

Lemma evaluate_value_is_number_witness :
  reachable trio2 ∧ JS._connect trio2 ≤ 30 ∧ isPlayer 1 ∧
  JS.currentState trio2 = Ok (topOf trio2) ∧
  Z.of_nat (length (JS._stateStack trio2))
    + (JS._cols trio2 * JS._rows trio2 - JS.numberOfPieces (topOf trio2)) ≤ 65536 ∧
  JS._winningPlaces trio2 * 2 ^ JS._connect trio2 ≤ 65536 ∧
  JS._evaluate 3 trio2 1 3 (PrimFloat.opp MAX_VALUE) MAX_VALUE
    = Ok (PrimFloat.opp MAX_VALUE, trio2) ∧
  PrimFloat.is_nan (PrimFloat.opp MAX_VALUE) = false ∧
  PrimFloat.is_infinity (PrimFloat.opp MAX_VALUE) = false.
Proof.
  assert (reachable trio2) as Hr by apply reachable_trio2.
  assert (JS._connect trio2 ≤ 30) as Hn by (simpl; lia).
  assert (isPlayer 1) as Hp by (by right).
  assert (JS.currentState trio2 = Ok (topOf trio2)) as Hs by reflexivity.
  assert (Z.of_nat (length (JS._stateStack trio2))
          + (JS._cols trio2 * JS._rows trio2 - JS.numberOfPieces (topOf trio2)) ≤ 65536)
    as Hdepth by (simpl; lia).
  assert (JS._winningPlaces trio2 * 2 ^ JS._connect trio2 ≤ 65536)
    as Hscore by (simpl; lia).
  assert (JS._evaluate 3 trio2 1 3 (PrimFloat.opp MAX_VALUE) MAX_VALUE
          = Ok (PrimFloat.opp MAX_VALUE, trio2)) as H by (vm_compute; reflexivity).
  do 7 (split; [assumption|]).
  exact (evaluate_value_is_number 3 trio2 (topOf trio2) 1 3 _ _ _ _
           Hr Hn Hp Hs Hdepth Hscore H).
Defined.

(** ** The column the root loop keeps *)

Section RootLoop.
Variables (fuel : nat) (random : nat → Q) (p ai : Z) (g : JS.Game) (s : JS.State).
Hypothesis Hr : reachable g.
Hypothesis Hn : JS._connect g ≤ 30.
Hypothesis Hp : isPlayer p.
Hypothesis Hs : JS.currentState g = Ok s.
Hypothesis Hdepth : Z.of_nat (length (JS._stateStack g)) + JS._cols g * JS._rows g ≤ reach.
Hypothesis Hscore : JS._winningPlaces g * 2 ^ JS._connect g ≤ reach.

(** As long as no column is kept, the best value is the initial one. *)
Definition unset (r : JS.Root) : Prop :=
  JS.this r = g ∧ (JS.bestColumn r = -1 → JS.bestWorst r = PrimFloat.opp MAX_VALUE).

(** The candidate becomes the column kept; it is a column of the board. *)
Ltac kept :=
  split; [split; [done|intros E; simpl in E; exfalso; lia]|]; split; intros; lia.

Lemma rootBody_keeps i r c :
  unset r → JS.rootBody fuel random p ai i r = Ok c →
  unset (after c) ∧
  (JS.bestColumn r ≠ -1 → JS.bestColumn (after c) ≠ -1) ∧
  (∀ column, JS.dropColumn g i = Ok column → lands g s p column →
     JS.bestColumn (after c) ≠ -1).
Proof.
  intros [Hg Hu] H. unfold JS.rootBody in H. rewrite Hg in H.
  apply bind_Ok in H as (g1 & Hpush & H).
  apply bind_Ok in H as (column & Hcol & H).
  apply bind_Ok in H as ([row g2] & Hdrop & H).
  destruct (push_drop_facts g s _ _ _ _ _ Hr Hs Hp Hpush Hdrop)
    as (Hpop & Hr2 & Hn2 & Hw2 & Hlen & s2 & Hs2 & Hdi & Hplay2).
  assert (JS.dropColumn g i = Ok column) as Hcol'.
  { rewrite <- Hcol. unfold JS._pushState in Hpush. rewrite Hs in Hpush.
    by injection Hpush as <-. }
  pose proof (dropInto_column g s p column row s2
                (tidy_shaped _ _ (current_Tidy g s Hr Hs)) Hdi) as Hrange.
  destruct (Z.ltb_spec row 0).
  { injection H as <-. simpl. rewrite Hpop. split; [done|]. split; [done|].
    intros column' Hc' (row' & s' & Hrow' & Hdi'). rewrite Hcol' in Hc'.
    injection Hc' as <-. rewrite Hdi in Hdi'. injection Hdi' as <- _. lia. }
  rewrite Hs2, bind_Ok_l in H.
  destruct (JS.winner s2 =? p).
  { injection H as <-. simpl. rewrite Hpop. kept. }
  apply bind_Ok in H as ([v g3] & Hev & H).
  pose proof (evaluate_restores _ _ _ _ _ _ _ _ Hev) as ->.
  pose proof (toPlay_nonneg g s Hr Hs) as Hplay.
  assert (finiteb v = true) as Hfin.
  { apply (evaluate_finite _ g2 s2 _ _ _ _ _ _ Hr2 ltac:(lia) Hp Hs2) in Hev; [done| |].
    - rewrite Hlen, Hplay2 by lia. unfold toPlay in *.
      pose proof (pieces_nonneg g s Hr Hs). lia.
    - by rewrite Hw2, Hn2. }
  unfold JS.rootCompare in H.
  destruct (PrimFloat.ltb (JS.bestWorst r) v) eqn:Hlt.
  { injection H as <-. simpl. rewrite Hpop. kept. }
  destruct (PrimFloat.eqb v (JS.bestWorst r)) eqn:Heq.
  - destruct (Z.eqb_spec (JS.bestColumn r) (-1)) as [Hb|Hb].
    { injection H as <-. simpl. rewrite Hpop. kept. }
    destruct (JS.coin _); injection H as <-; simpl; rewrite Hpop.
    + kept.
    + split; [done|]. split; done.
  - destruct (Z.eqb_spec (JS.bestColumn r) (-1)) as [Hb|Hb].
    { exfalso. rewrite (Hu Hb) in Hlt, Heq.
      destruct (finiteb_above v Hfin); congruence. }
    injection H as <-. simpl. rewrite Hpop. split; [done|]. split; done.
Qed.

Lemma rootLoop_keeps n :
  ∀ i r r', unset r → loopBreak n i (JS.rootBody fuel random p ai) r = Ok r' →
    (JS.bestColumn r ≠ -1 ∨
     ∃ j column, i ≤ j < i + Z.of_nat n ∧ JS.dropColumn g j = Ok column ∧
       lands g s p column) →
    JS.bestColumn r' ≠ -1.
Proof.
  induction n as [|n IH]; intros i r r' Hu Hloop Hcase.
  { simpl in Hloop. injection Hloop as <-. destruct Hcase as [?|(j & ? & ? & _)]; [done|lia]. }
  cbn [loopBreak] in Hloop. apply bind_Ok in Hloop as (c & Hbody & Hloop).
  destruct (rootBody_keeps i r c Hu Hbody) as (Hu' & Hkeep & Hland).
  assert (JS.bestColumn (after c) ≠ -1 ∨
          ∃ j column, i + 1 ≤ j < i + 1 + Z.of_nat n ∧ JS.dropColumn g j = Ok column ∧
            lands g s p column) as Hcase'.
  { destruct Hcase as [?|(j & column & Hj & Hc & Hl)]; [left; by apply Hkeep|].
    destruct (decide (j = i)) as [->|]; [left; by eapply Hland|].
    right. exists j, column. split; [lia|done]. }
  destruct c as [r1|r1]; simpl in *.
  - by apply (IH (i + 1) r1 r').
  - injection Hloop as <-. destruct Hcase' as [?|(j & column & Hj & Hc & Hl)]; [done|].
    (* the loop was left on a winning drop *)
    unfold JS.rootBody in Hbody. destruct Hu as [Hg _]. rewrite Hg in Hbody.
    apply bind_Ok in Hbody as (g1 & Hpush & Hbody).
    apply bind_Ok in Hbody as (column' & Hcol & Hbody).
    apply bind_Ok in Hbody as ([row g2] & Hdrop & Hbody).
    destruct (push_drop_facts g s _ _ _ _ _ Hr Hs Hp Hpush Hdrop)
      as (_ & _ & _ & _ & _ & s2 & Hs2 & Hdi & _).
    pose proof (dropInto_column g s p column' row s2
                  (tidy_shaped _ _ (current_Tidy g s Hr Hs)) Hdi) as Hrange.
    destruct (row <? 0); [done|]. rewrite Hs2, bind_Ok_l in Hbody.
    destruct (JS.winner s2 =? p); [injection Hbody as <-; simpl; lia|].
    apply bind_Ok in Hbody as ([v g3] & _ & Hbody).
    by destruct (JS.rootCompare _ _ _ _ _ _) as [[? ?] ?].
Qed.

End RootLoop.

(** ** The root loop returns *)

Lemma rootLoop_returns fuel random p ai g s :
  reachable g → JS._cols g mod 2 = 1 → JS.currentState g = Ok s → isPlayer p →
  toPlay g s ≤ Z.of_nat fuel →
  ∀ n i r, 0 ≤ i → i + Z.of_nat n ≤ JS._cols g → JS.this r = g →
    ∃ r', loopBreak n i (JS.rootBody fuel random p ai) r = Ok r'.
Proof.
  intros Hr Hodd Hs Hp Hfuel n i r Hi Hn Hg.
  destruct (loopBreak_returns (λ r, JS.this r = g) (JS.rootBody fuel random p ai) n i r)
    as (r' & E & _); [|done|by exists r'].
  intros j r1 Hj Hg1.
  assert (0 ≤ j < JS._cols g) as Hj' by lia.
  destruct (dropColumn_odd g j Hr Hodd Hj') as [Hcol Hrange].
  destruct (push_drop_reachable g s p _ Hr Hs Hp Hrange)
    as (g1 & row & g2 & s2 & Hpush & Hd & Hpop & Hr2 & Hs2 & Hc2 & _ & Hdi & Hplay & _ & _ & Ho).
  assert (JS.dropColumn g1 j = Ok (tried (JS._cols g) j)) as Hcol1.
  { rewrite <- Hcol. unfold JS.dropColumn. by rewrite Ho. }
  unfold JS.rootBody. rewrite Hg1, Hpush, bind_Ok_l, Hcol1, bind_Ok_l, Hd, bind_Ok_l.
  cbv beta iota. destruct (Z.ltb_spec row 0); [by eexists|].
  rewrite Hs2, bind_Ok_l. destruct (JS.winner s2 =? p); [by eexists|].
  destruct (evaluate_returns_fuel fuel g2 s2 p ai (PrimFloat.opp MAX_VALUE)
              (PrimFloat.opp (JS.bestWorst r1)) Hr2) as (v & ->);
    [by rewrite Hc2|done|done|rewrite Hplay by lia; lia|].
  rewrite bind_Ok_l. cbv beta iota.
  destruct (JS.rootCompare _ _ _ _ _ _) as [[bw bc] k]. by eexists.
Qed.

(** ** A board that is not full *)

Lemma sumZ_fmap_pos {A} (f : A → Z) l :
  0 < sumZ (f <$> l) → ∃ x, x ∈ l ∧ 0 < f x.
Proof.
  induction l as [|x l IH]; csimpl; [lia|]. intros H.
  destruct (Z_lt_le_dec 0 (f x)); [exists x; split; [by left|done]|].
  destruct IH as (y & Hy & Hf); [lia|]. exists y. split; [by right|done].
Qed.

Lemma some_column_lands g s p :
  reachable g → JS.currentState g = Ok s → isPlayer p →
  JS.numberOfPieces s < JS._cols g * JS._rows g →
  ∃ c, 0 ≤ c < JS._cols g ∧ lands g s p c.
Proof.
  intros Hr Hs Hp Hroom.
  pose proof (reachable_config g Hr) as Hcfg.
  pose proof (current_Tidy g s Hr Hs) as HT.
  pose proof (tidy_counted _ _ HT) as Hc. unfold counted in Hc.
  destruct (tidy_shaped _ _ HT) as (Hcols & Hrows & _).
  destruct (sumZ_fmap_pos (λ col, sumZ ((λ b, if b =? -1 then 1 else 0) <$> col))
              (JS.board s)) as (col & Hcol & Hpos); [unfold empties in Hc; lia|].
  destruct (sumZ_fmap_pos _ _ Hpos) as (b & Hb & Hb').
  destruct (Z.eqb_spec b (-1)) as [->|]; [|lia].
  apply list_elem_of_lookup in Hcol as [x Hx].
  apply list_elem_of_lookup in Hb as [y Hy].
  assert (get (JS.board s) (Z.of_nat x) = Some col) as Hgx
    by (apply get_Some; split; [lia|by rewrite Nat2Z.id]).
  assert (get col (Z.of_nat y) = Some (-1)) as Hgy
    by (apply get_Some; split; [lia|by rewrite Nat2Z.id]).
  pose proof (get_Some_lt _ _ _ Hgx) as Hxl. pose proof (get_Some_lt _ _ _ Hgy) as Hyl.
  rewrite (Hrows _ _ Hgx) in Hyl.
  exists (Z.of_nat x). split; [lia|].
  destruct (dropInto_total g Hcfg p Hp (Z.of_nat x) s (tidy_shaped _ _ HT) ltac:(lia))
    as (row & s' & Hd & Hrow & _).
  exists row, s'. split; [|done].
  destruct (Z_lt_le_dec row 0) as [Hneg|]; [exfalso|done].
  destruct (dropInto_refused g s p _ row s' Hcfg Hd Hneg) as (col' & Hcol' & Hfull).
  rewrite Hgx in Hcol'. injection Hcol' as <-. by apply (Hfull (Z.of_nat y)).
Qed.

(** X24: in a reachable game with an odd number of columns whose board is
    not full, [autoMove] returns a move: the value [_evaluate] gives a
    candidate is a number, never NaN or an infinity, so at least the first
    column with room is kept.  This is proved with [connect] at most 30,
    for a recursion depth of the number of empty cells, and for games
    whose stack depth and scores stay within 65536. *)
Theorem autoMove_returns fuel random k g s p ai :
  reachable g → JS._cols g mod 2 = 1 → JS._connect g ≤ 30 → isPlayer p →
  JS.currentState g = Ok s →
  JS.numberOfPieces s < JS._cols g * JS._rows g →
  JS._cols g * JS._rows g - JS.numberOfPieces s ≤ Z.of_nat fuel →
  Z.of_nat (length (JS._stateStack g)) + JS._cols g * JS._rows g ≤ 65536 →
  JS._winningPlaces g * 2 ^ JS._connect g ≤ 65536 →
  ∃ move g' k', JS.autoMove fuel random k g p ai = Ok (move, g', k').
Proof.
  intros Hr Hodd Hn Hp Hs Hroom Hfuel Hdepth Hscore.
  destruct (reachable_config g Hr) as (Hc & _).
  unfold JS.autoMove. cbv zeta. rewrite Hs, bind_Ok_l.
  destruct (JS.openingShortcut g s) as [[|]|e] eqn:Hsc.
  - rewrite bind_Ok_l.
    assert (JS._cols g = 7) as H7.
    { unfold JS.openingShortcut in Hsc.
      destruct (Z.eqb_spec (JS._cols g) 7); [done|]. by rewrite !andb_false_r in Hsc. }
    destruct (makeMove_total g p 3 Hr Hn Hp ltac:(lia)) as (row & g1 & g' & _ & _ & -> & _).
    by eexists _, _, _.
  - rewrite bind_Ok_l. unfold forUpBreak.
    set (r0 := JS.mkRoot g (-1) (num 0) (PrimFloat.opp MAX_VALUE) k).
    destruct (rootLoop_returns fuel random p (0 `max` (default (JS._ai g) ai `min` 20)) g s
                Hr Hodd Hs Hp ltac:(unfold toPlay; lia) (Z.to_nat (JS._cols g - 0)) 0 r0)
      as (r & Hloop); [lia|lia|done|].
    rewrite Hloop, bind_Ok_l.
    destruct (rootLoop_restores _ _ _ _ g _ _ r0 r eq_refl (or_introl eq_refl) Hloop)
      as [Hg Hbest].
    destruct (some_column_lands g s p Hr Hs Hp Hroom) as (c & Hcr & Hland).
    destruct (tried_onto (JS._cols g) c Hc Hcr) as (j & Hj & Ej).
    assert (JS.bestColumn r ≠ -1) as Hne.
    { apply (rootLoop_keeps fuel random p (0 `max` (default (JS._ai g) ai `min` 20)) g s
               Hr Hn Hp Hs Hdepth Hscore
               (Z.to_nat (JS._cols g - 0)) 0 r0 r);
        [by split|done|].
      right. exists j, c. split; [lia|]. split; [|done].
      rewrite <- Ej. by apply dropColumn_odd. }
    destruct Hbest as [?|(s0 & Hs0 & Hland')]; [done|].
    rewrite Hs in Hs0. injection Hs0 as <-.
    destruct Hland' as (row & s' & _ & Hd).
    pose proof (dropInto_column g s p _ row s'
                  (tidy_shaped _ _ (current_Tidy g s Hr Hs)) Hd) as Hrange.
    rewrite Hg.
    destruct (makeMove_total g p (JS.bestColumn r) Hr Hn Hp Hrange)
      as (row' & g1 & g' & _ & _ & -> & _).
    by eexists _, _, _.
  - exfalso. unfold JS.openingShortcut in Hsc.
    destruct (Z.eqb_spec (JS._cols g) 7) as [H7|]; [|by rewrite !andb_false_r in Hsc].
    destruct (_ && _); [|done].
    destruct (JS.numberOfPieces s =? 0); [done|].
    destruct (tidy_shaped _ _ (current_Tidy g s Hr Hs)) as (Hcols & _).
    destruct (get_lt (JS.board s) 3) as [col Hcol]; [lia|].
    unfold deref in Hsc. rewrite Hcol in Hsc. done.
Qed.

Lemma autoMove_returns_witness :
  reachable centre2 ∧ JS._cols centre2 mod 2 = 1 ∧ JS._connect centre2 ≤ 30 ∧ isPlayer 0 ∧
  JS.currentState centre2 = Ok (topOf centre2) ∧
  JS.numberOfPieces (topOf centre2) < JS._cols centre2 * JS._rows centre2 ∧
  JS._cols centre2 * JS._rows centre2 - JS.numberOfPieces (topOf centre2) ≤ Z.of_nat 40 ∧
  Z.of_nat (length (JS._stateStack centre2)) + JS._cols centre2 * JS._rows centre2 ≤ 65536 ∧
  JS._winningPlaces centre2 * 2 ^ JS._connect centre2 ≤ 65536 ∧
  ∃ move g' k', JS.autoMove 40 (λ _, 0%Q) 0 centre2 0 None = Ok (move, g', k').
Proof.
  assert (reachable centre2) as Hr by apply reachable_centre2.
  assert (JS._cols centre2 mod 2 = 1) as Hodd by reflexivity.
  assert (JS._connect centre2 ≤ 30) as Hn by (simpl; lia).
  assert (isPlayer 0) as Hp by (by left).
  assert (JS.currentState centre2 = Ok (topOf centre2)) as Hs by reflexivity.
  assert (JS.numberOfPieces (topOf centre2) < JS._cols centre2 * JS._rows centre2)
    as Hroom by (simpl; lia).
  assert (JS._cols centre2 * JS._rows centre2 - JS.numberOfPieces (topOf centre2)
          ≤ Z.of_nat 40) as Hfuel by (simpl; lia).
  assert (Z.of_nat (length (JS._stateStack centre2)) + JS._cols centre2 * JS._rows centre2
          ≤ 65536) as Hdepth by (simpl; lia).
  assert (JS._winningPlaces centre2 * 2 ^ JS._connect centre2 ≤ 65536)
    as Hscore by (simpl; lia).
  do 9 (split; [assumption|]).
  exact (autoMove_returns 40 (λ _, 0%Q) 0 centre2 (topOf centre2) 0 None
           Hr Hodd Hn Hp Hs Hroom Hfuel Hdepth Hscore).
Defined.

(** * The drop orders, by example *)

Lemma c4_drop_order_permutation_witness : 1 ≤ 7 ∧ C4.drop_order 7 ≡ₚ seqZ 0 7.
Proof. split; [lia|]. apply (c4_drop_order_permutation 7). lia. Defined.

Lemma js_drop_order_odd_witness :
  1 ≤ 7 ∧ 7 mod 2 = 1 ∧
  ∃ order, JS._setupDropOrder 7 = Ok order ∧ index <$> order = Some <$> C4.drop_order 7.
Proof.
  split; [lia|]. split; [reflexivity|]. apply (js_drop_order_odd 7); [lia|reflexivity].
Defined.

Lemma js_drop_order_even_witness :
  1 ≤ 6 ∧ 6 mod 2 = 0 ∧
  ∃ order, JS._setupDropOrder 6 = Ok order ∧ Z.of_nat (length order) = 6 ∧
           Forall (λ q, index q = None) order.
Proof.
  split; [lia|]. split; [reflexivity|]. apply (js_drop_order_even 6); [lia|reflexivity].
Defined.
